(** * nccheck: normalization-confluence verifier

    A shallow embedding of the verification engine (packages [registry],
    [expr], [verify] and the pipeline of [main]) together with the
    properties established for it.

    Conventions of the embedding.
    - Go's [int] is a 64-bit two's-complement integer: values are kept in
      [Z] and every arithmetic result is passed through [wrap].
    - Slices are lists; an index outside a slice is a run-time panic and
      is reported as [Err Panic].
    - Functions returning [(T, error)] return [res T].
    - Go maps are [gmap]s.  Where the source ranges over a map the model
      ranges over [map_to_list]; the source's iteration order is not
      specified, and every successful result below is independent of it.
    - [fmtState] only renders a state as text; error values and reports
      carry the state itself. *)

From Stdlib Require Import ZArith String Ascii Lia Bool.
From stdpp Require Import base option list gmap strings.
Set Warnings "-register-all".
Local Open Scope Z_scope.

(** ** Machine integers *)

Definition wrap (z : Z) : Z := (z + 2 ^ 63) mod 2 ^ 64 - 2 ^ 63.

Definition MinInt : Z := - 2 ^ 63.
Definition MaxInt : Z := 2 ^ 63 - 1.

(** ** registry/types.go *)

Inductive VarType : Type := TypeBool | TypeEnum | TypeInt.

Definition VarType_eqb (a b : VarType) : bool :=
  match a, b with
  | TypeBool, TypeBool | TypeEnum, TypeEnum | TypeInt, TypeInt => true
  | _, _ => false
  end.

Record VarDef : Type := mkVarDef {
  vd_Name : string;
  vd_Type : VarType;
  vd_Values : list string;
  vd_Min : Z;
  vd_Max : Z;
  vd_Size : Z
}.

Record Invariant : Type := mkInvariant {
  inv_Name : string;
  inv_Expr : string
}.

Record Repair : Type := mkRepair {
  rep_Invariant : string;
  rep_Assignments : gmap string string
}.

Record Event : Type := mkEvent {
  evt_Name : string;
  evt_Guard : string;
  evt_Assignments : gmap string string
}.

(** The [Initial] field of the source is stored by the loader and never
    read by the engine; it is left out. *)
Record Registry : Type := mkRegistry {
  reg_Name : string;
  reg_Vars : list VarDef;
  reg_Invariants : list Invariant;
  reg_Compensation : list Repair;
  reg_Events : list Event
}.

(** [State] is a slice of encoded values, [StateID] an integer. *)
Abbreviation State := (list Z) (only parsing).
Abbreviation StateID := Z (only parsing).

Record Schema : Type := mkSchema {
  sch_Vars : list VarDef;
  sch_Strides : list Z;
  sch_TotalLen : Z
}.

(** ** Errors and the result monad *)

Inductive error : Type :=
  (* expr/lexer.go *)
  | ErrUnexpectedChar (ch : ascii) (pos : Z)
  (* expr/parser.go *)
  | ErrUnexpectedToken (val : string) (pos : Z)
  | ErrExpected (tt : Z) (val : string) (pos : Z)
  | ErrExpectedThen
  | ErrExpectedElse
  | ErrExpectedRParen
  | ErrExpectedRParenCall (name : string)
  | ErrInvalidInteger (val : string)
  | ErrArity (name : string) (want got : nat)
  (* expr/eval.go *)
  | ErrEnumVarConflict (lit : string)
  | ErrEnumDuplicate (lit : string)
  | ErrUndefinedIdent (name : string)
  | ErrOperandType (what : string)
  | ErrDivZero
  | ErrModZero
  | ErrUnknownFunction (name : string)
  | ErrExpectedBool
  (* verify: Compile *)
  | ErrStateSpaceTooLarge (total limit : Z)
  | ErrInvariant (name : string) (e : error)
  | ErrRepairUnknownVar (inv var : string)
  | ErrRepairExpr (inv var : string) (e : error)
  | ErrEventGuard (evt : string) (e : error)
  | ErrEventUnknownVar (evt var : string)
  | ErrEventExpr (evt var : string) (e : error)
  (* verify: BuildTables and helpers *)
  | ErrValidityAt (st : State) (e : error)
  | ErrNormalFormAt (st : State) (e : error)
  | ErrGuardAt (evt : string) (st : State) (e : error)
  | ErrEventAt (evt : string) (st : State) (e : error)
  | ErrAssignType (var : string)
  | ErrAssignEnumRange (var : string) (val size : Z)
  | ErrAssignIntRange (var : string) (val lo hi : Z) (st : State)
  | ErrNoRepair (inv : string)
  | ErrNotTerminated (limit : Z) (st : State)
  | ErrRepairDepth
  (* a Go run-time panic (index out of range, division by zero, ...) *)
  | Panic
  (* the recursion budget of the lexer and parser models ran out *)
  | OutOfFuel.

Inductive res (A : Type) : Type :=
  | Ok (a : A)
  | Err (e : error).
Arguments Ok {A} a.
Arguments Err {A} e.

#[global] Instance res_ret : MRet res := fun A a => Ok a.
#[global] Instance res_bind : MBind res := fun A B f m =>
  match m with
  | Ok a => f a
  | Err e => Err e
  end.

Definition is_Ok {A} (r : res A) : bool :=
  match r with Ok _ => true | Err _ => false end.

(** [fmt.Errorf("...: %w", err)]: wrap the error of a failed call. *)
Definition wrap_err {A} (ctx : error -> error) (r : res A) : res A :=
  match r with
  | Ok a => Ok a
  | Err Panic => Err Panic (* a panic is not an error value *)
  | Err e => Err (ctx e)
  end.

(** [l[i]] for an [int] index. *)
Definition elemZ {A} (l : list A) (i : Z) : res A :=
  if i <? 0 then Err Panic
  else match l !! Z.to_nat i with
       | Some x => Ok x
       | None => Err Panic
       end.

(** [l[i]] for a loop counter. *)
Definition elem {A} (l : list A) (i : nat) : res A :=
  match l !! i with
  | Some x => Ok x
  | None => Err Panic
  end.

(** [l[i] = x] for an [int] index. *)
Definition storeZ {A} (l : list A) (i : Z) (x : A) : res (list A) :=
  if (i <? 0) || (Z.of_nat (length l) <=? i) then Err Panic
  else Ok (<[Z.to_nat i := x]> l).

(** [for i := 0; i < n; i++ { t[i], err = f(i); if err != nil { return err } }]
    over a freshly made slice [t] of length [n]. *)
Fixpoint tabulate_from {A} (f : Z -> res A) (i : Z) (count : nat) : res (list A) :=
  match count with
  | O => Ok []
  | S count' =>
      x ← f i;
      rest ← tabulate_from f (i + 1) count';
      Ok (x :: rest)
  end.

Definition tabulate {A} (n : Z) (f : Z -> res A) : res (list A) :=
  if n <? 0 then Err Panic (* make([]T, n) with n < 0 *)
  else tabulate_from f 0 (Z.to_nat n).

(** [for i, x := range l { y, err := f(i, x); if err != nil { return err };
    out = append(out, y) }] *)
Fixpoint mapM_from {A B} (f : nat -> A -> res B) (i : nat) (l : list A) : res (list B) :=
  match l with
  | [] => Ok []
  | x :: l' =>
      y ← f i x;
      rest ← mapM_from f (S i) l';
      Ok (y :: rest)
  end.

Definition mapM {A B} (f : A -> res B) (l : list A) : res (list B) :=
  mapM_from (fun _ => f) 0 l.

(** ** Schema and state codec (registry/types.go) *)

(** The loop of [NewSchema] runs from the last variable to the first:
    the stride of a variable is the running product of the sizes to its
    right. The pair is (Strides, TotalLen). *)
Fixpoint NewSchema_loop (vars : list VarDef) : list Z * Z :=
  match vars with
  | [] => ([], 1)
  | v :: rest =>
      let '(strides, total) := NewSchema_loop rest in
      (total :: strides, wrap (total * vd_Size v))
  end.

Definition NewSchema (vars : list VarDef) : Schema :=
  let '(strides, total) := NewSchema_loop vars in
  {| sch_Vars := vars; sch_Strides := strides; sch_TotalLen := total |}.

Fixpoint Encode_loop (s : Schema) (i : nat) (st : State) (id : Z) : res StateID :=
  match st with
  | [] => Ok id
  | v :: st' =>
      vd ← elem (sch_Vars s) i;
      stride ← elem (sch_Strides s) i;
      let val := if VarType_eqb (vd_Type vd) TypeInt
                 then wrap (v - vd_Min vd) else v in
      Encode_loop s (S i) st' (wrap (id + wrap (val * stride)))
  end.

Definition Encode (s : Schema) (st : State) : res StateID :=
  Encode_loop s 0 st 0.

Fixpoint Decode_loop (s : Schema) (i : nat) (vars : list VarDef) (rem : Z) : res State :=
  match vars with
  | [] => Ok []
  | vd :: vars' =>
      stride ← elem (sch_Strides s) i;
      if stride =? 0 then Err Panic (* integer divide by zero *)
      else
        let q := wrap (Z.quot rem stride) in
        let rem' := Z.rem rem stride in
        let x := if VarType_eqb (vd_Type vd) TypeInt
                 then wrap (q + vd_Min vd) else q in
        rest ← Decode_loop s (S i) vars' rem';
        Ok (x :: rest)
  end.

Definition Decode (s : Schema) (id : StateID) : res State :=
  Decode_loop s 0 (sch_Vars s) id.

Fixpoint VarIndex_loop (vars : list VarDef) (i : Z) (name : string) : Z :=
  match vars with
  | [] => -1
  | v :: rest =>
      if String.eqb (vd_Name v) name then i
      else VarIndex_loop rest (i + 1) name
  end.

Definition VarIndex (s : Schema) (name : string) : Z :=
  VarIndex_loop (sch_Vars s) 0 name.

(** ** Lexer (expr/lexer.go) *)

Inductive TokenType : Type :=
  | TokEOF | TokInt | TokIdent | TokTrue | TokFalse | TokNot | TokAnd | TokOr
  | TokIf | TokThen | TokElse
  | TokEq | TokNeq | TokLt | TokLe | TokGt | TokGe
  | TokPlus | TokMinus | TokStar | TokSlash | TokPercent
  | TokLParen | TokRParen | TokComma.

(** The [iota] value of a token type (printed by [expect]). *)
Definition TokenType_code (tt : TokenType) : Z :=
  match tt with
  | TokEOF => 0 | TokInt => 1 | TokIdent => 2 | TokTrue => 3 | TokFalse => 4
  | TokNot => 5 | TokAnd => 6 | TokOr => 7 | TokIf => 8 | TokThen => 9
  | TokElse => 10 | TokEq => 11 | TokNeq => 12 | TokLt => 13 | TokLe => 14
  | TokGt => 15 | TokGe => 16 | TokPlus => 17 | TokMinus => 18 | TokStar => 19
  | TokSlash => 20 | TokPercent => 21 | TokLParen => 22 | TokRParen => 23
  | TokComma => 24
  end.

Definition TokenType_eqb (a b : TokenType) : bool :=
  TokenType_code a =? TokenType_code b.

Record Token : Type := mkToken {
  tok_Type : TokenType;
  tok_Val : string;
  tok_Pos : Z
}.

Definition keywords : gmap string TokenType :=
  list_to_map
    [("true", TokTrue); ("false", TokFalse); ("not", TokNot); ("and", TokAnd);
     ("or", TokOr); ("if", TokIf); ("then", TokThen); ("else", TokElse)].

Definition code (ch : ascii) : Z := Z.of_N (N_of_ascii ch).

(** [unicode.IsSpace], [unicode.IsDigit] and [unicode.IsLetter] of the Go
    standard library, on the runes [rune(input[i])] the lexer passes: a
    single byte, that is a code point of Latin-1. *)
Definition IsSpace (ch : ascii) : bool :=
  let c := code ch in
  ((9 <=? c) && (c <=? 13)) || (c =? 32) || (c =? 133) || (c =? 160).

Definition IsDigit (ch : ascii) : bool :=
  let c := code ch in (48 <=? c) && (c <=? 57).

Definition IsLetter (ch : ascii) : bool :=
  let c := code ch in
  ((65 <=? c) && (c <=? 90)) || ((97 <=? c) && (c <=? 122))
  || (c =? 170) || (c =? 181) || (c =? 186)
  || ((192 <=? c) && (c <=? 214)) || ((216 <=? c) && (c <=? 246))
  || ((248 <=? c) && (c <=? 255)).

Definition is_underscore (ch : ascii) : bool := code ch =? 95.

(** [for i < len(input) && p(input[i]) { i++ }], started with [rest] the
    bytes from position [i] on. *)
Fixpoint scan_while (p : ascii -> bool) (rest : list ascii) (i : nat) : nat :=
  match rest with
  | [] => i
  | c :: rest' => if p c then scan_while p rest' (S i) else i
  end.

(** [input[start:stop]] *)
Definition slice (input : list ascii) (start stop : nat) : string :=
  string_of_list_ascii (take (stop - start) (drop start input)).

Definition single_char_token (ch : ascii) : option TokenType :=
  let c := code ch in
  if c =? 60 then Some TokLt
  else if c =? 62 then Some TokGt
  else if c =? 43 then Some TokPlus
  else if c =? 45 then Some TokMinus
  else if c =? 42 then Some TokStar
  else if c =? 47 then Some TokSlash
  else if c =? 37 then Some TokPercent
  else if c =? 40 then Some TokLParen
  else if c =? 41 then Some TokRParen
  else if c =? 44 then Some TokComma
  else None.

Definition two_char_token (two : string) : option TokenType :=
  if String.eqb two "==" then Some TokEq
  else if String.eqb two "!=" then Some TokNeq
  else if String.eqb two "<=" then Some TokLe
  else if String.eqb two ">=" then Some TokGe
  else None.

Fixpoint Lex_loop (fuel : nat) (input : list ascii) (i : nat)
    (tokens : list Token) : res (list Token) :=
  match fuel with
  | O => Err OutOfFuel
  | S fuel' =>
    match input !! i with
    | None => Ok (tokens ++ [mkToken TokEOF "" (Z.of_nat (length input))])
    | Some ch =>
      if IsSpace ch then Lex_loop fuel' input (S i) tokens
      else if IsDigit ch then
        let stop := scan_while IsDigit (drop i input) i in
        Lex_loop fuel' input stop
          (tokens ++ [mkToken TokInt (slice input i stop) (Z.of_nat i)])
      else if IsLetter ch || is_underscore ch then
        let stop :=
          scan_while (fun c => IsLetter c || IsDigit c || is_underscore c)
            (drop i input) i in
        let word := slice input i stop in
        match keywords !! word with
        | Some ty =>
            Lex_loop fuel' input stop (tokens ++ [mkToken ty word (Z.of_nat i)])
        | None =>
            Lex_loop fuel' input stop
              (tokens ++ [mkToken TokIdent word (Z.of_nat i)])
        end
      else
        let two := slice input i (i + 2) in
        match (if (S i <? length input)%nat then two_char_token two else None) with
        | Some ty =>
            Lex_loop fuel' input (i + 2) (tokens ++ [mkToken ty two (Z.of_nat i)])
        | None =>
          match single_char_token ch with
          | Some ty =>
              Lex_loop fuel' input (S i)
                (tokens ++ [mkToken ty (String ch EmptyString) (Z.of_nat i)])
          | None => Err (ErrUnexpectedChar ch (Z.of_nat i))
          end
        end
    end
  end.

(** Every iteration moves [i] forward, so [len(input) + 1] iterations
    always reach the end of the input. *)
Definition Lex (input : string) : res (list Token) :=
  let bytes := list_ascii_of_string input in
  Lex_loop (S (length bytes)) bytes 0 [].

(** ** Parser (expr/parser.go) *)

Inductive NodeType : Type :=
  | NodeLitInt | NodeLitBool | NodeVar | NodeNot | NodeAnd | NodeOr
  | NodeEq | NodeNeq | NodeLt | NodeLe | NodeGt | NodeGe
  | NodeAdd | NodeSub | NodeMul | NodeDiv | NodeMod
  | NodeIf | NodeCall.

Inductive Node : Type := mkNode {
  n_Type : NodeType;
  n_IntVal : Z;
  n_BoolVal : bool;
  n_Name : string;
  n_Children : list Node
}.

(** Node literals as the parser writes them; unset fields are zero. *)
Definition LitInt (v : Z) : Node := mkNode NodeLitInt v false "" [].
Definition LitBool (b : bool) : Node := mkNode NodeLitBool 0 b "" [].
Definition Var (name : string) : Node := mkNode NodeVar 0 false name [].
Definition Op (nt : NodeType) (children : list Node) : Node :=
  mkNode nt 0 false "" children.
Definition Call (name : string) (args : list Node) : Node :=
  mkNode NodeCall 0 false name args.

Record Parser : Type := mkParser {
  p_tokens : list Token;
  p_pos : nat
}.

Definition peek (p : Parser) : Token :=
  match p_tokens p !! p_pos p with
  | None => mkToken TokEOF "" 0
  | Some t => t
  end.

Definition advance (p : Parser) : Token * Parser :=
  (peek p, {| p_tokens := p_tokens p; p_pos := S (p_pos p) |}).

Definition expect (tt : TokenType) (p : Parser) : res (Token * Parser) :=
  let '(t, p') := advance p in
  if TokenType_eqb (tok_Type t) tt then Ok (t, p')
  else Err (ErrExpected (TokenType_code tt) (tok_Val t) (tok_Pos t)).

Definition precNone : Z := 0.
Definition precOr : Z := 1.
Definition precAnd : Z := 2.
Definition precCompare : Z := 3.
Definition precAdd : Z := 4.
Definition precMul : Z := 5.
Definition precUnary : Z := 6.

Definition infixInfo (tt : TokenType) : Z * NodeType * bool :=
  match tt with
  | TokOr => (precOr, NodeOr, true)
  | TokAnd => (precAnd, NodeAnd, true)
  | TokEq => (precCompare, NodeEq, true)
  | TokNeq => (precCompare, NodeNeq, true)
  | TokLt => (precCompare, NodeLt, true)
  | TokLe => (precCompare, NodeLe, true)
  | TokGt => (precCompare, NodeGt, true)
  | TokGe => (precCompare, NodeGe, true)
  | TokPlus => (precAdd, NodeAdd, true)
  | TokMinus => (precAdd, NodeSub, true)
  | TokStar => (precMul, NodeMul, true)
  | TokSlash => (precMul, NodeDiv, true)
  | TokPercent => (precMul, NodeMod, true)
  | _ => (0, NodeLitInt, false)
  end.

Definition isBuiltin (name : string) : bool :=
  String.eqb name "min" || String.eqb name "max" || String.eqb name "clamp".

(** [strconv.Atoi] on the token values the lexer builds for [TokInt]:
    non-empty runs of decimal digits. The conversion fails when the
    number does not fit an [int]. *)
Fixpoint digits_value (acc : Z) (s : list ascii) : option Z :=
  match s with
  | [] => Some acc
  | c :: s' =>
      if IsDigit c then digits_value (10 * acc + (code c - 48)) s' else None
  end.

Definition Atoi (s : string) : option Z :=
  match list_ascii_of_string s with
  | [] => None
  | cs =>
      match digits_value 0 cs with
      | Some v => if v <=? MaxInt then Some v else None
      | None => None
      end
  end.

(** The recursive-descent functions share one recursion budget; each call
    and each loop iteration spends one unit. *)
Fixpoint parseExpr (fuel : nat) (minPrec : Z) (p : Parser) : res (Node * Parser) :=
  match fuel with
  | O => Err OutOfFuel
  | S fuel' =>
      '(lhs, p1) ← parseUnary fuel' p;
      parseExpr_loop fuel' minPrec lhs p1
  end

with parseExpr_loop (fuel : nat) (minPrec : Z) (lhs : Node) (p : Parser)
    : res (Node * Parser) :=
  match fuel with
  | O => Err OutOfFuel
  | S fuel' =>
      let tok := peek p in
      let '(prec, nodeType, ok) := infixInfo (tok_Type tok) in
      if negb ok || (prec <? minPrec) then Ok (lhs, p)
      else if TokenType_eqb (tok_Type tok) TokIf then Ok (lhs, p)
      else
        let '(_, p1) := advance p in
        '(rhs, p2) ← parseExpr fuel' (prec + 1) p1;
        parseExpr_loop fuel' minPrec (Op nodeType [lhs; rhs]) p2
  end

with parseUnary (fuel : nat) (p : Parser) : res (Node * Parser) :=
  match fuel with
  | O => Err OutOfFuel
  | S fuel' =>
      let tok := peek p in
      if TokenType_eqb (tok_Type tok) TokNot then
        let '(_, p1) := advance p in
        '(operand, p2) ← parseUnary fuel' p1;
        Ok (Op NodeNot [operand], p2)
      else if TokenType_eqb (tok_Type tok) TokIf then
        let '(_, p1) := advance p in
        '(cond, p2) ← parseExpr fuel' 0 p1;
        match expect TokThen p2 with
        | Err _ => Err ErrExpectedThen
        | Ok (_, p3) =>
            '(thn, p4) ← parseExpr fuel' 0 p3;
            match expect TokElse p4 with
            | Err _ => Err ErrExpectedElse
            | Ok (_, p5) =>
                '(els, p6) ← parseExpr fuel' 0 p5;
                Ok (Op NodeIf [cond; thn; els], p6)
            end
        end
      else if TokenType_eqb (tok_Type tok) TokMinus then
        let '(_, p1) := advance p in
        '(operand, p2) ← parseUnary fuel' p1;
        Ok (Op NodeSub [LitInt 0; operand], p2)
      else parseAtom fuel' p
  end

with parseAtom (fuel : nat) (p : Parser) : res (Node * Parser) :=
  match fuel with
  | O => Err OutOfFuel
  | S fuel' =>
      let '(tok, p1) := advance p in
      match tok_Type tok with
      | TokInt =>
          match Atoi (tok_Val tok) with
          | None => Err (ErrInvalidInteger (tok_Val tok))
          | Some v => Ok (LitInt v, p1)
          end
      | TokTrue => Ok (LitBool true, p1)
      | TokFalse => Ok (LitBool false, p1)
      | TokIdent =>
          if TokenType_eqb (tok_Type (peek p1)) TokLParen
             && isBuiltin (tok_Val tok)
          then parseCall fuel' (tok_Val tok) p1
          else Ok (Var (tok_Val tok), p1)
      | TokLParen =>
          '(e, p2) ← parseExpr fuel' 0 p1;
          match expect TokRParen p2 with
          | Err _ => Err ErrExpectedRParen
          | Ok (_, p3) => Ok (e, p3)
          end
      | _ => Err (ErrUnexpectedToken (tok_Val tok) (tok_Pos tok))
      end
  end

with parseCall (fuel : nat) (name : string) (p : Parser) : res (Node * Parser) :=
  match fuel with
  | O => Err OutOfFuel
  | S fuel' =>
      let '(_, p1) := advance p in
      '(args, p2) ← parseCall_loop fuel' [] p1;
      match expect TokRParen p2 with
      | Err _ => Err (ErrExpectedRParenCall name)
      | Ok (_, p3) =>
          if (String.eqb name "min" || String.eqb name "max")
             && negb (length args =? 2)%nat
          then Err (ErrArity name 2 (length args))
          else if String.eqb name "clamp" && negb (length args =? 3)%nat
          then Err (ErrArity name 3 (length args))
          else Ok (Call name args, p3)
      end
  end

with parseCall_loop (fuel : nat) (args : list Node) (p : Parser)
    : res (list Node * Parser) :=
  match fuel with
  | O => Err OutOfFuel
  | S fuel' =>
      '(arg, p1) ← parseExpr fuel' 0 p;
      let args' := args ++ [arg] in
      if TokenType_eqb (tok_Type (peek p1)) TokComma then
        let '(_, p2) := advance p1 in
        parseCall_loop fuel' args' p2
      else Ok (args', p1)
  end.

(** A budget no run of the parser on [tokens] exhausts: at most three
    nested calls are made per consumed token. *)
Definition parse_fuel (tokens : list Token) : nat := 3 * length tokens + 3.

(** The part of [Parse] that follows the call of [Lex]. *)
Definition Parse_tokens (tokens : list Token) : res Node :=
  let p := {| p_tokens := tokens; p_pos := 0 |} in
  '(node, p') ← parseExpr (parse_fuel tokens) 0 p;
  if negb (TokenType_eqb (tok_Type (peek p')) TokEOF)
  then Err (ErrUnexpectedToken (tok_Val (peek p')) (tok_Pos (peek p')))
  else Ok node.

Definition Parse (input : string) : res Node :=
  tokens ← Lex input;
  Parse_tokens tokens.

(** ** Evaluator (expr/eval.go) *)

Record Value : Type := mkValue {
  IsInt : bool;
  IsBool : bool;
  Int : Z;
  Bool : bool
}.

Definition IntValue (n : Z) : Value :=
  {| IsInt := true; IsBool := false; Int := n; Bool := false |}.
Definition BoolValue (b : bool) : Value :=
  {| IsInt := false; IsBool := true; Int := 0; Bool := b |}.

Record Env : Type := mkEnv {
  env_Schema : Schema;
  env_State : State;
  env_EnumLiterals : gmap string Z
}.

Definition NewEnv (schema : Schema) (state : State) (enumLiterals : gmap string Z) : Env :=
  {| env_Schema := schema; env_State := state; env_EnumLiterals := enumLiterals |}.

(** The inner loop of [BuildEnumLiterals] over the values of one enum. *)
Fixpoint BuildEnumLiterals_values (varNames : gset string) (values : list string)
    (idx : Z) (literals : gmap string Z) : res (gmap string Z) :=
  match values with
  | [] => Ok literals
  | lit :: values' =>
      if bool_decide (lit ∈ varNames) then Err (ErrEnumVarConflict lit)
      else match literals !! lit with
           | Some _ => Err (ErrEnumDuplicate lit)
           | None =>
               BuildEnumLiterals_values varNames values' (idx + 1)
                 (<[lit := idx]> literals)
           end
  end.

Fixpoint BuildEnumLiterals_vars (varNames : gset string) (vars : list VarDef)
    (literals : gmap string Z) : res (gmap string Z) :=
  match vars with
  | [] => Ok literals
  | v :: vars' =>
      if negb (VarType_eqb (vd_Type v) TypeEnum)
      then BuildEnumLiterals_vars varNames vars' literals
      else
        literals' ← BuildEnumLiterals_values varNames (vd_Values v) 0 literals;
        BuildEnumLiterals_vars varNames vars' literals'
  end.

Definition BuildEnumLiterals (schema : Schema) : res (gmap string Z) :=
  let varNames : gset string := list_to_set (vd_Name <$> sch_Vars schema) in
  BuildEnumLiterals_vars varNames (sch_Vars schema) ∅.

(** Evaluate [Children[0]] and [Children[1]] in this order and continue
    with both values. *)
Definition eval2 (ev : Node -> res Value) (children : list Node)
    (k : Value -> Value -> res Value) : res Value :=
  match children with
  | [] => Err Panic
  | c0 :: rest =>
      a ← ev c0;
      match rest with
      | [] => Err Panic
      | c1 :: _ => b ← ev c1; k a b
      end
  end.

Definition eval3 (ev : Node -> res Value) (children : list Node)
    (k : Value -> Value -> Value -> res Value) : res Value :=
  match children with
  | [] => Err Panic
  | c0 :: rest =>
      a ← ev c0;
      match rest with
      | [] => Err Panic
      | c1 :: rest' =>
          b ← ev c1;
          match rest' with
          | [] => Err Panic
          | c2 :: _ => c ← ev c2; k a b c
          end
      end
  end.

Definition eval_equality (neq : bool) (l r : Value) : res Value :=
  if IsBool l && IsBool r then
    Ok (BoolValue (xorb neq (Bool.eqb (Bool l) (Bool r))))
  else if IsInt l && IsInt r then
    Ok (BoolValue (xorb neq (Int l =? Int r)))
  else Err (ErrOperandType "type mismatch in equality comparison").

Definition eval_compare (nt : NodeType) (l r : Value) : res Value :=
  if negb (IsInt l) || negb (IsInt r)
  then Err (ErrOperandType "comparison requires int operands")
  else
    Ok (BoolValue
          match nt with
          | NodeLt => Int l <? Int r
          | NodeLe => Int l <=? Int r
          | NodeGt => Int l >? Int r
          | NodeGe => Int l >=? Int r
          | _ => false
          end).

Definition eval_arith (nt : NodeType) (l r : Value) : res Value :=
  if negb (IsInt l) || negb (IsInt r)
  then Err (ErrOperandType "arithmetic requires int operands")
  else
    match nt with
    | NodeAdd => Ok (IntValue (wrap (Int l + Int r)))
    | NodeSub => Ok (IntValue (wrap (Int l - Int r)))
    | NodeMul => Ok (IntValue (wrap (Int l * Int r)))
    | NodeDiv =>
        if Int r =? 0 then Err ErrDivZero
        else Ok (IntValue (wrap (Z.quot (Int l) (Int r))))
    | NodeMod =>
        if Int r =? 0 then Err ErrModZero
        else Ok (IntValue (Z.rem (Int l) (Int r)))
    | _ => Ok (IntValue 0)
    end.

Fixpoint Eval (env : Env) (node : Node) {struct node} : res Value :=
  match node with
  | mkNode ty intVal boolVal name children =>
    match ty with
    | NodeLitInt => Ok (IntValue intVal)
    | NodeLitBool => Ok (BoolValue boolVal)
    | NodeVar =>
        let idx := VarIndex (env_Schema env) name in
        if idx >=? 0 then
          v ← elemZ (sch_Vars (env_Schema env)) idx;
          x ← elemZ (env_State env) idx;
          match vd_Type v with
          | TypeBool => Ok (BoolValue (x =? 1))
          | TypeEnum => Ok (IntValue x)
          | TypeInt => Ok (IntValue x)
          end
        else
          match env_EnumLiterals env !! name with
          | Some val => Ok (IntValue val)
          | None => Err (ErrUndefinedIdent name)
          end
    | NodeNot =>
        match children with
        | [] => Err Panic
        | c0 :: _ =>
            v ← Eval env c0;
            if negb (IsBool v) then Err (ErrOperandType "'not' requires bool operand")
            else Ok (BoolValue (negb (Bool v)))
        end
    | NodeAnd =>
        eval2 (Eval env) children (fun l r =>
          if negb (IsBool l) || negb (IsBool r)
          then Err (ErrOperandType "'and' requires bool operands")
          else Ok (BoolValue (Bool l && Bool r)))
    | NodeOr =>
        eval2 (Eval env) children (fun l r =>
          if negb (IsBool l) || negb (IsBool r)
          then Err (ErrOperandType "'or' requires bool operands")
          else Ok (BoolValue (Bool l || Bool r)))
    | NodeEq => eval2 (Eval env) children (eval_equality false)
    | NodeNeq => eval2 (Eval env) children (eval_equality true)
    | NodeLt | NodeLe | NodeGt | NodeGe =>
        eval2 (Eval env) children (eval_compare ty)
    | NodeAdd | NodeSub | NodeMul | NodeDiv | NodeMod =>
        eval2 (Eval env) children (eval_arith ty)
    | NodeIf =>
        match children with
        | [] => Err Panic
        | c0 :: rest =>
            cond ← Eval env c0;
            if negb (IsBool cond) then Err (ErrOperandType "if condition must be bool")
            else if Bool cond then
              match rest with
              | c1 :: _ => Eval env c1
              | [] => Err Panic
              end
            else
              match rest with
              | _ :: c2 :: _ => Eval env c2
              | _ => Err Panic
              end
        end
    | NodeCall =>
        if String.eqb name "min" then
          eval2 (Eval env) children (fun a b =>
            if negb (IsInt a) || negb (IsInt b)
            then Err (ErrOperandType "min requires int arguments")
            else if Int a <? Int b then Ok a else Ok b)
        else if String.eqb name "max" then
          eval2 (Eval env) children (fun a b =>
            if negb (IsInt a) || negb (IsInt b)
            then Err (ErrOperandType "max requires int arguments")
            else if Int a >? Int b then Ok a else Ok b)
        else if String.eqb name "clamp" then
          eval3 (Eval env) children (fun lo x hi =>
            if negb (IsInt lo) || negb (IsInt x) || negb (IsInt hi)
            then Err (ErrOperandType "clamp requires int arguments")
            else
              let v := Int x in
              let v := if v <? Int lo then Int lo else v in
              let v := if v >? Int hi then Int hi else v in
              Ok (IntValue v))
        else Err (ErrUnknownFunction name)
    end
  end.

Definition EvalBool (node : Node) (env : Env) : res bool :=
  v ← Eval env node;
  if negb (IsBool v) then Err ErrExpectedBool
  else Ok (Bool v).

(** ** Compilation (package verify) *)

Record CompiledRegistry : Type := mkCompiledRegistry {
  Reg : Registry;
  cr_Schema : Schema;
  EnumLiterals : gmap string Z;
  InvExprs : list Node;
  RepExprs : list (gmap Z Node);
  EvtGuards : list (option Node);
  EvtExprs : list (gmap Z Node);
  Valid : list bool;
  NF : list StateID;
  Step : list (list StateID)
}.

Definition MaxStates : Z := 1000000.
Definition MaxRepairIter : nat := 1000.

(** [for varName, exprStr := range rep.Assignments { ... repMap[idx] = node }]
    (and the same loop over [evt.Assignments]); [unknown] and [bad] build
    the two error values of the loop. *)
Fixpoint Compile_assignments (schema : Schema) (unknown : string -> error)
    (bad : string -> error -> error) (assignments : list (string * string))
    (m : gmap Z Node) : res (gmap Z Node) :=
  match assignments with
  | [] => Ok m
  | (varName, exprStr) :: rest =>
      let idx := VarIndex schema varName in
      if idx <? 0 then Err (unknown varName)
      else
        node ← wrap_err (bad varName) (Parse exprStr);
        Compile_assignments schema unknown bad rest (<[idx := node]> m)
  end.

Definition Compile_invariant (inv : Invariant) : res Node :=
  wrap_err (ErrInvariant (inv_Name inv)) (Parse (inv_Expr inv)).

Definition Compile_repair (schema : Schema) (rep : Repair) : res (gmap Z Node) :=
  Compile_assignments schema
    (ErrRepairUnknownVar (rep_Invariant rep))
    (ErrRepairExpr (rep_Invariant rep))
    (map_to_list (rep_Assignments rep)) ∅.

Definition Compile_event (schema : Schema) (evt : Event)
    : res (option Node * gmap Z Node) :=
  guard ← (if String.eqb (evt_Guard evt) "" then Ok None
           else g ← wrap_err (ErrEventGuard (evt_Name evt)) (Parse (evt_Guard evt));
                Ok (Some g));
  evtMap ← Compile_assignments schema
             (ErrEventUnknownVar (evt_Name evt))
             (ErrEventExpr (evt_Name evt))
             (map_to_list (evt_Assignments evt)) ∅;
  Ok (guard, evtMap).

Definition Compile (reg : Registry) : res CompiledRegistry :=
  let schema := NewSchema (reg_Vars reg) in
  if sch_TotalLen schema >? MaxStates
  then Err (ErrStateSpaceTooLarge (sch_TotalLen schema) MaxStates)
  else
    enumLiterals ← BuildEnumLiterals schema;
    invExprs ← mapM Compile_invariant (reg_Invariants reg);
    repExprs ← mapM (Compile_repair schema) (reg_Compensation reg);
    evts ← mapM (Compile_event schema) (reg_Events reg);
    Ok {| Reg := reg;
          cr_Schema := schema;
          EnumLiterals := enumLiterals;
          InvExprs := invExprs;
          RepExprs := repExprs;
          EvtGuards := fst <$> evts;
          EvtExprs := snd <$> evts;
          Valid := [];
          NF := [];
          Step := [] |}.

Definition set_Valid (cr : CompiledRegistry) (valid : list bool) : CompiledRegistry :=
  {| Reg := Reg cr; cr_Schema := cr_Schema cr; EnumLiterals := EnumLiterals cr;
     InvExprs := InvExprs cr; RepExprs := RepExprs cr; EvtGuards := EvtGuards cr;
     EvtExprs := EvtExprs cr; Valid := valid; NF := NF cr; Step := Step cr |}.

Definition set_NF (cr : CompiledRegistry) (nf : list StateID) : CompiledRegistry :=
  {| Reg := Reg cr; cr_Schema := cr_Schema cr; EnumLiterals := EnumLiterals cr;
     InvExprs := InvExprs cr; RepExprs := RepExprs cr; EvtGuards := EvtGuards cr;
     EvtExprs := EvtExprs cr; Valid := Valid cr; NF := nf; Step := Step cr |}.

Definition set_Step (cr : CompiledRegistry) (step : list (list StateID)) : CompiledRegistry :=
  {| Reg := Reg cr; cr_Schema := cr_Schema cr; EnumLiterals := EnumLiterals cr;
     InvExprs := InvExprs cr; RepExprs := RepExprs cr; EvtGuards := EvtGuards cr;
     EvtExprs := EvtExprs cr; Valid := Valid cr; NF := NF cr; Step := step |}.

(** ** Internal helpers of package verify *)

Section Helpers.
Variable cr : CompiledRegistry.

Definition makeEnv (st : State) : Env :=
    NewEnv (cr_Schema cr) st (EnumLiterals cr).

Fixpoint evalValid_loop (env : Env) (invs : list Node) : res bool :=
    match invs with
    | [] => Ok true
    | invExpr :: rest =>
        v ← EvalBool invExpr env;
        if negb v then Ok false else evalValid_loop env rest
    end.

Definition evalValid (st : State) : res bool :=
    evalValid_loop (makeEnv st) (InvExprs cr).

Definition evalGuard (evtIdx : nat) (st : State) : res bool :=
    guard ← elem (EvtGuards cr) evtIdx;
    match guard with
    | None => Ok true
    | Some g => EvalBool g (makeEnv st)
    end.

  (** The [switch v.Type] of [applyAssignments]: the value stored in the
      post-state for a right-hand side that evaluated to [val]. *)
Definition assigned_value (st : State) (v : VarDef) (val : Value) : res Z :=
    match vd_Type v with
    | TypeBool =>
        if negb (IsBool val) then Err (ErrAssignType (vd_Name v))
        else if Bool val then Ok 1 else Ok 0
    | TypeEnum =>
        if negb (IsInt val) then Err (ErrAssignType (vd_Name v))
        else if (Int val <? 0) || (Int val >=? vd_Size v)
        then Err (ErrAssignEnumRange (vd_Name v) (Int val) (vd_Size v))
        else Ok (Int val)
    | TypeInt =>
        if negb (IsInt val) then Err (ErrAssignType (vd_Name v))
        else if (Int val <? vd_Min v) || (Int val >? vd_Max v)
        then Err (ErrAssignIntRange (vd_Name v) (Int val) (vd_Min v) (vd_Max v) st)
        else Ok (Int val)
    end.

Fixpoint applyAssignments_loop (env : Env) (st : State)
      (assignments : list (Z * Node)) (post : State) : res State :=
    match assignments with
    | [] => Ok post
    | (varIdx, exprNode) :: rest =>
        val ← Eval env exprNode;
        v ← elemZ (sch_Vars (cr_Schema cr)) varIdx;
        x ← assigned_value st v val;
        post' ← storeZ post varIdx x;
        applyAssignments_loop env st rest post'
    end.

Definition applyAssignments (assignments : gmap Z Node) (st : State) : res State :=
    applyAssignments_loop (makeEnv st) st (map_to_list assignments) st.

Definition applyEvent (evtIdx : nat) (st : State) : res State :=
    assignments ← elem (EvtExprs cr) evtIdx;
    applyAssignments assignments st.

Definition applyRepair (repIdx : nat) (st : State) : res State :=
    assignments ← elem (RepExprs cr) repIdx;
    applyAssignments assignments st.

  (** The scan [for ri, invExpr := range cr.InvExprs] of [computeNF]:
      [Some id] when a repair fired ([repaired = true]), [None] when no
      invariant was found violated. *)
Fixpoint computeNF_scan (st : State) (env : Env) (ri : nat) (invs : list Node)
      : res (option StateID) :=
    match invs with
    | [] => Ok None
    | invExpr :: rest =>
        v ← EvalBool invExpr env;
        if negb v then
          if (length (RepExprs cr) <=? ri)%nat then
            inv ← elem (reg_Invariants (Reg cr)) ri;
            Err (ErrNoRepair (inv_Name inv))
          else
            newSt ← applyRepair ri st;
            id ← Encode (cr_Schema cr) newSt;
            Ok (Some id)
        else computeNF_scan st env (S ri) rest
    end.

  (** [iters] is the number of iterations of the outer loop still allowed. *)
Fixpoint computeNF_loop (sid : StateID) (iters : nat) (current : StateID)
      : res StateID :=
    match iters with
    | O =>
        st ← Decode (cr_Schema cr) sid;
        Err (ErrNotTerminated (Z.of_nat MaxRepairIter) st)
    | S iters' =>
        valid ← elemZ (Valid cr) current;
        if valid : bool then Ok current
        else
          st ← Decode (cr_Schema cr) current;
          r ← computeNF_scan st (makeEnv st) 0 (InvExprs cr);
          match r with
          | Some next => computeNF_loop sid iters' next
          | None => Ok current
          end
    end.

Definition computeNF (sid : StateID) : res StateID :=
    computeNF_loop sid MaxRepairIter sid.

Fixpoint repairDepth_scan (st : State) (env : Env) (ri : nat) (invs : list Node)
      : res (option StateID) :=
    match invs with
    | [] => Ok None
    | invExpr :: rest =>
        v ← EvalBool invExpr env;
        if negb v then
          newSt ← applyRepair ri st;
          id ← Encode (cr_Schema cr) newSt;
          Ok (Some id)
        else repairDepth_scan st env (S ri) rest
    end.

Fixpoint repairDepth_loop (iters : nat) (depth : Z) (current : StateID) : res Z :=
    match iters with
    | O => Err ErrRepairDepth
    | S iters' =>
        valid ← elemZ (Valid cr) current;
        if valid : bool then Ok depth
        else
          st ← Decode (cr_Schema cr) current;
          r ← repairDepth_scan st (makeEnv st) 0 (InvExprs cr);
          match r with
          | Some next => repairDepth_loop iters' (depth + 1) next
          | None => Ok depth
          end
    end.

Definition repairDepth (sid : StateID) : res Z :=
    repairDepth_loop MaxRepairIter 0 sid.

End Helpers.

(** ** BuildTables *)

Definition BuildTables_Valid (cr : CompiledRegistry) : res (list bool) :=
  tabulate (sch_TotalLen (cr_Schema cr)) (fun sid =>
    st ← Decode (cr_Schema cr) sid;
    wrap_err (ErrValidityAt st) (evalValid cr st)).

Definition BuildTables_NF (cr : CompiledRegistry) : res (list StateID) :=
  tabulate (sch_TotalLen (cr_Schema cr)) (fun sid =>
    match computeNF cr sid with
    | Ok nf => Ok nf
    | Err Panic => Err Panic
    | Err e =>
        st ← Decode (cr_Schema cr) sid;
        Err (ErrNormalFormAt st e)
    end).

Definition BuildTables_Step_cell (cr : CompiledRegistry) (ei : nat) (evt : Event)
    (sid : StateID) : res StateID :=
  st ← Decode (cr_Schema cr) sid;
  enabled ← wrap_err (ErrGuardAt (evt_Name evt) st) (evalGuard cr ei st);
  if negb enabled then Ok (-1)
  else
    post ← wrap_err (ErrEventAt (evt_Name evt) st) (applyEvent cr ei st);
    postID ← Encode (cr_Schema cr) post;
    elemZ (NF cr) postID.

Definition BuildTables_Step (cr : CompiledRegistry) : res (list (list StateID)) :=
  mapM_from (fun ei evt =>
      tabulate (sch_TotalLen (cr_Schema cr)) (BuildTables_Step_cell cr ei evt))
    0 (reg_Events (Reg cr)).

(** The receiver is updated in place; the model returns the registry with
    its three tables filled. *)
Definition BuildTables (cr : CompiledRegistry) : res CompiledRegistry :=
  valid ← BuildTables_Valid cr;
  let cr1 := set_Valid cr valid in
  nf ← BuildTables_NF cr1;
  let cr2 := set_NF cr1 nf in
  step ← BuildTables_Step cr2;
  Ok (set_Step cr2 step).

(** ** CheckWFC *)

(** The two diagnostics of [CheckWFC] ("... → NF ... which is not valid",
    "valid state ... has NF ... (not a fixpoint)"), with the states they
    print. *)
Inductive WFCFailure : Type :=
  | NFNotValid (st nfSt : State)
  | NotFixpoint (st nfSt : State).

Section Checks.
Variable cr : CompiledRegistry.

Fixpoint CheckWFC_scan (sid : Z) (count : nat)
    : res (option WFCFailure) :=
  match count with
  | O => Ok None
  | S count' =>
      nfID ← elemZ (NF cr) sid;
      nfValid ← elemZ (Valid cr) nfID;
      if negb nfValid then
        st ← Decode (cr_Schema cr) sid;
        nfSt ← Decode (cr_Schema cr) nfID;
        Ok (Some (NFNotValid st nfSt))
      else
        valid ← elemZ (Valid cr) sid;
        if valid && negb (nfID =? sid) then
          st ← Decode (cr_Schema cr) sid;
          nfSt ← Decode (cr_Schema cr) nfID;
          Ok (Some (NotFixpoint st nfSt))
        else CheckWFC_scan (sid + 1) count'
  end.

(** The second loop: [inl maxDepth], or [inr err] when [repairDepth]
    returned an error. *)
Fixpoint CheckWFC_depth (sid : Z) (count : nat)
    (maxDepth : Z) : res (Z + error) :=
  match count with
  | O => Ok (inl maxDepth)
  | S count' =>
      match repairDepth cr sid with
      | Err Panic => Err Panic
      | Err e => Ok (inr e)
      | Ok depth =>
          CheckWFC_depth (sid + 1) count'
            (if depth >? maxDepth then depth else maxDepth)
      end
  end.

(** The result is the tuple [(pass, maxDepth, badState, err)]. *)
Definition CheckWFC
    : res (bool * Z * option WFCFailure * option error) :=
  let n := Z.to_nat (sch_TotalLen (cr_Schema cr)) in
  bad ← CheckWFC_scan 0 n;
  match bad with
  | Some failure => Ok (false, 0, Some failure, None)
  | None =>
      d ← CheckWFC_depth 0 n 0;
      match d with
      | inr e => Ok (false, 0, None, Some e)
      | inl maxDepth => Ok (true, maxDepth, None, None)
      end
  end.

End Checks.

(** ** CheckCC *)

Definition isIdentChar (b : ascii) : bool :=
  let c := code b in
  ((97 <=? c) && (c <=? 122)) || ((65 <=? c) && (c <=? 90))
  || ((48 <=? c) && (c <=? 57)) || (c =? 95).

Fixpoint HasPrefix (s prefix : list ascii) : bool :=
  match prefix, s with
  | [], _ => true
  | _ :: _, [] => false
  | p :: prefix', c :: s' => Ascii.eqb p c && HasPrefix s' prefix'
  end.

(** [strings.Index(s, substr)] of the Go standard library: the position of
    the first occurrence, [None] for -1. *)
Fixpoint strings_Index (s substr : list ascii) : option nat :=
  if HasPrefix s substr then Some O
  else match s with
       | [] => None
       | _ :: s' => S <$> strings_Index s' substr
       end.

(** The loop [for { ... }] of [containsIdent]; [iters] bounds the number
    of iterations and [s[idx:]] panics when [idx > len(s)]. *)
Fixpoint containsIdent_loop (iters : nat) (s ident : list ascii) (idx : nat)
    : res bool :=
  match iters with
  | O => Err OutOfFuel
  | S iters' =>
      if (length s <? idx)%nat then Err Panic
      else
        match strings_Index (drop idx s) ident with
        | None => Ok false
        | Some pos =>
            let absPos := (idx + pos)%nat in
            before ←
              (if (absPos =? 0)%nat then Ok true
               else b ← elem s (absPos - 1); Ok (negb (isIdentChar b)));
            after ←
              (if (length s <=? absPos + length ident)%nat then Ok true
               else b ← elem s (absPos + length ident); Ok (negb (isIdentChar b)));
            if before && after then Ok true
            else containsIdent_loop iters' s ident (absPos + 1)
        end
  end.

(** [idx] grows by at least one per iteration and the loop stops, by
    return or by panic, once it passes [len(s)]. *)
Definition containsIdent (s ident : string) : res bool :=
  let bytes := list_ascii_of_string s in
  containsIdent_loop (length bytes + 2) bytes (list_ascii_of_string ident) 0.

Record evtSets : Type := mkEvtSets {
  writes : gset Z;
  reads : gset Z
}.

(** [for _, v := range cr.Schema.Vars { idx := VarIndex(v.Name);
    if containsIdent(exprStr, v.Name) { s.reads[idx] = true } }] *)
Fixpoint CheckCC_reads (schema : Schema) (exprStr : string) (vars : list VarDef)
    (rd : gset Z) : res (gset Z) :=
  match vars with
  | [] => Ok rd
  | v :: vars' =>
      let idx := VarIndex schema (vd_Name v) in
      c ← containsIdent exprStr (vd_Name v);
      CheckCC_reads schema exprStr vars' (if c : bool then {[idx]} ∪ rd else rd)
  end.

Fixpoint CheckCC_reads_all (schema : Schema) (exprs : list string) (rd : gset Z)
    : res (gset Z) :=
  match exprs with
  | [] => Ok rd
  | exprStr :: rest =>
      rd' ← CheckCC_reads schema exprStr (sch_Vars schema) rd;
      CheckCC_reads_all schema rest rd'
  end.

Section CC.
Variable cr : CompiledRegistry.

Definition CheckCC_sets (ei : nat) (evt : Event) : res evtSets :=
  exprs ← elem (EvtExprs cr) ei;
  let wr : gset Z := dom exprs in
  rd ← (if negb (String.eqb (evt_Guard evt) "")
        then CheckCC_reads (cr_Schema cr) (evt_Guard evt) (sch_Vars (cr_Schema cr)) ∅
        else Ok ∅);
  rd' ← CheckCC_reads_all (cr_Schema cr)
          (snd <$> map_to_list (evt_Assignments evt)) rd;
  Ok {| writes := wr; reads := rd' |}.

Definition touches (s : evtSets) (w : Z) : bool :=
  bool_decide (w ∈ writes s) || bool_decide (w ∈ reads s).

Definition isIndependent (sets : list evtSets) (e1 e2 : nat) : res bool :=
  s1 ← elem sets e1;
  s2 ← elem sets e2;
  Ok (forallb (fun w => negb (touches s2 w)) (elements (writes s1))
      && forallb (fun w => negb (touches s1 w)) (elements (writes s2))).

Record CC1Failure : Type := mkCC1Failure {
  CC1FailEvent1 : string;
  CC1FailEvent2 : string;
  CC1FailState : State;
  CC1FailNF1 : State;
  CC1FailNF2 : State
}.

Record CC2Failure : Type := mkCC2Failure {
  CC2FailEvent : string;
  CC2FailState : State;
  CC2FailNFState : State;
  CC2FailNF1 : State;
  CC2FailNF2 : State
}.

Record CCResult : Type := mkCCResult {
  CCPass : bool;
  CC1Pass : bool;
  CC2Pass : bool;
  PairsChecked : Z;
  DependentSkipped : Z;
  CC1Fail : option CC1Failure;
  CC2Fail : option CC2Failure
}.

(** [for sid := 0; sid < n; sid++] of CC1 for one pair: the first
    counterexample, if any. *)
Fixpoint CheckCC_CC1_states (e1 e2 : nat) (sid : Z)
    (count : nat) : res (option CC1Failure) :=
  match count with
  | O => Ok None
  | S count' =>
      row1 ← elem (Step cr) e1;
      s1 ← elemZ row1 sid;
      row2 ← elem (Step cr) e2;
      s2 ← elemZ row2 sid;
      if (s1 =? -1) || (s2 =? -1) then CheckCC_CC1_states e1 e2 (sid + 1) count'
      else
        r12 ← elemZ row2 s1;
        r21 ← elemZ row1 s2;
        if (r12 =? -1) || (r21 =? -1) then CheckCC_CC1_states e1 e2 (sid + 1) count'
        else if negb (r12 =? r21) then
          st ← Decode (cr_Schema cr) sid;
          evt1 ← elem (reg_Events (Reg cr)) e1;
          evt2 ← elem (reg_Events (Reg cr)) e2;
          nf1 ← Decode (cr_Schema cr) r12;
          nf2 ← Decode (cr_Schema cr) r21;
          Ok (Some {| CC1FailEvent1 := evt_Name evt1; CC1FailEvent2 := evt_Name evt2;
                      CC1FailState := st; CC1FailNF1 := nf1; CC1FailNF2 := nf2 |})
        else CheckCC_CC1_states e1 e2 (sid + 1) count'
  end.

Definition skip_dependent (r : CCResult) : CCResult :=
  {| CCPass := CCPass r; CC1Pass := CC1Pass r; CC2Pass := CC2Pass r;
     PairsChecked := PairsChecked r;
     DependentSkipped := wrap (DependentSkipped r + 1);
     CC1Fail := CC1Fail r; CC2Fail := CC2Fail r |}.

Definition count_pair (r : CCResult) : CCResult :=
  {| CCPass := CCPass r; CC1Pass := CC1Pass r; CC2Pass := CC2Pass r;
     PairsChecked := wrap (PairsChecked r + 1);
     DependentSkipped := DependentSkipped r;
     CC1Fail := CC1Fail r; CC2Fail := CC2Fail r |}.

Definition fail_CC1 (r : CCResult) (f : CC1Failure) : CCResult :=
  {| CCPass := CCPass r; CC1Pass := false; CC2Pass := CC2Pass r;
     PairsChecked := PairsChecked r; DependentSkipped := DependentSkipped r;
     CC1Fail := Some f; CC2Fail := CC2Fail r |}.

(** [for e2 := e1 + 1; e2 < numEvts && result.CC1Pass; e2++] *)
Fixpoint CheckCC_CC1_inner (sets : list evtSets)
    (e1 e2 : nat) (count : nat) (result : CCResult) : res CCResult :=
  match count with
  | O => Ok result
  | S count' =>
      if negb (CC1Pass result) then Ok result
      else
        indep ← isIndependent sets e1 e2;
        if negb indep then
          CheckCC_CC1_inner sets e1 (S e2) count' (skip_dependent result)
        else
          let result1 := count_pair result in
          bad ← CheckCC_CC1_states e1 e2 0
                  (Z.to_nat (sch_TotalLen (cr_Schema cr)));
          match bad with
          | Some f => CheckCC_CC1_inner sets e1 (S e2) count' (fail_CC1 result1 f)
          | None => CheckCC_CC1_inner sets e1 (S e2) count' result1
          end
  end.

(** [for e1 := 0; e1 < numEvts && result.CC1Pass; e1++] *)
Fixpoint CheckCC_CC1_outer (sets : list evtSets)
    (numEvts : nat) (e1 : nat) (count : nat) (result : CCResult) : res CCResult :=
  match count with
  | O => Ok result
  | S count' =>
      if negb (CC1Pass result) then Ok result
      else
        result' ← CheckCC_CC1_inner sets e1 (S e1) (numEvts - S e1) result;
        CheckCC_CC1_outer sets numEvts (S e1) count' result'
  end.

Fixpoint CheckCC_CC2_states (ei : nat) (sid : Z)
    (count : nat) : res (option CC2Failure) :=
  match count with
  | O => Ok None
  | S count' =>
      row ← elem (Step cr) ei;
      stepRaw ← elemZ row sid;
      if stepRaw =? -1 then CheckCC_CC2_states ei (sid + 1) count'
      else
        nfID ← elemZ (NF cr) sid;
        stepNF ← elemZ row nfID;
        if stepNF =? -1 then CheckCC_CC2_states ei (sid + 1) count'
        else if negb (stepRaw =? stepNF) then
          st ← Decode (cr_Schema cr) sid;
          nfSt ← Decode (cr_Schema cr) nfID;
          evt ← elem (reg_Events (Reg cr)) ei;
          nf1 ← Decode (cr_Schema cr) stepRaw;
          nf2 ← Decode (cr_Schema cr) stepNF;
          Ok (Some {| CC2FailEvent := evt_Name evt; CC2FailState := st;
                      CC2FailNFState := nfSt; CC2FailNF1 := nf1; CC2FailNF2 := nf2 |})
        else CheckCC_CC2_states ei (sid + 1) count'
  end.

(** [for ei := 0; ei < numEvts && result.CC2Pass; ei++] *)
Fixpoint CheckCC_CC2_events (ei : nat) (count : nat)
    : res (option CC2Failure) :=
  match count with
  | O => Ok None
  | S count' =>
      bad ← CheckCC_CC2_states ei 0 (Z.to_nat (sch_TotalLen (cr_Schema cr)));
      match bad with
      | Some f => Ok (Some f)
      | None => CheckCC_CC2_events (S ei) count'
      end
  end.

Definition CheckCC : res CCResult :=
  let numEvts := length (reg_Events (Reg cr)) in
  sets ← mapM_from CheckCC_sets 0 (reg_Events (Reg cr));
  let result0 :=
    {| CCPass := false; CC1Pass := true; CC2Pass := false;
       PairsChecked := 0; DependentSkipped := 0;
       CC1Fail := None; CC2Fail := None |} in
  result1 ← CheckCC_CC1_outer sets numEvts 0 numEvts result0;
  bad2 ← CheckCC_CC2_events 0 numEvts;
  let cc2 := match bad2 with Some _ => false | None => true end in
  Ok {| CCPass := CC1Pass result1 && cc2;
        CC1Pass := CC1Pass result1;
        CC2Pass := cc2;
        PairsChecked := PairsChecked result1;
        DependentSkipped := DependentSkipped result1;
        CC1Fail := CC1Fail result1;
        CC2Fail := bad2 |}.

End CC.

(** ** The pipeline of [main] *)

(** What a run on a loaded registry ends with: one of the fatal messages
    ("COMPILE ERROR", "TABLE BUILD ERROR", "ERROR" under the WFC header),
    or the report with the WFC and CC verdicts; [Crashed] is a run-time
    panic. *)
Inductive Outcome : Type :=
  | CompileError (e : error)
  | TableBuildError (e : error)
  | WFCError (e : error)
  | Report (wfcPass : bool) (maxDepth : Z) (badState : option WFCFailure)
      (cc : CCResult)
  | Crashed.

Definition main (reg : Registry) : Outcome :=
  match Compile reg with
  | Err Panic => Crashed
  | Err e => CompileError e
  | Ok cr =>
      match BuildTables cr with
      | Err Panic => Crashed
      | Err e => TableBuildError e
      | Ok cr' =>
          match CheckWFC cr' with
          | Err _ => Crashed
          | Ok (_, _, _, Some e) => WFCError e
          | Ok (wfcPass, maxDepth, badState, None) =>
              match CheckCC cr' with
              | Err _ => Crashed
              | Ok cc => Report wfcPass maxDepth badState cc
              end
          end
      end
  end.

(** The exit status of the process. *)
Definition exit_status (o : Outcome) : Z :=
  match o with
  | Report wfcPass _ _ cc => if wfcPass && CCPass cc then 0 else 1
  | Crashed => 2
  | _ => 1
  end.

(** ** Vocabulary of the properties *)

(** A variable definition with a non-empty domain whose [Size] is the
    number of values of the domain: 2 for a bool, the number of values for
    an enum and [Max - Min + 1] for an int with machine-integer bounds. *)
Definition VarDef_ok (v : VarDef) : Prop :=
  0 < vd_Size v /\
  match vd_Type v with
  | TypeBool => vd_Size v = 2
  | TypeEnum => vd_Size v = Z.of_nat (length (vd_Values v))
  | TypeInt =>
      MinInt <= vd_Min v /\ vd_Max v <= MaxInt /\
      vd_Size v = vd_Max v - vd_Min v + 1
  end.

(** The encoded values of a variable: 0 and 1 for a bool, an index into
    the value list for an enum, a value of the inclusive range for an int. *)
Definition in_domain (v : VarDef) (x : Z) : Prop :=
  match vd_Type v with
  | TypeBool => x = 0 \/ x = 1
  | TypeEnum => 0 <= x < Z.of_nat (length (vd_Values v))
  | TypeInt => vd_Min v <= x <= vd_Max v
  end.

(** A state vector whose components lie in their variables' domains. *)
Definition valid_vector (vars : list VarDef) (st : State) : Prop :=
  Forall2 in_domain vars st.

(** The number of states, as a mathematical integer: the product of the
    domain sizes. *)
Definition state_count (vars : list VarDef) : Z :=
  foldr (fun v acc => vd_Size v * acc) 1 vars.

(** The strides of the spec: [stride[i]] is the product of the sizes of the
    variables after [i]. *)
Fixpoint suffix_counts (vars : list VarDef) : list Z :=
  match vars with
  | [] => []
  | _ :: rest => state_count rest :: suffix_counts rest
  end.

(** The value [Encode] multiplies by the stride. *)
Definition normalized (v : VarDef) (x : Z) : Z :=
  if VarType_eqb (vd_Type v) TypeInt then x - vd_Min v else x.

(** The encoding of a value in a state vector: 1 / 0 for a boolean stored
    in a bool variable, the integer itself otherwise. *)
Definition stored (v : VarDef) (val : Value) : Z :=
  match vd_Type v with
  | TypeBool => if Bool val then 1 else 0
  | _ => Int val
  end.

(** What [applyAssignments] does for the target [i] of a block applied to
    the pre-state [st]: the right-hand side [e] is evaluated on [st], its
    value passes the type and range checks of the variable, and [x] is the
    encoding of that value. *)
Definition assigns (cr : CompiledRegistry) (st : State) (i : Z) (e : Node) (x : Z) : Prop :=
  exists val vd,
    Eval (makeEnv cr st) e = Ok val /\
    elemZ (sch_Vars (cr_Schema cr)) i = Ok vd /\
    assigned_value st vd val = Ok x /\
    x = stored vd val.

(** *** First-match firing, in the words of the specification *)

(** Invariant [i] evaluates to true / to false at the state [st]. *)
Definition holds_at (cr : CompiledRegistry) (st : State) (i : nat) : Prop :=
  exists e, InvExprs cr !! i = Some e /\ EvalBool e (makeEnv cr st) = Ok true.

Definition violated_at (cr : CompiledRegistry) (st : State) (i : nat) : Prop :=
  exists e, InvExprs cr !! i = Some e /\ EvalBool e (makeEnv cr st) = Ok false.

(** [i] is the lowest index of an invariant that evaluates to false. *)
Definition first_violated (cr : CompiledRegistry) (st : State) (i : nat) : Prop :=
  violated_at cr st i /\ forall j, (j < i)%nat -> holds_at cr st j.

(** One firing: [cur] is not valid, and [next] is the encoding of the state
    obtained by applying, to the decoding of [cur], the repair of the
    lowest-index violated invariant. *)
Definition fires (cr : CompiledRegistry) (cur next : StateID) : Prop :=
  elemZ (Valid cr) cur = Ok false /\
  exists st i newSt,
    Decode (cr_Schema cr) cur = Ok st /\
    first_violated cr st i /\
    applyRepair cr i st = Ok newSt /\
    Encode (cr_Schema cr) newSt = Ok next.

(** [k] successive firings lead from [s] to [r]. *)
Inductive repairs_to (cr : CompiledRegistry) : nat -> StateID -> StateID -> Prop :=
  | repairs_refl s : repairs_to cr 0 s s
  | repairs_step k s s' r :
      fires cr s s' -> repairs_to cr k s' r -> repairs_to cr (S k) s r.

(** *** Built tables *)

(** The tables of [cr] are the ones [BuildTables] computes for it. *)
Definition tables_built (cr : CompiledRegistry) : Prop :=
  let n := sch_TotalLen (cr_Schema cr) in
  0 <= n /\
  length (Valid cr) = Z.to_nat n /\
  length (NF cr) = Z.to_nat n /\
  length (Step cr) = length (reg_Events (Reg cr)) /\
  (forall sid, 0 <= sid < n ->
     exists st b, Decode (cr_Schema cr) sid = Ok st /\
                  evalValid cr st = Ok b /\ elemZ (Valid cr) sid = Ok b) /\
  (forall sid, 0 <= sid < n ->
     exists nf, computeNF cr sid = Ok nf /\ elemZ (NF cr) sid = Ok nf) /\
  (forall ei evt, reg_Events (Reg cr) !! ei = Some evt ->
     exists row, Step cr !! ei = Some row /\ length row = Z.to_nat n /\
       forall sid, 0 <= sid < n ->
         exists x, BuildTables_Step_cell cr ei evt sid = Ok x /\ elemZ row sid = Ok x).

(** *** The WFC conditions *)

(** The two conditions of WFC at the state ID [s]: [Valid[NF[s]]] is true,
    and if [Valid[s]] then [NF[s] = s]. *)
Definition wfc_at (cr : CompiledRegistry) (s : StateID) : Prop :=
  exists nf valid,
    elemZ (NF cr) s = Ok nf /\
    elemZ (Valid cr) nf = Ok true /\
    elemZ (Valid cr) s = Ok valid /\
    (valid = true -> nf = s).

(** What [CheckWFC] reports at a state ID [s] that breaks a condition: the
    first diagnostic when [Valid[NF[s]]] is false, the second when
    [Valid[NF[s]]] and [Valid[s]] are true and [NF[s]] is not [s]; both
    print the decodings of [s] and of [NF[s]]. *)
Definition wfc_fails_at (cr : CompiledRegistry) (s : StateID) (f : WFCFailure) : Prop :=
  exists nf nfValid st nfSt,
    elemZ (NF cr) s = Ok nf /\ elemZ (Valid cr) nf = Ok nfValid /\
    Decode (cr_Schema cr) s = Ok st /\ Decode (cr_Schema cr) nf = Ok nfSt /\
    ((nfValid = false /\ f = NFNotValid st nfSt) \/
     (nfValid = true /\ elemZ (Valid cr) s = Ok true /\ nf <> s /\
      f = NotFixpoint st nfSt)).

(** *** The CC1 conditions *)

(** CC1 for the events [e1], [e2] at the state ID [s]: if [Step[e1][s]] or
    [Step[e2][s]] is -1 the state is skipped; otherwise, with
    [s1 = Step[e1][s]] and [s2 = Step[e2][s]], if [Step[e2][s1]] or
    [Step[e1][s2]] is -1 the state is skipped; otherwise
    [Step[e2][s1] = Step[e1][s2]]. *)
Definition cc1_at (cr : CompiledRegistry) (e1 e2 : nat) (s : StateID) : Prop :=
  exists row1 row2 s1 s2,
    Step cr !! e1 = Some row1 /\ Step cr !! e2 = Some row2 /\
    elemZ row1 s = Ok s1 /\ elemZ row2 s = Ok s2 /\
    (s1 = -1 \/ s2 = -1 \/
     exists r12 r21,
       elemZ row2 s1 = Ok r12 /\ elemZ row1 s2 = Ok r21 /\
       (r12 = -1 \/ r21 = -1 \/ r12 = r21)).

(** Neither event writes a variable that the other reads or writes. *)
Definition independent (a b : evtSets) : Prop :=
  (forall w, w ∈ writes a -> (w ∉ writes b) /\ (w ∉ reads b)) /\
  (forall w, w ∈ writes b -> (w ∉ writes a) /\ (w ∉ reads a)).

Definition independentb (sets : list evtSets) (p : nat * nat) : bool :=
  match isIndependent sets p.1 p.2 with
  | Ok b => b
  | Err _ => false
  end.

(** The pairs visited by the inner loop of CC1 for a fixed [e1], from [e2]
    on, and the pairs visited by the outer loop from [e1] on. *)
Definition pairs_row (e1 e2 count : nat) : list (nat * nat) :=
  (fun e => (e1, e)) <$> seq e2 count.

Fixpoint pairs_from (numEvts e1 count : nat) : list (nat * nat) :=
  match count with
  | O => []
  | S count' =>
      pairs_row e1 (S e1) (numEvts - S e1) ++ pairs_from numEvts (S e1) count'
  end.

(** The number of pairs of [l] that are independent / dependent. *)
Definition count_independent (sets : list evtSets) (l : list (nat * nat)) : Z :=
  Z.of_nat (length (List.filter (independentb sets) l)).

Definition count_dependent (sets : list evtSets) (l : list (nat * nat)) : Z :=
  Z.of_nat (length (List.filter (fun p => negb (independentb sets p)) l)).

(** The requirement of CC1 on one pair: if it is independent, the CC1
    condition holds at every state. *)
Definition cc1_pair (cr : CompiledRegistry) (sets : list evtSets) (e1 e2 : nat) : Prop :=
  independentb sets (e1, e2) = true ->
  forall s, 0 <= s < sch_TotalLen (cr_Schema cr) -> cc1_at cr e1 e2 s.

(** The pairs [(e1, e2)] with [e1 < e2 < numEvts], in the order of the two
    nested loops of CC1. *)
Definition event_pairs (numEvts : nat) : list (nat * nat) :=
  pairs_from numEvts 0 numEvts.

(** *** Renaming the target of a repair *)

(** The registry with the [invariant] field of the compensation entry at
    position [k] replaced by [name]. *)
Definition rename_repair (k : nat) (name : string) (reg : Registry) : Registry :=
  {| reg_Name := reg_Name reg;
     reg_Vars := reg_Vars reg;
     reg_Invariants := reg_Invariants reg;
     reg_Compensation :=
       alter (fun rep => {| rep_Invariant := name;
                            rep_Assignments := rep_Assignments rep |})
         k (reg_Compensation reg);
     reg_Events := reg_Events reg |}.

(** The compiled registry [cr] with its pointer to the source registry
    replaced. *)
Definition set_Reg (cr : CompiledRegistry) (reg : Registry) : CompiledRegistry :=
  {| Reg := reg; cr_Schema := cr_Schema cr; EnumLiterals := EnumLiterals cr;
     InvExprs := InvExprs cr; RepExprs := RepExprs cr; EvtGuards := EvtGuards cr;
     EvtExprs := EvtExprs cr; Valid := Valid cr; NF := NF cr; Step := Step cr |}.

(** Two results succeed together, with the same value; error values may
    differ. *)
Definition same_result {A} (r r' : res A) : Prop :=
  match r, r' with
  | Ok a, Ok b => a = b
  | Err _, Err _ => True
  | _, _ => False
  end.

(** *** Comparison operators *)

(** The token types of [==], [!=], [<], [<=], [>] and [>=]: the infix
    operators of precedence [precCompare]. *)
Definition is_comparison (t : TokenType) : bool :=
  let '(prec, _, ok) := infixInfo t in ok && (prec =? precCompare).

(** The node type [infixInfo] gives for an operator token. *)
Definition infix_node (t : TokenType) : NodeType :=
  let '(_, nt, _) := infixInfo t in nt.

(** *** The state-space error *)

(** [e] is not the error of the ceiling check of [Compile]. *)
Definition not_too_large (e : error) : Prop :=
  forall total limit, e <> ErrStateSpaceTooLarge total limit.

(** *** Progress of the parser *)

(** The number of tokens the parser has not consumed. *)
Definition parse_remaining (p : Parser) : nat :=
  length (p_tokens p) - p_pos p.

(** [p'] is [p] after at least one token of the list was consumed. *)
Definition advances (p p' : Parser) : Prop :=
  p_tokens p' = p_tokens p /\
  (p_pos p < length (p_tokens p))%nat /\ (p_pos p < p_pos p')%nat.

(** [p'] is [p] after zero or more tokens were consumed. *)
Definition keeps (p p' : Parser) : Prop :=
  p_tokens p' = p_tokens p /\ (p_pos p <= p_pos p')%nat.

(** The recursion budget suffices for every parsing function, and a
    successful call consumes input. *)
Definition parser_ok (fuel : nat) : Prop :=
  (forall minPrec p,
     ((3 * parse_remaining p + 3 <= fuel)%nat ->
      parseExpr fuel minPrec p <> Err OutOfFuel) /\
     (forall n p', parseExpr fuel minPrec p = Ok (n, p') -> advances p p')) /\
  (forall minPrec lhs p,
     ((3 * parse_remaining p + 1 <= fuel)%nat ->
      parseExpr_loop fuel minPrec lhs p <> Err OutOfFuel) /\
     (forall n p', parseExpr_loop fuel minPrec lhs p = Ok (n, p') -> keeps p p')) /\
  (forall p,
     ((3 * parse_remaining p + 2 <= fuel)%nat ->
      parseUnary fuel p <> Err OutOfFuel) /\
     (forall n p', parseUnary fuel p = Ok (n, p') -> advances p p')) /\
  (forall p,
     ((3 * parse_remaining p + 1 <= fuel)%nat ->
      parseAtom fuel p <> Err OutOfFuel) /\
     (forall n p', parseAtom fuel p = Ok (n, p') -> advances p p')) /\
  (forall name p,
     ((p_pos p < length (p_tokens p))%nat ->
      (3 * parse_remaining p + 2 <= fuel)%nat ->
      parseCall fuel name p <> Err OutOfFuel) /\
     (forall n p', parseCall fuel name p = Ok (n, p') -> advances p p')) /\
  (forall args p,
     ((3 * parse_remaining p + 4 <= fuel)%nat ->
      parseCall_loop fuel args p <> Err OutOfFuel) /\
     (forall a p', parseCall_loop fuel args p = Ok (a, p') -> advances p p')).

(** ** Example registries *)

Definition boolVar (name : string) : VarDef :=
  {| vd_Name := name; vd_Type := TypeBool; vd_Values := [];
     vd_Min := 0; vd_Max := 0; vd_Size := 2 |}.

Definition enumVar (name : string) (values : list string) : VarDef :=
  {| vd_Name := name; vd_Type := TypeEnum; vd_Values := values;
     vd_Min := 0; vd_Max := 0; vd_Size := Z.of_nat (length values) |}.

Definition intVar (name : string) (lo hi : Z) : VarDef :=
  {| vd_Name := name; vd_Type := TypeInt; vd_Values := [];
     vd_Min := lo; vd_Max := hi; vd_Size := wrap (hi - lo + 1) |}.

(** A small mixed schema: 2 * 3 * 4 = 24 states. *)
Definition mixed_vars : list VarDef :=
  [boolVar "flag"; enumVar "light" ["red"; "yellow"; "green"]; intVar "n" (-1) 2].

(** Three integer variables of 2^62 + 1 values each: the product of the
    sizes does not fit a machine integer. *)
Definition wide_vars : list VarDef :=
  [intVar "a" 0 (2 ^ 62); intVar "b" 0 (2 ^ 62); intVar "c" 0 (2 ^ 62)].

(** The permissions registry of the README: [can_write] needs [can_read];
    the repair revokes [can_write]. *)
Definition permissions : Registry :=
  {| reg_Name := "permissions";
     reg_Vars := [boolVar "can_read"; boolVar "can_write"];
     reg_Invariants := [mkInvariant "write_needs_read" "not can_write or can_read"];
     reg_Compensation := [mkRepair "write_needs_read" {[ "can_write" := "false" ]}];
     reg_Events :=
       [mkEvent "grant_read" "" {[ "can_read" := "true" ]};
        mkEvent "revoke_read" "" {[ "can_read" := "false" ]};
        mkEvent "grant_write" "" {[ "can_write" := "true" ]};
        mkEvent "revoke_write" "" {[ "can_write" := "false" ]}] |}.

(** A bounded counter with guarded events. *)
Definition counter : Registry :=
  {| reg_Name := "counter";
     reg_Vars := [intVar "n" 0 3];
     reg_Invariants := [mkInvariant "nonneg" "n >= 0"];
     reg_Compensation := [mkRepair "nonneg" {[ "n" := "0" ]}];
     reg_Events :=
       [mkEvent "inc" "n < 3" {[ "n" := "n + 1" ]};
        mkEvent "dec" "n > 0" {[ "n" := "n - 1" ]}] |}.

(** A registry with nothing in it, compiled by hand. *)
Definition empty_cr : CompiledRegistry :=
  {| Reg := {| reg_Name := ""; reg_Vars := []; reg_Invariants := [];
               reg_Compensation := []; reg_Events := [] |};
     cr_Schema := NewSchema [];
     EnumLiterals := ∅; InvExprs := []; RepExprs := []; EvtGuards := [];
     EvtExprs := []; Valid := []; NF := []; Step := [] |}.

(** The result of [Compile] on a registry it accepts. *)
Definition compiled (reg : Registry) : CompiledRegistry :=
  match Compile reg with
  | Ok cr => cr
  | Err _ => empty_cr
  end.

(** [Compile] followed by [BuildTables]. *)
Definition compile_and_build (reg : Registry) : res CompiledRegistry :=
  cr ← Compile reg; BuildTables cr.

Definition built (reg : Registry) : CompiledRegistry :=
  match compile_and_build reg with
  | Ok cr => cr
  | Err _ => empty_cr
  end.

Definition permissions_cr : CompiledRegistry := built permissions.
Definition counter_cr : CompiledRegistry := built counter.

(** The tables of the permissions registry with one entry of [NF]
    overwritten: the valid state 3 (read and write) is sent to state 0. *)
Definition permissions_broken : CompiledRegistry :=
  set_NF permissions_cr (<[3%nat := 0]> (NF permissions_cr)).

(** One invariant that never holds and a repair that changes nothing:
    normalization cannot terminate. *)
Definition looping : Registry :=
  {| reg_Name := "looping";
     reg_Vars := [boolVar "b"];
     reg_Invariants := [mkInvariant "never" "b and not b"];
     reg_Compensation := [mkRepair "never" ∅];
     reg_Events := [] |}.

(** Two integer variables of 2^32 values each and nothing else: the
    product of the sizes is 2^64. *)
Definition overflowing : Registry :=
  {| reg_Name := "overflowing";
     reg_Vars := [intVar "a" 0 4294967295; intVar "b" 0 4294967295];
     reg_Invariants := [];
     reg_Compensation := [];
     reg_Events := [] |}.

(** A single integer variable with [k] values and nothing else. *)
Definition one_int (k : Z) : Registry :=
  {| reg_Name := "one_int";
     reg_Vars := [intVar "n" 0 (k - 1)];
     reg_Invariants := [];
     reg_Compensation := [];
     reg_Events := [] |}.

(** The read and write sets [CheckCC] computes for the permissions
    registry. *)
Definition permissions_sets : list evtSets :=
  match mapM_from (CheckCC_sets permissions_cr) 0 (reg_Events (Reg permissions_cr)) with
  | Ok sets => sets
  | Err _ => []
  end.

(** ** More of package registry *)

(** [EnumIndex] (registry/types.go): the position of a literal in the
    value list of the variable [varIdx], or -1. *)
Fixpoint EnumIndex_loop (values : list string) (i : Z) (value : string) : Z :=
  match values with
  | [] => -1
  | v :: rest =>
      if String.eqb v value then i
      else EnumIndex_loop rest (i + 1) value
  end.

Definition EnumIndex (s : Schema) (varIdx : Z) (value : string) : res Z :=
  v ← elemZ (sch_Vars s) varIdx;
  Ok (EnumIndex_loop (vd_Values v) 0 value).

(** The raw form of a state variable as the YAML loader hands it to
    [parseVarDef] (registry/parse.go). *)
Record rawVar : Type := mkRawVar {
  rv_Type : string;
  rv_Values : list string;
  rv_Range : list Z
}.

(** The four error values of [parseVarDef]. *)
Inductive VarDefError : Type :=
  | ErrEnumNoValues (name : string)
  | ErrIntNeedsRange (name : string)
  | ErrIntEmptyRange (name : string) (lo hi : Z)
  | ErrUnknownType (ty name : string).

Definition parseVarDef (name : string) (rv : rawVar) : VarDef + VarDefError :=
  if String.eqb (rv_Type rv) "bool" then
    inl {| vd_Name := name; vd_Type := TypeBool; vd_Values := [];
           vd_Min := 0; vd_Max := 0; vd_Size := 2 |}
  else if String.eqb (rv_Type rv) "enum" then
    let size := Z.of_nat (length (rv_Values rv)) in
    if size =? 0 then inr (ErrEnumNoValues name)
    else inl {| vd_Name := name; vd_Type := TypeEnum; vd_Values := rv_Values rv;
                vd_Min := 0; vd_Max := 0; vd_Size := size |}
  else if String.eqb (rv_Type rv) "int" then
    match rv_Range rv with
    | [lo; hi] =>
        let size := wrap (wrap (hi - lo) + 1) in
        if size <=? 0 then inr (ErrIntEmptyRange name lo hi)
        else inl {| vd_Name := name; vd_Type := TypeInt; vd_Values := [];
                    vd_Min := lo; vd_Max := hi; vd_Size := size |}
    | _ => inr (ErrIntNeedsRange name)
    end
  else inr (ErrUnknownType (rv_Type rv) name).

(** ** Stats (package verify) *)

(** [for sid := 0; sid < cr.Schema.TotalLen; sid++] with the two counters
    of [Stats]. *)
Fixpoint Stats_loop (cr : CompiledRegistry) (sid : Z) (count : nat)
    (validCount invalidCount : Z) : res (Z * Z) :=
  match count with
  | O => Ok (validCount, invalidCount)
  | S count' =>
      v ← elemZ (Valid cr) sid;
      if v : bool
      then Stats_loop cr (sid + 1) count' (wrap (validCount + 1)) invalidCount
      else Stats_loop cr (sid + 1) count' validCount (wrap (invalidCount + 1))
  end.

Definition Stats (cr : CompiledRegistry) : res (Z * Z) :=
  Stats_loop cr 0 (Z.to_nat (sch_TotalLen (cr_Schema cr))) 0 0.

(** ** Vocabulary of the further properties *)

(** A value is a machine integer. *)
Definition is_int (z : Z) : Prop := MinInt <= z <= MaxInt.

(** The shape of the nodes the parser builds: a literal or a variable has
    no child, [not] has one, a binary operator two, [if] three, and a call
    names a builtin with its number of arguments. *)
Definition arity (ty : NodeType) (name : string) : option nat :=
  match ty with
  | NodeLitInt | NodeLitBool | NodeVar => Some 0%nat
  | NodeNot => Some 1%nat
  | NodeIf => Some 3%nat
  | NodeCall =>
      if String.eqb name "min" || String.eqb name "max" then Some 2%nat
      else if String.eqb name "clamp" then Some 3%nat
      else None
  | _ => Some 2%nat
  end.

Fixpoint well_formed (n : Node) : bool :=
  match n with
  | mkNode ty _ _ name children =>
      forallb well_formed children &&
      match arity ty name with
      | Some k => (length children =? k)%nat
      | None => false
      end
  end.

(** The state vector of an environment has a component for every
    variable of its schema. *)
Definition env_ok (env : Env) : Prop :=
  (length (sch_Vars (env_Schema env)) <= length (env_State env))%nat.

(** The value is tagged as exactly one of an integer and a boolean. *)
Definition tagged (v : Value) : Prop := IsInt v = negb (IsBool v).

(** CC2 for the event [ei] at the state ID [s]: if [Step[ei][s]] is -1 the
    state is skipped; otherwise, if [Step[ei][NF[s]]] is -1 the state is
    skipped; otherwise the two entries are equal. *)
Definition cc2_at (cr : CompiledRegistry) (ei : nat) (s : StateID) : Prop :=
  exists row stepRaw,
    Step cr !! ei = Some row /\ elemZ row s = Ok stepRaw /\
    (stepRaw = -1 \/
     exists nfID stepNF,
       elemZ (NF cr) s = Ok nfID /\ elemZ row nfID = Ok stepNF /\
       (stepNF = -1 \/ stepRaw = stepNF)).

(** [ident] occurs in [s] at the position [p]. *)
Definition occurs_at (s ident : list ascii) (p : nat) : Prop :=
  take (length ident) (drop p s) = ident.

(** The occurrence at [p] is a whole word: the byte before it and the byte
    after it, where there is one, are not identifier characters. *)
Definition whole_word_at (s ident : list ascii) (p : nat) : Prop :=
  occurs_at s ident p /\
  (p = 0%nat \/ exists b, s !! (p - 1)%nat = Some b /\ isIdentChar b = false) /\
  ((length s <= p + length ident)%nat \/
   exists b, s !! (p + length ident)%nat = Some b /\ isIdentChar b = false).

(** The enum literals of a variable list with their encodings, in the
    order [BuildEnumLiterals] visits them. *)
Definition enum_literals (vars : list VarDef) : list (string * Z) :=
  v ← vars;
  if VarType_eqb (vd_Type v) TypeEnum
  then imap (fun i lit => (lit, Z.of_nat i)) (vd_Values v)
  else [].

(** The number of [true] entries of a table. *)
Definition count_true (l : list bool) : Z :=
  Z.of_nat (length (List.filter (fun b : bool => b) l)).

(** A registry [Compile] and [BuildTables] are meant for: every variable
    has a name and a non-empty domain of the declared size, and the
    number of states fits a machine integer. *)
Definition Registry_ok (reg : Registry) : Prop :=
  Forall VarDef_ok (reg_Vars reg) /\
  Forall (fun v => vd_Name v <> "") (reg_Vars reg) /\
  state_count (reg_Vars reg) <= MaxInt.

(** ** Further examples *)

(** The literal map of the schema [mixed_vars]. *)
Definition mixed_literals : gmap string Z :=
  match BuildEnumLiterals (NewSchema mixed_vars) with
  | Ok m => m
  | Err _ => ∅
  end.

(** The node types whose value is always a boolean, and those whose value
    is always an integer. *)
Definition bool_node (ty : NodeType) : bool :=
  match ty with
  | NodeLitBool | NodeNot | NodeAnd | NodeOr
  | NodeEq | NodeNeq | NodeLt | NodeLe | NodeGt | NodeGe => true
  | _ => false
  end.

Definition int_node (ty : NodeType) : bool :=
  match ty with
  | NodeLitInt | NodeAdd | NodeSub | NodeMul | NodeDiv | NodeMod => true
  | _ => false
  end.

(** The binary operators of the language. *)
Definition binary_node (ty : NodeType) : bool :=
  match ty with
  | NodeAnd | NodeOr | NodeEq | NodeNeq | NodeLt | NodeLe | NodeGt | NodeGe
  | NodeAdd | NodeSub | NodeMul | NodeDiv | NodeMod => true
  | _ => false
  end.

(** The result is not a run-time panic. *)
Definition no_panic {A} (r : res A) : Prop :=
  match r with
  | Err Panic => False
  | _ => True
  end.

(** No parsing function panics, and the nodes they return have the shape
    [well_formed]. *)
Definition parser_wf (fuel : nat) : Prop :=
  (forall minPrec p,
     no_panic (parseExpr fuel minPrec p) /\
     (forall n p', parseExpr fuel minPrec p = Ok (n, p') -> well_formed n = true)) /\
  (forall minPrec lhs p,
     no_panic (parseExpr_loop fuel minPrec lhs p) /\
     (well_formed lhs = true ->
      forall n p', parseExpr_loop fuel minPrec lhs p = Ok (n, p') ->
                   well_formed n = true)) /\
  (forall p,
     no_panic (parseUnary fuel p) /\
     (forall n p', parseUnary fuel p = Ok (n, p') -> well_formed n = true)) /\
  (forall p,
     no_panic (parseAtom fuel p) /\
     (forall n p', parseAtom fuel p = Ok (n, p') -> well_formed n = true)) /\
  (forall name p,
     no_panic (parseCall fuel name p) /\
     (isBuiltin name = true ->
      forall n p', parseCall fuel name p = Ok (n, p') -> well_formed n = true)) /\
  (forall args p,
     no_panic (parseCall_loop fuel args p) /\
     (forallb well_formed args = true ->
      forall a p', parseCall_loop fuel args p = Ok (a, p') ->
                   forallb well_formed a = true)).

(** The precedence [infixInfo] gives for a token, and whether the token
    is an infix operator at all. *)
Definition infix_prec (t : TokenType) : Z :=
  let '(prec, _, _) := infixInfo t in prec.

Definition is_infix (t : TokenType) : bool :=
  let '(_, _, ok) := infixInfo t in ok.

(** The tokens [ts] account for the input from position [i] on: each
    token is a non-empty stretch of the input that starts at its [Pos],
    the tokens follow one another in order without overlap, and every
    byte between and after them is white space. *)
Fixpoint tokens_cover (input : list ascii) (i : nat) (ts : list Token) : Prop :=
  match ts with
  | [] => forall j ch, (i <= j)%nat -> input !! j = Some ch -> IsSpace ch = true
  | t :: ts' =>
      exists pos,
        tok_Pos t = Z.of_nat pos /\ (i <= pos)%nat /\
        (forall j ch, (i <= j < pos)%nat -> input !! j = Some ch -> IsSpace ch = true) /\
        tok_Type t <> TokEOF /\ tok_Val t <> "" /\
        (pos + String.length (tok_Val t) <= length input)%nat /\
        slice input pos (pos + String.length (tok_Val t)) = tok_Val t /\
        tokens_cover input (pos + String.length (tok_Val t)) ts'
  end.

(** A compiled block of assignments: every target is a position of the
    variable list and every right-hand side has the shape the parser
    builds. *)
Definition assignments_ok (vars : list VarDef) (m : gmap Z Node) : Prop :=
  forall idx node, m !! idx = Some node ->
    0 <= idx < Z.of_nat (length vars) /\ well_formed node = true.

(** What [Compile] establishes about the compiled expressions: they are
    aligned with the lists of the registry, and each of them is well
    formed. *)
Definition compiled_ok (cr : CompiledRegistry) : Prop :=
  length (InvExprs cr) = length (reg_Invariants (Reg cr)) /\
  length (RepExprs cr) = length (reg_Compensation (Reg cr)) /\
  length (EvtGuards cr) = length (reg_Events (Reg cr)) /\
  length (EvtExprs cr) = length (reg_Events (Reg cr)) /\
  Forall (fun e => well_formed e = true) (InvExprs cr) /\
  Forall (assignments_ok (sch_Vars (cr_Schema cr))) (RepExprs cr) /\
  Forall (fun g => match g with Some e => well_formed e = true | None => True end)
    (EvtGuards cr) /\
  Forall (assignments_ok (sch_Vars (cr_Schema cr))) (EvtExprs cr).

(** *** Variables read by an expression *)

(** The names of the variable nodes of a tree. *)
Fixpoint node_vars (n : Node) : list string :=
  match n with
  | mkNode ty _ _ name children =>
      match ty with
      | NodeVar => [name]
      | _ => []
      end ++ flat_map node_vars children
  end.

(** The bytes the lexer takes into an identifier. *)
Definition word_char (c : ascii) : bool :=
  IsLetter c || IsDigit c || is_underscore c.

(** Identifiers and keywords; operators and punctuation. *)
Definition is_word_token (ty : TokenType) : bool :=
  match ty with
  | TokIdent | TokTrue | TokFalse | TokNot | TokAnd | TokOr
  | TokIf | TokThen | TokElse => true
  | _ => false
  end.

Definition is_symbol_token (ty : TokenType) : bool :=
  match ty with
  | TokEq | TokNeq | TokLt | TokLe | TokGt | TokGe
  | TokPlus | TokMinus | TokStar | TokSlash | TokPercent
  | TokLParen | TokRParen | TokComma => true
  | _ => false
  end.

(** The tokens after which the parser starts an operand. *)
Definition starts_operand (ty : TokenType) : bool :=
  match ty with
  | TokNot | TokAnd | TokOr | TokIf | TokThen | TokElse
  | TokEq | TokNeq | TokLt | TokLe | TokGt | TokGe
  | TokPlus | TokMinus | TokStar | TokSlash | TokPercent
  | TokLParen | TokComma => true
  | _ => false
  end.

(** What the lexer guarantees about the token [t] found at [pos]: a word
    starts with a word byte and is not followed by one (the longest match
    is taken); an operator ends with a byte that is not an identifier
    character. *)
Definition token_class (input : list ascii) (t : Token) (pos : nat) : Prop :=
  let stop := (pos + String.length (tok_Val t))%nat in
  (is_word_token (tok_Type t) = true ->
   (exists c, input !! pos = Some c /\ word_char c = true) /\
   (forall c, input !! stop = Some c -> word_char c = false)) /\
  (is_symbol_token (tok_Type t) = true ->
   exists c, input !! (stop - 1)%nat = Some c /\ isIdentChar c = false).

(** [tokens_cover] together with the class of each token. *)
Fixpoint tokens_lexed (input : list ascii) (i : nat) (ts : list Token) : Prop :=
  match ts with
  | [] => True
  | t :: ts' =>
      exists pos,
        tok_Pos t = Z.of_nat pos /\ (i <= pos)%nat /\
        (forall j ch, (i <= j < pos)%nat -> input !! j = Some ch -> IsSpace ch = true) /\
        tok_Val t <> "" /\
        (pos + String.length (tok_Val t) <= length input)%nat /\
        slice input pos (pos + String.length (tok_Val t)) = tok_Val t /\
        token_class input t pos /\
        tokens_lexed input (pos + String.length (tok_Val t)) ts'
  end.

(** The parser is about to read an operand: it is at the first token or
    just after a token that starts an operand. *)
Definition operand_pos (p : Parser) : Prop :=
  p_pos p = 0%nat \/
  exists t, p_tokens p !! (p_pos p - 1)%nat = Some t /\
            starts_operand (tok_Type t) = true.

(** [name] is the value of an identifier token read as an operand. *)
Definition operand_ident (tokens : list Token) (name : string) : Prop :=
  exists k t,
    tokens !! k = Some t /\ tok_Type t = TokIdent /\ tok_Val t = name /\
    (k = 0%nat \/
     exists t', tokens !! (k - 1)%nat = Some t' /\ starts_operand (tok_Type t') = true).

(** Every variable of the tree is an identifier token read as an operand. *)
Definition vars_from (tokens : list Token) (n : Node) : Prop :=
  forall name, name ∈ node_vars n -> operand_ident tokens name.

(** The variables of the trees the parsing functions return come from
    identifier tokens in operand position. *)
Definition parser_src (fuel : nat) : Prop :=
  (forall minPrec p n p',
     operand_pos p -> parseExpr fuel minPrec p = Ok (n, p') ->
     vars_from (p_tokens p) n) /\
  (forall minPrec lhs p n p',
     vars_from (p_tokens p) lhs ->
     parseExpr_loop fuel minPrec lhs p = Ok (n, p') -> vars_from (p_tokens p) n) /\
  (forall p n p',
     operand_pos p -> parseUnary fuel p = Ok (n, p') -> vars_from (p_tokens p) n) /\
  (forall p n p',
     operand_pos p -> parseAtom fuel p = Ok (n, p') -> vars_from (p_tokens p) n) /\
  (forall name p n p',
     tok_Type (peek p) = TokLParen ->
     parseCall fuel name p = Ok (n, p') -> vars_from (p_tokens p) n) /\
  (forall args p a p',
     operand_pos p -> Forall (vars_from (p_tokens p)) args ->
     parseCall_loop fuel args p = Ok (a, p') -> Forall (vars_from (p_tokens p)) a).

(** Two bounded counters; each event reads and writes its own counter. *)
Definition two_counters : Registry :=
  {| reg_Name := "two_counters";
     reg_Vars := [intVar "n" 0 3; intVar "m" 0 3];
     reg_Invariants := [];
     reg_Compensation := [];
     reg_Events :=
       [mkEvent "inc_n" "n < 3" {[ "n" := "n + 1" ]};
        mkEvent "inc_m" "m < 3" {[ "m" := "m + 1" ]}] |}.

(** The sets [CheckCC] computes for the event at [ei]. *)
Definition event_sets (cr : CompiledRegistry) (ei : nat) (evt : Event) : evtSets :=
  match CheckCC_sets cr ei evt with
  | Ok s => s
  | Err _ => {| writes := ∅; reads := ∅ |}
  end.

(** * Properties *)

(** ** Machine integers *)

Lemma wrap_small z : MinInt <= z <= MaxInt -> wrap z = z.
Proof.
  unfold wrap, MinInt, MaxInt. intros H.
  rewrite Z.mod_small by lia. lia.
Qed.

Lemma wrap_range z : MinInt <= wrap z <= MaxInt.
Proof.
  unfold wrap, MinInt, MaxInt.
  pose proof (Z.mod_pos_bound (z + 2 ^ 63) (2 ^ 64) ltac:(lia)). lia.
Qed.

Lemma wrap_eqm a b : (a - b) mod 2 ^ 64 = 0 -> wrap a = wrap b.
Proof.
  intros H. unfold wrap. f_equal.
  replace (a + 2 ^ 63) with ((b + 2 ^ 63) + (a - b)) by lia.
  rewrite Z.add_mod by lia. rewrite H, Z.add_0_r. apply Z.mod_mod. lia.
Qed.

Lemma wrap_congr z : (wrap z - z) mod 2 ^ 64 = 0.
Proof.
  unfold wrap.
  rewrite (Z.mod_eq (z + 2 ^ 63) (2 ^ 64)) by lia.
  replace (z + 2 ^ 63 - 2 ^ 64 * ((z + 2 ^ 63) / 2 ^ 64) - 2 ^ 63 - z)
    with ((- ((z + 2 ^ 63) / 2 ^ 64)) * 2 ^ 64) by lia.
  apply Z.mod_mul. lia.
Qed.

Lemma wrap_add_sub q m : wrap (wrap (q + m) - m) = wrap q.
Proof.
  apply wrap_eqm.
  replace (wrap (q + m) - m - q) with (wrap (q + m) - (q + m)) by lia.
  apply wrap_congr.
Qed.

Lemma wrap_sub_add x m : wrap (wrap (x - m) + m) = wrap x.
Proof.
  apply wrap_eqm.
  replace (wrap (x - m) + m - x) with (wrap (x - m) - (x - m)) by lia.
  apply wrap_congr.
Qed.

Lemma wrap_0 : wrap 0 = 0.
Proof. reflexivity. Qed.

(** ** Schema and state codec *)

Lemma elem_drop {A} (l : list A) i x l' :
  drop i l = x :: l' -> elem l i = Ok x /\ drop (S i) l = l'.
Proof.
  intros H. split.
  - unfold elem. replace (l !! i) with (drop i l !! 0%nat).
    + rewrite H. reflexivity.
    + rewrite lookup_drop. f_equal. lia.
  - replace (S i) with (i + 1)%nat by lia.
    rewrite <- drop_drop, H. reflexivity.
Qed.

Lemma quot_bounds a b :
  0 <= a -> b <> 0 ->
  0 <= Z.quot a b * b <= a /\ - a <= Z.quot a b <= a /\ 0 <= Z.rem a b.
Proof.
  intros Ha Hb.
  pose proof (Z.mul_quot_le a b Ha Hb) as H.
  pose proof (Z.rem_nonneg a b Hb Ha).
  repeat split; try lia; nia.
Qed.

(** Decoding then encoding along the tail of a schema: the strides need
    only be non-zero and end in 1. *)
Lemma Encode_Decode_loop (s : Schema) :
  forall vars ss i rem id0,
    drop i (sch_Vars s) = vars -> drop i (sch_Strides s) = ss ->
    length ss = length vars ->
    Forall (fun x => x <> 0) ss ->
    (ss = [] \/ last ss = Some 1) ->
    (ss = [] -> rem = 0) ->
    0 <= rem -> 0 <= id0 -> id0 + rem <= MaxInt ->
    exists st, Decode_loop s i vars rem = Ok st /\ length st = length vars /\
               Encode_loop s i st id0 = Ok (id0 + rem).
Proof.
  induction vars as [|vd vars IH]; intros ss i rem id0 Hv Hs Hlen Hnz Hlast H0 Hrem Hid Hmax.
  - destruct ss; [|discriminate]. rewrite (H0 eq_refl).
    exists []. simpl. rewrite Z.add_0_r. auto.
  - destruct ss as [|stride ss]; [discriminate|].
    apply elem_drop in Hv as [Hvd Hv]. apply elem_drop in Hs as [Hst Hs].
    inversion Hnz as [|? ? Hstride Hnz']; subst.
    destruct (quot_bounds rem stride Hrem Hstride) as (Hq1 & Hq2 & Hr).
    assert (Hqw : wrap (Z.quot rem stride) = Z.quot rem stride).
    { apply wrap_small. unfold MinInt, MaxInt in *. lia. }
    assert (Hrem' : Z.rem rem stride = rem - Z.quot rem stride * stride).
    { pose proof (Z.quot_rem' rem stride). lia. }
    remember (drop (S i) (sch_Strides s)) as ss' eqn:Ess.
    assert (Hlen' : length ss' = length (drop (S i) (sch_Vars s))).
    { simpl in Hlen. lia. }
    assert (Hlast' : ss' = [] \/ last ss' = Some 1).
    { destruct ss' as [|s1 ss1]; [auto|].
      right. destruct Hlast as [|Hlast]; [discriminate|].
      rewrite last_cons_cons in Hlast. exact Hlast. }
    assert (H0' : ss' = [] -> Z.rem rem stride = 0).
    { intros E. rewrite E in Hlast. destruct Hlast as [|Hlast]; [discriminate|].
      simpl in Hlast. inversion Hlast; subst. apply Z.rem_1_r. }
    destruct (IH ss' (S i) (Z.rem rem stride) (id0 + Z.quot rem stride * stride)
                eq_refl (eq_sym Ess) Hlen' Hnz' Hlast' H0' Hr ltac:(lia) ltac:(lia))
      as (st & Hd & Hl & He).
    eexists. simpl. rewrite Hst. simpl.
      destruct (stride =? 0) eqn:Ez; [lia|].
      rewrite Hd. simpl. split; [reflexivity|]. split; [simpl; lia|].
      simpl. rewrite Hvd. simpl. rewrite Hst. simpl. rewrite Hqw.
      assert (Hval : (if VarType_eqb (vd_Type vd) TypeInt
                      then wrap ((if VarType_eqb (vd_Type vd) TypeInt
                                  then wrap (Z.quot rem stride + vd_Min vd)
                                  else Z.quot rem stride) - vd_Min vd)
                      else (if VarType_eqb (vd_Type vd) TypeInt
                            then wrap (Z.quot rem stride + vd_Min vd)
                            else Z.quot rem stride)) = Z.quot rem stride).
      { destruct (VarType_eqb (vd_Type vd) TypeInt); [|reflexivity].
        rewrite wrap_add_sub. exact Hqw. }
      rewrite Hval.
      rewrite (wrap_small (Z.quot rem stride * stride)) by (unfold MinInt, MaxInt in *; lia).
      rewrite wrap_small by (unfold MinInt, MaxInt in *; lia).
      rewrite He. f_equal. lia.
Qed.

Lemma NewSchema_loop_length vars : length (NewSchema_loop vars).1 = length vars.
Proof.
  induction vars as [|v vars IH]; [reflexivity|].
  simpl. destruct (NewSchema_loop vars). simpl in *. lia.
Qed.

Lemma NewSchema_loop_nonzero vars :
  (NewSchema_loop vars).2 <> 0 -> Forall (fun x => x <> 0) (NewSchema_loop vars).1.
Proof.
  induction vars as [|v vars IH]; [constructor|].
  simpl. destruct (NewSchema_loop vars) as [ss t]. simpl in *.
  intros H. assert (t <> 0) by (intros ->; apply H; reflexivity).
  constructor; auto.
Qed.

Lemma NewSchema_loop_last vars :
  (NewSchema_loop vars).1 = [] \/ last (NewSchema_loop vars).1 = Some 1.
Proof.
  induction vars as [|v vars IH]; [left; reflexivity|].
  right. simpl. destruct (NewSchema_loop vars) as [ss t] eqn:E. simpl in *.
  destruct vars as [|v' vars].
  - simpl in E. inversion E. reflexivity.
  - destruct IH as [IH|IH].
    + pose proof (NewSchema_loop_length (v' :: vars)) as L.
      rewrite E in L. simpl in L. subst ss. discriminate.
    + destruct ss; [discriminate|]. rewrite last_cons_cons. exact IH.
Qed.

Lemma NewSchema_fields vars :
  sch_Vars (NewSchema vars) = vars /\
  sch_Strides (NewSchema vars) = (NewSchema_loop vars).1 /\
  sch_TotalLen (NewSchema vars) = (NewSchema_loop vars).2.
Proof. unfold NewSchema. destruct (NewSchema_loop vars). auto. Qed.

Lemma NewSchema_loop_empty vars :
  (NewSchema_loop vars).1 = [] -> (NewSchema_loop vars).2 = 1.
Proof.
  destruct vars; [reflexivity|]. simpl. destruct (NewSchema_loop vars). discriminate.
Qed.

(** Every state ID of a schema decodes, and the decoded state encodes back
    to it; no assumption on the sizes is needed. *)
Lemma Encode_Decode vars id :
  0 <= id < sch_TotalLen (NewSchema vars) ->
  exists st, Decode (NewSchema vars) id = Ok st /\ length st = length vars /\
             Encode (NewSchema vars) st = Ok id.
Proof.
  intros Hid.
  destruct (NewSchema_fields vars) as (Hv & Hs & Ht).
  pose proof (wrap_range 0) as _.
  assert (Hmax : id <= MaxInt).
  { rewrite Ht in Hid. destruct vars as [|v vars]; simpl in Hid.
    - unfold MaxInt. lia.
    - destruct (NewSchema_loop vars) as [ss t]. simpl in Hid.
      pose proof (wrap_range (t * vd_Size v)). lia. }
  unfold Decode, Encode.
  destruct (Encode_Decode_loop (NewSchema vars) (sch_Vars (NewSchema vars))
              (sch_Strides (NewSchema vars)) 0 id 0) as (st & Hd & Hl & He);
    auto; try lia.
  - rewrite Hs, Hv. apply NewSchema_loop_length.
  - rewrite Hs. apply NewSchema_loop_nonzero. rewrite <- Ht. lia.
  - rewrite Hs. apply NewSchema_loop_last.
  - rewrite Hs. intros E. apply NewSchema_loop_empty in E. rewrite <- Ht in E. lia.
  - exists st. rewrite Hv in Hl. rewrite Z.add_0_l in He. auto.
Qed.

Lemma state_count_cons v vars :
  state_count (v :: vars) = vd_Size v * state_count vars.
Proof. reflexivity. Qed.

Lemma state_count_pos vars :
  Forall VarDef_ok vars -> 0 < state_count vars.
Proof.
  induction 1 as [|v vars [Hv _] _ IH]; simpl; [lia|]. nia.
Qed.

Lemma state_count_cons_le v vars :
  Forall VarDef_ok (v :: vars) ->
  state_count vars <= state_count (v :: vars) /\
  vd_Size v <= state_count (v :: vars).
Proof.
  intros H. inversion H as [|? ? [Hv _] Hvars]; subst.
  pose proof (state_count_pos vars Hvars). simpl. nia.
Qed.

(** Without overflow [NewSchema] computes the strides and the total of the
    spec. *)
Lemma NewSchema_loop_exact vars :
  Forall VarDef_ok vars -> state_count vars <= MaxInt ->
  NewSchema_loop vars = (suffix_counts vars, state_count vars).
Proof.
  induction vars as [|v vars IH]; intros Hok Hmax; [reflexivity|].
  destruct (state_count_cons_le v vars Hok) as [Hle _].
  inversion Hok as [|? ? [Hv _] Hvars]; subst.
  pose proof (state_count_pos vars Hvars) as Hpos.
  simpl. rewrite IH by (auto; lia). f_equal.
  rewrite wrap_small; [lia|].
  simpl in Hmax. unfold MinInt, MaxInt in *. nia.
Qed.

Lemma normalized_range v x :
  VarDef_ok v -> in_domain v x -> 0 <= normalized v x < vd_Size v.
Proof.
  unfold VarDef_ok, in_domain, normalized.
  destruct (vd_Type v); simpl; lia.
Qed.

Lemma in_domain_denormalize v x :
  VarDef_ok v -> in_domain v x ->
  (if VarType_eqb (vd_Type v) TypeInt then wrap (normalized v x + vd_Min v)
   else normalized v x) = x.
Proof.
  unfold VarDef_ok, in_domain, normalized.
  destruct (vd_Type v); simpl; try reflexivity.
  intros (_ & ? & ? & _) ?. rewrite wrap_small; lia.
Qed.

Lemma quot_rem_digit a b r :
  0 <= a -> 0 <= r < b -> Z.quot (a * b + r) b = a /\ Z.rem (a * b + r) b = r.
Proof.
  intros Ha Hr.
  assert (Hq : Z.quot (a * b + r) b = a).
  { rewrite Z.quot_div_nonneg by nia.
    rewrite Z.div_add_l by lia. rewrite Z.div_small by lia. lia. }
  split; [exact Hq|].
  pose proof (Z.quot_rem' (a * b + r) b). rewrite Hq in *. lia.
Qed.

(** Encoding then decoding along the tail of a schema whose strides are the
    exact products. *)
Lemma Decode_Encode_loop (s : Schema) :
  forall vars st, valid_vector vars st -> Forall VarDef_ok vars ->
  forall i id0,
    drop i (sch_Vars s) = vars -> drop i (sch_Strides s) = suffix_counts vars ->
    0 <= id0 -> id0 + state_count vars - 1 <= MaxInt ->
    exists r, 0 <= r < state_count vars /\
              Encode_loop s i st id0 = Ok (id0 + r) /\
              Decode_loop s i vars r = Ok st.
Proof.
  induction 1 as [|vd x vars st Hdom Hvec IH]; intros Hok i id0 Hv Hs Hid Hmax.
  - exists 0. simpl. rewrite Z.add_0_r. repeat split; lia.
  - apply elem_drop in Hv as [Hvd Hv]. simpl in Hs. apply elem_drop in Hs as [Hst Hs].
    destruct (state_count_cons_le vd vars Hok) as [Hle1 Hle2].
    inversion Hok as [|? ? Hvdok Hvars]; subst.
    pose proof (state_count_pos _ Hvars) as Hpos.
    pose proof (normalized_range vd x Hvdok Hdom) as Hn.
    set (stride := state_count (drop (S i) (sch_Vars s))) in *.
    set (n := normalized vd x) in *.
    assert (Hmul : 0 <= n * stride /\ n * stride + stride <= vd_Size vd * stride) by nia.
    assert (Hsz : vd_Size vd <= vd_Size vd * stride) by nia.
    rewrite state_count_cons in Hmax. fold stride in Hmax.
    destruct (IH Hvars (S i) (id0 + n * stride) eq_refl Hs ltac:(lia) ltac:(fold stride; lia))
      as (r' & Hr' & He & Hd).
    fold stride in Hr'.
    exists (n * stride + r'). split; [rewrite state_count_cons; fold stride; nia|]. split.
    + simpl. rewrite Hvd. simpl. rewrite Hst. simpl.
      assert (Hval : (if VarType_eqb (vd_Type vd) TypeInt then wrap (x - vd_Min vd) else x) = n).
      { subst n. unfold normalized.
        destruct (VarType_eqb (vd_Type vd) TypeInt) eqn:E; [|reflexivity].
        apply wrap_small. unfold normalized in Hn. rewrite E in Hn.
        unfold MinInt, MaxInt in *. lia. }
      rewrite Hval.
      rewrite (wrap_small (n * stride)) by (unfold MinInt, MaxInt in *; lia).
      rewrite wrap_small by (unfold MinInt, MaxInt in *; lia).
      rewrite He. f_equal. lia.
    + simpl. rewrite Hst. simpl.
      destruct (stride =? 0) eqn:Ez; [lia|].
      destruct (quot_rem_digit n stride r' ltac:(lia) Hr') as [Hq Hrm].
      rewrite Hq, Hrm, Hd. simpl.
      rewrite (wrap_small n) by (unfold MinInt, MaxInt in *; lia).
      subst n. rewrite in_domain_denormalize by assumption. reflexivity.
Qed.

(** Decoding yields a state vector with every component in its domain. *)
Lemma Decode_loop_valid (s : Schema) :
  forall vars, Forall VarDef_ok vars ->
  forall i rem st,
    drop i (sch_Strides s) = suffix_counts vars ->
    state_count vars <= MaxInt ->
    0 <= rem < state_count vars ->
    Decode_loop s i vars rem = Ok st -> valid_vector vars st.
Proof.
  induction 1 as [|vd vars Hvd Hvars IH]; intros i rem st Hs Hmax Hrem Hd.
  - simpl in Hd. inversion Hd. constructor.
  - simpl in Hs. apply elem_drop in Hs as [Hst Hs].
    pose proof (state_count_pos _ Hvars) as Hpos.
    simpl in Hd. rewrite Hst in Hd. simpl in Hd.
    set (stride := state_count vars) in *.
    destruct (stride =? 0) eqn:Ez; [lia|].
    destruct (Decode_loop s (S i) vars (Z.rem rem stride)) as [rest|] eqn:Hrest;
      simpl in Hd; [|discriminate].
    inversion Hd; subst st; clear Hd.
    rewrite state_count_cons in Hrem, Hmax. fold stride in Hrem, Hmax.
    assert (Hq : 0 <= Z.quot rem stride < vd_Size vd).
    { rewrite Z.quot_div_nonneg by lia. split; [apply Z.div_pos; lia|].
      apply Z.div_lt_upper_bound; lia. }
    assert (Hr : 0 <= Z.rem rem stride < stride).
    { rewrite Z.rem_mod_nonneg by lia. apply Z.mod_pos_bound. lia. }
    destruct Hvd as [Hsz Hty].
    assert (Hszmax : vd_Size vd <= MaxInt) by nia.
    rewrite (wrap_small (Z.quot rem stride)) by (unfold MinInt, MaxInt in *; lia).
    constructor.
    + unfold in_domain. destruct (vd_Type vd); simpl.
      * lia.
      * lia.
      * destruct Hty as (? & ? & ?). rewrite wrap_small; lia.
    + eapply IH; eauto. fold stride. nia.
Qed.

(** C8 (amended). The state codec is a bijection between the state IDs
    [0, total) and the state vectors whose components lie in their
    variables' domains, for every schema whose variables have non-empty
    domains of the declared size and whose number of states (the product
    of the sizes) fits a machine integer: [Decode] of an ID is such a
    vector and encodes back to the ID, and [Encode] of such a vector is an
    ID below the total that decodes back to the vector. *)
Theorem codec_bijection (vars : list VarDef) :
  Forall VarDef_ok vars ->
  state_count vars <= MaxInt ->
  sch_TotalLen (NewSchema vars) = state_count vars /\
  (forall id, 0 <= id < sch_TotalLen (NewSchema vars) ->
     exists st, Decode (NewSchema vars) id = Ok st /\ valid_vector vars st /\
                Encode (NewSchema vars) st = Ok id) /\
  (forall v, valid_vector vars v ->
     exists id, Encode (NewSchema vars) v = Ok id /\
                0 <= id < sch_TotalLen (NewSchema vars) /\
                Decode (NewSchema vars) id = Ok v).
Proof.
  intros Hok Hmax.
  destruct (NewSchema_fields vars) as (Hv & Hs & Ht).
  pose proof (NewSchema_loop_exact vars Hok Hmax) as Hex.
  rewrite Hex in Hs, Ht. simpl in Hs, Ht.
  split; [exact Ht|]. split.
  - intros id Hid.
    destruct (Encode_Decode vars id Hid) as (st & Hd & _ & He).
    exists st. repeat split; auto.
    unfold Decode in Hd. rewrite Hv in Hd.
    eapply (Decode_loop_valid (NewSchema vars) vars Hok 0 id); eauto.
    rewrite <- Ht. exact Hid.
  - intros v Hvec.
    destruct (Decode_Encode_loop (NewSchema vars) vars v Hvec Hok 0 0)
      as (r & Hr & He & Hd); auto; try lia.
    exists r. rewrite Z.add_0_l in He. unfold Encode, Decode.
    rewrite Hv, Ht. auto.
Qed.

(** The statement at a schema of one bool, one enum and one int. *)
Lemma codec_bijection_witness :
  sch_TotalLen (NewSchema mixed_vars) = state_count mixed_vars /\
  (forall id, 0 <= id < sch_TotalLen (NewSchema mixed_vars) ->
     exists st, Decode (NewSchema mixed_vars) id = Ok st /\
                valid_vector mixed_vars st /\
                Encode (NewSchema mixed_vars) st = Ok id) /\
  (forall v, valid_vector mixed_vars v ->
     exists id, Encode (NewSchema mixed_vars) v = Ok id /\
                0 <= id < sch_TotalLen (NewSchema mixed_vars) /\
                Decode (NewSchema mixed_vars) id = Ok v).
Proof.
  apply (codec_bijection mixed_vars).
  - repeat constructor; vm_compute; congruence.
  - vm_compute. congruence.
Defined.

(** C8, as stated, fails when the product of the sizes overflows: every
    size of [wide_vars] is positive and [0; 2^62; 0] lies in the domains,
    yet it encodes to an ID that decodes to another vector. *)
Lemma codec_overflow_counterexample :
  Forall VarDef_ok wide_vars /\
  valid_vector wide_vars [0; 2 ^ 62; 0] /\
  Encode (NewSchema wide_vars) [0; 2 ^ 62; 0] = Ok (2 ^ 62) /\
  Decode (NewSchema wide_vars) (2 ^ 62) = Ok [0; 0; 2 ^ 62] /\
  ~ (exists id, Encode (NewSchema wide_vars) [0; 2 ^ 62; 0] = Ok id /\
                Decode (NewSchema wide_vars) id = Ok [0; 2 ^ 62; 0]).
Proof.
  assert (He : Encode (NewSchema wide_vars) [0; 2 ^ 62; 0] = Ok (2 ^ 62))
    by (vm_compute; reflexivity).
  assert (Hd : Decode (NewSchema wide_vars) (2 ^ 62) = Ok [0; 0; 2 ^ 62])
    by (vm_compute; reflexivity).
  split; [repeat constructor; vm_compute; congruence|].
  split; [repeat constructor; vm_compute; congruence|].
  split; [exact He|]. split; [exact Hd|].
  intros (id & He' & Hd'). rewrite He in He'. inversion He'; subst id.
  rewrite Hd in Hd'. discriminate.
Qed.

(** ** Slices *)

Lemma elemZ_Ok {A} (l : list A) i x :
  elemZ l i = Ok x <-> 0 <= i /\ l !! Z.to_nat i = Some x.
Proof.
  unfold elemZ. destruct (i <? 0) eqn:E.
  - split; [discriminate|lia].
  - destruct (l !! Z.to_nat i); split; intros H; try discriminate.
    + inversion H; subst. split; [lia|reflexivity].
    + destruct H as [_ H]. inversion H. reflexivity.
    + destruct H as [_ H]. discriminate.
Qed.

Lemma elemZ_range {A} (l : list A) i x :
  elemZ l i = Ok x -> 0 <= i < Z.of_nat (length l).
Proof.
  intros H. apply elemZ_Ok in H as [H0 H]. apply lookup_lt_Some in H. lia.
Qed.

Lemma elemZ_in_range {A} (l : list A) i :
  0 <= i < Z.of_nat (length l) -> exists x, elemZ l i = Ok x.
Proof.
  intros H. destruct (lookup_lt_is_Some_2 l (Z.to_nat i)) as [x Hx]; [lia|].
  exists x. apply elemZ_Ok. split; [lia|exact Hx].
Qed.

Lemma elemZ_Err {A} (l : list A) i e :
  elemZ l i = Err e -> e = Panic /\ ~ (0 <= i < Z.of_nat (length l)).
Proof.
  unfold elemZ. destruct (i <? 0) eqn:E.
  - intros H. inversion H. split; [reflexivity|lia].
  - destruct (l !! Z.to_nat i) eqn:L; [discriminate|].
    intros H. inversion H. split; [reflexivity|].
    apply lookup_ge_None in L. lia.
Qed.

Lemma elemZ_same_length {A} (l l' : list A) i :
  length l = length l' -> is_Ok (elemZ l i) = is_Ok (elemZ l' i).
Proof.
  intros Hlen. unfold elemZ. destruct (i <? 0); [reflexivity|].
  destruct (l !! Z.to_nat i) eqn:L, (l' !! Z.to_nat i) eqn:L'; try reflexivity.
  - apply lookup_lt_Some in L. apply lookup_ge_None in L'. lia.
  - apply lookup_lt_Some in L'. apply lookup_ge_None in L. lia.
Qed.

Lemma storeZ_Ok {A} (l l' : list A) i x :
  storeZ l i x = Ok l' <->
  0 <= i < Z.of_nat (length l) /\ l' = <[Z.to_nat i := x]> l.
Proof.
  unfold storeZ.
  destruct (i <? 0) eqn:E1; simpl.
  - split; [discriminate|lia].
  - destruct (Z.of_nat (length l) <=? i) eqn:E2.
    + split; [discriminate|lia].
    + split.
      * intros H. inversion H. split; [lia|reflexivity].
      * intros [_ ->]. reflexivity.
Qed.

Lemma elemZ_insert_eq {A} (l : list A) i x :
  0 <= i < Z.of_nat (length l) -> elemZ (<[Z.to_nat i := x]> l) i = Ok x.
Proof.
  intros H. apply elemZ_Ok. split; [lia|].
  apply list_lookup_insert_eq. lia.
Qed.

Lemma elemZ_insert_ne {A} (l : list A) i j x :
  0 <= i -> i <> j -> elemZ (<[Z.to_nat i := x]> l) j = elemZ l j.
Proof.
  intros Hi Hne. unfold elemZ. destruct (j <? 0) eqn:E; [reflexivity|].
  apply Z.ltb_ge in E. rewrite list_lookup_insert_ne by lia. reflexivity.
Qed.

Lemma elemZ_ext {A} (l l' : list A) :
  length l = length l' -> (forall i, elemZ l i = elemZ l' i) -> l = l'.
Proof.
  intros Hlen H. apply list_eq. intros n.
  specialize (H (Z.of_nat n)). unfold elemZ in H.
  destruct (Z.of_nat n <? 0) eqn:E; [apply Z.ltb_lt in E; lia|].
  rewrite Nat2Z.id in H.
  destruct (l !! n), (l' !! n); congruence.
Qed.

(** ** Simultaneous assignment *)

Lemma assigned_value_stored st vd val x :
  assigned_value st vd val = Ok x -> x = stored vd val.
Proof.
  unfold assigned_value, stored. destruct (vd_Type vd).
  - destruct (IsBool val); simpl; [|discriminate].
    destruct (Bool val); congruence.
  - destruct (IsInt val); simpl; [|discriminate].
    destruct ((Int val <? 0) || (Int val >=? vd_Size vd)); congruence.
  - destruct (IsInt val); simpl; [|discriminate].
    destruct ((Int val <? vd_Min vd) || (Int val >? vd_Max vd)); congruence.
Qed.

Section Assignments.
Variable cr : CompiledRegistry.
Variable st : State.

Lemma applyAssignments_loop_spec (l : list (Z * Node)) :
    NoDup l.*1 ->
    forall post0 post, length post0 = length st ->
      applyAssignments_loop cr (makeEnv cr st) st l post0 = Ok post <->
      length post = length st /\
      (forall i e, (i, e) ∈ l -> exists x, assigns cr st i e x /\ elemZ post i = Ok x) /\
      (forall i, i ∉ l.*1 -> elemZ post i = elemZ post0 i).
  Proof.
    induction l as [|[i e] l IH]; intros Hnd post0 post Hlen.
    - simpl. split.
      + intros H. inversion H; subst. split; [exact Hlen|]. split.
        * intros i e Hin. inversion Hin.
        * reflexivity.
      + intros (Hl & _ & Hsame). f_equal. apply elemZ_ext; [lia|].
        intros i. symmetry. apply Hsame. simpl. apply not_elem_of_nil.
    - simpl in Hnd. apply NoDup_cons in Hnd as [Hi Hnd].
      simpl. split.
      + intros H.
        destruct (Eval (makeEnv cr st) e) as [val|] eqn:Ev; simpl in H; [|discriminate].
        destruct (elemZ (sch_Vars (cr_Schema cr)) i) as [vd|] eqn:Evd; simpl in H; [|discriminate].
        destruct (assigned_value st vd val) as [x|] eqn:Ex; simpl in H; [|discriminate].
        destruct (storeZ post0 i x) as [post1|] eqn:Est; simpl in H; [|discriminate].
        apply storeZ_Ok in Est as [Hr ->].
        apply IH in H as (Hl & Hin & Hout); [|exact Hnd|rewrite length_insert; exact Hlen].
        split; [exact Hl|]. split.
        * intros j e' Hj. apply elem_of_cons in Hj as [Hj|Hj].
          -- inversion Hj; subst j e'. exists x. split; [exists val, vd; eauto using assigned_value_stored|].
             rewrite (Hout i Hi). apply elemZ_insert_eq. exact Hr.
          -- apply Hin. exact Hj.
        * intros j Hj. apply not_elem_of_cons in Hj as [Hne Hj].
          rewrite (Hout j Hj). apply elemZ_insert_ne; [lia|congruence].
      + intros (Hl & Hin & Hout).
        destruct (Hin i e) as (x & (val & vd & Ev & Evd & Ex & _) & Hx); [left|].
        rewrite Ev. simpl. rewrite Evd. simpl. rewrite Ex. simpl.
        assert (Hr : 0 <= i < Z.of_nat (length post0)).
        { apply elemZ_range in Hx. lia. }
        assert (Est : storeZ post0 i x = Ok (<[Z.to_nat i := x]> post0)).
        { apply storeZ_Ok. auto. }
        rewrite Est. simpl. apply IH; [exact Hnd|rewrite length_insert; exact Hlen|].
        split; [exact Hl|]. split.
        * intros j e' Hj. apply Hin. right. exact Hj.
        * intros j Hj. destruct (decide (i = j)) as [<-|Hne].
          -- rewrite Hx. symmetry. apply elemZ_insert_eq. exact Hr.
          -- rewrite elemZ_insert_ne by (lia || congruence).
             apply Hout. apply not_elem_of_cons. split; [congruence|exact Hj].
  Qed.

End Assignments.

(** C5. Applying a block of assignments is simultaneous. [applyAssignments]
    returns the post-state [post] exactly when every right-hand side,
    evaluated on the pre-state [st], yields a value accepted for its
    target, each targeted variable of [post] holds that value, and every
    other variable of [post] is as in [st]. *)
Theorem applyAssignments_simultaneous (cr : CompiledRegistry)
    (assignments : gmap Z Node) (st post : State) :
  applyAssignments cr assignments st = Ok post <->
  length post = length st /\
  (forall i e, assignments !! i = Some e ->
     exists x, assigns cr st i e x /\ elemZ post i = Ok x) /\
  (forall i, assignments !! i = None -> elemZ post i = elemZ st i).
Proof.
  unfold applyAssignments.
  rewrite (applyAssignments_loop_spec cr st (map_to_list assignments)
             (NoDup_fst_map_to_list assignments) st post eq_refl).
  split; intros (Hl & Hin & Hout); (split; [exact Hl|]); split.
  - intros i e Hi. apply Hin. apply elem_of_map_to_list. exact Hi.
  - intros i Hi. apply Hout. intros Hmem.
    apply list_elem_of_fmap in Hmem as ([j e] & -> & Hje).
    apply elem_of_map_to_list in Hje. simpl in Hi. congruence.
  - intros i e Hi. apply Hin. apply elem_of_map_to_list. exact Hi.
  - intros i Hi. apply Hout.
    destruct (assignments !! i) as [e|] eqn:E; [|reflexivity].
    exfalso. apply Hi. apply list_elem_of_fmap. exists (i, e).
    split; [reflexivity|]. apply elem_of_map_to_list. exact E.
Qed.

(** ** Loops that fill a table *)

Lemma wrap_err_Ok {A} ctx (r : res A) x : wrap_err ctx r = Ok x <-> r = Ok x.
Proof.
  unfold wrap_err. destruct r as [a|e]; [tauto|].
  destruct e; split; discriminate.
Qed.

Lemma tabulate_from_Ok {A} (f : Z -> res A) :
  forall count i l,
    tabulate_from f i count = Ok l <->
    length l = count /\
    forall k, (k < count)%nat -> exists x, f (i + Z.of_nat k) = Ok x /\ l !! k = Some x.
Proof.
  induction count as [|count IH]; intros i l; simpl.
  - split.
    + intros H. inversion H. split; [reflexivity|]. intros k Hk. lia.
    + intros [Hl _]. destruct l; [reflexivity|discriminate].
  - split.
    + intros H. destruct (f i) as [x|] eqn:Ex; simpl in H; [|discriminate].
      destruct (tabulate_from f (i + 1) count) as [rest|] eqn:Er; simpl in H; [|discriminate].
      inversion H; subst l. apply IH in Er as [Hl Hk].
      split; [simpl; lia|]. intros [|k] Hlt.
      * exists x. rewrite Z.add_0_r. auto.
      * destruct (Hk k ltac:(lia)) as (y & Hy & Hry). exists y.
        replace (i + Z.of_nat (S k)) with (i + 1 + Z.of_nat k) by lia. auto.
    + intros [Hl Hk]. destruct l as [|x l]; [discriminate|].
      destruct (Hk O ltac:(lia)) as (x' & Hx & Hx0).
      rewrite Z.add_0_r in Hx. simpl in Hx0. inversion Hx0; subst x'.
      rewrite Hx. simpl.
      assert (Er : tabulate_from f (i + 1) count = Ok l).
      { apply IH. split; [simpl in Hl; lia|]. intros k Hlt.
        destruct (Hk (S k) ltac:(lia)) as (y & Hy & Hry). exists y.
        replace (i + 1 + Z.of_nat k) with (i + Z.of_nat (S k)) by lia. auto. }
      rewrite Er. reflexivity.
Qed.

Lemma tabulate_Ok {A} (f : Z -> res A) n l :
  tabulate n f = Ok l <->
  0 <= n /\ length l = Z.to_nat n /\
  forall i, 0 <= i < n -> exists x, f i = Ok x /\ elemZ l i = Ok x.
Proof.
  unfold tabulate. destruct (n <? 0) eqn:En.
  - apply Z.ltb_lt in En. split; [discriminate|lia].
  - apply Z.ltb_ge in En. rewrite tabulate_from_Ok. split.
    + intros [Hl Hk]. split; [exact En|]. split; [exact Hl|].
      intros i Hi. destruct (Hk (Z.to_nat i) ltac:(lia)) as (x & Hx & Hlx).
      exists x. rewrite Z.add_0_l, Z2Nat.id in Hx by lia.
      split; [exact Hx|]. apply elemZ_Ok. split; [lia|exact Hlx].
    + intros (_ & Hl & Hi). split; [exact Hl|]. intros k Hk.
      destruct (Hi (Z.of_nat k) ltac:(lia)) as (x & Hx & Hlx).
      exists x. rewrite Z.add_0_l. split; [exact Hx|].
      apply elemZ_Ok in Hlx as [_ Hlx]. rewrite Nat2Z.id in Hlx. exact Hlx.
Qed.

Lemma mapM_from_Ok {A B} (f : nat -> A -> res B) :
  forall l i r,
    mapM_from f i l = Ok r <->
    length r = length l /\
    forall k x, l !! k = Some x -> exists y, f (i + k)%nat x = Ok y /\ r !! k = Some y.
Proof.
  induction l as [|a l IH]; intros i r; simpl.
  - split.
    + intros H. inversion H. split; [reflexivity|]. intros k x Hk. discriminate.
    + intros [Hl _]. destruct r; [reflexivity|discriminate].
  - split.
    + intros H. destruct (f i a) as [y|] eqn:Ey; simpl in H; [|discriminate].
      destruct (mapM_from f (S i) l) as [rest|] eqn:Er; simpl in H; [|discriminate].
      inversion H; subst r. apply IH in Er as [Hl Hk].
      split; [simpl; lia|]. intros [|k] x Hx; simpl in Hx.
      * inversion Hx; subst x. exists y. rewrite Nat.add_0_r. auto.
      * destruct (Hk k x Hx) as (y' & Hy' & Hr'). exists y'.
        replace (i + S k)%nat with (S i + k)%nat by lia. auto.
    + intros [Hl Hk]. destruct r as [|y r]; [discriminate|].
      destruct (Hk O a eq_refl) as (y' & Hy & Hy0).
      rewrite Nat.add_0_r in Hy. simpl in Hy0. inversion Hy0; subst y'.
      rewrite Hy. simpl.
      assert (Er : mapM_from f (S i) l = Ok r).
      { apply IH. split; [simpl in Hl; lia|]. intros k x Hx.
        destruct (Hk (S k) x Hx) as (y' & Hy' & Hr'). exists y'.
        replace (S i + k)%nat with (i + S k)%nat by lia. auto. }
      rewrite Er. reflexivity.
Qed.

(** ** The helpers read only part of the compiled registry *)

Lemma evalValid_set_Valid cr v st : evalValid (set_Valid cr v) st = evalValid cr st.
Proof. reflexivity. Qed.

Lemma computeNF_set_NF cr nf sid : computeNF (set_NF cr nf) sid = computeNF cr sid.
Proof. reflexivity. Qed.

Lemma computeNF_set_Step cr step sid : computeNF (set_Step cr step) sid = computeNF cr sid.
Proof. reflexivity. Qed.

Lemma repairDepth_set_NF cr nf sid : repairDepth (set_NF cr nf) sid = repairDepth cr sid.
Proof. reflexivity. Qed.

Lemma Step_cell_set_Step cr step ei evt sid :
  BuildTables_Step_cell (set_Step cr step) ei evt sid = BuildTables_Step_cell cr ei evt sid.
Proof. reflexivity. Qed.

(** ** BuildTables *)

Lemma BuildTables_Valid_spec cr valid :
  BuildTables_Valid cr = Ok valid <->
  0 <= sch_TotalLen (cr_Schema cr) /\
  length valid = Z.to_nat (sch_TotalLen (cr_Schema cr)) /\
  forall sid, 0 <= sid < sch_TotalLen (cr_Schema cr) ->
    exists st b, Decode (cr_Schema cr) sid = Ok st /\
                 evalValid cr st = Ok b /\ elemZ valid sid = Ok b.
Proof.
  unfold BuildTables_Valid. rewrite tabulate_Ok.
  split; intros (H0 & Hl & H); (split; [exact H0|]); (split; [exact Hl|]);
    intros sid Hsid.
  - destruct (H sid Hsid) as (b & Hb & Hx).
    destruct (Decode (cr_Schema cr) sid) as [st|]; simpl in Hb; [|discriminate].
    apply wrap_err_Ok in Hb. eauto.
  - destruct (H sid Hsid) as (st & b & Hd & Hb & Hx).
    exists b. rewrite Hd. simpl. split; [|exact Hx]. apply wrap_err_Ok. exact Hb.
Qed.

Lemma BuildTables_NF_spec cr nf :
  BuildTables_NF cr = Ok nf <->
  0 <= sch_TotalLen (cr_Schema cr) /\
  length nf = Z.to_nat (sch_TotalLen (cr_Schema cr)) /\
  forall sid, 0 <= sid < sch_TotalLen (cr_Schema cr) ->
    exists x, computeNF cr sid = Ok x /\ elemZ nf sid = Ok x.
Proof.
  unfold BuildTables_NF. rewrite tabulate_Ok.
  split; intros (H0 & Hl & H); (split; [exact H0|]); (split; [exact Hl|]);
    intros sid Hsid; destruct (H sid Hsid) as (x & Hx & Hnf); exists x.
  - split; [|exact Hnf]. destruct (computeNF cr sid) as [y|e]; [exact Hx|].
    destruct e; try discriminate;
      destruct (Decode (cr_Schema cr) sid); discriminate.
  - rewrite Hx. auto.
Qed.

Lemma BuildTables_built cr0 cr :
  BuildTables cr0 = Ok cr ->
  tables_built cr /\
  Reg cr = Reg cr0 /\ cr_Schema cr = cr_Schema cr0 /\
  EnumLiterals cr = EnumLiterals cr0 /\ InvExprs cr = InvExprs cr0 /\
  RepExprs cr = RepExprs cr0 /\ EvtGuards cr = EvtGuards cr0 /\
  EvtExprs cr = EvtExprs cr0.
Proof.
  unfold BuildTables. intros H.
  destruct (BuildTables_Valid cr0) as [valid|] eqn:Ev; simpl in H; [|discriminate].
  destruct (BuildTables_NF (set_Valid cr0 valid)) as [nf|] eqn:En; simpl in H; [|discriminate].
  destruct (BuildTables_Step (set_NF (set_Valid cr0 valid) nf)) as [step|] eqn:Es;
    simpl in H; [|discriminate].
  inversion H; subst cr; clear H.
  split; [|simpl; repeat split; reflexivity].
  apply BuildTables_Valid_spec in Ev as (H0 & Hlv & Hv).
  apply BuildTables_NF_spec in En as (_ & Hln & Hn).
  unfold BuildTables_Step in Es. apply mapM_from_Ok in Es as [Hls Hs].
  unfold tables_built. simpl.
  split; [exact H0|]. split; [exact Hlv|]. split; [exact Hln|].
  split; [exact Hls|]. split; [exact Hv|]. split; [exact Hn|].
  intros ei evt Hevt. destruct (Hs ei evt Hevt) as (row & Hrow & Hstep).
  exists row. split; [exact Hstep|].
  simpl in Hrow. apply tabulate_Ok in Hrow as (_ & Hlr & Hcells).
  split; [exact Hlr|]. exact Hcells.
Qed.

(** ** computeNF: first-match firing *)

Section FirstMatch.
Variable cr : CompiledRegistry.

Lemma lookup_drop_cons {A} (l : list A) i x l' :
    drop i l = x :: l' -> l !! i = Some x /\ drop (S i) l = l'.
  Proof.
    intros H. destruct (elem_drop l i x l' H) as [He Hd]. split; [|exact Hd].
    unfold elem in He. destruct (l !! i); congruence.
  Qed.

  (** A scan that fires found the lowest-index violated invariant. *)
Lemma computeNF_scan_fires st :
    forall invs ri next,
      drop ri (InvExprs cr) = invs ->
      (forall j, (j < ri)%nat -> holds_at cr st j) ->
      computeNF_scan cr st (makeEnv cr st) ri invs = Ok (Some next) ->
      exists i newSt, first_violated cr st i /\
                      applyRepair cr i st = Ok newSt /\
                      Encode (cr_Schema cr) newSt = Ok next.
  Proof.
    induction invs as [|e invs IH]; intros ri next Hd Hlow H; simpl in H.
    - discriminate.
    - apply lookup_drop_cons in Hd as [He Hd].
      destruct (EvalBool e (makeEnv cr st)) as [v|] eqn:Ev; simpl in H; [|discriminate].
      destruct v; simpl in H.
      + apply (IH (S ri) next Hd); [|exact H].
        intros j Hj. destruct (decide (j = ri)) as [->|Hne].
        * exists e. auto.
        * apply Hlow. lia.
      + destruct (length (RepExprs cr) <=? ri)%nat.
        { destruct (elem (reg_Invariants (Reg cr)) ri); discriminate. }
        destruct (applyRepair cr ri st) as [newSt|] eqn:Ea; simpl in H; [|discriminate].
        destruct (Encode (cr_Schema cr) newSt) as [id|] eqn:Ee; simpl in H; [|discriminate].
        inversion H; subst id.
        exists ri, newSt. split; [|auto]. split; [exists e; auto|exact Hlow].
  Qed.

  (** A scan that does not fire saw every invariant hold. *)
Lemma computeNF_scan_none st env :
    forall invs ri,
      computeNF_scan cr st env ri invs = Ok None ->
      evalValid_loop env invs = Ok true.
  Proof.
    induction invs as [|e invs IH]; intros ri H; simpl in *; [reflexivity|].
    destruct (EvalBool e env) as [v|]; simpl in *; [|discriminate].
    destruct v; simpl in *; [eauto|].
    destruct (length (RepExprs cr) <=? ri)%nat.
    - destruct (elem (reg_Invariants (Reg cr)) ri); discriminate.
    - destruct (applyRepair cr ri st); simpl in H; [|discriminate].
      destruct (Encode (cr_Schema cr) a); discriminate.
  Qed.

  (** The scan fires the repair of the lowest-index violated invariant. *)
Lemma computeNF_scan_first st i newSt next :
    first_violated cr st i ->
    applyRepair cr i st = Ok newSt ->
    Encode (cr_Schema cr) newSt = Ok next ->
    forall d ri, (ri + d = i)%nat ->
      computeNF_scan cr st (makeEnv cr st) ri (drop ri (InvExprs cr)) = Ok (Some next).
  Proof.
    intros [(e & He & Hv) Hlow] Ha Hn.
    induction d as [|d IH]; intros ri Hri.
    - assert (ri = i) by lia. subst ri.
      rewrite (drop_S _ _ _ He). simpl. rewrite Hv. simpl.
      assert (Hlt : (i < length (RepExprs cr))%nat).
      { unfold applyRepair, elem in Ha.
        destruct (RepExprs cr !! i) eqn:E; [|discriminate].
        apply lookup_lt_Some in E. exact E. }
      destruct (length (RepExprs cr) <=? i)%nat eqn:El.
      { apply Nat.leb_le in El. lia. }
      rewrite Ha. simpl. rewrite Hn. reflexivity.
    - destruct (Hlow ri ltac:(lia)) as (e' & He' & Hv').
      rewrite (drop_S _ _ _ He'). simpl. rewrite Hv'. simpl.
      apply IH. lia.
  Qed.

Lemma computeNF_loop_sound :
    BuildTables_Valid cr = Ok (Valid cr) ->
    forall iters sid cur r,
      computeNF_loop cr sid iters cur = Ok r ->
      exists k, (k < iters)%nat /\ repairs_to cr k cur r /\
                elemZ (Valid cr) r = Ok true.
  Proof.
    intros Hb. apply BuildTables_Valid_spec in Hb as (H0 & Hl & Hv).
    induction iters as [|iters IH]; intros sid cur r H; simpl in H.
    - destruct (Decode (cr_Schema cr) sid); discriminate.
    - destruct (elemZ (Valid cr) cur) as [valid|] eqn:Ecur; simpl in H; [|discriminate].
      destruct valid.
      + inversion H; subst r. exists O. split; [lia|]. split; [constructor|exact Ecur].
      + destruct (Decode (cr_Schema cr) cur) as [st|] eqn:Ed; simpl in H; [|discriminate].
        destruct (computeNF_scan cr st (makeEnv cr st) 0 (InvExprs cr)) as [o|] eqn:Es;
          simpl in H; [|discriminate].
        destruct o as [next|].
        * apply IH in H as (k & Hk & Hr & Hvr).
          exists (S k). split; [lia|]. split; [|exact Hvr].
          apply (repairs_step cr k cur next r); [|exact Hr].
          split; [exact Ecur|].
          destruct (computeNF_scan_fires st (InvExprs cr) 0 next) as (i & newSt & ?);
            [reflexivity|intros j Hj; lia|exact Es|].
          exists st, i, newSt. tauto.
        * exfalso. apply computeNF_scan_none in Es.
          pose proof (elemZ_range _ _ _ Ecur) as Hrange. rewrite Hl in Hrange.
          destruct (Hv cur ltac:(lia)) as (st' & b & Hd' & Hb' & Hx').
          rewrite Ed in Hd'. inversion Hd'; subst st'.
          rewrite Ecur in Hx'. inversion Hx'; subst b.
          unfold evalValid in Hb'. congruence.
  Qed.

Lemma computeNF_loop_complete k cur r :
    repairs_to cr k cur r ->
    elemZ (Valid cr) r = Ok true ->
    forall iters sid, (k < iters)%nat -> computeNF_loop cr sid iters cur = Ok r.
  Proof.
    induction 1 as [s|k s s' r Hf Hr IH]; intros Hv iters sid Hk.
    - destruct iters; [lia|]. simpl. rewrite Hv. reflexivity.
    - destruct iters; [lia|]. simpl.
      destruct Hf as (Hs & st & i & newSt & Hd & Hfv & Ha & He).
      rewrite Hs. simpl. rewrite Hd. simpl.
      pose proof (computeNF_scan_first st i newSt s' Hfv Ha He i O eq_refl) as Hscan.
      rewrite drop_0 in Hscan. rewrite Hscan. simpl.
      apply IH; [exact Hv|lia].
  Qed.

End FirstMatch.

(** C2. [computeNF] follows first-match firing. On a registry whose [Valid]
    table is the one [BuildTables] computes, [computeNF s] returns [r]
    exactly when fewer than [MaxRepairIter] successive firings lead from
    [s] to [r] and [r] is valid; each firing starts from a state that is
    not valid and applies the repair of the lowest-index invariant that
    evaluates to false there, so [r] is the first valid state reached. *)
Theorem computeNF_first_match (cr : CompiledRegistry) :
  BuildTables_Valid cr = Ok (Valid cr) ->
  forall s r,
    computeNF cr s = Ok r <->
    exists k, (k < MaxRepairIter)%nat /\ repairs_to cr k s r /\
              elemZ (Valid cr) r = Ok true.
Proof.
  intros Hb s r. unfold computeNF. split.
  - apply computeNF_loop_sound. exact Hb.
  - intros (k & Hk & Hr & Hv). eapply computeNF_loop_complete; eauto.
Qed.

(** The statement at state 1 of the permissions registry, whose normal form
    is state 0. *)
Lemma computeNF_first_match_witness :
  computeNF permissions_cr 1 = Ok 0 <->
  exists k, (k < MaxRepairIter)%nat /\ repairs_to permissions_cr k 1 0 /\
            elemZ (Valid permissions_cr) 0 = Ok true.
Proof.
  apply (computeNF_first_match permissions_cr).
  vm_compute. reflexivity.
Defined.

(** ** Facts about built tables *)

Lemma tables_built_Valid cr :
  tables_built cr -> BuildTables_Valid cr = Ok (Valid cr).
Proof.
  intros (H0 & Hlv & _ & _ & Hv & _). apply BuildTables_Valid_spec. auto.
Qed.

Lemma computeNF_range cr s r :
  tables_built cr -> computeNF cr s = Ok r ->
  0 <= r < sch_TotalLen (cr_Schema cr) /\ elemZ (Valid cr) r = Ok true.
Proof.
  intros Hb H. pose proof Hb as (H0 & Hlv & _).
  apply (computeNF_loop_sound cr (tables_built_Valid cr Hb)) in H
    as (k & _ & _ & Hv).
  split; [|exact Hv]. pose proof (elemZ_range _ _ _ Hv). lia.
Qed.

Lemma NF_entry cr s nf :
  tables_built cr -> elemZ (NF cr) s = Ok nf ->
  0 <= s < sch_TotalLen (cr_Schema cr) /\
  computeNF cr s = Ok nf /\
  0 <= nf < sch_TotalLen (cr_Schema cr) /\ elemZ (Valid cr) nf = Ok true.
Proof.
  intros Hb H. pose proof Hb as (H0 & _ & Hln & _ & _ & Hn & _).
  pose proof (elemZ_range _ _ _ H) as Hr. rewrite Hln in Hr.
  assert (Hs : 0 <= s < sch_TotalLen (cr_Schema cr)) by lia.
  destruct (Hn s Hs) as (x & Hx & Hx'). rewrite H in Hx'. inversion Hx'; subst x.
  split; [exact Hs|]. split; [exact Hx|]. exact (computeNF_range cr s nf Hb Hx).
Qed.

Lemma computeNF_valid_fixed cr s :
  elemZ (Valid cr) s = Ok true -> computeNF cr s = Ok s.
Proof.
  intros H. unfold computeNF, MaxRepairIter. cbn [computeNF_loop].
  rewrite H. reflexivity.
Qed.

(** ** Compile *)

Lemma mapM_Ok {A B} (f : A -> res B) l r :
  mapM f l = Ok r <->
  length r = length l /\
  forall k x, l !! k = Some x -> exists y, f x = Ok y /\ r !! k = Some y.
Proof. unfold mapM. apply mapM_from_Ok. Qed.

Lemma Compile_Ok reg cr :
  Compile reg = Ok cr ->
  Reg cr = reg /\
  cr_Schema cr = NewSchema (reg_Vars reg) /\
  sch_TotalLen (cr_Schema cr) <= MaxStates /\
  BuildEnumLiterals (cr_Schema cr) = Ok (EnumLiterals cr) /\
  mapM Compile_invariant (reg_Invariants reg) = Ok (InvExprs cr) /\
  mapM (Compile_repair (cr_Schema cr)) (reg_Compensation reg) = Ok (RepExprs cr) /\
  (exists evts, mapM (Compile_event (cr_Schema cr)) (reg_Events reg) = Ok evts /\
                EvtGuards cr = fst <$> evts /\ EvtExprs cr = snd <$> evts) /\
  Valid cr = [] /\ NF cr = [] /\ Step cr = [].
Proof.
  unfold Compile. intros H.
  destruct (sch_TotalLen (NewSchema (reg_Vars reg)) >? MaxStates) eqn:Et; [discriminate|].
  destruct (BuildEnumLiterals (NewSchema (reg_Vars reg))) as [lits|] eqn:El;
    simpl in H; [|discriminate].
  destruct (mapM Compile_invariant (reg_Invariants reg)) as [invs|] eqn:Ei;
    simpl in H; [|discriminate].
  destruct (mapM (Compile_repair (NewSchema (reg_Vars reg))) (reg_Compensation reg))
    as [reps|] eqn:Er; simpl in H; [|discriminate].
  destruct (mapM (Compile_event (NewSchema (reg_Vars reg))) (reg_Events reg))
    as [evts|] eqn:Ee; simpl in H; [|discriminate].
  inversion H; subst cr; clear H. simpl.
  repeat split; auto.
  - rewrite Z.gtb_ltb in Et. apply Z.ltb_ge in Et. exact Et.
  - exists evts. auto.
Qed.

Lemma Compile_guard reg cr ei evt :
  Compile reg = Ok cr -> reg_Events reg !! ei = Some evt ->
  exists g, EvtGuards cr !! ei = Some g /\ (evt_Guard evt = "" -> g = None).
Proof.
  intros Hc He. apply Compile_Ok in Hc as (_ & _ & _ & _ & _ & _ & (evts & Hm & Hg & _) & _).
  apply mapM_Ok in Hm as [_ Hm]. destruct (Hm ei evt He) as ([g m] & Hce & Hk).
  exists g. split.
  - rewrite Hg, list_lookup_fmap, Hk. reflexivity.
  - intros Hempty. unfold Compile_event in Hce. rewrite Hempty in Hce. simpl in Hce.
    destruct (Compile_assignments _ _ _ _ _); simpl in Hce; [|discriminate].
    inversion Hce. reflexivity.
Qed.

(** ** The Step table *)

Lemma Step_cell_Ok cr ei evt sid x :
  BuildTables_Step_cell cr ei evt sid = Ok x ->
  exists st enabled,
    Decode (cr_Schema cr) sid = Ok st /\
    evalGuard cr ei st = Ok enabled /\
    if enabled : bool
    then exists post postID,
           applyEvent cr ei st = Ok post /\
           Encode (cr_Schema cr) post = Ok postID /\
           elemZ (NF cr) postID = Ok x
    else x = -1.
Proof.
  unfold BuildTables_Step_cell. intros H.
  destruct (Decode (cr_Schema cr) sid) as [st|]; simpl in H; [|discriminate].
  destruct (wrap_err (ErrGuardAt (evt_Name evt) st) (evalGuard cr ei st))
    as [enabled|] eqn:Eg; simpl in H; [|discriminate].
  apply wrap_err_Ok in Eg. exists st, enabled. split; [reflexivity|].
  split; [exact Eg|]. destruct enabled; simpl in H.
  - destruct (wrap_err (ErrEventAt (evt_Name evt) st) (applyEvent cr ei st))
      as [post|] eqn:Ea; simpl in H; [|discriminate].
    apply wrap_err_Ok in Ea.
    destruct (Encode (cr_Schema cr) post) as [postID|] eqn:Ee; simpl in H; [|discriminate].
    exists post, postID. auto.
  - inversion H. reflexivity.
Qed.

Lemma Step_entry cr ei evt :
  tables_built cr -> reg_Events (Reg cr) !! ei = Some evt ->
  exists row, Step cr !! ei = Some row /\
    length row = Z.to_nat (sch_TotalLen (cr_Schema cr)) /\
    forall sid, 0 <= sid < sch_TotalLen (cr_Schema cr) ->
      exists st x, Decode (cr_Schema cr) sid = Ok st /\ elemZ row sid = Ok x /\
        ((x = -1 /\ evalGuard cr ei st = Ok false) \/
         (0 <= x < sch_TotalLen (cr_Schema cr) /\ evalGuard cr ei st = Ok true /\
          elemZ (Valid cr) x = Ok true)).
Proof.
  intros Hb He. pose proof Hb as (_ & _ & _ & _ & _ & _ & Hs).
  destruct (Hs ei evt He) as (row & Hrow & Hlen & Hcells).
  exists row. split; [exact Hrow|]. split; [exact Hlen|].
  intros sid Hsid. destruct (Hcells sid Hsid) as (x & Hx & Hrx).
  apply Step_cell_Ok in Hx as (st & enabled & Hd & Hg & Hen).
  exists st, x. split; [exact Hd|]. split; [exact Hrx|].
  destruct enabled.
  - right. destruct Hen as (post & postID & _ & _ & Hnf).
    apply (NF_entry cr postID x Hb) in Hnf as (_ & _ & Hr & Hv). auto.
  - left. auto.
Qed.

(** C4. After [Compile] and [BuildTables] have succeeded, every cell
    [Step[e][s]] exists, and it is -1 exactly when the guard of [e]
    evaluates to false at the decoding of [s]; an event declared without a
    guard has no -1 in its row. *)
Theorem Step_disabled_iff_guard_false (reg : Registry) (cr0 cr : CompiledRegistry) :
  Compile reg = Ok cr0 ->
  BuildTables cr0 = Ok cr ->
  forall ei evt sid,
    reg_Events reg !! ei = Some evt ->
    0 <= sid < sch_TotalLen (cr_Schema cr) ->
    exists st row x,
      Decode (cr_Schema cr) sid = Ok st /\
      Step cr !! ei = Some row /\ elemZ row sid = Ok x /\
      (x = -1 <-> evalGuard cr ei st = Ok false) /\
      (evt_Guard evt = "" -> x <> -1).
Proof.
  intros Hc Hbt ei evt sid He Hsid.
  apply BuildTables_built in Hbt as (Hb & HReg & _ & _ & _ & _ & Hguards & _).
  pose proof (Compile_Ok reg cr0 Hc) as (HReg0 & _).
  assert (He' : reg_Events (Reg cr) !! ei = Some evt) by (rewrite HReg, HReg0; exact He).
  destruct (Step_entry cr ei evt Hb He') as (row & Hrow & _ & Hcells).
  destruct (Hcells sid Hsid) as (st & x & Hd & Hx & Hcase).
  exists st, row, x. split; [exact Hd|]. split; [exact Hrow|]. split; [exact Hx|].
  split.
  - destruct Hcase as [[-> Hg]|(Hr & Hg & _)].
    + tauto.
    + split; [lia|]. rewrite Hg. discriminate.
  - intros Hempty.
    destruct (Compile_guard reg cr0 ei evt Hc He) as (g & Hg & Hnone).
    rewrite (Hnone Hempty) in Hg. rewrite <- Hguards in Hg.
    destruct Hcase as [[_ Hf]|(Hr & _)]; [|lia].
    unfold evalGuard, elem in Hf. rewrite Hg in Hf. discriminate.
Qed.

(** The statement at the counter registry: event [inc] at the state [n = 3]. *)
Lemma Step_disabled_iff_guard_false_witness :
  exists st row x,
    Decode (cr_Schema counter_cr) 3 = Ok st /\
    Step counter_cr !! 0%nat = Some row /\ elemZ row 3 = Ok x /\
    (x = -1 <-> evalGuard counter_cr 0 st = Ok false) /\
    (evt_Guard (mkEvent "inc" "n < 3" {[ "n" := "n + 1" ]}) = "" -> x <> -1).
Proof.
  refine (Step_disabled_iff_guard_false counter
            (compiled counter)
            counter_cr _ _ 0%nat _ 3 _ _).
  - vm_compute. reflexivity.
  - vm_compute. reflexivity.
  - reflexivity.
  - vm_compute. split; congruence.
Defined.

(** ** CheckWFC *)

(** The first loop passes exactly when both conditions hold at every state
    it visits, whatever the tables contain. *)
Lemma CheckWFC_scan_None cr :
  forall count sid,
    CheckWFC_scan cr sid count = Ok None <->
    forall k, (k < count)%nat -> wfc_at cr (sid + Z.of_nat k).
Proof.
  induction count as [|count IH]; intros sid; simpl.
  - split; [intros _ k Hk; lia|reflexivity].
  - split.
    + intros H.
      destruct (elemZ (NF cr) sid) as [nfID|] eqn:En; simpl in H; [|discriminate].
      destruct (elemZ (Valid cr) nfID) as [nfValid|] eqn:Ev; simpl in H; [|discriminate].
      destruct nfValid; simpl in H;
        [|destruct (Decode (cr_Schema cr) sid); simpl in H; [|discriminate];
          destruct (Decode (cr_Schema cr) nfID); discriminate].
      destruct (elemZ (Valid cr) sid) as [valid|] eqn:Es; simpl in H; [|discriminate].
      destruct (valid && negb (nfID =? sid)) eqn:Ec;
        [destruct (Decode (cr_Schema cr) sid); simpl in H; [|discriminate];
          destruct (Decode (cr_Schema cr) nfID); discriminate|].
      intros [|k] Hk.
      * rewrite Z.add_0_r. exists nfID, valid. repeat split; auto.
        intros ->. simpl in Ec. apply negb_false_iff, Z.eqb_eq in Ec. exact Ec.
      * replace (sid + Z.of_nat (S k)) with (sid + 1 + Z.of_nat k) by lia.
        apply (proj1 (IH (sid + 1)) H). lia.
    + intros H. destruct (H O ltac:(lia)) as (nf & valid & Hn & Hv & Hs & Hfix).
      change (Z.of_nat 0) with 0 in *. rewrite Z.add_0_r in Hn, Hs, Hfix.
      rewrite Hn. simpl. rewrite Hv. simpl.
      rewrite Hs. simpl.
      assert (Ec : valid && negb (nf =? sid) = false).
      { destruct valid; [|reflexivity]. rewrite (Hfix eq_refl), Z.eqb_refl. reflexivity. }
      rewrite Ec. apply IH. intros k Hk.
      replace (sid + 1 + Z.of_nat k) with (sid + Z.of_nat (S k)) by lia.
      apply H. lia.
Qed.

Lemma repairDepth_scan_agrees cr st env :
  forall invs ri o,
    computeNF_scan cr st env ri invs = Ok o ->
    repairDepth_scan cr st env ri invs = Ok o.
Proof.
  induction invs as [|e invs IH]; intros ri o H; simpl in *; [exact H|].
  destruct (EvalBool e env) as [v|]; simpl in *; [|discriminate].
  destruct v; simpl in *; [eauto|].
  destruct (length (RepExprs cr) <=? ri)%nat; [|exact H].
  destruct (elem (reg_Invariants (Reg cr)) ri); discriminate.
Qed.

(** [repairDepth] retraces [computeNF]: where the latter returns, so does
    the former. *)
Lemma repairDepth_loop_total cr sid :
  forall iters cur r,
    computeNF_loop cr sid iters cur = Ok r ->
    forall depth, exists d, repairDepth_loop cr iters depth cur = Ok d.
Proof.
  induction iters as [|iters IH]; intros cur r H depth; simpl in *.
  - destruct (Decode (cr_Schema cr) sid); discriminate.
  - destruct (elemZ (Valid cr) cur) as [valid|]; simpl in *; [|discriminate].
    destruct valid; [eauto|].
    destruct (Decode (cr_Schema cr) cur) as [st|]; simpl in *; [|discriminate].
    destruct (computeNF_scan cr st (makeEnv cr st) 0 (InvExprs cr)) as [o|] eqn:Es;
      simpl in H; [|discriminate].
    rewrite (repairDepth_scan_agrees _ _ _ _ _ _ Es). simpl.
    destruct o as [next|]; [eauto|eauto].
Qed.

Lemma CheckWFC_depth_total cr :
  forall count sid maxDepth,
    (forall k, (k < count)%nat -> exists d, repairDepth cr (sid + Z.of_nat k) = Ok d) ->
    exists m, CheckWFC_depth cr sid count maxDepth = Ok (inl m).
Proof.
  induction count as [|count IH]; intros sid maxDepth H; simpl.
  - eauto.
  - destruct (H O ltac:(lia)) as (d & Hd). rewrite Z.add_0_r in Hd. rewrite Hd.
    apply IH. intros k Hk.
    replace (sid + 1 + Z.of_nat k) with (sid + Z.of_nat (S k)) by lia.
    apply H. lia.
Qed.

Lemma tables_built_wfc_at cr s :
  tables_built cr -> 0 <= s < sch_TotalLen (cr_Schema cr) -> wfc_at cr s.
Proof.
  intros Hb Hs. pose proof Hb as (_ & _ & _ & _ & Hv & Hn & _).
  destruct (Hn s Hs) as (nf & Hc & Hnf).
  destruct (Hv s Hs) as (st & valid & _ & _ & Hvs).
  destruct (computeNF_range cr s nf Hb Hc) as [_ Hvnf].
  exists nf, valid. repeat split; auto.
  intros ->. rewrite (computeNF_valid_fixed cr s Hvs) in Hc. congruence.
Qed.

Lemma CheckWFC_scan_Some cr :
  forall count sid f,
    CheckWFC_scan cr sid count = Ok (Some f) <->
    exists k, (k < count)%nat /\
      (forall j, (j < k)%nat -> wfc_at cr (sid + Z.of_nat j)) /\
      wfc_fails_at cr (sid + Z.of_nat k) f.
Proof.
  induction count as [|count IH]; intros sid f; simpl.
  - split; [discriminate|intros (k & Hk & _); lia].
  - split.
    + intros H.
      destruct (elemZ (NF cr) sid) as [nfID|] eqn:En; simpl in H; [|discriminate].
      destruct (elemZ (Valid cr) nfID) as [nfValid|] eqn:Ev; simpl in H; [|discriminate].
      destruct nfValid; simpl in H.
      2:{ destruct (Decode (cr_Schema cr) sid) as [st|] eqn:Ed; simpl in H; [|discriminate].
          destruct (Decode (cr_Schema cr) nfID) as [nfSt|] eqn:Ed2; simpl in H;
            [|discriminate].
          inversion H; subst f. exists O. split; [lia|]. split; [intros j Hj; lia|].
          rewrite Z.add_0_r. exists nfID, false, st, nfSt. auto 10. }
      destruct (elemZ (Valid cr) sid) as [valid|] eqn:Es; simpl in H; [|discriminate].
      destruct (valid && negb (nfID =? sid)) eqn:Ec.
      * destruct (Decode (cr_Schema cr) sid) as [st|] eqn:Ed; simpl in H; [|discriminate].
        destruct (Decode (cr_Schema cr) nfID) as [nfSt|] eqn:Ed2; simpl in H;
          [|discriminate].
        inversion H; subst f. apply andb_true_iff in Ec as [-> Hne].
        apply negb_true_iff, Z.eqb_neq in Hne.
        exists O. split; [lia|]. split; [intros j Hj; lia|].
        rewrite Z.add_0_r. exists nfID, true, st, nfSt. auto 10.
      * apply IH in H as (k & Hk & Hpre & Hf). exists (S k). split; [lia|]. split.
        -- intros [|j] Hj.
           ++ rewrite Z.add_0_r. exists nfID, valid. repeat split; auto.
              intros ->. simpl in Ec. apply negb_false_iff, Z.eqb_eq in Ec. exact Ec.
           ++ replace (sid + Z.of_nat (S j)) with (sid + 1 + Z.of_nat j) by lia.
              apply Hpre. lia.
        -- replace (sid + Z.of_nat (S k)) with (sid + 1 + Z.of_nat k) by lia. exact Hf.
    + intros (k & Hk & Hpre & Hf). destruct k as [|k].
      * rewrite Z.add_0_r in Hf.
        destruct Hf as (nf & nfValid & st & nfSt & Hn & Hv & Hd & Hd2 &
                        [[-> ->]|(-> & Hs & Hne & ->)]).
        -- rewrite Hn. simpl. rewrite Hv. simpl. rewrite Hd. simpl. rewrite Hd2.
           reflexivity.
        -- rewrite Hn. simpl. rewrite Hv. simpl. rewrite Hs. simpl.
           apply Z.eqb_neq in Hne. rewrite Hne. simpl. rewrite Hd. simpl. rewrite Hd2.
           reflexivity.
      * destruct (Hpre O ltac:(lia)) as (nf & valid & Hn & Hv & Hs & Hfix).
        change (Z.of_nat 0) with 0 in *. rewrite Z.add_0_r in Hn, Hs, Hfix.
        rewrite Hn. simpl. rewrite Hv. simpl. rewrite Hs. simpl.
        assert (Ec : valid && negb (nf =? sid) = false).
        { destruct valid; [|reflexivity]. rewrite (Hfix eq_refl), Z.eqb_refl. reflexivity. }
        rewrite Ec. apply IH. exists k. split; [lia|]. split.
        -- intros j Hj.
           replace (sid + 1 + Z.of_nat j) with (sid + Z.of_nat (S j)) by lia.
           apply Hpre. lia.
        -- replace (sid + 1 + Z.of_nat k) with (sid + Z.of_nat (S k)) by lia. exact Hf.
Qed.

(** The verdict of [CheckWFC] on arbitrary tables, when it returns with a
    nil error. *)
Lemma CheckWFC_verdict cr pass maxDepth badState :
  CheckWFC cr = Ok (pass, maxDepth, badState, None) ->
  (pass = true <->
   forall s, 0 <= s < sch_TotalLen (cr_Schema cr) -> wfc_at cr s) /\
  (pass = true <-> badState = None).
Proof.
  unfold CheckWFC. intros H.
  destruct (CheckWFC_scan cr 0 (Z.to_nat (sch_TotalLen (cr_Schema cr))))
    as [[failure|]|e] eqn:Escan; simpl in H; [| |discriminate].
  - inversion H; subst. split; (split; [discriminate|]); [|discriminate].
    intros Hall. exfalso.
    assert (Hnone : CheckWFC_scan cr 0 (Z.to_nat (sch_TotalLen (cr_Schema cr))) = Ok None).
    { apply CheckWFC_scan_None. intros k Hk. apply Hall. lia. }
    congruence.
  - destruct (CheckWFC_depth cr 0 _ 0) as [[m|e]|e]; simpl in H; try discriminate.
    inversion H; subst. split; (split; [|reflexivity]); [|reflexivity].
    intros _ s Hs.
    pose proof (proj1 (CheckWFC_scan_None cr _ 0) Escan (Z.to_nat s) ltac:(lia)) as Hw.
    rewrite Z.add_0_l, Z2Nat.id in Hw by lia. exact Hw.
Qed.

(** The two FAIL returns of [CheckWFC], on arbitrary tables. *)
Lemma CheckWFC_fail_iff cr failure :
  CheckWFC cr = Ok (false, 0, Some failure, None) <->
  exists s, 0 <= s < sch_TotalLen (cr_Schema cr) /\
    (forall s', 0 <= s' < s -> wfc_at cr s') /\ wfc_fails_at cr s failure.
Proof.
  unfold CheckWFC. split.
  - intros H.
    destruct (CheckWFC_scan cr 0 (Z.to_nat (sch_TotalLen (cr_Schema cr))))
      as [[f|]|e] eqn:Escan; simpl in H; [| |discriminate].
    + inversion H; subst f.
      apply CheckWFC_scan_Some in Escan as (k & Hk & Hpre & Hf).
      rewrite Z.add_0_l in Hf. exists (Z.of_nat k). split; [lia|]. split; [|exact Hf].
      intros s' Hs'. specialize (Hpre (Z.to_nat s') ltac:(lia)).
      rewrite Z.add_0_l, Z2Nat.id in Hpre by lia. exact Hpre.
    + destruct (CheckWFC_depth cr 0 _ 0) as [[m|e]|e]; simpl in H; discriminate.
  - intros (s & Hs & Hpre & Hf).
    assert (Escan : CheckWFC_scan cr 0 (Z.to_nat (sch_TotalLen (cr_Schema cr))) =
                    Ok (Some failure)).
    { apply CheckWFC_scan_Some. exists (Z.to_nat s). split; [lia|].
      rewrite Z.add_0_l, Z2Nat.id by lia. split; [|exact Hf].
      intros j Hj. rewrite Z.add_0_l. apply Hpre. lia. }
    rewrite Escan. reflexivity.
Qed.

(** On built tables [CheckWFC] returns with a nil error. *)
Lemma CheckWFC_built_total cr :
  tables_built cr ->
  exists pass maxDepth badState, CheckWFC cr = Ok (pass, maxDepth, badState, None).
Proof.
  intros Hb. pose proof Hb as (H0 & _ & _ & _ & _ & Hn & _).
  unfold CheckWFC.
  destruct (CheckWFC_scan cr 0 (Z.to_nat (sch_TotalLen (cr_Schema cr))))
    as [[failure|]|e] eqn:Escan.
  - exists false, 0, (Some failure). reflexivity.
  - destruct (CheckWFC_depth_total cr (Z.to_nat (sch_TotalLen (cr_Schema cr))) 0 0)
      as (m & Hm).
    { intros k Hk. destruct (Hn (0 + Z.of_nat k) ltac:(lia)) as (nf & Hc & _).
      unfold repairDepth. eapply repairDepth_loop_total. exact Hc. }
    simpl. rewrite Hm. exists true, m, None. reflexivity.
  - exfalso.
    assert (Hnone : CheckWFC_scan cr 0 (Z.to_nat (sch_TotalLen (cr_Schema cr))) = Ok None).
    { apply CheckWFC_scan_None. intros k Hk. apply tables_built_wfc_at; [exact Hb|lia]. }
    congruence.
Qed.

(** C1. Whatever the tables hold, when [CheckWFC] returns with a nil error
    its verdict is PASS if and only if for every state ID [s] in
    [0, total): [Valid[NF[s]]] is true and, whenever [Valid[s]] is true,
    [NF[s] = s]; it returns FAIL with a diagnostic exactly when some state
    breaks a condition, and the diagnostic is the one of the first such
    state.  On a registry whose tables [BuildTables] has built, [CheckWFC]
    does return with a nil error, so there the verdict is PASS if and only
    if the two conditions hold at every state. *)
Theorem CheckWFC_pass_iff (cr : CompiledRegistry) :
  (forall pass maxDepth badState,
     CheckWFC cr = Ok (pass, maxDepth, badState, None) ->
     (pass = true <->
      forall s, 0 <= s < sch_TotalLen (cr_Schema cr) ->
        exists nf valid,
          elemZ (NF cr) s = Ok nf /\ elemZ (Valid cr) nf = Ok true /\
          elemZ (Valid cr) s = Ok valid /\ (valid = true -> nf = s)) /\
     (pass = true <-> badState = None)) /\
  (forall failure,
     CheckWFC cr = Ok (false, 0, Some failure, None) <->
     exists s, 0 <= s < sch_TotalLen (cr_Schema cr) /\
       (forall s', 0 <= s' < s -> wfc_at cr s') /\ wfc_fails_at cr s failure) /\
  (forall cr0, BuildTables cr0 = Ok cr ->
     exists pass maxDepth badState,
       CheckWFC cr = Ok (pass, maxDepth, badState, None) /\
       (pass = true <->
        forall s, 0 <= s < sch_TotalLen (cr_Schema cr) ->
          exists nf valid,
            elemZ (NF cr) s = Ok nf /\ elemZ (Valid cr) nf = Ok true /\
            elemZ (Valid cr) s = Ok valid /\ (valid = true -> nf = s))).
Proof.
  split; [|split].
  - intros pass maxDepth badState H. exact (CheckWFC_verdict cr pass maxDepth badState H).
  - intros failure. apply CheckWFC_fail_iff.
  - intros cr0 Hbt. apply BuildTables_built in Hbt as (Hb & _).
    destruct (CheckWFC_built_total cr Hb) as (pass & maxDepth & badState & H).
    exists pass, maxDepth, badState. split; [exact H|].
    exact (proj1 (CheckWFC_verdict cr pass maxDepth badState H)).
Qed.

(** The statement at the tables of the permissions registry: as built,
    where [CheckWFC] returns with a nil error, and with the normal form of
    the valid state 3 overwritten, where it reports that state as not a
    fixpoint. *)
Lemma CheckWFC_pass_iff_witness :
  (exists pass maxDepth badState,
     CheckWFC permissions_cr = Ok (pass, maxDepth, badState, None) /\
     (pass = true <->
      forall s, 0 <= s < sch_TotalLen (cr_Schema permissions_cr) ->
        exists nf valid,
          elemZ (NF permissions_cr) s = Ok nf /\
          elemZ (Valid permissions_cr) nf = Ok true /\
          elemZ (Valid permissions_cr) s = Ok valid /\ (valid = true -> nf = s))) /\
  (exists s, 0 <= s < sch_TotalLen (cr_Schema permissions_broken) /\
     (forall s', 0 <= s' < s -> wfc_at permissions_broken s') /\
     wfc_fails_at permissions_broken s (NotFixpoint [1; 1] [0; 0])) /\
  ~ (forall s, 0 <= s < sch_TotalLen (cr_Schema permissions_broken) ->
       exists nf valid,
         elemZ (NF permissions_broken) s = Ok nf /\
         elemZ (Valid permissions_broken) nf = Ok true /\
         elemZ (Valid permissions_broken) s = Ok valid /\ (valid = true -> nf = s)).
Proof.
  split; [|split].
  - apply (proj2 (proj2 (CheckWFC_pass_iff permissions_cr)) (compiled permissions)).
    vm_compute. reflexivity.
  - apply (proj1 (proj2 (CheckWFC_pass_iff permissions_broken))).
    vm_compute. reflexivity.
  - intros Hall.
    assert (H : false = true); [|discriminate].
    apply (proj1 (proj1 (CheckWFC_pass_iff permissions_broken)
                    false 0 (Some (NotFixpoint [1; 1] [0; 0]))
                    ltac:(vm_compute; reflexivity))).
    exact Hall.
Defined.

(** ** CheckCC *)

Lemma touches_false s w :
  touches s w = false <-> (w ∉ writes s) /\ (w ∉ reads s).
Proof.
  unfold touches. rewrite orb_false_iff, !bool_decide_eq_false. tauto.
Qed.

Lemma isIndependent_spec sets e1 e2 a b :
  sets !! e1 = Some a -> sets !! e2 = Some b ->
  exists r, isIndependent sets e1 e2 = Ok r /\ (r = true <-> independent a b).
Proof.
  intros Ha Hb. unfold isIndependent, elem. rewrite Ha, Hb. simpl.
  eexists. split; [reflexivity|].
  rewrite andb_true_iff, !forallb_forall. unfold independent.
  split; intros [H1 H2]; split; intros w Hw.
  - apply touches_false, negb_true_iff. apply H1.
    apply list_elem_of_In, elem_of_elements. exact Hw.
  - apply touches_false, negb_true_iff. apply H2.
    apply list_elem_of_In, elem_of_elements. exact Hw.
  - apply negb_true_iff, touches_false. apply H1.
    apply list_elem_of_In, elem_of_elements in Hw. exact Hw.
  - apply negb_true_iff, touches_false. apply H2.
    apply list_elem_of_In, elem_of_elements in Hw. exact Hw.
Qed.

Lemma independent_sym a b : independent a b -> independent b a.
Proof. unfold independent. tauto. Qed.

Lemma cc1_at_sym cr e1 e2 s : cc1_at cr e1 e2 s -> cc1_at cr e2 e1 s.
Proof.
  intros (row1 & row2 & s1 & s2 & H1 & H2 & Hs1 & Hs2 & H).
  exists row2, row1, s2, s1. repeat split; auto.
  destruct H as [H|[H|(r12 & r21 & Hr12 & Hr21 & H)]]; [tauto|tauto|].
  right. right. exists r21, r12. repeat split; auto.
  destruct H as [H|[H|H]]; auto.
Qed.

(** The state loop of CC1 finds no counterexample exactly when the CC1
    condition holds at every state it visits, whatever the tables contain. *)
Lemma CC1_states_None cr e1 e2 :
  forall count sid,
    CheckCC_CC1_states cr e1 e2 sid count = Ok None <->
    forall k, (k < count)%nat -> cc1_at cr e1 e2 (sid + Z.of_nat k).
Proof.
  induction count as [|count IH]; intros sid; simpl.
  - split; [intros _ k Hk; lia|reflexivity].
  - assert (Hnext : (forall k, (k < count)%nat -> cc1_at cr e1 e2 (sid + 1 + Z.of_nat k)) <->
                    (forall k, (0 < k < S count)%nat -> cc1_at cr e1 e2 (sid + Z.of_nat k))).
    { split; intros H k Hk.
      - replace (sid + Z.of_nat k) with (sid + 1 + Z.of_nat (k - 1)) by lia.
        apply H. lia.
      - replace (sid + 1 + Z.of_nat k) with (sid + Z.of_nat (S k)) by lia.
        apply H. lia. }
    unfold elem.
    destruct (Step cr !! e1) as [row1|] eqn:E1; simpl.
    2:{ split; [discriminate|]. intros H.
        destruct (H O ltac:(lia)) as (? & ? & ? & ? & ? & _). congruence. }
    destruct (elemZ row1 sid) as [s1|] eqn:Es1; simpl.
    2:{ split; [discriminate|]. intros H.
        destruct (H O ltac:(lia)) as (? & ? & ? & ? & ? & ? & Hx & _).
        rewrite Z.add_0_r in Hx. congruence. }
    destruct (Step cr !! e2) as [row2|] eqn:E2; simpl.
    2:{ split; [discriminate|]. intros H.
        destruct (H O ltac:(lia)) as (? & ? & ? & ? & ? & ? & _). congruence. }
    destruct (elemZ row2 sid) as [s2|] eqn:Es2; simpl.
    2:{ split; [discriminate|]. intros H.
        destruct (H O ltac:(lia)) as (? & ? & ? & ? & ? & ? & _ & Hx & _).
        rewrite Z.add_0_r in Hx. congruence. }
    assert (Hhere : forall P : Prop,
              (cc1_at cr e1 e2 sid <-> P) ->
              ((forall k, (k < S count)%nat -> cc1_at cr e1 e2 (sid + Z.of_nat k)) <->
               P /\ forall k, (k < count)%nat -> cc1_at cr e1 e2 (sid + 1 + Z.of_nat k))).
    { intros P HP. rewrite Hnext. split.
      - intros H. split.
        + apply HP. specialize (H O ltac:(lia)). rewrite Z.add_0_r in H. exact H.
        + intros k Hk. apply H. lia.
      - intros [Hp H] [|k] Hk.
        + rewrite Z.add_0_r. apply HP. exact Hp.
        + apply H. lia. }
    assert (Hcc : cc1_at cr e1 e2 sid <->
                  (s1 = -1 \/ s2 = -1 \/
                   exists r12 r21, elemZ row2 s1 = Ok r12 /\ elemZ row1 s2 = Ok r21 /\
                                   (r12 = -1 \/ r21 = -1 \/ r12 = r21))).
    { unfold cc1_at. split.
      - intros (r1 & r2 & x1 & x2 & H1 & H2 & Hx1 & Hx2 & H).
        rewrite E1 in H1. rewrite E2 in H2. inversion H1; inversion H2; subst r1 r2.
        rewrite Es1 in Hx1. rewrite Es2 in Hx2. inversion Hx1; inversion Hx2; subst x1 x2.
        exact H.
      - intros H. exists row1, row2, s1, s2. auto. }
    rewrite (Hhere _ Hcc).
    destruct ((s1 =? -1) || (s2 =? -1)) eqn:Eskip.
    { rewrite IH. apply orb_true_iff in Eskip. rewrite !Z.eqb_eq in Eskip.
      split; [intros H; split; [tauto|exact H]|tauto]. }
    apply orb_false_iff in Eskip as [Ea Eb]. apply Z.eqb_neq in Ea, Eb.
    destruct (elemZ row2 s1) as [r12|] eqn:Er12; simpl.
    2:{ split; [discriminate|]. intros [[?|[?|(? & ? & ? & _)]] _]; congruence. }
    destruct (elemZ row1 s2) as [r21|] eqn:Er21; simpl.
    2:{ split; [discriminate|]. intros [[?|[?|(? & ? & ? & ? & _)]] _]; congruence. }
    destruct ((r12 =? -1) || (r21 =? -1)) eqn:Eskip2.
    { rewrite IH. apply orb_true_iff in Eskip2. rewrite !Z.eqb_eq in Eskip2.
      split; [|tauto]. intros H. split; [|exact H].
      right. right. exists r12, r21. tauto. }
    apply orb_false_iff in Eskip2 as [Ec Ed]. apply Z.eqb_neq in Ec, Ed.
    destruct (r12 =? r21) eqn:Eeq; simpl.
    + apply Z.eqb_eq in Eeq. rewrite IH. split; [|tauto].
      intros H. split; [|exact H]. right. right. exists r12, r21. tauto.
    + apply Z.eqb_neq in Eeq. split.
      * intros H. exfalso.
        destruct (Decode (cr_Schema cr) sid); simpl in H; [|discriminate].
        destruct (reg_Events (Reg cr) !! e1); simpl in H; [|discriminate].
        destruct (reg_Events (Reg cr) !! e2); simpl in H; [|discriminate].
        destruct (Decode (cr_Schema cr) r12); simpl in H; [|discriminate].
        destruct (Decode (cr_Schema cr) r21); discriminate.
      * intros [[?|[?|(x12 & x21 & Hx12 & Hx21 & Hx)]] _]; try congruence.
        inversion Hx12; inversion Hx21; subst. lia.
Qed.

Lemma wrap_add_l a b : wrap (wrap a + b) = wrap (a + b).
Proof.
  apply wrap_eqm. replace (wrap a + b - (a + b)) with (wrap a - a) by lia.
  apply wrap_congr.
Qed.

Lemma Decode_total cr sid :
  tables_built cr -> 0 <= sid < sch_TotalLen (cr_Schema cr) ->
  exists st, Decode (cr_Schema cr) sid = Ok st.
Proof.
  intros (_ & _ & _ & _ & Hv & _) Hs. destruct (Hv sid Hs) as (st & _ & Hd & _). eauto.
Qed.

Lemma Step_cell_range cr ei evt :
  tables_built cr -> reg_Events (Reg cr) !! ei = Some evt ->
  exists row, Step cr !! ei = Some row /\
    forall sid, 0 <= sid < sch_TotalLen (cr_Schema cr) ->
      exists x, elemZ row sid = Ok x /\
                (x = -1 \/ 0 <= x < sch_TotalLen (cr_Schema cr)).
Proof.
  intros Hb He. destruct (Step_entry cr ei evt Hb He) as (row & Hrow & _ & Hc).
  exists row. split; [exact Hrow|]. intros sid Hs.
  destruct (Hc sid Hs) as (st & x & _ & Hx & [[Hm _]|[Hr _]]); exists x; auto.
Qed.

(** On built tables the state loop of CC1 does not panic. *)
Lemma CC1_states_total cr e1 e2 evt1 evt2 :
  tables_built cr ->
  reg_Events (Reg cr) !! e1 = Some evt1 -> reg_Events (Reg cr) !! e2 = Some evt2 ->
  forall count sid,
    0 <= sid -> sid + Z.of_nat count <= sch_TotalLen (cr_Schema cr) ->
    exists o, CheckCC_CC1_states cr e1 e2 sid count = Ok o.
Proof.
  intros Hb He1 He2.
  destruct (Step_cell_range cr e1 evt1 Hb He1) as (row1 & Hrow1 & Hc1).
  destruct (Step_cell_range cr e2 evt2 Hb He2) as (row2 & Hrow2 & Hc2).
  induction count as [|count IH]; intros sid H0 Hn; simpl; [eauto|].
  unfold elem. rewrite Hrow1, Hrow2. simpl.
  destruct (Hc1 sid ltac:(lia)) as (s1 & Hs1 & Hr1).
  destruct (Hc2 sid ltac:(lia)) as (s2 & Hs2 & Hr2).
  rewrite Hs1. simpl. rewrite Hs2. simpl.
  destruct ((s1 =? -1) || (s2 =? -1)) eqn:Eskip; [apply IH; lia|].
  apply orb_false_iff in Eskip as [Ea Eb]. apply Z.eqb_neq in Ea, Eb.
  destruct (Hc2 s1 ltac:(lia)) as (r12 & Hr12 & Hx12).
  destruct (Hc1 s2 ltac:(lia)) as (r21 & Hr21 & Hx21).
  rewrite Hr12. simpl. rewrite Hr21. simpl.
  destruct ((r12 =? -1) || (r21 =? -1)) eqn:Eskip2; [apply IH; lia|].
  apply orb_false_iff in Eskip2 as [Ec Ed]. apply Z.eqb_neq in Ec, Ed.
  destruct (r12 =? r21); simpl; [apply IH; lia|].
  destruct (Decode_total cr sid Hb ltac:(lia)) as (st & ->). simpl.
  rewrite He1, He2. simpl.
  destruct (Decode_total cr r12 Hb ltac:(lia)) as (nf1 & ->). simpl.
  destruct (Decode_total cr r21 Hb ltac:(lia)) as (nf2 & ->). simpl.
  eauto.
Qed.

Lemma CC1_states_all cr e1 e2 :
  CheckCC_CC1_states cr e1 e2 0 (Z.to_nat (sch_TotalLen (cr_Schema cr))) = Ok None <->
  forall s, 0 <= s < sch_TotalLen (cr_Schema cr) -> cc1_at cr e1 e2 s.
Proof.
  rewrite CC1_states_None. split.
  - intros H s Hs. specialize (H (Z.to_nat s) ltac:(lia)).
    rewrite Z.add_0_l, Z2Nat.id in H by lia. exact H.
  - intros H k Hk. apply H. lia.
Qed.

Lemma count_independent_cons sets p l :
  count_independent sets (p :: l) =
  (if independentb sets p then 1 else 0) + count_independent sets l.
Proof.
  unfold count_independent. simpl. destruct (independentb sets p); simpl; lia.
Qed.

Lemma count_dependent_cons sets p l :
  count_dependent sets (p :: l) =
  (if independentb sets p then 0 else 1) + count_dependent sets l.
Proof.
  unfold count_dependent. simpl. destruct (independentb sets p); simpl; lia.
Qed.

Lemma count_independent_app sets l1 l2 :
  count_independent sets (l1 ++ l2) = count_independent sets l1 + count_independent sets l2.
Proof.
  unfold count_independent. rewrite List.filter_app, length_app. lia.
Qed.

Lemma count_dependent_app sets l1 l2 :
  count_dependent sets (l1 ++ l2) = count_dependent sets l1 + count_dependent sets l2.
Proof.
  unfold count_dependent. rewrite List.filter_app, length_app. lia.
Qed.

Section CC1.
Variable cr : CompiledRegistry.
Variable sets : list evtSets.
Hypothesis Hbuilt : tables_built cr.
Hypothesis Hsets : length sets = length (reg_Events (Reg cr)).

Lemma isIndependent_total e1 e2 :
    (e1 < length sets)%nat -> (e2 < length sets)%nat ->
    isIndependent sets e1 e2 = Ok (independentb sets (e1, e2)).
  Proof.
    intros H1 H2.
    destruct (lookup_lt_is_Some_2 sets e1 H1) as [a Ha].
    destruct (lookup_lt_is_Some_2 sets e2 H2) as [b Hb].
    destruct (isIndependent_spec sets e1 e2 a b Ha Hb) as (r & Hr & _).
    unfold independentb. simpl. rewrite Hr. reflexivity.
  Qed.

  (** The inner loop of CC1. *)
Lemma CC1_inner_spec e1 :
    (e1 < length sets)%nat ->
    forall count e2 result p d,
      (e2 + count <= length sets)%nat ->
      PairsChecked result = wrap p -> DependentSkipped result = wrap d ->
      exists result',
        CheckCC_CC1_inner cr sets e1 e2 count result = Ok result' /\
        (CC1Pass result' = true <->
         CC1Pass result = true /\
         forall k, (k < count)%nat -> cc1_pair cr sets e1 (e2 + k)) /\
        (CC1Pass result' = true ->
         PairsChecked result' = wrap (p + count_independent sets (pairs_row e1 e2 count)) /\
         DependentSkipped result' = wrap (d + count_dependent sets (pairs_row e1 e2 count))) /\
        (CC1Pass result = false -> result' = result).
  Proof.
    intros He1. induction count as [|count IH]; intros e2 result p d Hle Hp Hd; simpl.
    - exists result. split; [reflexivity|]. split.
      + split; [intros H; split; [exact H|intros k Hk; lia]|tauto].
      + split; [|reflexivity]. intros _.
        unfold pairs_row, count_independent, count_dependent. simpl.
        rewrite !Z.add_0_r. auto.
    - destruct (CC1Pass result) eqn:Epass; simpl.
      2:{ exists result. split; [reflexivity|]. rewrite Epass. split.
          - split; [discriminate|intros [? _]; discriminate].
          - split; [discriminate|reflexivity]. }
      rewrite (isIndependent_total e1 e2 He1 ltac:(lia)). simpl.
      assert (Hrow : pairs_row e1 e2 (S count) = (e1, e2) :: pairs_row e1 (S e2) count)
        by reflexivity.
      assert (Hshift : forall P : nat -> Prop,
                (forall k, (k < S count)%nat -> P (e2 + k)%nat) <->
                P e2 /\ forall k, (k < count)%nat -> P (S e2 + k)%nat).
      { intros P. split.
        - intros H. split.
          + specialize (H O ltac:(lia)). rewrite Nat.add_0_r in H. exact H.
          + intros k Hk. replace (S e2 + k)%nat with (e2 + S k)%nat by lia. apply H. lia.
        - intros [H0 H] [|k] Hk.
          + rewrite Nat.add_0_r. exact H0.
          + replace (e2 + S k)%nat with (S e2 + k)%nat by lia. apply H. lia. }
      rewrite Hrow, count_independent_cons, count_dependent_cons.
      destruct (independentb sets (e1, e2)) eqn:Eind; simpl.
      + (* independent pair: counted and checked *)
        destruct (lookup_lt_is_Some_2 (reg_Events (Reg cr)) e1 ltac:(lia)) as [evt1 Hevt1].
        destruct (lookup_lt_is_Some_2 (reg_Events (Reg cr)) e2 ltac:(lia)) as [evt2 Hevt2].
        destruct (CC1_states_total cr e1 e2 evt1 evt2 Hbuilt Hevt1 Hevt2
                    (Z.to_nat (sch_TotalLen (cr_Schema cr))) 0 ltac:(lia))
          as (o & Ho).
        { destruct Hbuilt as (H0 & _). lia. }
        rewrite Ho. simpl.
        destruct o as [f|].
        * (* a counterexample: CC1 fails, the loop stops *)
          destruct (IH (S e2) (fail_CC1 (count_pair result) f) (p + 1) d ltac:(lia))
            as (result' & Hr & _ & _ & Hsame).
          { simpl. rewrite Hp. apply wrap_add_l. }
          { simpl. exact Hd. }
          exists result'. split; [exact Hr|].
          rewrite (Hsame eq_refl). simpl. split.
          -- split; [discriminate|]. intros [_ H]. exfalso.
             apply Hshift in H as [H _].
             assert (Hn : CheckCC_CC1_states cr e1 e2 0
                            (Z.to_nat (sch_TotalLen (cr_Schema cr))) = Ok None)
               by (apply CC1_states_all, H, Eind).
             congruence.
          -- split; [discriminate|]. intros Hf. discriminate.
        * destruct (IH (S e2) (count_pair result) (p + 1) d ltac:(lia))
            as (result' & Hr & Hiff & Hcnt & Hsame).
          { simpl. rewrite Hp. apply wrap_add_l. }
          { simpl. exact Hd. }
          exists result'. split; [exact Hr|]. split; [|split].
          -- rewrite Hiff. simpl. rewrite Epass, (Hshift (cc1_pair cr sets e1)).
             split; [intros [_ H]|intros [_ [_ H]]]; (split; [reflexivity|]); auto.
             split; [|exact H]. intros _. apply CC1_states_all. exact Ho.
          -- intros Hpass. destruct (Hcnt Hpass) as [Hc1 Hc2].
             split; [rewrite Hc1; f_equal; lia|rewrite Hc2; f_equal; lia].
          -- discriminate.
      + (* dependent pair: skipped *)
        destruct (IH (S e2) (skip_dependent result) p (d + 1) ltac:(lia))
          as (result' & Hr & Hiff & Hcnt & Hsame).
        { simpl. exact Hp. }
        { simpl. rewrite Hd. apply wrap_add_l. }
        exists result'. split; [exact Hr|]. split; [|split].
        * rewrite Hiff. simpl. rewrite Epass, (Hshift (cc1_pair cr sets e1)).
          split; [intros [_ H]|intros [_ [_ H]]]; (split; [reflexivity|]); auto.
          split; [|exact H]. intros Hi. unfold cc1_pair in *. congruence.
        * intros Hpass. destruct (Hcnt Hpass) as [Hc1 Hc2].
          split; [rewrite Hc1; f_equal; lia|rewrite Hc2; f_equal; lia].
        * discriminate.
  Qed.
End CC1.

Section CC1_outer.
Variable cr : CompiledRegistry.
Variable sets : list evtSets.
Hypothesis Hbuilt : tables_built cr.
Hypothesis Hsets : length sets = length (reg_Events (Reg cr)).

Lemma CC1_outer_failed numEvts e1 count result :
    CC1Pass result = false ->
    CheckCC_CC1_outer cr sets numEvts e1 count result = Ok result.
  Proof. intros H. destruct count; simpl; [reflexivity|]. rewrite H. reflexivity. Qed.

  (** The outer loop of CC1. *)
Lemma CC1_outer_spec :
    forall count e1 result p d,
      (e1 + count = length sets)%nat ->
      PairsChecked result = wrap p -> DependentSkipped result = wrap d ->
      exists result',
        CheckCC_CC1_outer cr sets (length sets) e1 count result = Ok result' /\
        (CC1Pass result' = true <->
         CC1Pass result = true /\
         forall a b, (e1 <= a < b)%nat -> (b < length sets)%nat -> cc1_pair cr sets a b) /\
        (CC1Pass result' = true ->
         PairsChecked result' =
           wrap (p + count_independent sets (pairs_from (length sets) e1 count)) /\
         DependentSkipped result' =
           wrap (d + count_dependent sets (pairs_from (length sets) e1 count))) /\
        (CC1Pass result = false -> result' = result).
  Proof.
    induction count as [|count IH]; intros e1 result p d Hle Hp Hd; simpl.
    - exists result. split; [reflexivity|]. split.
      + split; [intros H; split; [exact H|intros a b Hab Hb; lia]|tauto].
      + split; [|reflexivity]. intros _.
        unfold count_independent, count_dependent. simpl. rewrite !Z.add_0_r. auto.
    - destruct (CC1Pass result) eqn:Epass; simpl.
      2:{ exists result. split; [reflexivity|]. rewrite Epass. split.
          - split; [discriminate|intros [? _]; discriminate].
          - split; [discriminate|reflexivity]. }
      destruct (CC1_inner_spec cr sets Hbuilt Hsets e1 ltac:(lia)
                  (length sets - S e1)%nat (S e1) result p d ltac:(lia) Hp Hd)
        as (r1 & Hr1 & Hiff1 & Hcnt1 & _).
      rewrite Hr1. simpl.
      destruct (CC1Pass r1) eqn:Epass1.
      + destruct (Hcnt1 eq_refl) as [Hp1 Hd1].
        destruct (IH (S e1) r1 _ _ ltac:(lia) Hp1 Hd1)
          as (result' & Hr & Hiff & Hcnt & _).
        exists result'. split; [exact Hr|]. split; [|split].
        * rewrite Hiff, Epass1.
          destruct (proj1 Hiff1 eq_refl) as [_ Hrow].
          split; intros [_ H]; (split; [reflexivity|]).
          -- intros a b Hab Hb. destruct (decide (a = e1)) as [->|Hne].
             ++ replace b with (S e1 + (b - S e1))%nat by lia. apply Hrow. lia.
             ++ apply H; lia.
          -- intros a b Hab Hb. apply H; lia.
        * intros Hpass. destruct (Hcnt Hpass) as [Hc1 Hc2].
          rewrite count_independent_app, count_dependent_app.
          split; [rewrite Hc1; f_equal; lia|rewrite Hc2; f_equal; lia].
        * discriminate.
      + exists r1. split; [apply CC1_outer_failed; exact Epass1|].
        rewrite Epass1. split; [|split; discriminate].
        split; [discriminate|]. intros [_ H]. exfalso.
        assert (Hp1 : false = true).
        { apply Hiff1. split; [exact Epass|]. intros k Hk. apply H; lia. }
        discriminate.
  Qed.
End CC1_outer.

(** On built tables the loops of CC2 do not panic. *)
Lemma CC2_states_total cr ei evt :
  tables_built cr -> reg_Events (Reg cr) !! ei = Some evt ->
  forall count sid,
    0 <= sid -> sid + Z.of_nat count <= sch_TotalLen (cr_Schema cr) ->
    exists o, CheckCC_CC2_states cr ei sid count = Ok o.
Proof.
  intros Hb He.
  destruct (Step_cell_range cr ei evt Hb He) as (row & Hrow & Hc).
  induction count as [|count IH]; intros sid H0 Hn; simpl; [eauto|].
  unfold elem. rewrite Hrow. simpl.
  destruct (Hc sid ltac:(lia)) as (stepRaw & Hs & Hr). rewrite Hs. simpl.
  destruct (stepRaw =? -1) eqn:Ea; [apply IH; lia|]. apply Z.eqb_neq in Ea.
  pose proof Hb as (_ & _ & _ & _ & _ & Hnf & _).
  destruct (Hnf sid ltac:(lia)) as (nfID & _ & Hn').
  rewrite Hn'. simpl.
  destruct (NF_entry cr sid nfID Hb Hn') as (_ & _ & Hrange & _).
  destruct (Hc nfID Hrange) as (stepNF & Hsn & Hrn). rewrite Hsn. simpl.
  destruct (stepNF =? -1) eqn:Eb; [apply IH; lia|]. apply Z.eqb_neq in Eb.
  destruct (stepRaw =? stepNF); simpl; [apply IH; lia|].
  destruct (Decode_total cr sid Hb ltac:(lia)) as (st & ->). simpl.
  destruct (Decode_total cr nfID Hb Hrange) as (nfSt & ->). simpl.
  rewrite He. simpl.
  destruct (Decode_total cr stepRaw Hb ltac:(lia)) as (nf1 & ->). simpl.
  destruct (Decode_total cr stepNF Hb ltac:(lia)) as (nf2 & ->). simpl.
  eauto.
Qed.

Lemma CC2_events_total cr :
  tables_built cr ->
  forall count ei,
    (ei + count <= length (reg_Events (Reg cr)))%nat ->
    exists o, CheckCC_CC2_events cr ei count = Ok o.
Proof.
  intros Hb. induction count as [|count IH]; intros ei Hle; simpl; [eauto|].
  destruct (lookup_lt_is_Some_2 (reg_Events (Reg cr)) ei ltac:(lia)) as [evt Hevt].
  destruct (CC2_states_total cr ei evt Hb Hevt
              (Z.to_nat (sch_TotalLen (cr_Schema cr))) 0 ltac:(lia)) as (o & Ho).
  { destruct Hb as (H0 & _). lia. }
  rewrite Ho. simpl. destruct o; [eauto|]. apply IH. lia.
Qed.

(** C3. On a registry whose tables [BuildTables] has built, and with
    [sets] the read and write sets [CheckCC] computes for the events,
    [CheckCC] returns a result whose CC1 verdict is PASS if and only if,
    for every pair of distinct events [e1], [e2] that is independent
    (neither writes a variable the other reads or writes) and every state
    ID [s], the CC1 condition holds: the state is skipped if [Step[e1][s]]
    or [Step[e2][s]] is -1, or if [Step[e2][s1]] or [Step[e1][s2]] is -1,
    and otherwise [Step[e2][s1] = Step[e1][s2]]. The code's independence
    test is this relation on the sets, and when CC1 passes the two
    counters are the numbers of independent and of dependent pairs. *)
Theorem CheckCC_CC1_pass_iff (cr0 cr : CompiledRegistry) (sets : list evtSets) :
  BuildTables cr0 = Ok cr ->
  mapM_from (CheckCC_sets cr) 0 (reg_Events (Reg cr)) = Ok sets ->
  exists result,
    CheckCC cr = Ok result /\
    (CC1Pass result = true <->
     forall e1 e2 a b,
       e1 <> e2 -> sets !! e1 = Some a -> sets !! e2 = Some b ->
       independent a b ->
       forall s, 0 <= s < sch_TotalLen (cr_Schema cr) -> cc1_at cr e1 e2 s) /\
    (forall e1 e2 a b,
       sets !! e1 = Some a -> sets !! e2 = Some b ->
       (isIndependent sets e1 e2 = Ok true <-> independent a b)) /\
    (CC1Pass result = true ->
     PairsChecked result =
       wrap (count_independent sets (event_pairs (length (reg_Events (Reg cr))))) /\
     DependentSkipped result =
       wrap (count_dependent sets (event_pairs (length (reg_Events (Reg cr)))))).
Proof.
  intros Hbt Hm. apply BuildTables_built in Hbt as (Hb & _).
  pose proof (proj1 (mapM_from_Ok _ _ _ _) Hm) as [Hlen _].
  unfold CheckCC. rewrite Hm. simpl. rewrite <- Hlen.
  set (result0 := {| CCPass := false; CC1Pass := true; CC2Pass := false;
                     PairsChecked := 0; DependentSkipped := 0;
                     CC1Fail := None; CC2Fail := None |}).
  destruct (CC1_outer_spec cr sets Hb Hlen (length sets) 0 result0 0 0
              ltac:(lia) eq_refl eq_refl) as (r1 & Hr1 & Hiff & Hcnt & _).
  rewrite Hr1. simpl.
  destruct (CC2_events_total cr Hb (length sets) 0 ltac:(lia)) as (o2 & Ho2).
  rewrite Ho2. simpl. eexists. split; [reflexivity|]. simpl.
  assert (Hind : forall e1 e2 a b,
             sets !! e1 = Some a -> sets !! e2 = Some b ->
             (isIndependent sets e1 e2 = Ok true <-> independent a b)).
  { intros e1 e2 a b Ha Hb'.
    destruct (isIndependent_spec sets e1 e2 a b Ha Hb') as (r & Hr & Hri).
    rewrite Hr. rewrite <- Hri. split; congruence. }
  split; [|split; [exact Hind|]].
  - rewrite Hiff. simpl. split.
    + intros [_ H] e1 e2 a b Hne Ha Hb' Hi s Hs.
      pose proof (lookup_lt_Some _ _ _ Ha). pose proof (lookup_lt_Some _ _ _ Hb').
      destruct (Nat.lt_total e1 e2) as [Hlt|[Heq|Hgt]]; [|lia|].
      * apply (H e1 e2); [lia|lia| |exact Hs].
        unfold independentb. simpl.
        rewrite (proj2 (Hind e1 e2 a b Ha Hb') Hi). reflexivity.
      * apply cc1_at_sym. apply (H e2 e1); [lia|lia| |exact Hs].
        unfold independentb. simpl.
        rewrite (proj2 (Hind e2 e1 b a Hb' Ha) (independent_sym _ _ Hi)). reflexivity.
    + intros H. split; [reflexivity|]. intros a b Hab Hlt Hi s Hs.
      destruct (lookup_lt_is_Some_2 sets a ltac:(lia)) as [sa Hsa].
      destruct (lookup_lt_is_Some_2 sets b Hlt) as [sb Hsb].
      apply (H a b sa sb); [lia|exact Hsa|exact Hsb| |exact Hs].
      apply (Hind a b sa sb Hsa Hsb).
      unfold independentb in Hi. simpl in Hi.
      destruct (isIndependent sets a b) as [r|]; [congruence|discriminate].
  - intros Hpass. destruct (Hcnt Hpass) as [Hc1 Hc2].
    rewrite Z.add_0_l in Hc1, Hc2. unfold event_pairs. auto.
Qed.

(** ** Repairs are bound by position *)

Lemma same_result_refl {A} (r : res A) : same_result r r.
Proof. destruct r; simpl; auto. Qed.

Lemma same_result_bind {A B} (r r' : res A) (f f' : A -> res B) :
  same_result r r' -> (forall a, same_result (f a) (f' a)) ->
  same_result (r ≫= f) (r' ≫= f').
Proof.
  destruct r, r'; simpl; intros H Hf; try contradiction; auto.
  subst. apply Hf.
Qed.

Lemma same_result_wrap_err {A} ctx ctx' (r : res A) :
  same_result (wrap_err ctx r) (wrap_err ctx' r).
Proof. destruct r as [|e]; simpl; [reflexivity|]. destruct e; exact I. Qed.

Lemma Compile_assignments_same schema unknown bad unknown' bad' :
  forall l m,
    same_result (Compile_assignments schema unknown bad l m)
                (Compile_assignments schema unknown' bad' l m).
Proof.
  induction l as [|[varName exprStr] l IH]; intros m; simpl; [reflexivity|].
  destruct (VarIndex schema varName <? 0); [exact I|].
  apply same_result_bind; [apply same_result_wrap_err|]. intros node. apply IH.
Qed.

Lemma mapM_from_same {A B} (f f' : nat -> A -> res B) :
  forall l l' i,
    length l = length l' ->
    (forall k x x', l !! k = Some x -> l' !! k = Some x' ->
                    same_result (f (i + k)%nat x) (f' (i + k)%nat x')) ->
    same_result (mapM_from f i l) (mapM_from f' i l').
Proof.
  induction l as [|x l IH]; intros [|x' l'] i Hlen H; simpl; try discriminate.
  - reflexivity.
  - apply same_result_bind.
    + specialize (H O x x' eq_refl eq_refl). rewrite Nat.add_0_r in H. exact H.
    + intros y. apply same_result_bind; [|intros; reflexivity].
      apply IH; [simpl in Hlen; lia|]. intros k a a' Ha Ha'.
      replace (S i + k)%nat with (i + S k)%nat by lia. apply (H (S k)); assumption.
Qed.

Lemma Compile_repair_rename schema k name reps :
  same_result (mapM (Compile_repair schema) reps)
    (mapM (Compile_repair schema)
       (alter (fun rep => {| rep_Invariant := name;
                             rep_Assignments := rep_Assignments rep |}) k reps)).
Proof.
  unfold mapM. apply mapM_from_same.
  - rewrite length_alter. reflexivity.
  - intros j x x' Hx Hx'. destruct (decide (k = j)) as [->|Hne].
    + rewrite list_lookup_alter_eq, Hx in Hx'. simpl in Hx'. inversion Hx'; subst x'.
      unfold Compile_repair. simpl. apply Compile_assignments_same.
    + rewrite list_lookup_alter_ne, Hx in Hx' by exact Hne. inversion Hx'; subst x'.
      apply same_result_refl.
Qed.

Lemma Compile_rename k name reg :
  same_result (Compile (rename_repair k name reg))
    (cr ← Compile reg; Ok (set_Reg cr (rename_repair k name reg))).
Proof.
  unfold Compile. simpl.
  destruct (sch_TotalLen (NewSchema (reg_Vars reg)) >? MaxStates); [exact I|].
  destruct (BuildEnumLiterals (NewSchema (reg_Vars reg))) as [lits|]; simpl; [|exact I].
  destruct (mapM Compile_invariant (reg_Invariants reg)) as [invs|]; simpl; [|exact I].
  pose proof (Compile_repair_rename (NewSchema (reg_Vars reg)) k name
                (reg_Compensation reg)) as Hrep.
  destruct (mapM (Compile_repair (NewSchema (reg_Vars reg))) (reg_Compensation reg))
    as [reps|],
    (mapM (Compile_repair (NewSchema (reg_Vars reg)))
       (alter (fun rep => {| rep_Invariant := name;
                             rep_Assignments := rep_Assignments rep |}) k
          (reg_Compensation reg))) as [reps'|];
    simpl in *; try contradiction; [|exact I].
  subst reps'.
  destruct (mapM (Compile_event (NewSchema (reg_Vars reg))) (reg_Events reg)) as [evts|];
    simpl; [reflexivity|exact I].
Qed.

(** Nothing after compilation reads the names of the compensation list. *)
Lemma BuildTables_rename k name reg cr :
  Reg cr = reg ->
  BuildTables (set_Reg cr (rename_repair k name reg)) =
  (t ← BuildTables cr; Ok (set_Reg t (rename_repair k name reg))).
Proof.
  intros <-. unfold BuildTables.
  change (BuildTables_Valid (set_Reg cr (rename_repair k name (Reg cr))))
    with (BuildTables_Valid cr).
  destruct (BuildTables_Valid cr) as [valid|]; simpl; [|reflexivity].
  change (BuildTables_NF (set_Valid (set_Reg cr (rename_repair k name (Reg cr))) valid))
    with (BuildTables_NF (set_Valid cr valid)).
  destruct (BuildTables_NF (set_Valid cr valid)) as [nf|]; simpl; [|reflexivity].
  change (BuildTables_Step
            (set_NF (set_Valid (set_Reg cr (rename_repair k name (Reg cr))) valid) nf))
    with (BuildTables_Step (set_NF (set_Valid cr valid) nf)).
  destruct (BuildTables_Step (set_NF (set_Valid cr valid) nf)); reflexivity.
Qed.

Lemma CheckWFC_rename k name cr :
  CheckWFC (set_Reg cr (rename_repair k name (Reg cr))) = CheckWFC cr.
Proof. reflexivity. Qed.

Lemma CheckCC_rename k name cr :
  CheckCC (set_Reg cr (rename_repair k name (Reg cr))) = CheckCC cr.
Proof. reflexivity. Qed.

(** C10. Repairs are bound to invariants by position only. Replacing the
    [invariant] name of the compensation entry at any position [k] by any
    string [name] leaves the outcome of [Compile] unchanged: it succeeds
    for the one registry exactly when it succeeds for the other and then
    yields the same schema, literals and compiled expressions; from there
    on [BuildTables] fills the same [Valid], [NF] and [Step] tables (or
    fails with the same error), [CheckWFC] and [CheckCC] return the same
    results, and the whole run ends with the same outcome. *)
Theorem repair_name_unused (k : nat) (name : string) (reg : Registry) :
  is_Ok (Compile (rename_repair k name reg)) = is_Ok (Compile reg) /\
  forall cr, Compile reg = Ok cr ->
    (exists cr',
       Compile (rename_repair k name reg) = Ok cr' /\
       cr_Schema cr' = cr_Schema cr /\ EnumLiterals cr' = EnumLiterals cr /\
       InvExprs cr' = InvExprs cr /\ RepExprs cr' = RepExprs cr /\
       EvtGuards cr' = EvtGuards cr /\ EvtExprs cr' = EvtExprs cr /\
       match BuildTables cr with
       | Ok t =>
           exists t',
             BuildTables cr' = Ok t' /\
             Valid t' = Valid t /\ NF t' = NF t /\ Step t' = Step t /\
             CheckWFC t' = CheckWFC t /\ CheckCC t' = CheckCC t
       | Err e => BuildTables cr' = Err e
       end) /\
    main (rename_repair k name reg) = main reg.
Proof.
  pose proof (Compile_rename k name reg) as Hc.
  split.
  { destruct (Compile reg), (Compile (rename_repair k name reg));
      simpl in *; try contradiction; reflexivity. }
  intros cr Hcr. rewrite Hcr in Hc. simpl in Hc.
  destruct (Compile (rename_repair k name reg)) as [cr'|] eqn:Hcr'; [|contradiction].
  simpl in Hc. subst cr'.
  pose proof (Compile_Ok reg cr Hcr) as (HReg & _).
  pose proof (BuildTables_rename k name reg cr HReg) as Hb.
  split.
  - exists (set_Reg cr (rename_repair k name reg)).
    split; [reflexivity|]. repeat (split; [reflexivity|]).
    rewrite Hb. destruct (BuildTables cr) as [t|e] eqn:Ht; simpl; [|reflexivity].
    exists (set_Reg t (rename_repair k name reg)).
    split; [reflexivity|]. repeat (split; [reflexivity|]).
    apply BuildTables_built in Ht as (_ & HRegt & _).
    rewrite <- HReg, <- HRegt. apply CheckCC_rename.
  - unfold main. rewrite Hcr', Hcr, Hb.
    destruct (BuildTables cr) as [t|e] eqn:Ht; simpl; [|reflexivity].
    apply BuildTables_built in Ht as (_ & HRegt & _).
    rewrite <- HReg, <- HRegt, CheckWFC_rename, CheckCC_rename. reflexivity.
Qed.

(** The statement at the permissions registry, with the name of its repair
    replaced by that of no invariant. *)
Lemma repair_name_unused_witness :
  (exists cr',
     Compile (rename_repair 0 "no_such_invariant" permissions) = Ok cr' /\
     RepExprs cr' = RepExprs (compiled permissions)) /\
  main (rename_repair 0 "no_such_invariant" permissions) = main permissions.
Proof.
  destruct (repair_name_unused 0 "no_such_invariant" permissions) as [_ H].
  destruct (H (compiled permissions))
    as [(cr' & Hc & _ & _ & _ & Hr & _) Hm].
  - vm_compute. reflexivity.
  - split; [exists cr'; split; assumption|exact Hm].
Defined.

(** The statement at the permissions registry and the sets computed for it. *)
Lemma CheckCC_CC1_pass_iff_witness :
  exists result,
    CheckCC permissions_cr = Ok result /\
    (CC1Pass result = true <->
     forall e1 e2 a b,
       e1 <> e2 -> permissions_sets !! e1 = Some a -> permissions_sets !! e2 = Some b ->
       independent a b ->
       forall s, 0 <= s < sch_TotalLen (cr_Schema permissions_cr) ->
                 cc1_at permissions_cr e1 e2 s) /\
    (forall e1 e2 a b,
       permissions_sets !! e1 = Some a -> permissions_sets !! e2 = Some b ->
       (isIndependent permissions_sets e1 e2 = Ok true <-> independent a b)) /\
    (CC1Pass result = true ->
     PairsChecked result =
       wrap (count_independent permissions_sets
               (event_pairs (length (reg_Events (Reg permissions_cr))))) /\
     DependentSkipped result =
       wrap (count_dependent permissions_sets
               (event_pairs (length (reg_Events (Reg permissions_cr)))))).
Proof.
  apply (CheckCC_CC1_pass_iff
           (compiled permissions)
           permissions_cr permissions_sets).
  - vm_compute. reflexivity.
  - vm_compute. reflexivity.
Defined.

(** The statement for the repair [can_write := false] at the state
    [can_read = false, can_write = true]. *)
Lemma applyAssignments_simultaneous_witness :
  applyAssignments permissions_cr {[ 1 := LitBool false ]} [0; 1] = Ok [0; 0] <->
  length [0; 0] = length [0; 1] /\
  (forall i e, ({[ 1 := LitBool false ]} : gmap Z Node) !! i = Some e ->
     exists x, assigns permissions_cr [0; 1] i e x /\ elemZ [0; 0] i = Ok x) /\
  (forall i, ({[ 1 := LitBool false ]} : gmap Z Node) !! i = None ->
     elemZ [0; 0] i = elemZ [0; 1] i).
Proof.
  apply (applyAssignments_simultaneous permissions_cr {[ 1 := LitBool false ]} [0; 1] [0; 0]).
Defined.

(** ** The iteration cap *)

(** The first failing cell decides the error of a table-filling loop. *)
Lemma tabulate_from_Err {A} (f : Z -> res A) e :
  forall count i k,
    (k < count)%nat ->
    (forall j, (j < k)%nat -> is_Ok (f (i + Z.of_nat j)) = true) ->
    f (i + Z.of_nat k) = Err e ->
    tabulate_from f i count = Err e.
Proof.
  induction count as [|count IH]; intros i k Hk Hbefore Hfail; [lia|].
  simpl. destruct k as [|k].
  - rewrite Z.add_0_r in Hfail. rewrite Hfail. reflexivity.
  - pose proof (Hbefore O ltac:(lia)) as H0. rewrite Z.add_0_r in H0.
    destruct (f i) as [x|]; [|discriminate]. simpl.
    rewrite (IH (i + 1) k); [reflexivity|lia| |].
    + intros j Hj. replace (i + 1 + Z.of_nat j) with (i + Z.of_nat (S j)) by lia.
      apply Hbefore. lia.
    + replace (i + 1 + Z.of_nat k) with (i + Z.of_nat (S k)) by lia. exact Hfail.
Qed.

Lemma tabulate_Err {A} (f : Z -> res A) n k e :
  0 <= k < n ->
  (forall j, 0 <= j < k -> is_Ok (f j) = true) ->
  f k = Err e ->
  tabulate n f = Err e.
Proof.
  intros Hk Hbefore Hfail. unfold tabulate.
  destruct (n <? 0) eqn:En; [apply Z.ltb_lt in En; lia|].
  apply (tabulate_from_Err f e (Z.to_nat n) 0 (Z.to_nat k)); [lia| |].
  - intros j Hj. rewrite Z.add_0_l. apply Hbefore. lia.
  - rewrite Z.add_0_l, Z2Nat.id by lia. exact Hfail.
Qed.

(** A run of [iters] firings uses up the iterations of [computeNF]. *)
Lemma computeNF_loop_exhausted cr k cur r :
  repairs_to cr k cur r ->
  forall sid,
    computeNF_loop cr sid k cur =
    (st ← Decode (cr_Schema cr) sid;
     Err (ErrNotTerminated (Z.of_nat MaxRepairIter) st)).
Proof.
  induction 1 as [s|k s s' r Hf Hr IH]; intros sid; [reflexivity|].
  destruct Hf as (Hs & st & i & newSt & Hd & Hfv & Ha & He).
  simpl. rewrite Hs. simpl. rewrite Hd. simpl.
  pose proof (computeNF_scan_first cr st i newSt s' Hfv Ha He i O eq_refl) as Hscan.
  rewrite drop_0 in Hscan. rewrite Hscan. simpl. apply IH.
Qed.

Lemma repairs_to_self cr s :
  fires cr s s -> forall k, repairs_to cr k s s.
Proof.
  intros Hf. induction k as [|k IH]; [constructor|].
  apply (repairs_step cr k s s s); assumption.
Qed.

(** C6 (amended). When normalization of a state exceeds the repair
    iteration cap, that is when [MaxRepairIter] = 1,000 successive firings
    are possible from it, [computeNF] returns an error that carries the
    originating state; if no earlier state already failed, [BuildTables]
    returns that error, and the run ends with the table-build error before
    the WFC check: no WFC verdict is produced. *)
Theorem cap_exceeded_aborts (reg : Registry) (cr : CompiledRegistry)
    (valid : list bool) (sid r : Z) :
  Compile reg = Ok cr ->
  BuildTables_Valid cr = Ok valid ->
  0 <= sid < sch_TotalLen (cr_Schema cr) ->
  (forall s, 0 <= s < sid -> is_Ok (computeNF (set_Valid cr valid) s) = true) ->
  repairs_to (set_Valid cr valid) MaxRepairIter sid r ->
  MaxRepairIter = 1000%nat /\
  exists st,
    Decode (cr_Schema cr) sid = Ok st /\
    computeNF (set_Valid cr valid) sid = Err (ErrNotTerminated 1000 st) /\
    BuildTables cr = Err (ErrNormalFormAt st (ErrNotTerminated 1000 st)) /\
    main reg = TableBuildError (ErrNormalFormAt st (ErrNotTerminated 1000 st)) /\
    forall wfcPass maxDepth badState cc,
      main reg <> Report wfcPass maxDepth badState cc.
Proof.
  intros Hc Hv Hsid Hbefore Hchain. split; [reflexivity|].
  pose proof (proj1 (BuildTables_Valid_spec cr valid) Hv) as (_ & _ & Hdec).
  destruct (Hdec sid Hsid) as (st & _ & Hd & _).
  assert (Hfail : computeNF (set_Valid cr valid) sid = Err (ErrNotTerminated 1000 st)).
  { unfold computeNF. rewrite (computeNF_loop_exhausted _ _ _ _ Hchain sid).
    change (cr_Schema (set_Valid cr valid)) with (cr_Schema cr).
    rewrite Hd. reflexivity. }
  assert (Hb : BuildTables cr = Err (ErrNormalFormAt st (ErrNotTerminated 1000 st))).
  { unfold BuildTables. rewrite Hv. simpl.
    assert (Hnf : BuildTables_NF (set_Valid cr valid) =
                  Err (ErrNormalFormAt st (ErrNotTerminated 1000 st))).
    { unfold BuildTables_NF. apply (tabulate_Err _ _ sid); [exact Hsid| |].
      - intros j Hj. specialize (Hbefore j Hj).
        destruct (computeNF (set_Valid cr valid) j); [reflexivity|discriminate].
      - rewrite Hfail. simpl.
        change (cr_Schema (set_Valid cr valid)) with (cr_Schema cr).
        rewrite Hd. reflexivity. }
    rewrite Hnf. reflexivity. }
  assert (Hm : main reg = TableBuildError (ErrNormalFormAt st (ErrNotTerminated 1000 st))).
  { unfold main. rewrite Hc, Hb. reflexivity. }
  exists st. repeat split; auto.
  intros wfcPass maxDepth badState cc. rewrite Hm. discriminate.
Qed.

Lemma looping_fires :
  fires (set_Valid (compiled looping) [false; false]) 0 0.
Proof.
  split; [vm_compute; reflexivity|].
  exists [0], O, [0]. split; [vm_compute; reflexivity|]. split.
  - split; [|intros j Hj; lia].
    exists (Op NodeAnd [Var "b"; Op NodeNot [Var "b"]]).
    split; vm_compute; reflexivity.
  - split; vm_compute; reflexivity.
Qed.

(** The statement at the [looping] registry, where state 0 fires into
    itself. *)
Lemma cap_exceeded_aborts_witness :
  MaxRepairIter = 1000%nat /\
  exists st,
    Decode (cr_Schema (compiled looping)) 0 = Ok st /\
    computeNF (set_Valid (compiled looping) [false; false]) 0 =
      Err (ErrNotTerminated 1000 st) /\
    BuildTables (compiled looping) =
      Err (ErrNormalFormAt st (ErrNotTerminated 1000 st)) /\
    main looping = TableBuildError (ErrNormalFormAt st (ErrNotTerminated 1000 st)) /\
    forall wfcPass maxDepth badState cc,
      main looping <> Report wfcPass maxDepth badState cc.
Proof.
  apply (cap_exceeded_aborts looping (compiled looping) [false; false] 0 0).
  - vm_compute. reflexivity.
  - vm_compute. reflexivity.
  - vm_compute. split; congruence.
  - intros s Hs. lia.
  - apply repairs_to_self. exact looping_fires.
Defined.

(** C6, as stated, fails: on the [looping] registry normalization of state
    0 exceeds the cap, and the run ends with a table-build error instead of
    a WFC FAIL verdict. *)
Lemma cap_exceeded_counterexample :
  Compile looping = Ok (compiled looping) /\
  computeNF (set_Valid (compiled looping) [false; false]) 0 =
    Err (ErrNotTerminated 1000 [0]) /\
  main looping = TableBuildError (ErrNormalFormAt [0] (ErrNotTerminated 1000 [0])) /\
  ~ (exists maxDepth badState cc, main looping = Report false maxDepth badState cc).
Proof.
  assert (Hm : main looping =
               TableBuildError (ErrNormalFormAt [0] (ErrNotTerminated 1000 [0])))
    by (vm_compute; reflexivity).
  split; [vm_compute; reflexivity|].
  split; [vm_compute; reflexivity|].
  split; [exact Hm|].
  intros (d & b & cc & H). rewrite Hm in H. discriminate.
Qed.

(** ** The state-space ceiling *)

Lemma mapM_from_Err_shape {A B} (f : nat -> A -> res B) (P : error -> Prop) :
  (forall i x e, f i x = Err e -> P e) ->
  forall l i e, mapM_from f i l = Err e -> P e.
Proof.
  intros Hf. induction l as [|x l IH]; intros i e H; simpl in H; [discriminate|].
  destruct (f i x) as [y|e'] eqn:Ey; simpl in H.
  - destruct (mapM_from f (S i) l) as [r|e''] eqn:Er; simpl in H; [discriminate|].
    inversion H; subst. eapply IH; eauto.
  - inversion H; subst. eapply Hf; eauto.
Qed.

Lemma wrap_err_not_too_large {A} ctx (r : res A) e :
  (forall e', not_too_large (ctx e')) ->
  wrap_err ctx r = Err e -> not_too_large e.
Proof.
  intros Hctx H. destruct r as [|e']; [discriminate|].
  destruct e'; simpl in H; inversion H; subst;
    try apply Hctx; intros t l; discriminate.
Qed.

Lemma Compile_assignments_not_too_large schema unknown bad :
  (forall v, not_too_large (unknown v)) ->
  (forall v e, not_too_large (bad v e)) ->
  forall l m e, Compile_assignments schema unknown bad l m = Err e -> not_too_large e.
Proof.
  intros Hu Hb. induction l as [|[varName exprStr] l IH]; intros m e H; simpl in H;
    [discriminate|].
  destruct (VarIndex schema varName <? 0).
  - inversion H; subst. apply Hu.
  - destruct (wrap_err (bad varName) (Parse exprStr)) as [node|e'] eqn:Ew; simpl in H.
    + eapply IH; eauto.
    + inversion H; subst. eapply wrap_err_not_too_large; [|exact Ew]. apply Hb.
Qed.

Lemma BuildEnumLiterals_values_not_too_large varNames :
  forall values idx lits e,
    BuildEnumLiterals_values varNames values idx lits = Err e -> not_too_large e.
Proof.
  induction values as [|lit values IH]; intros idx lits e H; simpl in H; [discriminate|].
  destruct (bool_decide (lit ∈ varNames)).
  - inversion H; subst. intros t l; discriminate.
  - destruct (lits !! lit).
    + inversion H; subst. intros t l; discriminate.
    + eapply IH; eauto.
Qed.

Lemma BuildEnumLiterals_not_too_large schema e :
  BuildEnumLiterals schema = Err e -> not_too_large e.
Proof.
  unfold BuildEnumLiterals.
  generalize (list_to_set (vd_Name <$> sch_Vars schema) : gset string) as varNames.
  intros varNames. generalize (∅ : gmap string Z) as lits.
  induction (sch_Vars schema) as [|v vars IH]; intros lits H; simpl in H; [discriminate|].
  destruct (negb (VarType_eqb (vd_Type v) TypeEnum)); [eauto|].
  destruct (BuildEnumLiterals_values varNames (vd_Values v) 0 lits) as [lits'|e'] eqn:Ev;
    simpl in H; [eauto|].
  inversion H; subst. eapply BuildEnumLiterals_values_not_too_large; eauto.
Qed.

Lemma Compile_event_not_too_large schema evt e :
  Compile_event schema evt = Err e -> not_too_large e.
Proof.
  unfold Compile_event. intros H.
  destruct (String.eqb (evt_Guard evt) "").
  - simpl in H.
    destruct (Compile_assignments schema (ErrEventUnknownVar (evt_Name evt))
                (ErrEventExpr (evt_Name evt)) (map_to_list (evt_Assignments evt)) ∅)
      as [m|e'] eqn:Em; simpl in H; [discriminate|].
    inversion H; subst.
    eapply Compile_assignments_not_too_large; [| |exact Em];
      intros; intros t l; discriminate.
  - destruct (wrap_err (ErrEventGuard (evt_Name evt)) (Parse (evt_Guard evt)))
      as [g|e'] eqn:Eg; simpl in H.
    + destruct (Compile_assignments schema (ErrEventUnknownVar (evt_Name evt))
                  (ErrEventExpr (evt_Name evt)) (map_to_list (evt_Assignments evt)) ∅)
        as [m|e''] eqn:Em; simpl in H; [discriminate|].
      inversion H; subst.
      eapply Compile_assignments_not_too_large; [| |exact Em];
        intros; intros t l; discriminate.
    + inversion H; subst. eapply wrap_err_not_too_large; [|exact Eg].
      intros e'' t l; discriminate.
Qed.

(** [Compile] reports the state-space error only from its ceiling check. *)
Lemma Compile_too_large_only_from_check reg total limit :
  Compile reg = Err (ErrStateSpaceTooLarge total limit) ->
  (sch_TotalLen (NewSchema (reg_Vars reg)) >? MaxStates) = true.
Proof.
  unfold Compile. intros H.
  destruct (sch_TotalLen (NewSchema (reg_Vars reg)) >? MaxStates); [reflexivity|].
  exfalso.
  destruct (BuildEnumLiterals (NewSchema (reg_Vars reg))) as [lits|e] eqn:El; simpl in H.
  2:{ inversion H; subst. exact (BuildEnumLiterals_not_too_large _ _ El _ _ eq_refl). }
  destruct (mapM Compile_invariant (reg_Invariants reg)) as [invs|e] eqn:Ei; simpl in H.
  2:{ inversion H; subst. unfold mapM in Ei.
      refine (mapM_from_Err_shape _ not_too_large _ _ _ _ Ei _ _ eq_refl).
      intros i x e He. unfold Compile_invariant in He.
      eapply wrap_err_not_too_large; [|exact He]. intros e' t l; discriminate. }
  destruct (mapM (Compile_repair (NewSchema (reg_Vars reg))) (reg_Compensation reg))
    as [reps|e] eqn:Er; simpl in H.
  2:{ inversion H; subst. unfold mapM in Er.
      refine (mapM_from_Err_shape _ not_too_large _ _ _ _ Er _ _ eq_refl).
      intros i x e He. unfold Compile_repair in He.
      eapply Compile_assignments_not_too_large; [| |exact He];
        intros; intros t l; discriminate. }
  destruct (mapM (Compile_event (NewSchema (reg_Vars reg))) (reg_Events reg))
    as [evts|e] eqn:Ee; simpl in H; [discriminate|].
  inversion H; subst. unfold mapM in Ee.
  refine (mapM_from_Err_shape _ not_too_large _ _ _ _ Ee _ _ eq_refl).
  intros i x e He. eapply Compile_event_not_too_large; exact He.
Qed.

(** C7 (amended). For a registry whose variables are well formed and
    whose state count, the product of the domain sizes, fits a machine
    integer, [Compile] rejects the registry for the size of its state
    space exactly when the state count exceeds the ceiling [MaxStates] =
    1,000,000: a registry with exactly 1,000,000 states passes the check,
    and one with 1,000,001 or more states is rejected with the state-space
    error. *)
Theorem Compile_ceiling (reg : Registry) :
  Forall VarDef_ok (reg_Vars reg) ->
  state_count (reg_Vars reg) <= MaxInt ->
  MaxStates = 1000000 /\
  ((exists total limit, Compile reg = Err (ErrStateSpaceTooLarge total limit)) <->
   state_count (reg_Vars reg) > 1000000) /\
  (state_count (reg_Vars reg) = 1000000 ->
   forall total limit, Compile reg <> Err (ErrStateSpaceTooLarge total limit)) /\
  (state_count (reg_Vars reg) >= 1000001 ->
   Compile reg =
     Err (ErrStateSpaceTooLarge (state_count (reg_Vars reg)) 1000000)).
Proof.
  intros Hok Hmax.
  assert (Htot : sch_TotalLen (NewSchema (reg_Vars reg)) = state_count (reg_Vars reg)).
  { destruct (NewSchema_fields (reg_Vars reg)) as (_ & _ & Ht).
    rewrite Ht, (NewSchema_loop_exact _ Hok Hmax). reflexivity. }
  assert (Hrej : state_count (reg_Vars reg) > 1000000 ->
                 Compile reg =
                   Err (ErrStateSpaceTooLarge (state_count (reg_Vars reg)) 1000000)).
  { intros H. unfold Compile. rewrite Htot.
    destruct (state_count (reg_Vars reg) >? MaxStates) eqn:E; [reflexivity|].
    rewrite Z.gtb_ltb in E. apply Z.ltb_ge in E. unfold MaxStates in E. lia. }
  assert (Hacc : forall total limit,
             Compile reg = Err (ErrStateSpaceTooLarge total limit) ->
             state_count (reg_Vars reg) > 1000000).
  { intros total limit H. apply Compile_too_large_only_from_check in H.
    rewrite Htot, Z.gtb_ltb in H. apply Z.ltb_lt in H. unfold MaxStates in H. lia. }
  split; [reflexivity|]. split; [|split].
  - split; [intros (t & l & H); eauto|intros H; eauto].
  - intros Heq total limit H. apply Hacc in H. lia.
  - intros H. apply Hrej. lia.
Qed.

(** The statement at one integer variable of 1,000,000 and of 1,000,001
    values. *)
Lemma Compile_ceiling_witness :
  (forall total limit,
     Compile (one_int 1000000) <> Err (ErrStateSpaceTooLarge total limit)) /\
  Compile (one_int 1000001) = Err (ErrStateSpaceTooLarge 1000001 1000000).
Proof.
  split.
  - destruct (Compile_ceiling (one_int 1000000)) as (_ & _ & H & _).
    + repeat constructor; vm_compute; congruence.
    + vm_compute. congruence.
    + apply H. vm_compute. reflexivity.
  - destruct (Compile_ceiling (one_int 1000001)) as (_ & _ & _ & H).
    + repeat constructor; vm_compute; congruence.
    + vm_compute. congruence.
    + rewrite H; [vm_compute; reflexivity|vm_compute; congruence].
Defined.

(** C7, as stated, fails: a registry with exactly 1,048,576 states, the
    ceiling the specification names, is rejected, while one with 1,000,000
    states compiles. *)
Lemma Compile_ceiling_counterexample :
  sch_TotalLen (NewSchema (reg_Vars (one_int 1048576))) = 1048576 /\
  Compile (one_int 1048576) = Err (ErrStateSpaceTooLarge 1048576 1000000) /\
  is_Ok (Compile (one_int 1000000)) = true.
Proof. repeat split; vm_compute; reflexivity. Qed.

(** Beyond a machine integer the check sees the product as the machine
    computes it.  With two variables of 2^32 values each the state count
    is 2^64, [NewSchema] stores the total 0, and the registry passes the
    ceiling check: [Compile] accepts it. *)
Lemma Compile_overflow_accepted :
  state_count (reg_Vars overflowing) = 2 ^ 64 /\
  Forall VarDef_ok (reg_Vars overflowing) /\
  sch_TotalLen (NewSchema (reg_Vars overflowing)) = 0 /\
  is_Ok (Compile overflowing) = true.
Proof.
  split; [vm_compute; reflexivity|]. split; [|split; vm_compute; reflexivity].
  repeat constructor; vm_compute; congruence.
Qed.

(** ** Associativity of the comparison operators *)

(** C9 (amended). The comparison operators are left-associative, like
    every binary operator: a chain [a op1 b op2 c] of two comparisons
    without parentheses parses to the node of [op2] over the node of
    [op1] and [c]; no error is returned. *)
Theorem comparison_chain_left_assoc
    (t1 t2 : TokenType) (a b c v1 v2 : string) (pa p1 pb p2 pc pe : Z) :
  is_comparison t1 = true ->
  is_comparison t2 = true ->
  Parse_tokens
    [mkToken TokIdent a pa; mkToken t1 v1 p1; mkToken TokIdent b pb;
     mkToken t2 v2 p2; mkToken TokIdent c pc; mkToken TokEOF "" pe] =
  Ok (Op (infix_node t2) [Op (infix_node t1) [Var a; Var b]; Var c]).
Proof.
  intros H1 H2.
  destruct t1; try discriminate H1; destruct t2; try discriminate H2; reflexivity.
Qed.

(** The statement at the tokens of "a < b >= c". *)
Lemma comparison_chain_left_assoc_witness :
  Parse_tokens
    [mkToken TokIdent "a" 0; mkToken TokLt "<" 2; mkToken TokIdent "b" 4;
     mkToken TokGe ">=" 6; mkToken TokIdent "c" 9; mkToken TokEOF "" 10] =
  Ok (Op NodeGe [Op NodeLt [Var "a"; Var "b"]; Var "c"]).
Proof.
  apply (comparison_chain_left_assoc TokLt TokGe "a" "b" "c" "<" ">=" 0 2 4 6 9 10);
    reflexivity.
Defined.

(** C9, as stated, fails: [Parse] returns an AST for "a == b == c". *)
Lemma comparison_chain_counterexample :
  Lex "a == b == c" =
    Ok [mkToken TokIdent "a" 0; mkToken TokEq "==" 2; mkToken TokIdent "b" 5;
        mkToken TokEq "==" 7; mkToken TokIdent "c" 10; mkToken TokEOF "" 11] /\
  Parse "a == b == c" = Ok (Op NodeEq [Op NodeEq [Var "a"; Var "b"]; Var "c"]) /\
  Parse "1 < 2 < 3" = Ok (Op NodeLt [Op NodeLt [LitInt 1; LitInt 2]; LitInt 3]).
Proof. repeat split; vm_compute; reflexivity. Qed.

(** ** The read sets can be computed *)

Lemma HasPrefix_length s prefix :
  HasPrefix s prefix = true -> (length prefix <= length s)%nat.
Proof.
  revert s. induction prefix as [|p prefix IH]; intros s H; simpl; [lia|].
  destruct s as [|c s]; simpl in H; [discriminate|].
  apply andb_true_iff in H as [_ H]. apply IH in H. simpl. lia.
Qed.

Lemma strings_Index_unfold s substr :
  strings_Index s substr =
  if HasPrefix s substr then Some O
  else match s with
       | [] => None
       | _ :: s' => S <$> strings_Index s' substr
       end.
Proof. destruct s; reflexivity. Qed.

Lemma strings_Index_bound s substr pos :
  strings_Index s substr = Some pos -> (pos + length substr <= length s)%nat.
Proof.
  revert pos. induction s as [|c s IH]; intros pos H;
    rewrite strings_Index_unfold in H;
    destruct (HasPrefix _ substr) eqn:E.
  - inversion H; subst. apply HasPrefix_length in E. simpl in *. lia.
  - discriminate.
  - inversion H; subst. apply HasPrefix_length in E. simpl in *. lia.
  - destruct (strings_Index s substr) as [q|] eqn:Eq; simpl in H; [|discriminate].
    inversion H; subst. specialize (IH q eq_refl). simpl. lia.
Qed.

Lemma elem_in_range {A} (l : list A) i :
  (i < length l)%nat -> exists x, elem l i = Ok x.
Proof.
  intros H. destruct (lookup_lt_is_Some_2 l i H) as [x Hx].
  exists x. unfold elem. rewrite Hx. reflexivity.
Qed.

(** With a non-empty identifier the loop of [containsIdent] neither panics
    nor needs more than [len(s) + 1] iterations. *)
Lemma containsIdent_loop_total s ident :
  ident <> [] ->
  forall iters idx,
    (idx <= length s)%nat -> (length s - idx < iters)%nat ->
    exists b, containsIdent_loop iters s ident idx = Ok b.
Proof.
  intros Hne. induction iters as [|iters IH]; intros idx Hidx Hit; [lia|].
  simpl. destruct (length s <? idx)%nat eqn:E; [apply Nat.ltb_lt in E; lia|].
  destruct (strings_Index (drop idx s) ident) as [pos|] eqn:Ei; [|eauto].
  apply strings_Index_bound in Ei. rewrite length_drop in Ei.
  assert (Hlen : (1 <= length ident)%nat) by (destruct ident; [congruence|simpl; lia]).
  assert (Hbefore : exists x,
             (if (idx + pos =? 0)%nat then Ok true
              else b ← elem s (idx + pos - 1); Ok (negb (isIdentChar b))) = Ok x).
  { destruct (idx + pos =? 0)%nat; [eauto|].
    destruct (elem_in_range s (idx + pos - 1) ltac:(lia)) as (c & ->). simpl. eauto. }
  destruct Hbefore as (before & ->). simpl.
  assert (Hafter : exists x,
             (if (length s <=? idx + pos + length ident)%nat then Ok true
              else b ← elem s (idx + pos + length ident); Ok (negb (isIdentChar b))) = Ok x).
  { destruct (length s <=? idx + pos + length ident)%nat eqn:El; [eauto|].
    apply Nat.leb_gt in El.
    destruct (elem_in_range s (idx + pos + length ident) El) as (c & ->). simpl. eauto. }
  destruct Hafter as (after & ->). simpl.
  destruct (before && after); [eauto|]. apply IH; lia.
Qed.

Lemma list_ascii_of_string_nil s : list_ascii_of_string s = [] -> s = "".
Proof. destruct s; [reflexivity|discriminate]. Qed.

Lemma containsIdent_total s ident :
  ident <> "" -> exists b, containsIdent s ident = Ok b.
Proof.
  intros Hne. unfold containsIdent. apply containsIdent_loop_total; [|lia|lia].
  intros H. apply Hne, list_ascii_of_string_nil. exact H.
Qed.

Lemma CheckCC_reads_total schema exprStr vars :
  Forall (fun v => vd_Name v <> "") vars ->
  forall rd, exists rd', CheckCC_reads schema exprStr vars rd = Ok rd'.
Proof.
  induction 1 as [|v vars Hv _ IH]; intros rd; simpl; [eauto|].
  destruct (containsIdent_total exprStr (vd_Name v) Hv) as (c & ->). simpl. apply IH.
Qed.

Lemma CheckCC_reads_all_total schema exprs :
  Forall (fun v => vd_Name v <> "") (sch_Vars schema) ->
  forall rd, exists rd', CheckCC_reads_all schema exprs rd = Ok rd'.
Proof.
  intros Hv. induction exprs as [|e exprs IH]; intros rd; simpl; [eauto|].
  destruct (CheckCC_reads_total schema e (sch_Vars schema) Hv rd) as (rd' & ->).
  simpl. apply IH.
Qed.

Lemma mapM_from_total {A B} (f : nat -> A -> res B) :
  forall l i,
    (forall k x, l !! k = Some x -> exists y, f (i + k)%nat x = Ok y) ->
    exists r, mapM_from f i l = Ok r.
Proof.
  induction l as [|x l IH]; intros i H; simpl; [eauto|].
  destruct (H O x eq_refl) as (y & Hy). rewrite Nat.add_0_r in Hy. rewrite Hy. simpl.
  destruct (IH (S i)) as (r & ->); [|simpl; eauto].
  intros k a Ha. replace (S i + k)%nat with (i + S k)%nat by lia. apply (H (S k)). exact Ha.
Qed.

(** When no variable has the empty name, [CheckCC] computes the read and
    write sets of every event of a compiled registry. *)
Lemma CheckCC_sets_total reg cr0 cr :
  Compile reg = Ok cr0 -> BuildTables cr0 = Ok cr ->
  Forall (fun v => vd_Name v <> "") (reg_Vars reg) ->
  exists sets, mapM_from (CheckCC_sets cr) 0 (reg_Events (Reg cr)) = Ok sets.
Proof.
  intros Hc Hb Hnames.
  apply Compile_Ok in Hc as (HReg0 & Hsch0 & _ & _ & _ & _ & (evts & Hm & _ & Hexprs0) & _).
  apply BuildTables_built in Hb as (_ & HReg & Hsch & _ & _ & _ & _ & Hexprs).
  apply mapM_Ok in Hm as [Hlen _].
  assert (Hvars : Forall (fun v => vd_Name v <> "") (sch_Vars (cr_Schema cr))).
  { rewrite Hsch, Hsch0. destruct (NewSchema_fields (reg_Vars reg)) as (-> & _). exact Hnames. }
  apply mapM_from_total. intros k evt Hevt. simpl. unfold CheckCC_sets.
  assert (Hk : (k < length (EvtExprs cr))%nat).
  { rewrite Hexprs, Hexprs0, length_fmap, Hlen, <- HReg0, <- HReg.
    apply lookup_lt_Some in Hevt. exact Hevt. }
  destruct (elem_in_range (EvtExprs cr) k Hk) as (exprs & ->). simpl.
  assert (Hrd : exists rd,
             (if negb (String.eqb (evt_Guard evt) "")
              then CheckCC_reads (cr_Schema cr) (evt_Guard evt) (sch_Vars (cr_Schema cr)) ∅
              else Ok ∅) = Ok rd).
  { destruct (negb (String.eqb (evt_Guard evt) "")); [|eauto].
    apply CheckCC_reads_total. exact Hvars. }
  destruct Hrd as (rd & ->). simpl.
  destruct (CheckCC_reads_all_total (cr_Schema cr)
              (snd <$> map_to_list (evt_Assignments evt)) Hvars rd) as (rd' & ->).
  simpl. eauto.
Qed.

(** ** The lexer and the parser never run out of budget *)

Lemma scan_while_bounds p :
  forall rest i,
    (i <= scan_while p rest i <= i + length rest)%nat /\
    (forall c rest', rest = c :: rest' -> p c = true -> (i < scan_while p rest i)%nat).
Proof.
  induction rest as [|c rest IH]; intros i; simpl.
  - split; [lia|]. intros c rest' H. discriminate.
  - destruct (p c) eqn:E.
    + destruct (IH (S i)) as [Hb _]. split; [lia|]. intros; lia.
    + split; [lia|]. intros c' rest' H Hp. inversion H; subst. congruence.
Qed.

Lemma Lex_loop_fuel :
  forall fuel input i tokens,
    (i <= length input)%nat -> (length input - i < fuel)%nat ->
    Lex_loop fuel input i tokens <> Err OutOfFuel.
Proof.
  induction fuel as [|fuel IH]; intros input i tokens Hi Hf; [lia|].
  simpl. destruct (input !! i) as [ch|] eqn:Ech; [|discriminate].
  pose proof (lookup_lt_Some _ _ _ Ech) as Hlt.
  assert (Hdrop : exists rest, drop i input = ch :: rest).
  { exists (drop (S i) input). apply drop_S. exact Ech. }
  destruct Hdrop as (rest & Hdrop).
  assert (Hlen : length (drop i input) = (length input - i)%nat) by apply length_drop.
  destruct (IsSpace ch); [apply IH; lia|].
  destruct (IsDigit ch) eqn:Ed.
  { destruct (scan_while_bounds IsDigit (drop i input) i) as [Hb Hs].
    specialize (Hs ch rest Hdrop Ed). apply IH; lia. }
  destruct (IsLetter ch || is_underscore ch) eqn:El.
  { set (p := fun c => IsLetter c || IsDigit c || is_underscore c).
    destruct (scan_while_bounds p (drop i input) i) as [Hb Hs].
    assert (Hp : p ch = true).
    { unfold p. rewrite Ed. apply orb_true_iff in El as [->| ->]; simpl;
        [reflexivity|apply orb_true_r]. }
    specialize (Hs ch rest Hdrop Hp).
    destruct (keywords !! slice input i (scan_while p (drop i input) i));
      apply IH; lia. }
  destruct (S i <? length input)%nat eqn:E2.
  - apply Nat.ltb_lt in E2.
    destruct (two_char_token (slice input i (i + 2))); [apply IH; lia|].
    destruct (single_char_token ch); [apply IH; lia|discriminate].
  - destruct (single_char_token ch); [apply IH; lia|discriminate].
Qed.

(** The budget of [Lex] always suffices. *)
Lemma Lex_fuel input : Lex input <> Err OutOfFuel.
Proof. unfold Lex. apply Lex_loop_fuel; lia. Qed.

Lemma TokenType_eqb_eq a b : TokenType_eqb a b = true <-> a = b.
Proof.
  unfold TokenType_eqb. rewrite Z.eqb_eq. split; [|intros ->; reflexivity].
  destruct a, b; simpl; intros H; try reflexivity; discriminate H.
Qed.

Lemma peek_in_range p :
  tok_Type (peek p) <> TokEOF -> (p_pos p < length (p_tokens p))%nat.
Proof.
  unfold peek. destruct (p_tokens p !! p_pos p) eqn:E.
  - intros _. apply lookup_lt_Some in E. exact E.
  - simpl. congruence.
Qed.

Lemma advances_remaining p p' :
  advances p p' -> (parse_remaining p' < parse_remaining p)%nat.
Proof. unfold advances, parse_remaining. intros (-> & ? & ?). lia. Qed.

Lemma keeps_remaining p p' :
  keeps p p' -> (parse_remaining p' <= parse_remaining p)%nat.
Proof. unfold keeps, parse_remaining. intros (-> & ?). lia. Qed.

Lemma advances_trans_keeps p p1 p2 : advances p p1 -> keeps p1 p2 -> advances p p2.
Proof.
  unfold advances, keeps. intros (H1 & H2 & H3) (H4 & H5).
  rewrite H4, H1. repeat split; lia.
Qed.

Lemma advance_remaining p :
  (p_pos p < length (p_tokens p))%nat ->
  parse_remaining (advance p).2 = (parse_remaining p - 1)%nat /\
  (1 <= parse_remaining p)%nat.
Proof. unfold parse_remaining. simpl. lia. Qed.

Lemma expect_Ok tt p t p' :
  expect tt p = Ok (t, p') ->
  p' = (advance p).2 /\ tok_Type (peek p) = tt.
Proof.
  unfold expect. simpl. destruct (TokenType_eqb (tok_Type (peek p)) tt) eqn:E;
    [|discriminate].
  intros H. inversion H; subst. split; [reflexivity|]. apply TokenType_eqb_eq. exact E.
Qed.

Lemma infixInfo_ok_not_EOF t prec nt :
  infixInfo t = (prec, nt, true) -> t <> TokEOF.
Proof. intros H ->. discriminate H. Qed.

Lemma advances_advance p :
  (p_pos p < length (p_tokens p))%nat -> advances p (advance p).2.
Proof. unfold advances. simpl. intros H. repeat split; lia. Qed.

Lemma advances_trans p p1 p2 : advances p p1 -> advances p1 p2 -> advances p p2.
Proof.
  unfold advances. intros (H1 & H2 & H3) (H4 & H5 & H6).
  rewrite H4, H1. repeat split; lia.
Qed.

Lemma keeps_refl p : keeps p p.
Proof. unfold keeps. split; [reflexivity|lia]. Qed.

Lemma keeps_advance p : keeps p (advance p).2.
Proof. unfold keeps. simpl. split; [reflexivity|lia]. Qed.

Lemma keeps_trans p p1 p2 : keeps p p1 -> keeps p1 p2 -> keeps p p2.
Proof.
  unfold keeps. intros (H1 & H2) (H3 & H4). rewrite H3, H1. split; [reflexivity|lia].
Qed.

Lemma advances_keeps p p' : advances p p' -> keeps p p'.
Proof. unfold advances, keeps. intros (H1 & H2 & H3). split; [exact H1|lia]. Qed.

Lemma keeps_advances p p1 p2 : keeps p p1 -> advances p1 p2 -> advances p p2.
Proof.
  unfold advances, keeps. intros (H1 & H2) (H3 & H4 & H5).
  rewrite H3, H1. rewrite H1 in H4. repeat split; lia.
Qed.

Section ParserStep.
Variable fuel : nat.
Hypothesis IH : parser_ok fuel.

Lemma parseExpr_step minPrec p :
  ((3 * parse_remaining p + 3 <= S fuel)%nat ->
   parseExpr (S fuel) minPrec p <> Err OutOfFuel) /\
  (forall n p', parseExpr (S fuel) minPrec p = Ok (n, p') -> advances p p').
Proof.
  destruct IH as (_ & IHL & IHU & _).
  simpl. destruct (IHU p) as [HUf HUp].
  destruct (parseUnary fuel p) as [[lhs p1]|e] eqn:EU; simpl.
  - specialize (HUp lhs p1 eq_refl). destruct (IHL minPrec lhs p1) as [HLf HLp].
    pose proof (advances_remaining _ _ HUp). split.
    + intros Hb. apply HLf. lia.
    + intros n p' H'. eapply advances_trans_keeps; eauto.
  - split; [|discriminate]. intros Hb H'. inversion H'; subst. apply HUf; [lia|reflexivity].
Qed.

Lemma parseExpr_loop_step minPrec lhs p :
  ((3 * parse_remaining p + 1 <= S fuel)%nat ->
   parseExpr_loop (S fuel) minPrec lhs p <> Err OutOfFuel) /\
  (forall n p', parseExpr_loop (S fuel) minPrec lhs p = Ok (n, p') -> keeps p p').
Proof.
  destruct IH as (IHE & IHL & _).
  simpl. destruct (infixInfo (tok_Type (peek p))) as [[prec nodeType] ok] eqn:Ei.
  destruct (negb ok || (prec <? minPrec)) eqn:Estop.
  { split; [discriminate|]. intros n p' H'. inversion H'; subst. apply keeps_refl. }
  destruct (TokenType_eqb (tok_Type (peek p)) TokIf).
  { split; [discriminate|]. intros n p' H'. inversion H'; subst. apply keeps_refl. }
  apply orb_false_iff in Estop as [Eok _]. apply negb_false_iff in Eok. subst ok.
  pose proof (peek_in_range p (infixInfo_ok_not_EOF _ _ _ Ei)) as Hin.
  destruct (advance_remaining p Hin) as [Hrem Hpos].
  set (p1 := {| p_tokens := p_tokens p; p_pos := S (p_pos p) |}) in *.
  change (advance p).2 with p1 in Hrem.
  destruct (IHE (prec + 1) p1) as [HEf HEp].
  destruct (parseExpr fuel (prec + 1) p1) as [[rhs p2]|e] eqn:EE; simpl.
  - specialize (HEp rhs p2 eq_refl).
    destruct (IHL minPrec (Op nodeType [lhs; rhs]) p2) as [HLf HLp].
    pose proof (advances_remaining _ _ HEp). split.
    + intros Hb. apply HLf. lia.
    + intros n p' H'. apply (keeps_trans p p1 p'); [apply keeps_advance|].
      apply (keeps_trans p1 p2 p'); [apply advances_keeps; exact HEp|eauto].
  - split; [|discriminate]. intros Hb H'. inversion H'; subst. apply HEf; [lia|reflexivity].
Qed.

Lemma parseUnary_step p :
  ((3 * parse_remaining p + 2 <= S fuel)%nat ->
   parseUnary (S fuel) p <> Err OutOfFuel) /\
  (forall n p', parseUnary (S fuel) p = Ok (n, p') -> advances p p').
Proof.
  destruct IH as (IHE & _ & IHU & IHA & _).
  simpl.
  set (p1 := {| p_tokens := p_tokens p; p_pos := S (p_pos p) |}).
  assert (Hadv : tok_Type (peek p) <> TokEOF ->
                 advances p p1 /\ (1 <= parse_remaining p)%nat /\
                 parse_remaining p1 = (parse_remaining p - 1)%nat).
  { intros Hne. pose proof (peek_in_range p Hne) as Hin.
    destruct (advance_remaining p Hin). split; [apply advances_advance; exact Hin|]. auto. }
  destruct (TokenType_eqb (tok_Type (peek p)) TokNot) eqn:ENot.
  { apply TokenType_eqb_eq in ENot.
    destruct Hadv as (Ha & Hr1 & Hr2); [rewrite ENot; discriminate|].
    destruct (IHU p1) as [HUf HUp].
    destruct (parseUnary fuel p1) as [[operand p2]|e] eqn:EU; simpl.
    - split; [discriminate|]. intros n p' H'. inversion H'; subst.
      eapply advances_trans; eauto.
    - split; [|discriminate]. intros Hb H'. inversion H'; subst.
      apply HUf; [lia|reflexivity]. }
  destruct (TokenType_eqb (tok_Type (peek p)) TokIf) eqn:EIf.
  { apply TokenType_eqb_eq in EIf.
    destruct Hadv as (Ha & Hr1 & Hr2); [rewrite EIf; discriminate|].
    destruct (IHE 0 p1) as [HEf HEp].
    destruct (parseExpr fuel 0 p1) as [[cond p2]|e] eqn:EE; simpl.
    2:{ split; [|discriminate]. intros Hb H'. inversion H'; subst.
        apply HEf; [lia|reflexivity]. }
    specialize (HEp cond p2 eq_refl). pose proof (advances_remaining _ _ HEp).
    destruct (expect TokThen p2) as [[t3 p3]|e] eqn:Ex1; [|split; discriminate].
    apply expect_Ok in Ex1 as [-> Ht3].
    assert (Hin2 : (p_pos p2 < length (p_tokens p2))%nat)
      by (apply peek_in_range; rewrite Ht3; discriminate).
    destruct (advance_remaining p2 Hin2) as [Hr3 _].
    destruct (IHE 0 (advance p2).2) as [HEf3 HEp3].
    destruct (parseExpr fuel 0 (advance p2).2) as [[thn p4]|e] eqn:EE3; simpl.
    2:{ split; [|discriminate]. intros Hb H'. inversion H'; subst.
        apply HEf3; [lia|reflexivity]. }
    specialize (HEp3 thn p4 eq_refl). pose proof (advances_remaining _ _ HEp3).
    destruct (expect TokElse p4) as [[t5 p5]|e] eqn:Ex2; [|split; discriminate].
    apply expect_Ok in Ex2 as [-> Ht5].
    assert (Hin4 : (p_pos p4 < length (p_tokens p4))%nat)
      by (apply peek_in_range; rewrite Ht5; discriminate).
    destruct (advance_remaining p4 Hin4) as [Hr5 _].
    destruct (IHE 0 (advance p4).2) as [HEf5 HEp5].
    destruct (parseExpr fuel 0 (advance p4).2) as [[els p6]|e] eqn:EE5; simpl.
    2:{ split; [|discriminate]. intros Hb H'. inversion H'; subst.
        apply HEf5; [lia|reflexivity]. }
    specialize (HEp5 els p6 eq_refl).
    split; [discriminate|]. intros n p' H'. inversion H'; subst.
    apply (advances_trans p p1 p'); [exact Ha|].
    apply (advances_trans p1 p2 p'); [exact HEp|].
    apply (advances_trans p2 (advance p2).2 p'); [apply advances_advance; exact Hin2|].
    apply (advances_trans _ p4 p'); [exact HEp3|].
    apply (advances_trans p4 (advance p4).2 p'); [apply advances_advance; exact Hin4|].
    exact HEp5. }
  destruct (TokenType_eqb (tok_Type (peek p)) TokMinus) eqn:EMinus.
  { apply TokenType_eqb_eq in EMinus.
    destruct Hadv as (Ha & Hr1 & Hr2); [rewrite EMinus; discriminate|].
    destruct (IHU p1) as [HUf HUp].
    destruct (parseUnary fuel p1) as [[operand p2]|e] eqn:EU; simpl.
    - split; [discriminate|]. intros n p' H'. inversion H'; subst.
      eapply advances_trans; eauto.
    - split; [|discriminate]. intros Hb H'. inversion H'; subst.
      apply HUf; [lia|reflexivity]. }
  destruct (IHA p) as [HAf HAp]. split; [|exact HAp].
  intros Hb. apply HAf. lia.
Qed.

Lemma parseCall_loop_step args p :
  ((3 * parse_remaining p + 4 <= S fuel)%nat ->
   parseCall_loop (S fuel) args p <> Err OutOfFuel) /\
  (forall a p', parseCall_loop (S fuel) args p = Ok (a, p') -> advances p p').
Proof.
  destruct IH as (IHE & _ & _ & _ & _ & IHCL).
  simpl. destruct (IHE 0 p) as [HEf HEp].
  destruct (parseExpr fuel 0 p) as [[arg p1]|e] eqn:EE; simpl.
  2:{ split; [|discriminate]. intros Hb H'. inversion H'; subst.
      apply HEf; [lia|reflexivity]. }
  specialize (HEp arg p1 eq_refl). pose proof (advances_remaining _ _ HEp).
  destruct (TokenType_eqb (tok_Type (peek p1)) TokComma) eqn:EC.
  - apply TokenType_eqb_eq in EC.
    assert (Hin1 : (p_pos p1 < length (p_tokens p1))%nat)
      by (apply peek_in_range; rewrite EC; discriminate).
    destruct (advance_remaining p1 Hin1) as [Hr2 _].
    change {| p_tokens := p_tokens p1; p_pos := S (p_pos p1) |} with (advance p1).2.
    destruct (IHCL (args ++ [arg]) (advance p1).2) as [HCf HCp]. split.
    + intros Hb. apply HCf. lia.
    + intros a p' H'. apply (advances_trans p p1 p'); [exact HEp|].
      apply (advances_trans p1 (advance p1).2 p'); [apply advances_advance; exact Hin1|].
      eauto.
  - split; [discriminate|]. intros a p' H'. inversion H'; subst. exact HEp.
Qed.

Lemma parseCall_step name p :
  ((p_pos p < length (p_tokens p))%nat ->
   (3 * parse_remaining p + 2 <= S fuel)%nat ->
   parseCall (S fuel) name p <> Err OutOfFuel) /\
  (forall n p', parseCall (S fuel) name p = Ok (n, p') -> advances p p').
Proof.
  destruct IH as (_ & _ & _ & _ & _ & IHCL).
  simpl.
  change {| p_tokens := p_tokens p; p_pos := S (p_pos p) |} with (advance p).2.
  destruct (IHCL [] (advance p).2) as [HCf HCp].
  destruct (parseCall_loop fuel [] (advance p).2) as [[args p2]|e] eqn:EC; simpl.
  - specialize (HCp args p2 eq_refl).
    assert (Hadv : forall p3, p3 = (advance p2).2 -> advances p p3).
    { intros p3 ->. apply (keeps_advances p (advance p).2); [apply keeps_advance|].
      apply (advances_trans_keeps _ p2); [exact HCp|apply keeps_advance]. }
    destruct (expect TokRParen p2) as [[t3 p3]|e] eqn:Ex; [|split; discriminate].
    apply expect_Ok in Ex as [Hp3 _].
    destruct ((String.eqb name "min" || String.eqb name "max")
              && negb (length args =? 2)%nat); [split; discriminate|].
    destruct (String.eqb name "clamp" && negb (length args =? 3)%nat);
      [split; discriminate|].
    split; [discriminate|]. intros n p' H'. inversion H'; subst. apply Hadv. reflexivity.
  - split; [|discriminate]. intros Hin Hb H'. inversion H'; subst.
    destruct (advance_remaining p Hin) as [Hr Hr1].
    apply HCf; [lia|reflexivity].
Qed.

Lemma parseAtom_step p :
  ((3 * parse_remaining p + 1 <= S fuel)%nat ->
   parseAtom (S fuel) p <> Err OutOfFuel) /\
  (forall n p', parseAtom (S fuel) p = Ok (n, p') -> advances p p').
Proof.
  destruct IH as (IHE & _ & _ & _ & IHC & _).
  simpl.
  set (p1 := {| p_tokens := p_tokens p; p_pos := S (p_pos p) |}).
  assert (Hadv : tok_Type (peek p) <> TokEOF ->
                 advances p p1 /\ (1 <= parse_remaining p)%nat /\
                 parse_remaining p1 = (parse_remaining p - 1)%nat).
  { intros Hne. pose proof (peek_in_range p Hne) as Hin.
    destruct (advance_remaining p Hin). split; [apply advances_advance; exact Hin|]. auto. }
  destruct (tok_Type (peek p)) eqn:Et;
    try (split; [discriminate|discriminate]).
  - (* TokInt *)
    destruct Hadv as (Ha & _); [discriminate|].
    destruct (Atoi (tok_Val (peek p))); split; try discriminate.
    intros n p' H'. inversion H'; subst. exact Ha.
  - (* TokIdent *)
    destruct Hadv as (Ha & Hr1 & Hr2); [discriminate|].
    destruct (TokenType_eqb (tok_Type (peek p1)) TokLParen) eqn:EL; simpl.
    + destruct (isBuiltin (tok_Val (peek p))).
      * apply TokenType_eqb_eq in EL.
        assert (Hin1 : (p_pos p1 < length (p_tokens p1))%nat)
          by (apply peek_in_range; rewrite EL; discriminate).
        destruct (IHC (tok_Val (peek p)) p1) as [HCf HCp]. split.
        -- intros Hb. apply HCf; [exact Hin1|lia].
        -- intros n p' H'. eapply advances_trans; eauto.
      * split; [discriminate|]. intros n p' H'. inversion H'; subst. exact Ha.
    + split; [discriminate|]. intros n p' H'. inversion H'; subst. exact Ha.
  - (* TokTrue *)
    destruct Hadv as (Ha & _); [discriminate|].
    split; [discriminate|]. intros n p' H'. inversion H'; subst. exact Ha.
  - (* TokFalse *)
    destruct Hadv as (Ha & _); [discriminate|].
    split; [discriminate|]. intros n p' H'. inversion H'; subst. exact Ha.
  - (* TokLParen *)
    destruct Hadv as (Ha & Hr1 & Hr2); [discriminate|].
    destruct (IHE 0 p1) as [HEf HEp].
    destruct (parseExpr fuel 0 p1) as [[e p2]|err] eqn:EE; simpl.
    2:{ split; [|discriminate]. intros Hb H'. inversion H'; subst.
        apply HEf; [lia|reflexivity]. }
    specialize (HEp e p2 eq_refl).
    destruct (expect TokRParen p2) as [[t3 p3]|err] eqn:Ex; [|split; discriminate].
    apply expect_Ok in Ex as [-> _].
    split; [discriminate|]. intros n p' H'. inversion H'; subst.
    apply (advances_trans p p1); [exact Ha|].
    apply (advances_trans_keeps p1 p2); [exact HEp|apply keeps_advance].
Qed.

End ParserStep.

Lemma parser_ok_all : forall fuel, parser_ok fuel.
Proof.
  induction fuel as [|fuel IH].
  - unfold parser_ok. simpl.
    repeat split; try (intros; lia); try discriminate.
  - unfold parser_ok. repeat apply conj; intros.
    + apply parseExpr_step. exact IH.
    + apply parseExpr_loop_step. exact IH.
    + apply parseUnary_step. exact IH.
    + apply parseAtom_step. exact IH.
    + apply parseCall_step. exact IH.
    + apply parseCall_loop_step. exact IH.
Qed.

(** The budget of [Parse] always suffices: the model never reports
    [OutOfFuel]. *)
Lemma Parse_tokens_fuel tokens : Parse_tokens tokens <> Err OutOfFuel.
Proof.
  unfold Parse_tokens.
  destruct (parser_ok_all (parse_fuel tokens)) as (HE & _).
  destruct (HE 0 {| p_tokens := tokens; p_pos := 0 |}) as [Hf _].
  destruct (parseExpr (parse_fuel tokens) 0 {| p_tokens := tokens; p_pos := 0 |})
    as [[node p']|e] eqn:E; simpl.
  - destruct (negb (TokenType_eqb (tok_Type (peek p')) TokEOF)); discriminate.
  - intros H. inversion H; subst. apply Hf; [|reflexivity].
    unfold parse_remaining, parse_fuel. simpl. lia.
Qed.

Lemma Parse_fuel input : Parse input <> Err OutOfFuel.
Proof.
  unfold Parse. pose proof (Lex_fuel input) as HL.
  destruct (Lex input) as [tokens|e]; simpl.
  - apply Parse_tokens_fuel.
  - congruence.
Qed.

(** The iteration bound of [containsIdent] always suffices, also for an
    empty identifier (where the source may panic). *)
Lemma containsIdent_loop_fuel s ident :
  forall iters idx,
    (length s + 1 - idx < iters)%nat ->
    containsIdent_loop iters s ident idx <> Err OutOfFuel.
Proof.
  induction iters as [|iters IH]; intros idx Hit; [lia|].
  simpl. destruct (length s <? idx)%nat eqn:E; [discriminate|].
  apply Nat.ltb_ge in E.
  destruct (strings_Index (drop idx s) ident) as [pos|]; [|discriminate].
  destruct (if (idx + pos =? 0)%nat then Ok true
            else b ← elem s (idx + pos - 1); Ok (negb (isIdentChar b)))
    as [before|e] eqn:Eb; simpl.
  2:{ destruct (idx + pos =? 0)%nat; [discriminate|].
      unfold elem in Eb. destruct (s !! (idx + pos - 1)%nat); simpl in Eb; congruence. }
  destruct (if (length s <=? idx + pos + length ident)%nat then Ok true
            else b ← elem s (idx + pos + length ident); Ok (negb (isIdentChar b)))
    as [after|e] eqn:Ea; simpl.
  2:{ destruct (length s <=? idx + pos + length ident)%nat; [discriminate|].
      unfold elem in Ea. destruct (s !! (idx + pos + length ident)%nat); simpl in Ea; congruence. }
  destruct (before && after); [discriminate|]. apply IH. lia.
Qed.

Lemma containsIdent_fuel s ident : containsIdent s ident <> Err OutOfFuel.
Proof. unfold containsIdent. apply containsIdent_loop_fuel. lia. Qed.

(** * Further properties *)

(** ** Package registry *)

Lemma index_loop_cases {A} (key : A -> string) (loop : list A -> Z -> string -> Z)
    (Hnil : forall i name, loop [] i name = -1)
    (Hcons : forall x l i name,
       loop (x :: l) i name =
       if String.eqb (key x) name then i else loop l (i + 1) name) :
  forall l i name,
    (loop l i name = -1 /\ (0 <= i -> forall x, x ∈ l -> key x <> name)) \/
    exists k x, l !! k = Some x /\ key x = name /\
      (forall j y, (j < k)%nat -> l !! j = Some y -> key y <> name) /\
      loop l i name = i + Z.of_nat k.
Proof.
  induction l as [|x l IH]; intros i name.
  - left. split; [apply Hnil|]. intros _ y Hy. inversion Hy.
  - rewrite Hcons. destruct (String.eqb (key x) name) eqn:E.
    + right. exists 0%nat, x. apply String.eqb_eq in E.
      repeat split; auto; [intros; lia | lia].
    + apply String.eqb_neq in E.
      destruct (IH (i + 1) name) as [[H1 H2]|(k & y & Hk & Hy & Hfirst & Hr)].
      * left. split; [exact H1|]. intros Hi z Hz.
        apply elem_of_cons in Hz as [->|Hz]; [exact E|]. apply H2; [lia|exact Hz].
      * right. exists (S k), y. repeat split; auto.
        -- intros [|j] w Hj Hw; simpl in Hw.
           ++ inversion Hw; subst; exact E.
           ++ eapply Hfirst; [|exact Hw]. lia.
        -- rewrite Hr. lia.
Qed.

Lemma VarIndex_loop_cases vars i name :
  (VarIndex_loop vars i name = -1 /\
   (0 <= i -> forall v, v ∈ vars -> vd_Name v <> name)) \/
  exists k v, vars !! k = Some v /\ vd_Name v = name /\
    (forall j w, (j < k)%nat -> vars !! j = Some w -> vd_Name w <> name) /\
    VarIndex_loop vars i name = i + Z.of_nat k.
Proof.
  destruct (index_loop_cases vd_Name VarIndex_loop
              (fun _ _ => eq_refl) (fun _ _ _ _ => eq_refl) vars i name)
    as [H|H]; [left|right]; exact H.
Qed.

Lemma VarIndex_range s name :
  VarIndex s name = -1 \/ 0 <= VarIndex s name < Z.of_nat (length (sch_Vars s)).
Proof.
  unfold VarIndex.
  destruct (VarIndex_loop_cases (sch_Vars s) 0 name)
    as [[H _]|(k & v & Hk & _ & _ & Hr)]; [left; exact H|right].
  apply lookup_lt_Some in Hk. lia.
Qed.

Lemma VarIndex_found s name :
  0 <= VarIndex s name ->
  exists v, sch_Vars s !! Z.to_nat (VarIndex s name) = Some v /\ vd_Name v = name.
Proof.
  unfold VarIndex. intros H.
  destruct (VarIndex_loop_cases (sch_Vars s) 0 name)
    as [[H1 _]|(k & v & Hk & Hn & _ & Hr)]; [lia|].
  exists v. rewrite Hr. replace (Z.to_nat (0 + Z.of_nat k)) with k by lia. auto.
Qed.

(** X1. [VarIndex] returns the position of the first variable with the
    given name, and -1 exactly when no variable has that name; a
    non-negative result is always a position of the variable list. *)
Theorem VarIndex_first_match (s : Schema) (name : string) :
  (VarIndex s name = -1 <-> forall v, v ∈ sch_Vars s -> vd_Name v <> name) /\
  (forall k v,
     sch_Vars s !! k = Some v -> vd_Name v = name ->
     (forall j w, (j < k)%nat -> sch_Vars s !! j = Some w -> vd_Name w <> name) ->
     VarIndex s name = Z.of_nat k) /\
  (VarIndex s name = -1 \/
   exists v, sch_Vars s !! Z.to_nat (VarIndex s name) = Some v /\
             vd_Name v = name /\ 0 <= VarIndex s name).
Proof.
  unfold VarIndex.
  destruct (VarIndex_loop_cases (sch_Vars s) 0 name)
    as [[H1 H2]|(k & v & Hk & Hn & Hfirst & Hr)].
  - split; [|split].
    + split; [intros _; apply H2; lia|auto].
    + intros k v Hk Hn _. exfalso.
      apply (H2 ltac:(lia) v); [eapply list_elem_of_lookup_2; eauto|exact Hn].
    + left; exact H1.
  - split; [|split].
    + split.
      * intros H. lia.
      * intros H. exfalso. apply (H v); [eapply list_elem_of_lookup_2; eauto|exact Hn].
    + intros k' v' Hk' Hn' Hfirst'. rewrite Hr.
      destruct (Nat.lt_trichotomy k k') as [Hlt|[->|Hlt]]; [|lia|].
      * exfalso. exact (Hfirst' k v Hlt Hk Hn).
      * exfalso. exact (Hfirst k' v' Hlt Hk' Hn').
    + right. exists v. rewrite Hr.
      replace (Z.to_nat (0 + Z.of_nat k)) with k by lia.
      repeat split; auto. lia.
Qed.

(** X2. [EnumIndex] panics exactly when the variable index is outside the
    variable list; otherwise it returns the position of the first
    occurrence of the literal in the variable's value list, and -1 exactly
    when the literal is not one of the values. *)
Theorem EnumIndex_first_match (s : Schema) (varIdx : Z) (value : string) :
  (EnumIndex s varIdx value = Err Panic <->
   ~ (0 <= varIdx < Z.of_nat (length (sch_Vars s)))) /\
  (forall v, elemZ (sch_Vars s) varIdx = Ok v ->
     exists r, EnumIndex s varIdx value = Ok r /\
       (r = -1 <-> value ∉ vd_Values v) /\
       (forall k, vd_Values v !! k = Some value ->
          (forall j, (j < k)%nat -> vd_Values v !! j <> Some value) ->
          r = Z.of_nat k) /\
       (r = -1 \/ vd_Values v !! Z.to_nat r = Some value /\ 0 <= r)).
Proof.
  unfold EnumIndex. split.
  - destruct (elemZ (sch_Vars s) varIdx) as [v|e] eqn:E; simpl.
    + split; [discriminate|]. intros H. exfalso. apply H.
      apply elemZ_Ok in E as [H0 E]. apply lookup_lt_Some in E. lia.
    + split.
      * intros _ H. destruct (elemZ_in_range (sch_Vars s) varIdx H) as [x Hx]. congruence.
      * intros _. unfold elemZ in E.
        destruct (varIdx <? 0); [congruence|].
        destruct (sch_Vars s !! Z.to_nat varIdx); [discriminate|congruence].
  - intros v ->. simpl. eexists; split; [reflexivity|].
    destruct (index_loop_cases (fun x : string => x) EnumIndex_loop
                (fun _ _ => eq_refl) (fun _ _ _ _ => eq_refl) (vd_Values v) 0 value)
      as [[H1 H2]|(k & x & Hk & Hx & Hfirst & Hr)].
    + rewrite H1. split; [|split].
      * split; [|auto]. intros _ Hin. exact (H2 ltac:(lia) value Hin eq_refl).
      * intros k Hk _. exfalso.
        exact (H2 ltac:(lia) value (list_elem_of_lookup_2 _ _ _ Hk) eq_refl).
      * left; reflexivity.
    + simpl in Hx. subst x. rewrite Hr. split; [|split].
      * split; [lia|]. intros H. exfalso. apply H. eapply list_elem_of_lookup_2; eauto.
      * intros k' Hk' Hfirst'.
        destruct (Nat.lt_trichotomy k k') as [Hlt|[->|Hlt]]; [|lia|].
        -- exfalso. exact (Hfirst' k Hlt Hk).
        -- exfalso. exact (Hfirst k' value Hlt Hk' eq_refl).
      * right. replace (Z.to_nat (0 + Z.of_nat k)) with k by lia. split; [auto|lia].
Qed.

Lemma wrap_id z : is_int z -> wrap z = z.
Proof. intros H. apply wrap_small. exact H. Qed.

Lemma wrap_wrap_add a b : wrap (wrap a + b) = wrap (a + b).
Proof.
  apply wrap_eqm.
  replace (wrap a + b - (a + b)) with (wrap a - a) by lia.
  apply wrap_congr.
Qed.

Lemma wrap_quotient z :
  exists q, wrap z = z - 2 ^ 64 * q /\ 2 ^ 64 * q <= z + 2 ^ 63 < 2 ^ 64 * q + 2 ^ 64.
Proof.
  exists ((z + 2 ^ 63) / 2 ^ 64). split.
  - unfold wrap. rewrite Z.mod_eq by lia. lia.
  - pose proof (Z.mul_div_le (z + 2 ^ 63) (2 ^ 64) ltac:(lia)).
    pose proof (Z.mul_succ_div_gt (z + 2 ^ 63) (2 ^ 64) ltac:(lia)). lia.
Qed.

(** X3. A variable [parseVarDef] accepts keeps its name and, unless it is
    an integer range written with [lo > hi], is well formed: its domain is
    not empty and [Size] is the number of its values (2 for a bool, the
    number of literals for an enum, [hi - lo + 1] for an int). *)
Theorem parseVarDef_well_formed (name : string) (rv : rawVar) (vd : VarDef) :
  Forall is_int (rv_Range rv) ->
  (forall lo hi, rv_Range rv = [lo; hi] -> lo <= hi) ->
  parseVarDef name rv = inl vd ->
  VarDef_ok vd /\ vd_Name vd = name.
Proof.
  intros Hint Hord. unfold parseVarDef.
  destruct (String.eqb (rv_Type rv) "bool").
  { intros H; inversion H; subst. unfold VarDef_ok; simpl. repeat split; lia. }
  destruct (String.eqb (rv_Type rv) "enum").
  { destruct (Z.of_nat (length (rv_Values rv)) =? 0) eqn:E; [discriminate|].
    intros H; inversion H; subst. apply Z.eqb_neq in E.
    unfold VarDef_ok; simpl. repeat split; lia. }
  destruct (String.eqb (rv_Type rv) "int"); [|discriminate].
  destruct (rv_Range rv) as [|lo [|hi [|? ?]]] eqn:ER; try discriminate.
  specialize (Hord lo hi eq_refl).
  apply Forall_cons in Hint as [Hlo Hint]. apply Forall_cons in Hint as [Hhi _].
  unfold is_int, MinInt, MaxInt in Hlo, Hhi.
  rewrite wrap_wrap_add.
  destruct (wrap (hi - lo + 1) <=? 0) eqn:E; [discriminate|].
  apply Z.leb_gt in E. intros H; inversion H; subst; clear H.
  destruct (wrap_quotient (hi - lo + 1)) as (q & Hw & Hq).
  assert (q = 0) by nia. subst q.
  unfold VarDef_ok, MinInt, MaxInt; simpl. rewrite Hw. repeat split; lia.
Qed.

(** The statement at the range [-1, 2]. *)
Lemma parseVarDef_well_formed_witness :
  VarDef_ok (intVar "n" (-1) 2) /\ vd_Name (intVar "n" (-1) 2) = "n".
Proof.
  apply (parseVarDef_well_formed "n" (mkRawVar "int" [] [-1; 2])).
  - repeat constructor; vm_compute; congruence.
  - intros lo hi H; inversion H; subst. vm_compute; congruence.
  - vm_compute. reflexivity.
Defined.

(** X4. For bounds that are machine integers, [parseVarDef] accepts the
    integer range [lo, hi] exactly when it is non-empty with at most
    [MaxInt] values, or when it is inverted by more than 2^63 + 1: the
    width [hi - lo + 1] of such a range wraps around to a positive
    number, and the variable is accepted with [Min > Max]. *)
Theorem parseVarDef_int_range (name : string) (values : list string) (lo hi : Z) :
  is_int lo -> is_int hi ->
  (exists vd, parseVarDef name (mkRawVar "int" values [lo; hi]) = inl vd) <->
  (lo <= hi /\ hi - lo + 1 <= MaxInt) \/ 2 ^ 63 + 1 < lo - hi.
Proof.
  unfold is_int, MinInt, MaxInt. intros Hlo Hhi.
  unfold parseVarDef. simpl. rewrite wrap_wrap_add.
  destruct (wrap_quotient (hi - lo + 1)) as (q & Hw & Hq).
  destruct (wrap (hi - lo + 1) <=? 0) eqn:E.
  - apply Z.leb_le in E. split.
    + intros [vd H]; discriminate.
    + intros [[H1 H2]|H]; exfalso.
      * assert (q = 0) by nia. subst q. lia.
      * assert (q = -1) by nia. lia.
  - apply Z.leb_gt in E. split; [|intros _; eexists; reflexivity].
    intros _. assert (q = 0 \/ q = -1 \/ q = 1) as [Hq0|[Hq0|Hq0]] by nia.
    + left. rewrite Hq0 in *. lia.
    + right. rewrite Hq0 in *. lia.
    + exfalso. rewrite Hq0 in *. lia.
Qed.

(** The widest inverted range is accepted. *)
Lemma parseVarDef_int_range_witness :
  (exists vd, parseVarDef "n" (mkRawVar "int" [] [MaxInt; MinInt]) = inl vd) <->
  (MaxInt <= MinInt /\ MinInt - MaxInt + 1 <= MaxInt) \/ 2 ^ 63 + 1 < MaxInt - MinInt.
Proof.
  apply (parseVarDef_int_range "n" [] MaxInt MinInt); vm_compute; split; congruence.
Defined.

(** X5. For every schema, whatever the sizes of its variables, decoding a
    state ID below [TotalLen] and encoding the result gives the ID back;
    the decoded vector has one component per variable, and distinct IDs
    decode to distinct vectors. *)
Theorem Decode_Encode_any_schema (vars : list VarDef) :
  (forall id, 0 <= id < sch_TotalLen (NewSchema vars) ->
     exists st, Decode (NewSchema vars) id = Ok st /\
                length st = length vars /\
                Encode (NewSchema vars) st = Ok id) /\
  (forall id id',
     0 <= id < sch_TotalLen (NewSchema vars) ->
     0 <= id' < sch_TotalLen (NewSchema vars) ->
     Decode (NewSchema vars) id = Decode (NewSchema vars) id' -> id = id').
Proof.
  split.
  - intros id H. exact (Encode_Decode vars id H).
  - intros id id' H H' E.
    destruct (Encode_Decode vars id H) as (st & Hd & _ & He).
    destruct (Encode_Decode vars id' H') as (st' & Hd' & _ & He').
    congruence.
Qed.

(** X6. When every variable is well formed and the number of states fits a
    machine integer, [NewSchema] computes without wrap-around: the stride
    of a variable is the product of the sizes of the variables after it,
    the last stride is 1, and [TotalLen] is the product of all sizes. *)
Theorem NewSchema_strides (vars : list VarDef) :
  Forall VarDef_ok vars ->
  state_count vars <= MaxInt ->
  sch_Vars (NewSchema vars) = vars /\
  sch_Strides (NewSchema vars) = suffix_counts vars /\
  sch_TotalLen (NewSchema vars) = state_count vars /\
  0 < sch_TotalLen (NewSchema vars) /\
  (forall i v stride,
     vars !! i = Some v -> sch_Strides (NewSchema vars) !! i = Some stride ->
     0 < stride /\ stride * vd_Size v <= sch_TotalLen (NewSchema vars) /\
     stride = state_count (drop (S i) vars)) /\
  (vars <> [] -> last (sch_Strides (NewSchema vars)) = Some 1).
Proof.
  intros Hok Hle.
  destruct (NewSchema_fields vars) as (Hv & Hs & Ht).
  rewrite Hv, Hs, Ht, (NewSchema_loop_exact vars Hok Hle). simpl.
  split; [reflexivity|]. split; [reflexivity|]. split; [reflexivity|].
  split; [apply state_count_pos; exact Hok|]. split.
  - clear Hv Hs Ht. induction Hok as [|w vars Hw Hok IH]; intros i v stride Hi Hst.
    + inversion Hi.
    + rewrite state_count_cons in Hle |- *.
      pose proof (state_count_pos vars Hok) as Hpos.
      destruct Hw as [Hw _].
      destruct i as [|i]; simpl in Hi, Hst.
      * inversion Hi; inversion Hst; subst. repeat split; [lia|lia].
      * assert (Hle' : state_count vars <= MaxInt) by nia.
        destruct (IH Hle' i v stride Hi Hst) as (H1 & H2 & H3).
        repeat split; [exact H1|nia|exact H3].
  - intros Hne. clear -Hne. induction vars as [|v [|w vars] IH]; [congruence|reflexivity|].
    change (suffix_counts (v :: w :: vars))
      with (state_count (w :: vars) :: suffix_counts (w :: vars)).
    change (suffix_counts (w :: vars)) with (state_count vars :: suffix_counts vars) in *.
    rewrite last_cons_cons. apply IH. discriminate.
Qed.

(** The schema of one bool, one enum of three literals and one int of
    four values. *)
Lemma NewSchema_strides_witness :
  sch_Vars (NewSchema mixed_vars) = mixed_vars /\
  sch_Strides (NewSchema mixed_vars) = suffix_counts mixed_vars /\
  sch_TotalLen (NewSchema mixed_vars) = state_count mixed_vars /\
  0 < sch_TotalLen (NewSchema mixed_vars) /\
  (forall i v stride,
     mixed_vars !! i = Some v ->
     sch_Strides (NewSchema mixed_vars) !! i = Some stride ->
     0 < stride /\ stride * vd_Size v <= sch_TotalLen (NewSchema mixed_vars) /\
     stride = state_count (drop (S i) mixed_vars)) /\
  (mixed_vars <> [] -> last (sch_Strides (NewSchema mixed_vars)) = Some 1).
Proof.
  apply (NewSchema_strides mixed_vars).
  - repeat constructor; vm_compute; congruence.
  - vm_compute. congruence.
Defined.

(** ** Enum literals (expr/eval.go) *)

Lemma enum_literals_cons v vars :
  enum_literals (v :: vars) =
  (if VarType_eqb (vd_Type v) TypeEnum
   then imap (fun i lit => (lit, Z.of_nat i)) (vd_Values v) else [])
  ++ enum_literals vars.
Proof. reflexivity. Qed.

Lemma fst_imap_pairs (values : list string) (g : nat -> Z) :
  (imap (fun i lit => (lit, g i)) values).*1 = values.
Proof.
  revert g. induction values as [|x l IH]; intros g; simpl; [reflexivity|].
  f_equal. apply (IH (g ∘ S)).
Qed.

Lemma elem_of_imap_pairs (values : list string) lit idx :
  (lit, idx) ∈ imap (fun i lit => (lit, Z.of_nat i)) values <->
  exists k, values !! k = Some lit /\ idx = Z.of_nat k.
Proof.
  rewrite elem_of_lookup_imap. split.
  - intros (i & y & Heq & Hy). inversion Heq; subst. eauto.
  - intros (k & Hk & ->). eauto.
Qed.

Lemma BuildEnumLiterals_values_Ok varNames :
  forall values idx lits m,
    BuildEnumLiterals_values varNames values idx lits = Ok m ->
    (forall lit, lit ∈ values -> (lit ∉ varNames) /\ lits !! lit = None) /\
    NoDup values /\
    (forall lit i, m !! lit = Some i <->
       lits !! lit = Some i \/
       exists k, values !! k = Some lit /\ i = idx + Z.of_nat k).
Proof.
  induction values as [|x values IH]; intros idx lits m H; simpl in H.
  - inversion H; subst. split; [intros lit Hl; inversion Hl|].
    split; [constructor|]. intros lit i. split; [auto|].
    intros [?|(k & Hk & _)]; [auto|inversion Hk].
  - destruct (bool_decide (x ∈ varNames)) eqn:Ex; [discriminate|].
    apply bool_decide_eq_false in Ex.
    destruct (lits !! x) eqn:El; [discriminate|].
    apply IH in H as (H1 & H2 & H3).
    assert (Hx : x ∉ values).
    { intros Hin. destruct (H1 x Hin) as [_ Hl]. rewrite lookup_insert_eq in Hl. discriminate. }
    split; [|split].
    + intros lit Hl. apply elem_of_cons in Hl as [->|Hl]; [auto|].
      destruct (H1 lit Hl) as [Hn Hl']. split; [exact Hn|].
      destruct (decide (x = lit)) as [->|Hne]; [exact El|].
      rewrite lookup_insert_ne in Hl'; auto.
    + constructor; auto.
    + intros lit i. rewrite H3. split.
      * intros [Hl|(k & Hk & ->)].
        -- destruct (decide (x = lit)) as [->|Hne].
           ++ rewrite lookup_insert_eq in Hl. inversion Hl; subst.
              right. exists 0%nat. split; [reflexivity|lia].
           ++ rewrite lookup_insert_ne in Hl; auto.
        -- right. exists (S k). split; [exact Hk|lia].
      * intros [Hl|([|k] & Hk & ->)].
        -- left. rewrite lookup_insert_ne; [exact Hl|]. congruence.
        -- simpl in Hk. inversion Hk; subst. left.
           rewrite lookup_insert_eq. f_equal. lia.
        -- right. exists k. split; [exact Hk|lia].
Qed.

Lemma BuildEnumLiterals_values_total varNames :
  forall values idx lits,
    (forall lit, lit ∈ values -> (lit ∉ varNames) /\ lits !! lit = None) ->
    NoDup values ->
    exists m, BuildEnumLiterals_values varNames values idx lits = Ok m.
Proof.
  induction values as [|x values IH]; intros idx lits H1 H2; simpl; [eauto|].
  destruct (H1 x ltac:(left)) as [Hn Hl].
  rewrite bool_decide_eq_false_2 by exact Hn. rewrite Hl.
  apply NoDup_cons in H2 as [Hx H2].
  apply IH; [|exact H2]. intros lit Hin.
  destruct (H1 lit ltac:(right; exact Hin)) as [Hn' Hl']. split; [exact Hn'|].
  rewrite lookup_insert_ne; [exact Hl'|]. intros ->. exact (Hx Hin).
Qed.

Lemma BuildEnumLiterals_vars_Ok varNames :
  forall vars lits m,
    BuildEnumLiterals_vars varNames vars lits = Ok m ->
    (forall lit, lit ∈ (enum_literals vars).*1 -> (lit ∉ varNames) /\ lits !! lit = None) /\
    NoDup (enum_literals vars).*1 /\
    (forall lit i, m !! lit = Some i <->
       lits !! lit = Some i \/ (lit, i) ∈ enum_literals vars).
Proof.
  induction vars as [|v vars IH]; intros lits m H; simpl in H.
  - inversion H; subst. split; [intros lit Hl; inversion Hl|].
    split; [constructor|]. intros lit i. split; [auto|].
    intros [?|Hl]; [auto|inversion Hl].
  - rewrite enum_literals_cons.
    destruct (VarType_eqb (vd_Type v) TypeEnum) eqn:Et; simpl in H.
    + destruct (BuildEnumLiterals_values varNames (vd_Values v) 0 lits) as [lits'|] eqn:Ev;
        simpl in H; [|discriminate].
      apply BuildEnumLiterals_values_Ok in Ev as (V1 & V2 & V3).
      apply IH in H as (H1 & H2 & H3).
      rewrite fmap_app, fst_imap_pairs.
      split; [|split].
      * intros lit Hl. apply elem_of_app in Hl as [Hl|Hl]; [auto|].
        destruct (H1 lit Hl) as [Hn Hl']. split; [exact Hn|].
        destruct (lits !! lit) as [i|] eqn:E; [|reflexivity].
        assert (lits' !! lit = Some i) by (apply V3; auto). congruence.
      * apply NoDup_app. split; [exact V2|]. split; [|exact H2].
        intros lit Hv Hl. destruct (H1 lit Hl) as [_ Hl'].
        apply list_elem_of_lookup in Hv as [k Hk].
        assert (lits' !! lit = Some (0 + Z.of_nat k)) by (apply V3; eauto). congruence.
      * intros lit i. rewrite H3, V3, elem_of_app, elem_of_imap_pairs.
        split.
        -- intros [[?|(k & Hk & ->)]|?]; auto. right. left. exists k. split; [auto|lia].
        -- intros [?|[(k & Hk & ->)|?]]; auto. left. right. exists k. split; [auto|lia].
    + simpl. apply IH in H. exact H.
Qed.

Lemma BuildEnumLiterals_vars_total varNames :
  forall vars lits,
    (forall lit, lit ∈ (enum_literals vars).*1 -> (lit ∉ varNames) /\ lits !! lit = None) ->
    NoDup (enum_literals vars).*1 ->
    exists m, BuildEnumLiterals_vars varNames vars lits = Ok m.
Proof.
  induction vars as [|v vars IH]; intros lits H1 H2; simpl; [eauto|].
  rewrite enum_literals_cons in H1, H2.
  destruct (VarType_eqb (vd_Type v) TypeEnum) eqn:Et; simpl.
  - rewrite fmap_app, fst_imap_pairs in H1, H2.
    apply NoDup_app in H2 as (V2 & Hdisj & H2).
    destruct (BuildEnumLiterals_values_total varNames (vd_Values v) 0 lits) as [lits' Ev].
    { intros lit Hl. apply H1. apply elem_of_app. auto. }
    { exact V2. }
    rewrite Ev. simpl. apply IH; [|exact H2].
    intros lit Hl. split; [apply H1; apply elem_of_app; auto|].
    apply BuildEnumLiterals_values_Ok in Ev as (_ & _ & V3).
    destruct (lits' !! lit) as [i|] eqn:E; [|reflexivity].
    apply V3 in E as [E|(k & Hk & _)].
    + destruct (H1 lit ltac:(apply elem_of_app; auto)) as [_ Hn]. congruence.
    + exfalso. apply (Hdisj lit); [eapply list_elem_of_lookup_2; eauto|exact Hl].
  - simpl in H1, H2. apply IH; auto.
Qed.

(** X7. [BuildEnumLiterals] succeeds exactly when the enum literals of the
    schema are pairwise distinct, across all enum variables, and none of
    them is the name of a variable.  The map it then returns sends each
    literal to its position in the value list of its variable, and holds
    nothing else. *)
Theorem BuildEnumLiterals_spec (schema : Schema) :
  ((exists m, BuildEnumLiterals schema = Ok m) <->
   NoDup (enum_literals (sch_Vars schema)).*1 /\
   forall lit v, lit ∈ (enum_literals (sch_Vars schema)).*1 ->
                 v ∈ sch_Vars schema -> vd_Name v <> lit) /\
  (forall m, BuildEnumLiterals schema = Ok m ->
     forall lit idx,
       m !! lit = Some idx <->
       exists v k, v ∈ sch_Vars schema /\ vd_Type v = TypeEnum /\
                   vd_Values v !! k = Some lit /\ idx = Z.of_nat k).
Proof.
  unfold BuildEnumLiterals. split.
  - split.
    + intros [m H]. apply BuildEnumLiterals_vars_Ok in H as (H1 & H2 & _).
      split; [exact H2|]. intros lit v Hl Hv Hn.
      destruct (H1 lit Hl) as [Hnot _]. apply Hnot.
      apply elem_of_list_to_set, list_elem_of_fmap. exists v. auto.
    + intros [H2 H1]. apply BuildEnumLiterals_vars_total; [|exact H2].
      intros lit Hl. split; [|apply lookup_empty].
      intros Hin. apply elem_of_list_to_set, list_elem_of_fmap in Hin as (v & -> & Hv).
      exact (H1 _ v Hl Hv eq_refl).
  - intros m H lit idx.
    apply BuildEnumLiterals_vars_Ok in H as (_ & _ & H3).
    rewrite H3, lookup_empty. unfold enum_literals. rewrite list_elem_of_bind.
    split.
    + intros [?|(v & Hl & Hv)]; [discriminate|].
      destruct (VarType_eqb (vd_Type v) TypeEnum) eqn:Et; [|inversion Hl].
      apply elem_of_imap_pairs in Hl as (k & Hk & ->).
      exists v, k. repeat split; auto. destruct (vd_Type v); simpl in Et; congruence.
    + intros (v & k & Hv & Ht & Hk & ->). right. exists v. split; [|exact Hv].
      rewrite Ht. simpl. apply elem_of_imap_pairs. eauto.
Qed.

(** X8. The literal map of [BuildEnumLiterals] agrees with [EnumIndex]:
    a name is mapped to [idx] exactly when [EnumIndex] finds it at [idx]
    in one of the enum variables of the schema. *)
Theorem EnumLiterals_agree_with_EnumIndex (schema : Schema) (m : gmap string Z) :
  BuildEnumLiterals schema = Ok m ->
  forall lit idx,
    m !! lit = Some idx <->
    exists varIdx v,
      elemZ (sch_Vars schema) varIdx = Ok v /\ vd_Type v = TypeEnum /\
      EnumIndex schema varIdx lit = Ok idx /\ idx <> -1.
Proof.
  intros H lit idx. unfold BuildEnumLiterals in H.
  apply BuildEnumLiterals_vars_Ok in H as (_ & _ & H3).
  assert (Hm : forall i, m !! lit = Some i <->
            exists v k, v ∈ sch_Vars schema /\ vd_Type v = TypeEnum /\
                        vd_Values v !! k = Some lit /\ i = Z.of_nat k).
  { intros i. rewrite H3, lookup_empty. unfold enum_literals. rewrite list_elem_of_bind.
    split.
    - intros [?|(v & Hl & Hv)]; [discriminate|].
      destruct (VarType_eqb (vd_Type v) TypeEnum) eqn:Et; [|inversion Hl].
      apply elem_of_imap_pairs in Hl as (k & Hk & ->).
      exists v, k. repeat split; auto. destruct (vd_Type v); simpl in Et; congruence.
    - intros (v & k & Hv & Ht & Hk & ->). right. exists v. split; [|exact Hv].
      rewrite Ht. simpl. apply elem_of_imap_pairs. eauto. }
  clear H3. unfold EnumIndex. split.
  - intros Hl. pose proof Hl as Hl0.
    apply Hm in Hl as (v & k & Hv & Ht & Hk & ->).
    apply list_elem_of_lookup in Hv as [j Hj].
    exists (Z.of_nat j), v.
    assert (Hel : elemZ (sch_Vars schema) (Z.of_nat j) = Ok v).
    { apply elemZ_Ok. split; [lia|]. rewrite Nat2Z.id. exact Hj. }
    rewrite Hel. simpl. repeat split; auto; [|lia].
    destruct (index_loop_cases (fun x : string => x) EnumIndex_loop
                (fun _ _ => eq_refl) (fun _ _ _ _ => eq_refl) (vd_Values v) 0 lit)
      as [[_ H2]|(k' & x & Hk' & Hx & _ & Hr)].
    + exfalso. exact (H2 ltac:(lia) lit (list_elem_of_lookup_2 _ _ _ Hk) eq_refl).
    + simpl in Hx; subst x. rewrite Hr. f_equal.
      assert (m !! lit = Some (Z.of_nat k')).
      { apply Hm. exists v, k'. repeat split; auto. eapply list_elem_of_lookup_2; eauto. }
      rewrite Hl0 in H. inversion H. lia.
  - intros (varIdx & v & Hel & Ht & He & Hne). rewrite Hel in He. simpl in He.
    inversion He as [Hr]; clear He.
    apply elemZ_Ok in Hel as [_ Hel].
    destruct (index_loop_cases (fun x : string => x) EnumIndex_loop
                (fun _ _ => eq_refl) (fun _ _ _ _ => eq_refl) (vd_Values v) 0 lit)
      as [[H1 _]|(k' & x & Hk' & Hx & _ & Hr')].
    + congruence.
    + simpl in Hx; subst x. apply Hm. exists v, k'.
      repeat split; auto; try lia. eapply list_elem_of_lookup_2; eauto.
Qed.

(** The statement at the literal [green] of the schema of a bool, an enum
    of three literals and an int. *)
Lemma EnumLiterals_agree_with_EnumIndex_witness :
  mixed_literals !! "green" = Some 2 <->
  exists varIdx v,
    elemZ (sch_Vars (NewSchema mixed_vars)) varIdx = Ok v /\ vd_Type v = TypeEnum /\
    EnumIndex (NewSchema mixed_vars) varIdx "green" = Ok 2 /\ 2 <> -1.
Proof.
  apply (EnumLiterals_agree_with_EnumIndex (NewSchema mixed_vars) mixed_literals).
  vm_compute. reflexivity.
Defined.

(** ** Evaluator (expr/eval.go) *)

Lemma Node_children_ind (P : Node -> Prop) :
  (forall ty iv bv name children,
     Forall P children -> P (mkNode ty iv bv name children)) ->
  forall n, P n.
Proof.
  intros H. fix IH 1. intros [ty iv bv name children].
  apply H. induction children as [|c children IHc]; constructor.
  - apply IH.
  - exact IHc.
Qed.

Lemma eval2_Ok ev children k v :
  eval2 ev children k = Ok v ->
  exists c0 c1 rest a b,
    children = c0 :: c1 :: rest /\ ev c0 = Ok a /\ ev c1 = Ok b /\ k a b = Ok v.
Proof.
  unfold eval2. destruct children as [|c0 [|c1 rest]]; try discriminate.
  - destruct (ev c0); discriminate.
  - destruct (ev c0) as [a|] eqn:E0; simpl; [|discriminate].
    destruct (ev c1) as [b|] eqn:E1; simpl; [|discriminate].
    intros H. exists c0, c1, rest, a, b. auto.
Qed.

Lemma eval3_Ok ev children k v :
  eval3 ev children k = Ok v ->
  exists c0 c1 c2 rest a b c,
    children = c0 :: c1 :: c2 :: rest /\
    ev c0 = Ok a /\ ev c1 = Ok b /\ ev c2 = Ok c /\ k a b c = Ok v.
Proof.
  unfold eval3. destruct children as [|c0 [|c1 [|c2 rest]]]; try discriminate.
  - destruct (ev c0); discriminate.
  - destruct (ev c0); simpl; [|discriminate]. destruct (ev c1); discriminate.
  - destruct (ev c0) as [a|] eqn:E0; simpl; [|discriminate].
    destruct (ev c1) as [b|] eqn:E1; simpl; [|discriminate].
    destruct (ev c2) as [c|] eqn:E2; simpl; [|discriminate].
    intros H. exists c0, c1, c2, rest, a, b, c. auto.
Qed.

Lemma Eval_tagged_all env : forall node v, Eval env node = Ok v -> tagged v.
Proof.
  induction node as [ty iv bv name children IH] using Node_children_ind.
  intros v H. simpl in H.
  destruct ty.
  - inversion H; reflexivity.
  - inversion H; reflexivity.
  - destruct (VarIndex (env_Schema env) name >=? 0).
    + destruct (elemZ (sch_Vars (env_Schema env)) _) as [vd|]; simpl in H; [|discriminate].
      destruct (elemZ (env_State env) _) as [x|]; simpl in H; [|discriminate].
      destruct (vd_Type vd); inversion H; reflexivity.
    + destruct (env_EnumLiterals env !! name); inversion H; reflexivity.
  - destruct children as [|c0 rest]; [discriminate|].
    destruct (Eval env c0) as [a|]; simpl in H; [|discriminate].
    destruct (negb (IsBool a)); inversion H; reflexivity.
  - apply eval2_Ok in H as (c0 & c1 & rest & a & b & -> & _ & _ & H).
    destruct (negb (IsBool a) || negb (IsBool b)); inversion H; reflexivity.
  - apply eval2_Ok in H as (c0 & c1 & rest & a & b & -> & _ & _ & H).
    destruct (negb (IsBool a) || negb (IsBool b)); inversion H; reflexivity.
  - apply eval2_Ok in H as (c0 & c1 & rest & a & b & -> & _ & _ & H).
    unfold eval_equality in H.
    destruct (IsBool a && IsBool b); [inversion H; reflexivity|].
    destruct (IsInt a && IsInt b); inversion H; reflexivity.
  - apply eval2_Ok in H as (c0 & c1 & rest & a & b & -> & _ & _ & H).
    unfold eval_equality in H.
    destruct (IsBool a && IsBool b); [inversion H; reflexivity|].
    destruct (IsInt a && IsInt b); inversion H; reflexivity.
  - apply eval2_Ok in H as (c0 & c1 & rest & a & b & -> & _ & _ & H).
    unfold eval_compare in H.
    destruct (negb (IsInt a) || negb (IsInt b)); inversion H; reflexivity.
  - apply eval2_Ok in H as (c0 & c1 & rest & a & b & -> & _ & _ & H).
    unfold eval_compare in H.
    destruct (negb (IsInt a) || negb (IsInt b)); inversion H; reflexivity.
  - apply eval2_Ok in H as (c0 & c1 & rest & a & b & -> & _ & _ & H).
    unfold eval_compare in H.
    destruct (negb (IsInt a) || negb (IsInt b)); inversion H; reflexivity.
  - apply eval2_Ok in H as (c0 & c1 & rest & a & b & -> & _ & _ & H).
    unfold eval_compare in H.
    destruct (negb (IsInt a) || negb (IsInt b)); inversion H; reflexivity.
  - apply eval2_Ok in H as (c0 & c1 & rest & a & b & -> & _ & _ & H).
    unfold eval_arith in H.
    destruct (negb (IsInt a) || negb (IsInt b)); inversion H; reflexivity.
  - apply eval2_Ok in H as (c0 & c1 & rest & a & b & -> & _ & _ & H).
    unfold eval_arith in H.
    destruct (negb (IsInt a) || negb (IsInt b)); inversion H; reflexivity.
  - apply eval2_Ok in H as (c0 & c1 & rest & a & b & -> & _ & _ & H).
    unfold eval_arith in H.
    destruct (negb (IsInt a) || negb (IsInt b)); inversion H; reflexivity.
  - apply eval2_Ok in H as (c0 & c1 & rest & a & b & -> & _ & _ & H).
    unfold eval_arith in H.
    destruct (negb (IsInt a) || negb (IsInt b)); [discriminate|].
    destruct (Int b =? 0); inversion H; reflexivity.
  - apply eval2_Ok in H as (c0 & c1 & rest & a & b & -> & _ & _ & H).
    unfold eval_arith in H.
    destruct (negb (IsInt a) || negb (IsInt b)); [discriminate|].
    destruct (Int b =? 0); inversion H; reflexivity.
  - destruct children as [|c0 rest]; [discriminate|].
    apply Forall_cons in IH as [_ IH].
    destruct (Eval env c0) as [c|]; simpl in H; [|discriminate].
    destruct (negb (IsBool c)); [discriminate|].
    destruct (Bool c).
    + destruct rest as [|c1 rest]; [discriminate|].
      apply Forall_cons in IH as [IH _]. exact (IH v H).
    + destruct rest as [|c1 [|c2 rest]]; try discriminate.
      apply Forall_cons in IH as [_ IH]. apply Forall_cons in IH as [IH _]. exact (IH v H).
  - destruct (String.eqb name "min").
    { apply eval2_Ok in H as (c0 & c1 & rest & a & b & -> & Ha & Hb & H).
      apply Forall_cons in IH as [IH0 IH]. apply Forall_cons in IH as [IH1 _].
      destruct (negb (IsInt a) || negb (IsInt b)); [discriminate|].
      destruct (Int a <? Int b); inversion H; subst; eauto. }
    destruct (String.eqb name "max").
    { apply eval2_Ok in H as (c0 & c1 & rest & a & b & -> & Ha & Hb & H).
      apply Forall_cons in IH as [IH0 IH]. apply Forall_cons in IH as [IH1 _].
      destruct (negb (IsInt a) || negb (IsInt b)); [discriminate|].
      destruct (Int a >? Int b); inversion H; subst; eauto. }
    destruct (String.eqb name "clamp"); [|discriminate].
    apply eval3_Ok in H as (c0 & c1 & c2 & rest & a & b & c & -> & _ & _ & _ & H).
    destruct (negb (IsInt a) || negb (IsInt b) || negb (IsInt c)); inversion H; reflexivity.
Qed.

(** X9. The evaluator keeps its values tagged: a successful [Eval] returns
    a value that is exactly one of an integer and a boolean; logical
    operators, equalities and comparisons give booleans, integer literals
    and arithmetic give integers; and [EvalBool] returns the boolean of a
    boolean value and rejects an integer value. *)
Theorem Eval_types (env : Env) (node : Node) (v : Value) :
  Eval env node = Ok v ->
  tagged v /\
  (bool_node (n_Type node) = true -> IsBool v = true) /\
  (int_node (n_Type node) = true -> IsInt v = true) /\
  EvalBool node env = (if IsBool v then Ok (Bool v) else Err ErrExpectedBool).
Proof.
  intros H. split; [exact (Eval_tagged_all env node v H)|].
  split; [|split].
  - destruct node as [ty iv bv name children]. simpl. intros Hb.
    simpl in H. destruct ty; try discriminate Hb.
    + inversion H; reflexivity.
    + destruct children as [|c0 rest]; [discriminate|].
      destruct (Eval env c0) as [a|]; simpl in H; [|discriminate].
      destruct (negb (IsBool a)); inversion H; reflexivity.
    + apply eval2_Ok in H as (c0 & c1 & rest & a & b & -> & _ & _ & H).
      destruct (negb (IsBool a) || negb (IsBool b)); inversion H; reflexivity.
    + apply eval2_Ok in H as (c0 & c1 & rest & a & b & -> & _ & _ & H).
      destruct (negb (IsBool a) || negb (IsBool b)); inversion H; reflexivity.
    + apply eval2_Ok in H as (c0 & c1 & rest & a & b & -> & _ & _ & H).
      unfold eval_equality in H.
      destruct (IsBool a && IsBool b); [inversion H; reflexivity|].
      destruct (IsInt a && IsInt b); inversion H; reflexivity.
    + apply eval2_Ok in H as (c0 & c1 & rest & a & b & -> & _ & _ & H).
      unfold eval_equality in H.
      destruct (IsBool a && IsBool b); [inversion H; reflexivity|].
      destruct (IsInt a && IsInt b); inversion H; reflexivity.
    + apply eval2_Ok in H as (c0 & c1 & rest & a & b & -> & _ & _ & H).
      unfold eval_compare in H.
      destruct (negb (IsInt a) || negb (IsInt b)); inversion H; reflexivity.
    + apply eval2_Ok in H as (c0 & c1 & rest & a & b & -> & _ & _ & H).
      unfold eval_compare in H.
      destruct (negb (IsInt a) || negb (IsInt b)); inversion H; reflexivity.
    + apply eval2_Ok in H as (c0 & c1 & rest & a & b & -> & _ & _ & H).
      unfold eval_compare in H.
      destruct (negb (IsInt a) || negb (IsInt b)); inversion H; reflexivity.
    + apply eval2_Ok in H as (c0 & c1 & rest & a & b & -> & _ & _ & H).
      unfold eval_compare in H.
      destruct (negb (IsInt a) || negb (IsInt b)); inversion H; reflexivity.
  - destruct node as [ty iv bv name children]. simpl. intros Hb.
    simpl in H. destruct ty; try discriminate Hb.
    + inversion H; reflexivity.
    + apply eval2_Ok in H as (c0 & c1 & rest & a & b & -> & _ & _ & H).
      unfold eval_arith in H.
      destruct (negb (IsInt a) || negb (IsInt b)); inversion H; reflexivity.
    + apply eval2_Ok in H as (c0 & c1 & rest & a & b & -> & _ & _ & H).
      unfold eval_arith in H.
      destruct (negb (IsInt a) || negb (IsInt b)); inversion H; reflexivity.
    + apply eval2_Ok in H as (c0 & c1 & rest & a & b & -> & _ & _ & H).
      unfold eval_arith in H.
      destruct (negb (IsInt a) || negb (IsInt b)); inversion H; reflexivity.
    + apply eval2_Ok in H as (c0 & c1 & rest & a & b & -> & _ & _ & H).
      unfold eval_arith in H.
      destruct (negb (IsInt a) || negb (IsInt b)); [discriminate|].
      destruct (Int b =? 0); inversion H; reflexivity.
    + apply eval2_Ok in H as (c0 & c1 & rest & a & b & -> & _ & _ & H).
      unfold eval_arith in H.
      destruct (negb (IsInt a) || negb (IsInt b)); [discriminate|].
      destruct (Int b =? 0); inversion H; reflexivity.
  - unfold EvalBool. rewrite H. simpl. destruct (IsBool v); reflexivity.
Qed.

(** The expression [n + 2] at a state of the mixed schema. *)
Lemma Eval_types_witness :
  tagged (IntValue 3) /\
  (bool_node NodeAdd = true -> IsBool (IntValue 3) = true) /\
  (int_node NodeAdd = true -> IsInt (IntValue 3) = true) /\
  EvalBool (Op NodeAdd [Var "n"; LitInt 2])
    (NewEnv (NewSchema mixed_vars) [0; 0; 1] mixed_literals) =
  (if IsBool (IntValue 3) then Ok (Bool (IntValue 3)) else Err ErrExpectedBool).
Proof.
  apply (Eval_types (NewEnv (NewSchema mixed_vars) [0; 0; 1] mixed_literals)
           (Op NodeAdd [Var "n"; LitInt 2]) (IntValue 3)).
  vm_compute. reflexivity.
Defined.

Lemma no_panic_bind {A B} (m : res A) (f : A -> res B) :
  no_panic m -> (forall a, m = Ok a -> no_panic (f a)) -> no_panic (m ≫= f).
Proof.
  destruct m as [a|e]; simpl; intros H1 H2; [apply H2; reflexivity|exact H1].
Qed.

Lemma no_panic_neq {A} (r : res A) : no_panic r <-> r <> Err Panic.
Proof.
  destruct r as [a|e]; simpl; [split; [discriminate|auto]|].
  destruct e; split; try discriminate; auto; try congruence.
Qed.

Lemma eval2_no_panic ev c0 c1 k :
  no_panic (ev c0) -> no_panic (ev c1) -> (forall a b, no_panic (k a b)) ->
  no_panic (eval2 ev [c0; c1] k).
Proof.
  intros H0 H1 Hk. unfold eval2.
  apply no_panic_bind; [exact H0|]. intros a _.
  apply no_panic_bind; [exact H1|]. intros b _. apply Hk.
Qed.

Lemma eval3_no_panic ev c0 c1 c2 k :
  no_panic (ev c0) -> no_panic (ev c1) -> no_panic (ev c2) ->
  (forall a b c, no_panic (k a b c)) ->
  no_panic (eval3 ev [c0; c1; c2] k).
Proof.
  intros H0 H1 H2 Hk. unfold eval3.
  apply no_panic_bind; [exact H0|]. intros a _.
  apply no_panic_bind; [exact H1|]. intros b _.
  apply no_panic_bind; [exact H2|]. intros c _. apply Hk.
Qed.

Lemma eval_equality_no_panic neq a b : no_panic (eval_equality neq a b).
Proof.
  unfold eval_equality.
  destruct (IsBool a && IsBool b); [exact I|]. destruct (IsInt a && IsInt b); exact I.
Qed.

Lemma eval_compare_no_panic nt a b : no_panic (eval_compare nt a b).
Proof.
  unfold eval_compare. destruct (negb (IsInt a) || negb (IsInt b)); exact I.
Qed.

Lemma eval_arith_no_panic nt a b : no_panic (eval_arith nt a b).
Proof.
  unfold eval_arith. destruct (negb (IsInt a) || negb (IsInt b)); [exact I|].
  destruct nt; try exact I; destruct (Int b =? 0); exact I.
Qed.

Lemma Eval_no_panic_all env :
  env_ok env -> forall node, well_formed node = true -> no_panic (Eval env node).
Proof.
  intros Henv.
  induction node as [ty iv bv name children IH] using Node_children_ind.
  intros Hwf. simpl in Hwf. apply andb_prop in Hwf as [Hch Har].
  assert (IH' : Forall (fun c => no_panic (Eval env c)) children).
  { apply Forall_forall. intros c Hc.
    rewrite Forall_forall in IH. apply IH; [exact Hc|].
    rewrite forallb_forall in Hch. apply Hch. apply list_elem_of_In. exact Hc. }
  clear IH Hch.
  destruct (arity ty name) as [k|] eqn:Ek; [|discriminate].
  apply Nat.eqb_eq in Har.
  destruct ty; simpl in Ek; simpl.
  - exact I.
  - exact I.
  - destruct (VarIndex (env_Schema env) name >=? 0) eqn:Ei.
    + destruct (VarIndex_range (env_Schema env) name) as [Hr|Hr]; [rewrite Hr in Ei; discriminate|].
      destruct (elemZ_in_range (sch_Vars (env_Schema env)) _ Hr) as [vd ->]. simpl.
      destruct (elemZ_in_range (env_State env) (VarIndex (env_Schema env) name)) as [x ->].
      { unfold env_ok in Henv. lia. }
      simpl. destruct (vd_Type vd); exact I.
    + destruct (env_EnumLiterals env !! name); exact I.
  - injection Ek as <-. destruct children as [|c0 [|? ?]]; try discriminate.
    apply Forall_cons in IH' as [H0 _].
    apply (no_panic_bind (Eval env c0)); [exact H0|]. intros a _.
    destruct (negb (IsBool a)); exact I.
  - injection Ek as <-. destruct children as [|c0 [|c1 [|? ?]]]; try discriminate.
    apply Forall_cons in IH' as [H0 IH']. apply Forall_cons in IH' as [H1 _].
    apply eval2_no_panic; auto. intros a b.
    destruct (negb (IsBool a) || negb (IsBool b)); exact I.
  - injection Ek as <-. destruct children as [|c0 [|c1 [|? ?]]]; try discriminate.
    apply Forall_cons in IH' as [H0 IH']. apply Forall_cons in IH' as [H1 _].
    apply eval2_no_panic; auto. intros a b.
    destruct (negb (IsBool a) || negb (IsBool b)); exact I.
  - injection Ek as <-. destruct children as [|c0 [|c1 [|? ?]]]; try discriminate.
    apply Forall_cons in IH' as [H0 IH']. apply Forall_cons in IH' as [H1 _].
    apply eval2_no_panic; auto. apply eval_equality_no_panic.
  - injection Ek as <-. destruct children as [|c0 [|c1 [|? ?]]]; try discriminate.
    apply Forall_cons in IH' as [H0 IH']. apply Forall_cons in IH' as [H1 _].
    apply eval2_no_panic; auto. apply eval_equality_no_panic.
  - injection Ek as <-. destruct children as [|c0 [|c1 [|? ?]]]; try discriminate.
    apply Forall_cons in IH' as [H0 IH']. apply Forall_cons in IH' as [H1 _].
    apply eval2_no_panic; auto. apply eval_compare_no_panic.
  - injection Ek as <-. destruct children as [|c0 [|c1 [|? ?]]]; try discriminate.
    apply Forall_cons in IH' as [H0 IH']. apply Forall_cons in IH' as [H1 _].
    apply eval2_no_panic; auto. apply eval_compare_no_panic.
  - injection Ek as <-. destruct children as [|c0 [|c1 [|? ?]]]; try discriminate.
    apply Forall_cons in IH' as [H0 IH']. apply Forall_cons in IH' as [H1 _].
    apply eval2_no_panic; auto. apply eval_compare_no_panic.
  - injection Ek as <-. destruct children as [|c0 [|c1 [|? ?]]]; try discriminate.
    apply Forall_cons in IH' as [H0 IH']. apply Forall_cons in IH' as [H1 _].
    apply eval2_no_panic; auto. apply eval_compare_no_panic.
  - injection Ek as <-. destruct children as [|c0 [|c1 [|? ?]]]; try discriminate.
    apply Forall_cons in IH' as [H0 IH']. apply Forall_cons in IH' as [H1 _].
    apply eval2_no_panic; auto. apply eval_arith_no_panic.
  - injection Ek as <-. destruct children as [|c0 [|c1 [|? ?]]]; try discriminate.
    apply Forall_cons in IH' as [H0 IH']. apply Forall_cons in IH' as [H1 _].
    apply eval2_no_panic; auto. apply eval_arith_no_panic.
  - injection Ek as <-. destruct children as [|c0 [|c1 [|? ?]]]; try discriminate.
    apply Forall_cons in IH' as [H0 IH']. apply Forall_cons in IH' as [H1 _].
    apply eval2_no_panic; auto. apply eval_arith_no_panic.
  - injection Ek as <-. destruct children as [|c0 [|c1 [|? ?]]]; try discriminate.
    apply Forall_cons in IH' as [H0 IH']. apply Forall_cons in IH' as [H1 _].
    apply eval2_no_panic; auto. apply eval_arith_no_panic.
  - injection Ek as <-. destruct children as [|c0 [|c1 [|? ?]]]; try discriminate.
    apply Forall_cons in IH' as [H0 IH']. apply Forall_cons in IH' as [H1 _].
    apply eval2_no_panic; auto. apply eval_arith_no_panic.
  - injection Ek as <-. destruct children as [|c0 [|c1 [|c2 [|? ?]]]]; try discriminate.
    apply Forall_cons in IH' as [H0 IH']. apply Forall_cons in IH' as [H1 IH'].
    apply Forall_cons in IH' as [H2 _].
    apply (no_panic_bind (Eval env c0)); [exact H0|]. intros c _.
    destruct (negb (IsBool c)); [exact I|]. destruct (Bool c); assumption.
  - destruct (String.eqb name "min") eqn:Emin.
    { simpl in Ek. injection Ek as <-.
      destruct children as [|c0 [|c1 [|? ?]]]; try discriminate.
      apply Forall_cons in IH' as [H0 IH']. apply Forall_cons in IH' as [H1 _].
      apply eval2_no_panic; auto. intros a b.
      destruct (negb (IsInt a) || negb (IsInt b)); [exact I|].
      destruct (Int a <? Int b); exact I. }
    destruct (String.eqb name "max") eqn:Emax.
    { simpl in Ek. injection Ek as <-.
      destruct children as [|c0 [|c1 [|? ?]]]; try discriminate.
      apply Forall_cons in IH' as [H0 IH']. apply Forall_cons in IH' as [H1 _].
      apply eval2_no_panic; auto. intros a b.
      destruct (negb (IsInt a) || negb (IsInt b)); [exact I|].
      destruct (Int a >? Int b); exact I. }
    simpl in Ek. destruct (String.eqb name "clamp"); [|discriminate].
    injection Ek as <-.
    destruct children as [|c0 [|c1 [|c2 [|? ?]]]]; try discriminate.
    apply Forall_cons in IH' as [H0 IH']. apply Forall_cons in IH' as [H1 IH'].
    apply Forall_cons in IH' as [H2 _].
    apply eval3_no_panic; auto. intros a b c.
    destruct (negb (IsInt a) || negb (IsInt b) || negb (IsInt c)); exact I.
Qed.

(** ** Parser (expr/parser.go) *)

Lemma infixInfo_binary t prec nt :
  infixInfo t = (prec, nt, true) -> binary_node nt = true.
Proof. destruct t; simpl; intros H; inversion H; reflexivity. Qed.

Lemma well_formed_binary nt lhs rhs :
  binary_node nt = true -> well_formed lhs = true -> well_formed rhs = true ->
  well_formed (Op nt [lhs; rhs]) = true.
Proof.
  intros Hb Hl Hr. simpl. rewrite Hl, Hr. simpl.
  destruct nt; try discriminate Hb; reflexivity.
Qed.

Section ParserShape.
Variable fuel : nat.
Hypothesis IH : parser_wf fuel.

Lemma parseExpr_shape minPrec p :
  no_panic (parseExpr (S fuel) minPrec p) /\
  (forall n p', parseExpr (S fuel) minPrec p = Ok (n, p') -> well_formed n = true).
Proof.
  destruct IH as (_ & IHL & IHU & _).
  simpl. destruct (IHU p) as [HUn HUw].
  destruct (parseUnary fuel p) as [[lhs p1]|e] eqn:EU; simpl.
  - destruct (IHL minPrec lhs p1) as [HLn HLw]. split; [exact HLn|].
    apply HLw. eapply HUw; reflexivity.
  - split; [exact HUn|discriminate].
Qed.

Lemma parseExpr_loop_shape minPrec lhs p :
  no_panic (parseExpr_loop (S fuel) minPrec lhs p) /\
  (well_formed lhs = true ->
   forall n p', parseExpr_loop (S fuel) minPrec lhs p = Ok (n, p') ->
                well_formed n = true).
Proof.
  destruct IH as (IHE & IHL & _).
  simpl. destruct (infixInfo (tok_Type (peek p))) as [[prec nodeType] ok] eqn:Ei.
  destruct (negb ok || (prec <? minPrec)) eqn:Estop.
  { split; [exact I|]. intros Hw n p' H'. inversion H'; subst. exact Hw. }
  destruct (TokenType_eqb (tok_Type (peek p)) TokIf).
  { split; [exact I|]. intros Hw n p' H'. inversion H'; subst. exact Hw. }
  apply orb_false_iff in Estop as [Eok _]. apply negb_false_iff in Eok. subst ok.
  set (p1 := {| p_tokens := p_tokens p; p_pos := S (p_pos p) |}).
  destruct (IHE (prec + 1) p1) as [HEn HEw].
  destruct (parseExpr fuel (prec + 1) p1) as [[rhs p2]|e] eqn:EE; simpl.
  - destruct (IHL minPrec (Op nodeType [lhs; rhs]) p2) as [HLn HLw].
    split; [exact HLn|]. intros Hw. apply HLw.
    apply well_formed_binary; [eapply infixInfo_binary; eauto|exact Hw|].
    eapply HEw; reflexivity.
  - split; [exact HEn|discriminate].
Qed.

Lemma parseUnary_shape p :
  no_panic (parseUnary (S fuel) p) /\
  (forall n p', parseUnary (S fuel) p = Ok (n, p') -> well_formed n = true).
Proof.
  destruct IH as (IHE & _ & IHU & IHA & _).
  simpl.
  set (p1 := {| p_tokens := p_tokens p; p_pos := S (p_pos p) |}).
  destruct (TokenType_eqb (tok_Type (peek p)) TokNot).
  { destruct (IHU p1) as [HUn HUw].
    destruct (parseUnary fuel p1) as [[operand p2]|e] eqn:EU; simpl.
    - split; [exact I|]. intros n p' H'. inversion H'; subst.
      simpl. rewrite (HUw operand p' eq_refl). reflexivity.
    - split; [exact HUn|discriminate]. }
  destruct (TokenType_eqb (tok_Type (peek p)) TokIf).
  { destruct (IHE 0 p1) as [HEn HEw].
    destruct (parseExpr fuel 0 p1) as [[cond p2]|e] eqn:EE; simpl.
    2:{ split; [exact HEn|discriminate]. }
    destruct (expect TokThen p2) as [[t3 p3]|e] eqn:Ex1; [|split; [exact I|discriminate]].
    destruct (IHE 0 p3) as [HEn3 HEw3].
    destruct (parseExpr fuel 0 p3) as [[thn p4]|e] eqn:EE3; simpl.
    2:{ split; [exact HEn3|discriminate]. }
    destruct (expect TokElse p4) as [[t5 p5]|e] eqn:Ex2; [|split; [exact I|discriminate]].
    destruct (IHE 0 p5) as [HEn5 HEw5].
    destruct (parseExpr fuel 0 p5) as [[els p6]|e] eqn:EE5; simpl.
    2:{ split; [exact HEn5|discriminate]. }
    split; [exact I|]. intros n p' H'. inversion H'; subst. simpl.
    rewrite (HEw cond p2 eq_refl), (HEw3 thn p4 eq_refl), (HEw5 els p' eq_refl).
    reflexivity. }
  destruct (TokenType_eqb (tok_Type (peek p)) TokMinus).
  { destruct (IHU p1) as [HUn HUw].
    destruct (parseUnary fuel p1) as [[operand p2]|e] eqn:EU; simpl.
    - split; [exact I|]. intros n p' H'. inversion H'; subst.
      simpl. rewrite (HUw operand p' eq_refl). reflexivity.
    - split; [exact HUn|discriminate]. }
  exact (IHA p).
Qed.

Lemma parseAtom_shape p :
  no_panic (parseAtom (S fuel) p) /\
  (forall n p', parseAtom (S fuel) p = Ok (n, p') -> well_formed n = true).
Proof.
  destruct IH as (IHE & _ & _ & _ & IHC & _).
  simpl.
  set (p1 := {| p_tokens := p_tokens p; p_pos := S (p_pos p) |}).
  destruct (tok_Type (peek p)) eqn:Et;
    try (split; [exact I|discriminate]).
  - destruct (Atoi (tok_Val (peek p))); [|split; [exact I|discriminate]].
    split; [exact I|]. intros n p' H'. inversion H'; subst. reflexivity.
  - destruct (TokenType_eqb (tok_Type (peek p1)) TokLParen && isBuiltin (tok_Val (peek p)))
      eqn:Ec.
    + apply andb_prop in Ec as [_ Hb].
      destruct (IHC (tok_Val (peek p)) p1) as [HCn HCw]. split; [exact HCn|exact (HCw Hb)].
    + split; [exact I|]. intros n p' H'. inversion H'; subst. reflexivity.
  - split; [exact I|]. intros n p' H'. inversion H'; subst. reflexivity.
  - split; [exact I|]. intros n p' H'. inversion H'; subst. reflexivity.
  - destruct (IHE 0 p1) as [HEn HEw].
    destruct (parseExpr fuel 0 p1) as [[e p2]|e] eqn:EE; simpl.
    2:{ split; [exact HEn|discriminate]. }
    destruct (expect TokRParen p2) as [[t3 p3]|e3] eqn:Ex; [|split; [exact I|discriminate]].
    split; [exact I|]. intros n p' H'. inversion H'; subst. eapply HEw; reflexivity.
Qed.

Lemma parseCall_loop_shape args p :
  no_panic (parseCall_loop (S fuel) args p) /\
  (forallb well_formed args = true ->
   forall a p', parseCall_loop (S fuel) args p = Ok (a, p') ->
                forallb well_formed a = true).
Proof.
  destruct IH as (IHE & _ & _ & _ & _ & IHCL).
  simpl. destruct (IHE 0 p) as [HEn HEw].
  destruct (parseExpr fuel 0 p) as [[arg p1]|e] eqn:EE; simpl.
  2:{ split; [exact HEn|discriminate]. }
  assert (Hargs : forallb well_formed args = true ->
                  forallb well_formed (args ++ [arg]) = true).
  { intros Hw. rewrite forallb_app, Hw. simpl. rewrite (HEw arg p1 eq_refl). reflexivity. }
  destruct (TokenType_eqb (tok_Type (peek p1)) TokComma).
  - destruct (IHCL (args ++ [arg]) {| p_tokens := p_tokens p1; p_pos := S (p_pos p1) |})
      as [HCn HCw].
    split; [exact HCn|]. intros Hw. apply HCw. auto.
  - split; [exact I|]. intros Hw a p' H'. inversion H'; subst. auto.
Qed.

Lemma parseCall_shape name p :
  no_panic (parseCall (S fuel) name p) /\
  (isBuiltin name = true ->
   forall n p', parseCall (S fuel) name p = Ok (n, p') -> well_formed n = true).
Proof.
  destruct IH as (_ & _ & _ & _ & _ & IHCL).
  simpl.
  set (p1 := {| p_tokens := p_tokens p; p_pos := S (p_pos p) |}).
  destruct (IHCL [] p1) as [HCn HCw].
  destruct (parseCall_loop fuel [] p1) as [[args p2]|e] eqn:EC; simpl.
  2:{ split; [exact HCn|discriminate]. }
  destruct (expect TokRParen p2) as [[t3 p3]|e] eqn:Ex; [|split; [exact I|discriminate]].
  destruct ((String.eqb name "min" || String.eqb name "max")
            && negb (length args =? 2)%nat) eqn:E2; [split; [exact I|discriminate]|].
  destruct (String.eqb name "clamp" && negb (length args =? 3)%nat) eqn:E3;
    [split; [exact I|discriminate]|].
  split; [exact I|]. intros Hb n p' H'. inversion H'; subst. simpl.
  rewrite (HCw eq_refl args p2 eq_refl). simpl.
  unfold isBuiltin in Hb.
  destruct (String.eqb name "min" || String.eqb name "max") eqn:Emm; simpl in *.
  - apply negb_false_iff in E2. exact E2.
  - rewrite Hb in E3. simpl in E3. rewrite Hb. apply negb_false_iff in E3. exact E3.
Qed.

End ParserShape.

Lemma parser_wf_all : forall fuel, parser_wf fuel.
Proof.
  induction fuel as [|fuel IH].
  - repeat split; try exact I; discriminate.
  - repeat apply conj; intros.
    + apply parseExpr_shape; exact IH.
    + apply parseExpr_loop_shape; exact IH.
    + apply parseUnary_shape; exact IH.
    + apply parseAtom_shape; exact IH.
    + apply parseCall_shape; exact IH.
    + apply parseCall_loop_shape; exact IH.
Qed.

Lemma Lex_loop_no_panic :
  forall fuel input i tokens, no_panic (Lex_loop fuel input i tokens).
Proof.
  induction fuel as [|fuel IH]; intros input i tokens; simpl; [exact I|].
  destruct (input !! i) as [ch|]; [|exact I].
  destruct (IsSpace ch); [apply IH|].
  destruct (IsDigit ch); [apply IH|].
  destruct (IsLetter ch || is_underscore ch).
  { destruct (keywords !! _); apply IH. }
  destruct (if (S i <? length input)%nat then two_char_token (slice input i (i + 2)) else None);
    [apply IH|].
  destruct (single_char_token ch); [apply IH|exact I].
Qed.

Lemma Parse_tokens_shape tokens :
  no_panic (Parse_tokens tokens) /\
  (forall node, Parse_tokens tokens = Ok node -> well_formed node = true).
Proof.
  unfold Parse_tokens.
  destruct (parser_wf_all (parse_fuel tokens)) as (IHE & _).
  destruct (IHE 0 {| p_tokens := tokens; p_pos := 0 |}) as [Hn Hw].
  destruct (parseExpr (parse_fuel tokens) 0 {| p_tokens := tokens; p_pos := 0 |})
    as [[node p']|e] eqn:E; simpl.
  - destruct (negb (TokenType_eqb (tok_Type (peek p')) TokEOF)); simpl.
    + split; [exact I|discriminate].
    + split; [exact I|]. intros n H; inversion H; subst. eapply Hw; reflexivity.
  - split; [exact Hn|discriminate].
Qed.

Lemma Parse_shape input :
  no_panic (Parse input) /\
  (forall node, Parse input = Ok node -> well_formed node = true).
Proof.
  unfold Parse, Lex.
  pose proof (Lex_loop_no_panic (S (length (list_ascii_of_string input)))
                (list_ascii_of_string input) 0 []) as Hl.
  destruct (Lex_loop _ _ 0 []) as [tokens|e]; simpl.
  - apply Parse_tokens_shape.
  - split; [exact Hl|discriminate].
Qed.

(** X10. [Parse] never panics, and a tree it returns has the shape the
    evaluator relies on (one child under [not], two under a binary
    operator, three under [if], two or three arguments under a builtin
    call): evaluating it in an environment whose state has a component
    for every variable never panics. *)
Theorem Parse_Eval_safe (input : string) :
  no_panic (Parse input) /\
  (forall node, Parse input = Ok node ->
     well_formed node = true /\
     forall env, env_ok env -> no_panic (Eval env node)).
Proof.
  destruct (Parse_shape input) as [Hn Hw]. split; [exact Hn|].
  intros node H. split; [exact (Hw node H)|].
  intros env Henv. apply Eval_no_panic_all; [exact Henv|exact (Hw node H)].
Qed.

(** X11. Grouping of operators.  In [a op1 b op2 c] the operator of higher
    precedence takes [b]; on a tie the left one does.  The prefix
    operators [not] and [-] bind tighter than every infix operator:
    [not a op b] is [(not a) op b] and [-a op b] is [(0 - a) op b]. *)
Theorem operator_grouping
    (t1 t2 : TokenType) (a b c v1 v2 v3 : string) (pa p1 pb p2 pc pe : Z) :
  is_infix t1 = true ->
  is_infix t2 = true ->
  Parse_tokens
    [mkToken TokIdent a pa; mkToken t1 v1 p1; mkToken TokIdent b pb;
     mkToken t2 v2 p2; mkToken TokIdent c pc; mkToken TokEOF "" pe] =
  Ok (if infix_prec t1 <? infix_prec t2
      then Op (infix_node t1) [Var a; Op (infix_node t2) [Var b; Var c]]
      else Op (infix_node t2) [Op (infix_node t1) [Var a; Var b]; Var c]) /\
  Parse_tokens
    [mkToken TokNot v3 pa; mkToken TokIdent a p1; mkToken t1 v1 pb;
     mkToken TokIdent b p2; mkToken TokEOF "" pe] =
  Ok (Op (infix_node t1) [Op NodeNot [Var a]; Var b]) /\
  Parse_tokens
    [mkToken TokMinus v3 pa; mkToken TokIdent a p1; mkToken t1 v1 pb;
     mkToken TokIdent b p2; mkToken TokEOF "" pe] =
  Ok (Op (infix_node t1) [Op NodeSub [LitInt 0; Var a]; Var b]).
Proof.
  intros H1 H2.
  destruct t1; try discriminate H1; destruct t2; try discriminate H2;
    repeat split; reflexivity.
Qed.

(** The statement at the tokens of "a + b * c", "not a == b" and
    "- a == b". *)
Lemma operator_grouping_witness :
  Parse_tokens
    [mkToken TokIdent "a" 0; mkToken TokPlus "+" 2; mkToken TokIdent "b" 4;
     mkToken TokStar "*" 6; mkToken TokIdent "c" 8; mkToken TokEOF "" 9] =
  Ok (if infix_prec TokPlus <? infix_prec TokStar
      then Op (infix_node TokPlus) [Var "a"; Op (infix_node TokStar) [Var "b"; Var "c"]]
      else Op (infix_node TokStar) [Op (infix_node TokPlus) [Var "a"; Var "b"]; Var "c"]) /\
  Parse_tokens
    [mkToken TokNot "not" 0; mkToken TokIdent "a" 2; mkToken TokPlus "+" 4;
     mkToken TokIdent "b" 6; mkToken TokEOF "" 9] =
  Ok (Op (infix_node TokPlus) [Op NodeNot [Var "a"]; Var "b"]) /\
  Parse_tokens
    [mkToken TokMinus "not" 0; mkToken TokIdent "a" 2; mkToken TokPlus "+" 4;
     mkToken TokIdent "b" 6; mkToken TokEOF "" 9] =
  Ok (Op (infix_node TokPlus) [Op NodeSub [LitInt 0; Var "a"]; Var "b"]).
Proof.
  apply (operator_grouping TokPlus TokStar "a" "b" "c" "+" "*" "not" 0 2 4 6 8 9);
    reflexivity.
Defined.

(** ** Lexer (expr/lexer.go) *)

Lemma length_string_of_list_ascii l :
  String.length (string_of_list_ascii l) = length l.
Proof. induction l as [|c l IH]; simpl; [reflexivity|]. rewrite IH. reflexivity. Qed.

Lemma length_slice input a b :
  (a <= b <= length input)%nat -> String.length (slice input a b) = (b - a)%nat.
Proof.
  intros H. unfold slice. rewrite length_string_of_list_ascii, length_take, length_drop. lia.
Qed.

Lemma slice_one input i ch :
  input !! i = Some ch -> slice input i (S i) = String ch EmptyString.
Proof.
  intros H. unfold slice. replace (S i - i)%nat with 1%nat by lia.
  rewrite (drop_S _ _ _ H). reflexivity.
Qed.

Lemma keywords_not_EOF word ty : keywords !! word = Some ty -> ty <> TokEOF.
Proof.
  unfold keywords. intros H. apply elem_of_list_to_map_2 in H.
  repeat (apply elem_of_cons in H as [H|H]; [inversion H; discriminate|]).
  inversion H.
Qed.

Lemma two_char_token_not_EOF two ty : two_char_token two = Some ty -> ty <> TokEOF.
Proof.
  unfold two_char_token.
  repeat (destruct (String.eqb two _); [intros H; inversion H; discriminate|]).
  discriminate.
Qed.

Lemma single_char_token_not_EOF ch ty : single_char_token ch = Some ty -> ty <> TokEOF.
Proof.
  unfold single_char_token.
  repeat (destruct (code ch =? _); [intros H; inversion H; discriminate|]).
  discriminate.
Qed.

Lemma tokens_cover_space input i ch ts :
  input !! i = Some ch -> IsSpace ch = true ->
  tokens_cover input (S i) ts -> tokens_cover input i ts.
Proof.
  intros Hi Hs. destruct ts as [|t ts]; simpl.
  - intros H j c Hj Hc. destruct (decide (j = i)) as [->|Hne].
    + congruence.
    + apply (H j c); [lia|exact Hc].
  - intros (pos & Hp & Hle & Hgap & Hrest). exists pos.
    split; [exact Hp|]. split; [lia|]. split; [|exact Hrest].
    intros j c Hj Hc. destruct (decide (j = i)) as [->|Hne].
    + congruence.
    + apply (Hgap j c); [lia|exact Hc].
Qed.

Lemma tokens_cover_token input i stop ty ts :
  (i < stop <= length input)%nat -> ty <> TokEOF ->
  tokens_cover input stop ts ->
  tokens_cover input i (mkToken ty (slice input i stop) (Z.of_nat i) :: ts).
Proof.
  intros Hi Hty Hts. simpl. exists i.
  rewrite length_slice by lia. replace (i + (stop - i))%nat with stop by lia.
  split; [reflexivity|]. split; [lia|]. split; [intros; lia|].
  split; [exact Hty|]. split.
  - intros H. pose proof (length_slice input i stop ltac:(lia)) as Hl.
    rewrite H in Hl. simpl in Hl. lia.
  - split; [lia|]. split; [reflexivity|exact Hts].
Qed.

Lemma Lex_loop_cover :
  forall fuel input i acc r,
    Lex_loop fuel input i acc = Ok r ->
    exists body,
      r = acc ++ body ++ [mkToken TokEOF "" (Z.of_nat (length input))] /\
      tokens_cover input i body.
Proof.
  induction fuel as [|fuel IH]; intros input i acc r H; [discriminate|].
  simpl in H. destruct (input !! i) as [ch|] eqn:Ech.
  2:{ inversion H; subst. exists []. split; [reflexivity|].
      simpl. intros j c Hj Hc. apply lookup_lt_Some in Hc.
      apply lookup_ge_None in Ech. lia. }
  pose proof (lookup_lt_Some _ _ _ Ech) as Hlt.
  assert (Hdrop : drop i input = ch :: drop (S i) input) by (apply drop_S; exact Ech).
  assert (Hlen : length (drop i input) = (length input - i)%nat) by apply length_drop.
  assert (Hstep : forall t stop,
            Lex_loop fuel input stop (acc ++ [t]) = Ok r ->
            (forall ts, tokens_cover input stop ts -> tokens_cover input i (t :: ts)) ->
            exists body,
              r = acc ++ body ++ [mkToken TokEOF "" (Z.of_nat (length input))] /\
              tokens_cover input i body).
  { intros t stop Hl Hc. apply IH in Hl as (body & -> & Hb).
    exists (t :: body). split; [|apply Hc; exact Hb].
    rewrite <- app_assoc. reflexivity. }
  destruct (IsSpace ch) eqn:Es.
  { apply IH in H as (body & -> & Hb). exists body. split; [reflexivity|].
    eapply tokens_cover_space; eauto. }
  destruct (IsDigit ch) eqn:Ed.
  { destruct (scan_while_bounds IsDigit (drop i input) i) as [Hb Hs].
    specialize (Hs ch _ Hdrop Ed).
    eapply Hstep; [exact H|]. intros ts Hts.
    apply tokens_cover_token; [lia|discriminate|exact Hts]. }
  destruct (IsLetter ch || is_underscore ch) eqn:El.
  { set (p := fun c => IsLetter c || IsDigit c || is_underscore c) in *.
    destruct (scan_while_bounds p (drop i input) i) as [Hb Hs].
    assert (Hp : p ch = true).
    { unfold p. rewrite Ed. apply orb_true_iff in El as [->| ->]; simpl;
        [reflexivity|apply orb_true_r]. }
    specialize (Hs ch _ Hdrop Hp).
    destruct (keywords !! slice input i (scan_while p (drop i input) i)) as [ty|] eqn:Ek.
    - eapply Hstep; [exact H|]. intros ts Hts.
      apply tokens_cover_token; [lia|eapply keywords_not_EOF; eauto|exact Hts].
    - eapply Hstep; [exact H|]. intros ts Hts.
      apply tokens_cover_token; [lia|discriminate|exact Hts]. }
  destruct (if (S i <? length input)%nat then two_char_token (slice input i (i + 2)) else None)
    as [ty|] eqn:E2.
  { destruct (S i <? length input)%nat eqn:E2'; [|discriminate].
    apply Nat.ltb_lt in E2'.
    eapply Hstep; [exact H|]. intros ts Hts.
    apply tokens_cover_token; [lia|eapply two_char_token_not_EOF; eauto|exact Hts]. }
  destruct (single_char_token ch) as [ty|] eqn:E1; [|discriminate].
  eapply Hstep; [exact H|]. intros ts Hts.
  rewrite <- (slice_one input i ch Ech).
  apply tokens_cover_token; [lia|eapply single_char_token_not_EOF; eauto|exact Hts].
Qed.

Lemma Lex_loop_error :
  forall fuel input i acc e,
    Lex_loop fuel input i acc = Err e ->
    e = OutOfFuel \/
    exists ch pos,
      e = ErrUnexpectedChar ch (Z.of_nat pos) /\ (i <= pos)%nat /\
      input !! pos = Some ch /\
      IsSpace ch = false /\ IsDigit ch = false /\ IsLetter ch = false /\
      is_underscore ch = false /\ single_char_token ch = None.
Proof.
  induction fuel as [|fuel IH]; intros input i acc e H; simpl in H.
  { inversion H; auto. }
  destruct (input !! i) as [ch|] eqn:Ech; [|discriminate].
  assert (Hdrop : drop i input = ch :: drop (S i) input) by (apply drop_S; exact Ech).
  assert (Hnext : forall stop acc',
            (i <= stop)%nat -> Lex_loop fuel input stop acc' = Err e ->
            e = OutOfFuel \/
            exists ch pos,
              e = ErrUnexpectedChar ch (Z.of_nat pos) /\ (i <= pos)%nat /\
              input !! pos = Some ch /\
              IsSpace ch = false /\ IsDigit ch = false /\ IsLetter ch = false /\
              is_underscore ch = false /\ single_char_token ch = None).
  { intros stop acc' Hle Hl. apply IH in Hl as [?|(c & pos & ? & ? & ?)]; [auto|].
    right. exists c, pos. split; [auto|]. split; [lia|auto]. }
  destruct (IsSpace ch) eqn:Es; [eapply Hnext; [|exact H]; lia|].
  destruct (IsDigit ch) eqn:Ed.
  { destruct (scan_while_bounds IsDigit (drop i input) i) as [Hb _].
    eapply Hnext; [|exact H]; lia. }
  destruct (IsLetter ch || is_underscore ch) eqn:El.
  { set (p := fun c => IsLetter c || IsDigit c || is_underscore c) in *.
    destruct (scan_while_bounds p (drop i input) i) as [Hb _].
    destruct (keywords !! slice input i (scan_while p (drop i input) i));
      (eapply Hnext; [|exact H]; lia). }
  apply orb_false_iff in El as [El Eu].
  destruct (if (S i <? length input)%nat then two_char_token (slice input i (i + 2)) else None).
  { eapply Hnext; [|exact H]; lia. }
  destruct (single_char_token ch) eqn:E1; [eapply Hnext; [|exact H]; lia|].
  inversion H; subst. right. exists ch, i. repeat split; auto.
Qed.

(** X12. The tokens of a successful [Lex] end with one [TokEOF] token at
    position [len(input)] and otherwise partition the input: every other
    token is a non-empty stretch of the input found at its [Pos], tokens
    follow one another in input order without overlap, and the bytes
    between and after them are white space. *)
Theorem Lex_tokens_cover (input : string) (tokens : list Token) :
  Lex input = Ok tokens ->
  exists body,
    tokens = body ++ [mkToken TokEOF "" (Z.of_nat (String.length input))] /\
    tokens_cover (list_ascii_of_string input) 0 body /\
    Forall (fun t => tok_Type t <> TokEOF) body.
Proof.
  unfold Lex. intros H. apply Lex_loop_cover in H as (body & -> & Hb).
  exists body. split; [|split; [exact Hb|]].
  - simpl. repeat f_equal.
    rewrite <- (length_string_of_list_ascii (list_ascii_of_string input)).
    rewrite string_of_list_ascii_of_string. reflexivity.
  - clear -Hb. revert Hb. generalize 0%nat.
    induction body as [|t body IH]; intros i Hb; constructor.
    + destruct Hb as (pos & _ & _ & _ & Hty & _). exact Hty.
    + destruct Hb as (pos & _ & _ & _ & _ & _ & _ & _ & Hrest). eapply IH; eauto.
Qed.

(** The tokens of "n >= 10". *)
Lemma Lex_tokens_cover_witness :
  exists body,
    [mkToken TokIdent "n" 0; mkToken TokGe ">=" 2; mkToken TokInt "10" 5;
     mkToken TokEOF "" 7] =
      body ++ [mkToken TokEOF "" (Z.of_nat (String.length "n >= 10"))] /\
    tokens_cover (list_ascii_of_string "n >= 10") 0 body /\
    Forall (fun t => tok_Type t <> TokEOF) body.
Proof.
  apply (Lex_tokens_cover "n >= 10"). vm_compute. reflexivity.
Defined.

(** X13. [Lex] fails only with "unexpected character", and the character
    it reports is the byte of the input at the reported position: a byte
    that is not white space, a digit, a letter, an underscore or a
    single-character operator. *)
Theorem Lex_error_sound (input : string) (e : error) :
  Lex input = Err e ->
  exists ch pos,
    e = ErrUnexpectedChar ch (Z.of_nat pos) /\
    list_ascii_of_string input !! pos = Some ch /\
    IsSpace ch = false /\ IsDigit ch = false /\ IsLetter ch = false /\
    is_underscore ch = false /\ single_char_token ch = None.
Proof.
  intros H. pose proof (Lex_fuel input) as Hf. rewrite H in Hf.
  unfold Lex in H. apply Lex_loop_error in H as [->|(ch & pos & He & _ & Hrest)].
  - exfalso. apply Hf. reflexivity.
  - exists ch, pos. split; [exact He|exact Hrest].
Qed.

(** The input "a = b": a single [=] is not an operator. *)
Lemma Lex_error_sound_witness :
  exists ch pos,
    ErrUnexpectedChar "=" 2 = ErrUnexpectedChar ch (Z.of_nat pos) /\
    list_ascii_of_string "a = b" !! pos = Some ch /\
    IsSpace ch = false /\ IsDigit ch = false /\ IsLetter ch = false /\
    is_underscore ch = false /\ single_char_token ch = None.
Proof.
  apply (Lex_error_sound "a = b"). vm_compute. reflexivity.
Defined.

(** ** Validity, normal forms and steps (package verify) *)

Lemma evalValid_loop_cases env :
  forall invs,
    match evalValid_loop env invs with
    | Ok true => forall i e, invs !! i = Some e -> EvalBool e env = Ok true
    | Ok false =>
        exists i e, invs !! i = Some e /\ EvalBool e env = Ok false /\
          forall j e', (j < i)%nat -> invs !! j = Some e' -> EvalBool e' env = Ok true
    | Err err =>
        exists i e, invs !! i = Some e /\ EvalBool e env = Err err /\
          forall j e', (j < i)%nat -> invs !! j = Some e' -> EvalBool e' env = Ok true
    end.
Proof.
  induction invs as [|x invs IH]; simpl.
  - intros i e H. inversion H.
  - destruct (EvalBool x env) as [[|]|err] eqn:Ex; simpl.
    + destruct (evalValid_loop env invs) as [[|]|err].
      * intros [|i] e H; simpl in H; [inversion H; subst; exact Ex|eauto].
      * destruct IH as (i & e & Hi & He & Hlt). exists (S i), e.
        split; [exact Hi|]. split; [exact He|].
        intros [|j] e' Hj He'; simpl in He'; [inversion He'; subst; exact Ex|].
        eapply Hlt; [|exact He']. lia.
      * destruct IH as (i & e & Hi & He & Hlt). exists (S i), e.
        split; [exact Hi|]. split; [exact He|].
        intros [|j] e' Hj He'; simpl in He'; [inversion He'; subst; exact Ex|].
        eapply Hlt; [|exact He']. lia.
    + exists 0%nat, x. split; [reflexivity|]. split; [exact Ex|]. intros; lia.
    + exists 0%nat, x. split; [reflexivity|]. split; [exact Ex|]. intros; lia.
Qed.

(** X14. [evalValid] is the conjunction of the invariants, evaluated in
    order up to the first one that is false or fails: it returns true
    exactly when every invariant evaluates to true, false exactly when
    some invariant evaluates to false and all the ones before it to true,
    and the error of an invariant exactly when all the ones before it
    evaluate to true.  Invariants after the first false one are not
    evaluated. *)
Theorem evalValid_conjunction (cr : CompiledRegistry) (st : State) :
  (evalValid cr st = Ok true <->
   forall i, (i < length (InvExprs cr))%nat -> holds_at cr st i) /\
  (evalValid cr st = Ok false <-> exists i, first_violated cr st i) /\
  (forall err,
     evalValid cr st = Err err <->
     exists i e, InvExprs cr !! i = Some e /\
                 EvalBool e (makeEnv cr st) = Err err /\
                 forall j, (j < i)%nat -> holds_at cr st j).
Proof.
  unfold evalValid, first_violated, violated_at, holds_at.
  pose proof (evalValid_loop_cases (makeEnv cr st) (InvExprs cr)) as Hc.
  assert (Hex : forall i e r,
            InvExprs cr !! i = Some e -> EvalBool e (makeEnv cr st) = r ->
            r <> Ok true ->
            (forall j, (j < i)%nat ->
               exists e', InvExprs cr !! j = Some e' /\
                          EvalBool e' (makeEnv cr st) = Ok true) ->
            evalValid_loop (makeEnv cr st) (InvExprs cr) = r).
  { intros i e r Hi He Hr Hlt.
    destruct (evalValid_loop (makeEnv cr st) (InvExprs cr)) as [[|]|err].
    - rewrite (Hc i e Hi) in He. congruence.
    - destruct Hc as (i' & e' & Hi' & He' & Hlt').
      destruct (Nat.lt_trichotomy i i') as [Hl|[->|Hl]].
      + rewrite (Hlt' i e Hl Hi) in He. congruence.
      + congruence.
      + destruct (Hlt i' Hl) as (e'' & Hi'' & He''). congruence.
    - destruct Hc as (i' & e' & Hi' & He' & Hlt').
      destruct (Nat.lt_trichotomy i i') as [Hl|[->|Hl]].
      + rewrite (Hlt' i e Hl Hi) in He. congruence.
      + congruence.
      + destruct (Hlt i' Hl) as (e'' & Hi'' & He''). congruence. }
  split; [|split].
  - split.
    + intros H. rewrite H in Hc. intros i Hi.
      destruct (lookup_lt_is_Some_2 _ _ Hi) as [e He]. exists e. eauto.
    + intros H.
      destruct (evalValid_loop (makeEnv cr st) (InvExprs cr)) as [[|]|err]; [reflexivity| |].
      * destruct Hc as (i & e & Hi & He & _).
        destruct (H i (lookup_lt_Some _ _ _ Hi)) as (e' & Hi' & He'). congruence.
      * destruct Hc as (i & e & Hi & He & _).
        destruct (H i (lookup_lt_Some _ _ _ Hi)) as (e' & Hi' & He'). congruence.
  - split.
    + intros H. rewrite H in Hc. destruct Hc as (i & e & Hi & He & Hlt).
      exists i. split; [eauto|]. intros j Hj.
      destruct (lookup_lt_is_Some_2 (InvExprs cr) j) as [e' He'].
      { apply lookup_lt_Some in Hi. lia. }
      exists e'. eauto.
    + intros (i & (e & Hi & He) & Hlt). eapply Hex; eauto; discriminate.
  - intros err. split.
    + intros H. rewrite H in Hc. destruct Hc as (i & e & Hi & He & Hlt).
      exists i, e. split; [exact Hi|]. split; [exact He|]. intros j Hj.
      destruct (lookup_lt_is_Some_2 (InvExprs cr) j) as [e' He'].
      { apply lookup_lt_Some in Hi. lia. }
      exists e'. eauto.
    + intros (i & e & Hi & He & Hlt). eapply Hex; eauto; discriminate.
Qed.

(** X15. The normal-form table of a successful [BuildTables]: every entry
    [NF[s]] is a state ID of the space, is valid, and is its own normal
    form; and [s] is valid exactly when [NF[s] = s]. *)
Theorem NF_table_idempotent (cr0 cr : CompiledRegistry) :
  BuildTables cr0 = Ok cr ->
  forall s, 0 <= s < sch_TotalLen (cr_Schema cr) ->
    exists nf,
      elemZ (NF cr) s = Ok nf /\
      0 <= nf < sch_TotalLen (cr_Schema cr) /\
      elemZ (Valid cr) nf = Ok true /\
      elemZ (NF cr) nf = Ok nf /\
      (elemZ (Valid cr) s = Ok true <-> nf = s).
Proof.
  intros Hb s Hs. apply BuildTables_built in Hb as [Hb _].
  pose proof Hb as (H0 & Hlv & Hln & _ & _ & Hn & _).
  destruct (Hn s Hs) as (nf & Hc & Hnf). exists nf.
  destruct (NF_entry cr s nf Hb Hnf) as (_ & _ & Hr & Hv).
  split; [exact Hnf|]. split; [exact Hr|]. split; [exact Hv|]. split.
  - destruct (Hn nf Hr) as (x & Hx & Hx').
    rewrite (computeNF_valid_fixed cr nf Hv) in Hx. inversion Hx; subst. exact Hx'.
  - split.
    + intros Hvs. rewrite (computeNF_valid_fixed cr s Hvs) in Hc. congruence.
    + intros <-. exact Hv.
Qed.

(** The statement at state 1 of the permissions registry. *)
Lemma NF_table_idempotent_witness :
  exists nf,
    elemZ (NF permissions_cr) 1 = Ok nf /\
    0 <= nf < sch_TotalLen (cr_Schema permissions_cr) /\
    elemZ (Valid permissions_cr) nf = Ok true /\
    elemZ (NF permissions_cr) nf = Ok nf /\
    (elemZ (Valid permissions_cr) 1 = Ok true <-> nf = 1).
Proof.
  apply (NF_table_idempotent (compiled permissions) permissions_cr).
  - vm_compute. reflexivity.
  - vm_compute. split; [discriminate|reflexivity].
Defined.

(** X16. The step table of a successful [BuildTables]: where the guard of
    the event holds, [Step[e][s]] is the normal form of the encoding of
    the state the event's assignments produce from the decoding of [s];
    it is a valid state ID of the space and its own normal form.
    Otherwise the entry is -1. *)
Theorem Step_table_entries (cr0 cr : CompiledRegistry) (ei : nat) (evt : Event) :
  BuildTables cr0 = Ok cr ->
  reg_Events (Reg cr) !! ei = Some evt ->
  forall s, 0 <= s < sch_TotalLen (cr_Schema cr) ->
    exists row x st,
      Step cr !! ei = Some row /\ elemZ row s = Ok x /\
      Decode (cr_Schema cr) s = Ok st /\
      ((evalGuard cr ei st = Ok false /\ x = -1) \/
       (evalGuard cr ei st = Ok true /\
        exists post postID,
          applyEvent cr ei st = Ok post /\
          Encode (cr_Schema cr) post = Ok postID /\
          elemZ (NF cr) postID = Ok x /\
          0 <= x < sch_TotalLen (cr_Schema cr) /\
          elemZ (Valid cr) x = Ok true /\
          elemZ (NF cr) x = Ok x)).
Proof.
  intros Hb He s Hs. apply BuildTables_built in Hb as [Hb _].
  pose proof Hb as (H0 & Hlv & Hln & _ & _ & Hn & Hst).
  destruct (Hst ei evt He) as (row & Hrow & Hlr & Hcells).
  destruct (Hcells s Hs) as (x & Hcell & Hx).
  apply Step_cell_Ok in Hcell as (st & enabled & Hd & Hg & Hen).
  exists row, x, st. split; [exact Hrow|]. split; [exact Hx|]. split; [exact Hd|].
  destruct enabled.
  - right. split; [exact Hg|].
    destruct Hen as (post & postID & Ha & Henc & Hnf).
    exists post, postID. split; [exact Ha|]. split; [exact Henc|]. split; [exact Hnf|].
    destruct (NF_entry cr postID x Hb Hnf) as (_ & _ & Hr & Hv).
    split; [exact Hr|]. split; [exact Hv|].
    destruct (Hn x Hr) as (y & Hy & Hy').
    rewrite (computeNF_valid_fixed cr x Hv) in Hy. inversion Hy; subst. exact Hy'.
  - left. auto.
Qed.

(** The statement at the event [inc] of the counter registry and the
    state [n = 2]. *)
Lemma Step_table_entries_witness :
    exists row x st,
      Step counter_cr !! 0%nat = Some row /\ elemZ row 2 = Ok x /\
      Decode (cr_Schema counter_cr) 2 = Ok st /\
      ((evalGuard counter_cr 0 st = Ok false /\ x = -1) \/
       (evalGuard counter_cr 0 st = Ok true /\
        exists post postID,
          applyEvent counter_cr 0 st = Ok post /\
          Encode (cr_Schema counter_cr) post = Ok postID /\
          elemZ (NF counter_cr) postID = Ok x /\
          0 <= x < sch_TotalLen (cr_Schema counter_cr) /\
          elemZ (Valid counter_cr) x = Ok true /\
          elemZ (NF counter_cr) x = Ok x)).
Proof.
  apply (Step_table_entries (compiled counter) counter_cr 0
           (mkEvent "inc" "n < 3" {[ "n" := "n + 1" ]})).
  - vm_compute. reflexivity.
  - vm_compute. reflexivity.
  - vm_compute. split; [discriminate|reflexivity].
Defined.

(** ** CheckWFC after BuildTables *)

Lemma repairDepth_loop_counts cr k cur r :
  repairs_to cr k cur r ->
  elemZ (Valid cr) r = Ok true ->
  forall iters depth, (k < iters)%nat ->
    repairDepth_loop cr iters depth cur = Ok (depth + Z.of_nat k).
Proof.
  induction 1 as [s|k s s' r Hf Hr IH]; intros Hv iters depth Hk.
  - destruct iters; [lia|]. simpl. rewrite Hv. simpl. f_equal. lia.
  - destruct iters; [lia|]. simpl.
    destruct Hf as (Hs & st & i & newSt & Hd & Hfv & Ha & He).
    rewrite Hs. simpl. rewrite Hd. simpl.
    pose proof (computeNF_scan_first cr st i newSt s' Hfv Ha He i O eq_refl) as Hscan.
    rewrite drop_0 in Hscan.
    rewrite (repairDepth_scan_agrees _ _ _ _ _ _ Hscan). simpl.
    rewrite (IH Hv iters (depth + 1)) by lia. f_equal. lia.
Qed.

Lemma tables_built_depth cr s :
  tables_built cr -> 0 <= s < sch_TotalLen (cr_Schema cr) ->
  exists k nf,
    elemZ (NF cr) s = Ok nf /\ (k < MaxRepairIter)%nat /\ repairs_to cr k s nf /\
    repairDepth cr s = Ok (Z.of_nat k).
Proof.
  intros Hb Hs. pose proof Hb as (_ & _ & _ & _ & _ & Hn & _).
  destruct (Hn s Hs) as (nf & Hc & Hnf).
  apply (computeNF_loop_sound cr (tables_built_Valid cr Hb)) in Hc as (k & Hk & Hr & Hv).
  exists k, nf. split; [exact Hnf|]. split; [exact Hk|]. split; [exact Hr|].
  unfold repairDepth. rewrite (repairDepth_loop_counts cr k s nf Hr Hv) by exact Hk.
  reflexivity.
Qed.

Lemma CheckWFC_depth_max cr bound :
  forall count sid m0,
    (forall j, (j < count)%nat ->
       exists d, repairDepth cr (sid + Z.of_nat j) = Ok d /\ 0 <= d <= bound) ->
    0 <= m0 <= bound ->
    exists m,
      CheckWFC_depth cr sid count m0 = Ok (inl m) /\ m0 <= m <= bound /\
      (forall j d, (j < count)%nat -> repairDepth cr (sid + Z.of_nat j) = Ok d -> d <= m) /\
      (m = m0 \/ exists j, (j < count)%nat /\ repairDepth cr (sid + Z.of_nat j) = Ok m).
Proof.
  induction count as [|count IH]; intros sid m0 H Hm0; simpl.
  - exists m0. split; [reflexivity|]. split; [lia|]. split; [intros; lia|auto].
  - destruct (H O ltac:(lia)) as (d & Hd & Hdb).
    change (Z.of_nat 0) with 0 in Hd. rewrite Z.add_0_r in Hd. rewrite Hd.
    set (m1 := if d >? m0 then d else m0).
    assert (Hm1 : 0 <= m1 <= bound /\ m0 <= m1 /\ d <= m1 /\ (m1 = m0 \/ m1 = d)).
    { unfold m1. rewrite Z.gtb_ltb.
      destruct (m0 <? d) eqn:E; [apply Z.ltb_lt in E|apply Z.ltb_ge in E]; lia. }
    destruct (IH (sid + 1) m1) as (m & Hm & Hb & Hall & Hatt).
    { intros j Hj. replace (sid + 1 + Z.of_nat j) with (sid + Z.of_nat (S j)) by lia.
      apply H. lia. }
    { lia. }
    exists m. split; [exact Hm|]. split; [lia|]. split.
    + intros [|j] d' Hj Hd'.
      * change (Z.of_nat 0) with 0 in Hd'. rewrite Z.add_0_r in Hd'.
        assert (d' = d) by congruence. lia.
      * apply (Hall j d'); [lia|].
        replace (sid + 1 + Z.of_nat j) with (sid + Z.of_nat (S j)) by lia. exact Hd'.
    + destruct Hatt as [->|(j & Hj & Hjd)].
      * destruct Hm1 as (_ & _ & _ & [->| ->]); [auto|].
        right. exists O. split; [lia|].
        change (Z.of_nat 0) with 0. rewrite Z.add_0_r. exact Hd.
      * right. exists (S j). split; [lia|].
        replace (sid + Z.of_nat (S j)) with (sid + 1 + Z.of_nat j) by lia. exact Hjd.
Qed.

(** X17. After a successful [BuildTables], [CheckWFC] always reports PASS,
    with no diagnostic and no error: a violation of either WFC condition
    has already made [BuildTables] fail.  For every state, [repairDepth]
    is the number of firings that lead from it to its normal form, and
    the reported maximum depth is the largest of these numbers; it is
    below [MaxRepairIter]. *)
Theorem CheckWFC_after_BuildTables (cr0 cr : CompiledRegistry) :
  BuildTables cr0 = Ok cr ->
  exists maxDepth,
    CheckWFC cr = Ok (true, maxDepth, None, None) /\
    0 <= maxDepth < Z.of_nat MaxRepairIter /\
    (forall s, 0 <= s < sch_TotalLen (cr_Schema cr) ->
       exists k nf,
         elemZ (NF cr) s = Ok nf /\ repairs_to cr k s nf /\
         repairDepth cr s = Ok (Z.of_nat k) /\ Z.of_nat k <= maxDepth) /\
    (maxDepth = 0 \/
     exists s, 0 <= s < sch_TotalLen (cr_Schema cr) /\ repairDepth cr s = Ok maxDepth).
Proof.
  intros Hb. apply BuildTables_built in Hb as [Hb _].
  pose proof Hb as (H0 & _).
  set (n := sch_TotalLen (cr_Schema cr)) in *.
  unfold CheckWFC. fold n.
  assert (Hscan : CheckWFC_scan cr 0 (Z.to_nat n) = Ok None).
  { apply CheckWFC_scan_None. intros k Hk. apply tables_built_wfc_at; [exact Hb|].
    fold n. lia. }
  rewrite Hscan. simpl.
  destruct (CheckWFC_depth_max cr (Z.of_nat MaxRepairIter - 1) (Z.to_nat n) 0 0)
    as (m & Hm & Hmb & Hall & Hatt).
  { intros j Hj.
    destruct (tables_built_depth cr (0 + Z.of_nat j) Hb) as (k & nf & _ & Hk & _ & Hd).
    { fold n. lia. }
    exists (Z.of_nat k). split; [exact Hd|]. lia. }
  { unfold MaxRepairIter. lia. }
  exists m. rewrite Hm. simpl. split; [reflexivity|]. split; [lia|]. split.
  - intros s Hs.
    destruct (tables_built_depth cr s Hb Hs) as (k & nf & Hnf & Hk & Hr & Hd).
    exists k, nf. split; [exact Hnf|]. split; [exact Hr|]. split; [exact Hd|].
    apply (Hall (Z.to_nat s)); [lia|].
    replace (0 + Z.of_nat (Z.to_nat s)) with s by lia. exact Hd.
  - destruct Hatt as [->|(j & Hj & Hjd)]; [auto|].
    right. exists (0 + Z.of_nat j). split; [lia|exact Hjd].
Qed.

(** The statement at the permissions registry. *)
Lemma CheckWFC_after_BuildTables_witness :
  exists maxDepth,
    CheckWFC permissions_cr = Ok (true, maxDepth, None, None) /\
    0 <= maxDepth < Z.of_nat MaxRepairIter /\
    (forall s, 0 <= s < sch_TotalLen (cr_Schema permissions_cr) ->
       exists k nf,
         elemZ (NF permissions_cr) s = Ok nf /\ repairs_to permissions_cr k s nf /\
         repairDepth permissions_cr s = Ok (Z.of_nat k) /\ Z.of_nat k <= maxDepth) /\
    (maxDepth = 0 \/
     exists s, 0 <= s < sch_TotalLen (cr_Schema permissions_cr) /\
               repairDepth permissions_cr s = Ok maxDepth).
Proof.
  apply (CheckWFC_after_BuildTables (compiled permissions) permissions_cr).
  vm_compute. reflexivity.
Defined.

(** ** CC2 *)

Lemma CC2_states_None cr ei :
  forall count sid,
    CheckCC_CC2_states cr ei sid count = Ok None <->
    forall k, (k < count)%nat -> cc2_at cr ei (sid + Z.of_nat k).
Proof.
  induction count as [|count IH]; intros sid; simpl.
  - split; [intros _ k Hk; lia|reflexivity].
  - unfold elem. split.
    + intros H.
      destruct (Step cr !! ei) as [row|] eqn:Erow; simpl in H; [|discriminate].
      destruct (elemZ row sid) as [stepRaw|] eqn:Es; simpl in H; [|discriminate].
      assert (Hhere : cc2_at cr ei sid /\ CheckCC_CC2_states cr ei (sid + 1) count = Ok None).
      { destruct (stepRaw =? -1) eqn:Ea.
        { apply Z.eqb_eq in Ea. split; [|exact H].
          exists row, stepRaw. auto. }
        destruct (elemZ (NF cr) sid) as [nfID|] eqn:En; simpl in H; [|discriminate].
        destruct (elemZ row nfID) as [stepNF|] eqn:Esn; simpl in H; [|discriminate].
        destruct (stepNF =? -1) eqn:Eb.
        { apply Z.eqb_eq in Eb. split; [|exact H].
          exists row, stepRaw. split; [auto|]. split; [auto|]. right.
          exists nfID, stepNF. auto. }
        destruct (stepRaw =? stepNF) eqn:Ec; simpl in H.
        { apply Z.eqb_eq in Ec. split; [|exact H].
          exists row, stepRaw. split; [auto|]. split; [auto|]. right.
          exists nfID, stepNF. auto. }
        exfalso.
        destruct (Decode (cr_Schema cr) sid); simpl in H; [|discriminate].
        destruct (Decode (cr_Schema cr) nfID); simpl in H; [|discriminate].
        destruct (reg_Events (Reg cr) !! ei); simpl in H; [|discriminate].
        destruct (Decode (cr_Schema cr) stepRaw); simpl in H; [|discriminate].
        destruct (Decode (cr_Schema cr) stepNF); discriminate. }
      destruct Hhere as [Hh Hrest]. intros [|k] Hk.
      * rewrite Z.add_0_r. exact Hh.
      * replace (sid + Z.of_nat (S k)) with (sid + 1 + Z.of_nat k) by lia.
        apply (proj1 (IH (sid + 1)) Hrest). lia.
    + intros H.
      assert (Hrest : CheckCC_CC2_states cr ei (sid + 1) count = Ok None).
      { apply IH. intros k Hk.
        replace (sid + 1 + Z.of_nat k) with (sid + Z.of_nat (S k)) by lia.
        apply H. lia. }
      destruct (H O ltac:(lia)) as (row & stepRaw & Hrow & Hs & Hc).
      change (Z.of_nat 0) with 0 in *. rewrite Z.add_0_r in Hs, Hc.
      rewrite Hrow. simpl. rewrite Hs. simpl.
      destruct (stepRaw =? -1) eqn:Ea; [exact Hrest|]. apply Z.eqb_neq in Ea.
      destruct Hc as [?|(nfID & stepNF & Hn & Hsn & Hc)]; [contradiction|].
      rewrite Hn. simpl. rewrite Hsn. simpl.
      destruct (stepNF =? -1) eqn:Eb; [exact Hrest|]. apply Z.eqb_neq in Eb.
      destruct Hc as [? | ->]; [contradiction|].
      rewrite Z.eqb_refl. simpl. exact Hrest.
Qed.

Lemma CC2_events_None cr :
  tables_built cr ->
  forall count ei,
    (ei + count <= length (reg_Events (Reg cr)))%nat ->
    exists o,
      CheckCC_CC2_events cr ei count = Ok o /\
      (o = None <->
       forall j s, (ei <= j < ei + count)%nat ->
                   0 <= s < sch_TotalLen (cr_Schema cr) -> cc2_at cr j s).
Proof.
  intros Hb. pose proof Hb as (H0 & _).
  induction count as [|count IH]; intros ei Hle; simpl.
  - exists None. split; [reflexivity|]. split; [intros _ j s Hj; lia|reflexivity].
  - destruct (lookup_lt_is_Some_2 (reg_Events (Reg cr)) ei ltac:(lia)) as [evt Hevt].
    destruct (CC2_states_total cr ei evt Hb Hevt
                (Z.to_nat (sch_TotalLen (cr_Schema cr))) 0 ltac:(lia)) as (o & Ho); [lia|].
    rewrite Ho. simpl. destruct o as [f|].
    + exists (Some f). split; [reflexivity|]. split; [discriminate|].
      intros H. exfalso.
      assert (Hn : CheckCC_CC2_states cr ei 0 (Z.to_nat (sch_TotalLen (cr_Schema cr)))
                   = Ok None).
      { apply CC2_states_None. intros k Hk. apply H; lia. }
      congruence.
    + pose proof (proj1 (CC2_states_None cr ei _ _) Ho) as Ho1. clear Ho.
      rename Ho1 into Ho.
      destruct (IH (S ei) ltac:(lia)) as (o' & Ho' & Hiff).
      exists o'. split; [exact Ho'|]. rewrite Hiff. split.
      * intros H j s Hj Hs. destruct (decide (j = ei)) as [->|Hne].
        -- replace s with (0 + Z.of_nat (Z.to_nat s)) by lia. apply Ho. lia.
        -- apply H; [lia|exact Hs].
      * intros H j s Hj Hs. apply H; [lia|exact Hs].
Qed.

(** X18. On a registry whose tables [BuildTables] has built, the CC2
    verdict of [CheckCC] is PASS exactly when, for every event [e] and
    every state ID [s], the CC2 condition holds: the state is skipped if
    [Step[e][s]] is -1 or if [Step[e][NF[s]]] is -1, and otherwise the two
    entries are equal.  A counterexample is recorded exactly when the
    verdict is FAIL, and the overall verdict is the conjunction of the CC1
    and CC2 verdicts. *)
Theorem CheckCC_CC2_pass_iff (cr0 cr : CompiledRegistry) (sets : list evtSets) :
  BuildTables cr0 = Ok cr ->
  mapM_from (CheckCC_sets cr) 0 (reg_Events (Reg cr)) = Ok sets ->
  exists result,
    CheckCC cr = Ok result /\
    (CC2Pass result = true <->
     forall e s, (e < length (reg_Events (Reg cr)))%nat ->
                 0 <= s < sch_TotalLen (cr_Schema cr) -> cc2_at cr e s) /\
    (CC2Pass result = true <-> CC2Fail result = None) /\
    (CC1Pass result = true <-> CC1Fail result = None) /\
    CCPass result = CC1Pass result && CC2Pass result.
Proof.
  intros Hbt Hm. apply BuildTables_built in Hbt as (Hb & _).
  pose proof (proj1 (mapM_from_Ok _ _ _ _) Hm) as [Hlen _].
  unfold CheckCC. rewrite Hm. simpl. rewrite <- Hlen.
  set (result0 := {| CCPass := false; CC1Pass := true; CC2Pass := false;
                     PairsChecked := 0; DependentSkipped := 0;
                     CC1Fail := None; CC2Fail := None |}).
  assert (Hfail : forall count e1 r r',
            (CC1Pass r = true <-> CC1Fail r = None) ->
            CheckCC_CC1_outer cr sets (length sets) e1 count r = Ok r' ->
            (CC1Pass r' = true <-> CC1Fail r' = None)).
  { assert (Hin : forall count e1 e2 r r',
              (CC1Pass r = true <-> CC1Fail r = None) ->
              CheckCC_CC1_inner cr sets e1 e2 count r = Ok r' ->
              (CC1Pass r' = true <-> CC1Fail r' = None)).
    { induction count as [|count IHc]; intros e1 e2 r r' Hr H; simpl in H.
      - inversion H; subst; exact Hr.
      - destruct (negb (CC1Pass r)); [inversion H; subst; exact Hr|].
        destruct (isIndependent sets e1 e2) as [indep|]; simpl in H; [|discriminate].
        destruct (negb indep).
        + eapply IHc; [|exact H]. exact Hr.
        + destruct (CheckCC_CC1_states cr e1 e2 0 _) as [[f|]|]; simpl in H;
            [| |discriminate].
          * eapply IHc; [|exact H]. simpl. split; discriminate.
          * eapply IHc; [|exact H]. exact Hr. }
    induction count as [|count IHc]; intros e1 r r' Hr H; simpl in H.
    - inversion H; subst; exact Hr.
    - destruct (negb (CC1Pass r)); [inversion H; subst; exact Hr|].
      destruct (CheckCC_CC1_inner cr sets e1 (S e1) _ r) as [r1|] eqn:E1; simpl in H;
        [|discriminate].
      eapply IHc; [|exact H]. eapply Hin; [|exact E1]. exact Hr. }
  destruct (CC1_outer_spec cr sets Hb Hlen (length sets) 0 result0 0 0
              ltac:(lia) eq_refl eq_refl) as (r1 & Hr1 & _).
  rewrite Hr1. simpl.
  destruct (CC2_events_None cr Hb (length sets) 0 ltac:(lia)) as (o2 & Ho2 & Hiff2).
  rewrite Ho2. simpl. eexists. split; [reflexivity|]. simpl.
  split; [|split; [|split; [|reflexivity]]].
  - destruct o2 as [f|].
    + split; [discriminate|]. intros H. exfalso.
      assert (Some f = None); [|discriminate].
      apply Hiff2. intros j s Hj Hs. apply H; [lia|exact Hs].
    + split; [|reflexivity]. intros _ e s He Hs.
      apply (proj1 Hiff2 eq_refl); [lia|exact Hs].
  - destruct o2; split; intros; try reflexivity; discriminate.
  - eapply Hfail; [|exact Hr1]. simpl. split; reflexivity.
Qed.

(** The statement at the permissions registry. *)
Lemma CheckCC_CC2_pass_iff_witness :
  exists result,
    CheckCC permissions_cr = Ok result /\
    (CC2Pass result = true <->
     forall e s, (e < length (reg_Events (Reg permissions_cr)))%nat ->
                 0 <= s < sch_TotalLen (cr_Schema permissions_cr) ->
                 cc2_at permissions_cr e s) /\
    (CC2Pass result = true <-> CC2Fail result = None) /\
    (CC1Pass result = true <-> CC1Fail result = None) /\
    CCPass result = CC1Pass result && CC2Pass result.
Proof.
  apply (CheckCC_CC2_pass_iff (compiled permissions) permissions_cr permissions_sets).
  - vm_compute. reflexivity.
  - vm_compute. reflexivity.
Defined.

(** ** Order of a pair, statistics, degenerate registries *)

(** X19. The order of a pair of events is immaterial, which is why
    [CheckCC] visits only the pairs with [e1 < e2]: [isIndependent] gives
    the same answer for [(e1, e2)] and [(e2, e1)], and the CC1 condition
    at a state holds for one order exactly when it holds for the other.
    An event that writes some variable is never independent of itself. *)
Theorem pair_order_immaterial (cr : CompiledRegistry) (sets : list evtSets)
    (e1 e2 : nat) (s : StateID) :
  isIndependent sets e1 e2 = isIndependent sets e2 e1 /\
  (cc1_at cr e1 e2 s <-> cc1_at cr e2 e1 s) /\
  (forall a w, sets !! e1 = Some a -> w ∈ writes a ->
               isIndependent sets e1 e1 = Ok false).
Proof.
  split; [|split].
  - unfold isIndependent, elem.
    destruct (sets !! e1) as [a|], (sets !! e2) as [b|]; simpl; try reflexivity.
    f_equal. apply andb_comm.
  - split; apply cc1_at_sym.
  - intros a w Ha Hw. unfold isIndependent, elem. rewrite Ha. simpl. f_equal.
    assert (Hf : forallb (fun w0 => negb (touches a w0)) (elements (writes a)) = false).
    { apply not_true_is_false. intros Hall. rewrite forallb_forall in Hall.
      assert (Hin : In w (elements (writes a))).
      { apply list_elem_of_In, elem_of_elements. exact Hw. }
      specialize (Hall w Hin). unfold touches in Hall.
      rewrite (bool_decide_eq_true_2 _ Hw) in Hall. discriminate. }
    rewrite Hf. reflexivity.
Qed.

Lemma Stats_loop_counts cr :
  forall count sid v i,
    0 <= sid -> (Z.to_nat sid + count <= length (Valid cr))%nat ->
    0 <= v -> 0 <= i -> v + i + Z.of_nat count <= MaxInt ->
    exists v' i',
      Stats_loop cr sid count v i = Ok (v', i') /\
      v' = v + count_true (take count (drop (Z.to_nat sid) (Valid cr))) /\
      v' + i' = v + i + Z.of_nat count /\ v <= v' /\ i <= i'.
Proof.
  unfold MaxInt.
  induction count as [|count IH]; intros sid v i Hsid Hlen Hv Hi Hmax; simpl.
  - exists v, i. split; [reflexivity|]. unfold count_true. simpl. lia.
  - destruct (lookup_lt_is_Some_2 (Valid cr) (Z.to_nat sid) ltac:(lia)) as [b Hb].
    assert (He : elemZ (Valid cr) sid = Ok b) by (apply elemZ_Ok; auto).
    rewrite He. simpl. rewrite (drop_S _ _ _ Hb).
    replace (S (Z.to_nat sid)) with (Z.to_nat (sid + 1)) by lia.
    destruct b.
    + rewrite wrap_small by (unfold MinInt, MaxInt; lia).
      destruct (IH (sid + 1) (v + 1) i) as (v' & i' & Hr & Hv' & Hsum & Hle1 & Hle2);
        try lia.
      exists v', i'. split; [exact Hr|]. unfold count_true in *. simpl.
      rewrite Hv'. lia.
    + rewrite wrap_small by (unfold MinInt, MaxInt; lia).
      destruct (IH (sid + 1) v (i + 1)) as (v' & i' & Hr & Hv' & Hsum & Hle1 & Hle2);
        try lia.
      exists v', i'. split; [exact Hr|]. unfold count_true in *. simpl.
      rewrite Hv'. lia.
Qed.

(** X20. On a compiled registry whose tables are built, [Stats] does not
    panic; the first count is the number of valid states, and the two
    counts add up to the size of the state space. *)
Theorem Stats_counts (reg : Registry) (cr0 cr : CompiledRegistry) :
  Compile reg = Ok cr0 ->
  BuildTables cr0 = Ok cr ->
  exists validCount invalidCount,
    Stats cr = Ok (validCount, invalidCount) /\
    validCount = count_true (Valid cr) /\
    validCount + invalidCount = sch_TotalLen (cr_Schema cr) /\
    0 <= validCount /\ 0 <= invalidCount.
Proof.
  intros Hc Hb. apply BuildTables_built in Hb as (Hb & _ & Hs & _).
  apply Compile_Ok in Hc as (_ & _ & Hmax & _). rewrite <- Hs in Hmax.
  pose proof Hb as (H0 & Hlv & _).
  unfold Stats.
  destruct (Stats_loop_counts cr (Z.to_nat (sch_TotalLen (cr_Schema cr))) 0 0 0)
    as (v' & i' & Hr & Hv' & Hsum & Hle1 & Hle2); try lia.
  { unfold MaxStates, MaxInt in *. lia. }
  exists v', i'. split; [exact Hr|]. split; [|lia].
  rewrite Hv'. simpl. rewrite drop_0, <- Hlv, firstn_all. reflexivity.
Qed.

(** The statement at the permissions registry. *)
Lemma Stats_counts_witness :
  exists validCount invalidCount,
    Stats permissions_cr = Ok (validCount, invalidCount) /\
    validCount = count_true (Valid permissions_cr) /\
    validCount + invalidCount = sch_TotalLen (cr_Schema permissions_cr) /\
    0 <= validCount /\ 0 <= invalidCount.
Proof.
  apply (Stats_counts permissions (compiled permissions) permissions_cr).
  - vm_compute. reflexivity.
  - vm_compute. reflexivity.
Defined.

(** X21. A registry without invariants: after [BuildTables] every state
    is valid and is its own normal form, at repair depth 0. *)
Theorem no_invariants_all_valid (cr0 cr : CompiledRegistry) :
  BuildTables cr0 = Ok cr ->
  InvExprs cr0 = [] ->
  forall s, 0 <= s < sch_TotalLen (cr_Schema cr) ->
    elemZ (Valid cr) s = Ok true /\ elemZ (NF cr) s = Ok s /\
    repairDepth cr s = Ok 0.
Proof.
  intros Hb Hinv s Hs. apply BuildTables_built in Hb as (Hb & _ & _ & _ & Hi & _).
  rewrite <- Hi in Hinv.
  pose proof Hb as (_ & _ & _ & _ & Hv & Hn & _).
  destruct (Hv s Hs) as (st & b & _ & Hb' & Hvs).
  unfold evalValid in Hb'. rewrite Hinv in Hb'. simpl in Hb'. inversion Hb'; subst b.
  split; [exact Hvs|]. split.
  - destruct (Hn s Hs) as (nf & Hc & Hnf).
    rewrite (computeNF_valid_fixed cr s Hvs) in Hc. congruence.
  - unfold repairDepth. simpl. rewrite Hvs. reflexivity.
Qed.

(** The statement at state 2 of a registry of one integer variable with
    three values. *)
Lemma no_invariants_all_valid_witness :
  elemZ (Valid (built (one_int 3))) 2 = Ok true /\
  elemZ (NF (built (one_int 3))) 2 = Ok 2 /\
  repairDepth (built (one_int 3)) 2 = Ok 0.
Proof.
  apply (no_invariants_all_valid (compiled (one_int 3)) (built (one_int 3))).
  - vm_compute. reflexivity.
  - vm_compute. reflexivity.
  - vm_compute. split; [discriminate|reflexivity].
Defined.

Lemma CheckWFC_built cr :
  tables_built cr ->
  exists maxDepth,
    CheckWFC cr = Ok (true, maxDepth, None, None) /\
    0 <= maxDepth < Z.of_nat MaxRepairIter.
Proof.
  intros Hb. pose proof Hb as (H0 & _).
  set (n := sch_TotalLen (cr_Schema cr)) in *.
  unfold CheckWFC. fold n.
  assert (Hscan : CheckWFC_scan cr 0 (Z.to_nat n) = Ok None).
  { apply CheckWFC_scan_None. intros k Hk. apply tables_built_wfc_at; [exact Hb|].
    fold n. lia. }
  rewrite Hscan. simpl.
  destruct (CheckWFC_depth_max cr (Z.of_nat MaxRepairIter - 1) (Z.to_nat n) 0 0)
    as (m & Hm & Hmb & _).
  { intros j Hj.
    destruct (tables_built_depth cr (0 + Z.of_nat j) Hb) as (k & nf & _ & Hk & _ & Hd).
    { fold n. lia. }
    exists (Z.of_nat k). split; [exact Hd|]. lia. }
  { unfold MaxRepairIter. lia. }
  exists m. rewrite Hm. simpl. split; [reflexivity|lia].
Qed.

Lemma CheckCC_CCPass cr cc :
  CheckCC cr = Ok cc -> CCPass cc = CC1Pass cc && CC2Pass cc.
Proof.
  unfold CheckCC. intros H.
  destruct (mapM_from (CheckCC_sets cr) 0 (reg_Events (Reg cr))) as [sets|];
    simpl in H; [|discriminate].
  destruct (CheckCC_CC1_outer cr sets _ 0 _ _) as [r1|]; simpl in H; [|discriminate].
  destruct (CheckCC_CC2_events cr 0 _) as [o|]; simpl in H; [|discriminate].
  inversion H; subst. reflexivity.
Qed.

(** X22. What a run reports.  A run that reaches the report always shows
    WFC as PASS, with a depth below [MaxRepairIter] and no diagnostic; the
    error exit under the WFC header is never taken: a registry that
    violates WFC ends in a table-build error instead.  The exit status is
    0 exactly when the run reaches the report and CC1 and CC2 both
    pass. *)
Theorem main_report (reg : Registry) :
  (forall wfcPass maxDepth badState cc,
     main reg = Report wfcPass maxDepth badState cc ->
     wfcPass = true /\ badState = None /\
     0 <= maxDepth < Z.of_nat MaxRepairIter /\
     CCPass cc = CC1Pass cc && CC2Pass cc) /\
  (forall e, main reg <> WFCError e) /\
  (exit_status (main reg) = 0 <->
   exists maxDepth cc,
     main reg = Report true maxDepth None cc /\
     CC1Pass cc = true /\ CC2Pass cc = true).
Proof.
  unfold main.
  destruct (Compile reg) as [cr0|e0] eqn:Ec.
  2:{ split; [|split].
      - intros ? ? ? ? H. destruct e0; discriminate.
      - intros e H. destruct e0; discriminate.
      - split.
        + intros H. destruct e0; discriminate.
        + intros (d & cc & H & _). destruct e0; discriminate. }
  destruct (BuildTables cr0) as [cr|e1] eqn:Eb.
  2:{ split; [|split].
      - intros ? ? ? ? H. destruct e1; discriminate.
      - intros e H. destruct e1; discriminate.
      - split.
        + intros H. destruct e1; discriminate.
        + intros (d & cc & H & _). destruct e1; discriminate. }
  apply BuildTables_built in Eb as (Hb & _).
  destruct (CheckWFC_built cr Hb) as (m & Hm & Hmb). rewrite Hm.
  destruct (CheckCC cr) as [cc|e2] eqn:Ecc.
  2:{ split; [|split]; [discriminate|discriminate|].
      split; [discriminate|]. intros (d & cc & H & _). discriminate. }
  pose proof (CheckCC_CCPass cr cc Ecc) as Hcc.
  split; [|split].
  - intros ? ? ? ? H. inversion H; subst. auto.
  - discriminate.
  - simpl. rewrite Hcc. split.
    + intros H. exists m, cc. split; [reflexivity|].
      destruct (CC1Pass cc), (CC2Pass cc); try discriminate. auto.
    + intros (d & cc' & H & H1 & H2). inversion H; subst. rewrite H1, H2. reflexivity.
Qed.

(** ** containsIdent *)

Lemma HasPrefix_spec s prefix :
  HasPrefix s prefix = true <-> take (length prefix) s = prefix.
Proof.
  revert s. induction prefix as [|p prefix IH]; intros s; simpl.
  - split; [intros _; apply take_0|intros _; destruct s; reflexivity].
  - destruct s as [|c s]; simpl.
    + split; discriminate.
    + rewrite andb_true_iff, IH. split.
      * intros [Hc Ht]. apply Ascii.eqb_eq in Hc. subst. f_equal. exact Ht.
      * intros H. inversion H; subst. rewrite H2. split; [apply Ascii.eqb_refl|].
        rewrite H2. reflexivity.
Qed.

Lemma occurs_at_bound s ident p :
  ident <> [] -> occurs_at s ident p -> (p + length ident <= length s)%nat.
Proof.
  unfold occurs_at. intros Hne H.
  assert (Hl : length (take (length ident) (drop p s)) = length ident) by (rewrite H; reflexivity).
  rewrite length_take, length_drop in Hl.
  assert (1 <= length ident)%nat by (destruct ident; [congruence|simpl; lia]).
  lia.
Qed.

Lemma strings_Index_spec substr :
  forall s,
    match strings_Index s substr with
    | Some pos =>
        occurs_at s substr pos /\ forall q, (q < pos)%nat -> ~ occurs_at s substr q
    | None => forall q, (q <= length s)%nat -> ~ occurs_at s substr q
    end.
Proof.
  unfold occurs_at.
  induction s as [|c s IH]; rewrite strings_Index_unfold;
    destruct (HasPrefix _ substr) eqn:E.
  - apply HasPrefix_spec in E. split; [exact E|intros; lia].
  - intros q Hq. simpl in Hq. assert (q = 0)%nat by lia. subst q.
    intros H. rewrite drop_0 in H. apply HasPrefix_spec in H. congruence.
  - apply HasPrefix_spec in E. split; [exact E|intros; lia].
  - destruct (strings_Index s substr) as [pos|]; simpl.
    + destruct IH as [Ho Hfirst]. split; [exact Ho|].
      intros [|q] Hq.
      * intros H. rewrite drop_0 in H. apply HasPrefix_spec in H. congruence.
      * simpl. apply Hfirst. lia.
    + intros [|q] Hq.
      * intros H. rewrite drop_0 in H. apply HasPrefix_spec in H. congruence.
      * simpl. apply IH. simpl in Hq. lia.
Qed.

Lemma occurs_at_drop s ident idx q :
  occurs_at (drop idx s) ident q <-> occurs_at s ident (idx + q).
Proof. unfold occurs_at. rewrite drop_drop. reflexivity. Qed.

Lemma containsIdent_loop_spec s ident :
  ident <> [] ->
  forall iters idx,
    (idx <= length s)%nat -> (length s - idx < iters)%nat ->
    exists b,
      containsIdent_loop iters s ident idx = Ok b /\
      (b = true <-> exists p, (idx <= p)%nat /\ whole_word_at s ident p).
Proof.
  intros Hne.
  assert (Hlen : (1 <= length ident)%nat) by (destruct ident; [congruence|simpl; lia]).
  induction iters as [|iters IH]; intros idx Hidx Hit; [lia|].
  simpl. destruct (length s <? idx)%nat eqn:E; [apply Nat.ltb_lt in E; lia|].
  pose proof (strings_Index_spec ident (drop idx s)) as Hspec.
  destruct (strings_Index (drop idx s) ident) as [pos|] eqn:Ei.
  2:{ exists false. split; [reflexivity|]. split; [discriminate|].
      intros (p & Hp & Ho & _). exfalso.
      pose proof (occurs_at_bound s ident p Hne Ho) as Hb.
      apply (Hspec (p - idx)%nat); [rewrite length_drop; lia|].
      apply occurs_at_drop. replace (idx + (p - idx))%nat with p by lia. exact Ho. }
  destruct Hspec as [Ho Hfirst]. apply occurs_at_drop in Ho.
  pose proof (occurs_at_bound s ident _ Hne Ho) as Hb.
  set (absPos := (idx + pos)%nat) in *.
  assert (Hbefore : exists x,
             (if (absPos =? 0)%nat then Ok true
              else b ← elem s (absPos - 1); Ok (negb (isIdentChar b))) = Ok x /\
             (x = true <->
              absPos = 0%nat \/
              exists b, s !! (absPos - 1)%nat = Some b /\ isIdentChar b = false)).
  { destruct (absPos =? 0)%nat eqn:E0.
    - apply Nat.eqb_eq in E0. exists true. split; [reflexivity|]. split; auto.
    - apply Nat.eqb_neq in E0.
      destruct (lookup_lt_is_Some_2 s (absPos - 1) ltac:(lia)) as [c Hc].
      unfold elem. rewrite Hc. simpl. eexists. split; [reflexivity|].
      rewrite negb_true_iff. split.
      + intros H. right. eauto.
      + intros [?|(b & Hb' & Hi)]; [lia|]. congruence. }
  destruct Hbefore as (before & -> & Hbef). simpl.
  assert (Hafter : exists x,
             (if (length s <=? absPos + length ident)%nat then Ok true
              else b ← elem s (absPos + length ident); Ok (negb (isIdentChar b))) = Ok x /\
             (x = true <->
              (length s <= absPos + length ident)%nat \/
              exists b, s !! (absPos + length ident)%nat = Some b /\ isIdentChar b = false)).
  { destruct (length s <=? absPos + length ident)%nat eqn:El.
    - apply Nat.leb_le in El. exists true. split; [reflexivity|]. split; auto.
    - apply Nat.leb_gt in El.
      destruct (lookup_lt_is_Some_2 s (absPos + length ident) El) as [c Hc].
      unfold elem. rewrite Hc. simpl. eexists. split; [reflexivity|].
      rewrite negb_true_iff. split.
      + intros H. right. eauto.
      + intros [?|(b & Hb' & Hi)]; [lia|]. congruence. }
  destruct Hafter as (after & -> & Haft). simpl.
  destruct (before && after) eqn:Eba.
  - exists true. split; [reflexivity|]. split; [|reflexivity]. intros _.
    apply andb_prop in Eba as [E1 E2].
    exists absPos. split; [unfold absPos; lia|].
    split; [exact Ho|]. split; [apply Hbef; exact E1|apply Haft; exact E2].
  - destruct (IH (absPos + 1)%nat ltac:(lia) ltac:(lia)) as (b & Hr & Hiff).
    exists b. split; [exact Hr|]. rewrite Hiff. split.
    + intros (p & Hp & Hw). exists p. split; [unfold absPos in Hp; lia|exact Hw].
    + intros (p & Hp & Hw). exists p. split; [|exact Hw].
      destruct (Nat.lt_trichotomy p absPos) as [Hlt|[->|Hgt]]; [| |lia].
      * exfalso. destruct Hw as (Hop & _).
        apply (Hfirst (p - idx)%nat); [unfold absPos in Hlt; lia|].
        apply occurs_at_drop. replace (idx + (p - idx))%nat with p by lia. exact Hop.
      * exfalso. destruct Hw as (_ & Hw1 & Hw2).
        apply Hbef in Hw1. apply Haft in Hw2. rewrite Hw1, Hw2 in Eba. discriminate.
Qed.

(** X23. For a non-empty identifier, [containsIdent] never panics and
    answers true exactly when the identifier occurs in the string as a
    whole word: at some position the bytes of the identifier follow, the
    byte before the occurrence (if any) is not a letter, digit or
    underscore of ASCII, and neither is the byte after it (if any). *)
Theorem containsIdent_whole_word (s ident : string) :
  ident <> "" ->
  exists b,
    containsIdent s ident = Ok b /\
    (b = true <->
     exists p, whole_word_at (list_ascii_of_string s) (list_ascii_of_string ident) p).
Proof.
  intros Hne. unfold containsIdent.
  destruct (containsIdent_loop_spec (list_ascii_of_string s) (list_ascii_of_string ident))
    with (iters := (length (list_ascii_of_string s) + 2)%nat) (idx := 0%nat)
    as (b & Hb & Hiff); [|lia|lia|].
  { intros H. apply Hne, list_ascii_of_string_nil. exact H. }
  exists b. split; [exact Hb|]. rewrite Hiff. split.
  - intros (p & _ & Hw). eauto.
  - intros (p & Hw). exists p. split; [lia|exact Hw].
Qed.

(** The variable [n] is found in "n1 + n" (at the end), not in "n1". *)
Lemma containsIdent_whole_word_witness :
  exists b,
    containsIdent "n1 + n" "n" = Ok b /\
    (b = true <->
     exists p, whole_word_at (list_ascii_of_string "n1 + n") (list_ascii_of_string "n") p).
Proof.
  apply (containsIdent_whole_word "n1 + n" "n"). discriminate.
Defined.

(** ** Compile establishes the shape the engine relies on *)

Lemma wrap_err_no_panic {A} ctx (r : res A) :
  (forall e, ctx e <> Panic) -> no_panic r -> no_panic (wrap_err ctx r).
Proof.
  intros Hctx. destruct r as [a|e]; simpl; [auto|].
  destruct e; simpl; auto; intros _;
    match goal with |- match ?x with _ => _ end => 
      let E := fresh in destruct x eqn:E; auto; apply Hctx in E; exact E end.
Qed.

Lemma Compile_assignments_ok schema unknown bad :
  forall l m m',
    Compile_assignments schema unknown bad l m = Ok m' ->
    assignments_ok (sch_Vars schema) m ->
    assignments_ok (sch_Vars schema) m' /\
    (forall idx node, m' !! idx = Some node ->
       m !! idx = Some node \/
       exists name src, (name, src) ∈ l /\ VarIndex schema name = idx /\
                        Parse src = Ok node) /\
    (forall name src, (name, src) ∈ l -> is_Some (m' !! VarIndex schema name)) /\
    (forall idx, is_Some (m !! idx) -> is_Some (m' !! idx)).
Proof.
  induction l as [|[varName exprStr] l IH]; intros m m' H Hm; simpl in H.
  - inversion H; subst. split; [exact Hm|]. split; [auto|]. split; [|auto].
    intros name src Hin. inversion Hin.
  - destruct (VarIndex schema varName <? 0) eqn:Ei; [discriminate|].
    apply Z.ltb_ge in Ei.
    destruct (Parse exprStr) as [node|e] eqn:Ep; simpl in H;
      [|destruct e; discriminate].
    apply IH in H as (H1 & H2 & H3 & H4).
    + split; [exact H1|]. split; [|split].
      * intros idx nd Hl. destruct (H2 idx nd Hl) as [Hl'|(name & src & Hin & Hv & Hp)].
        -- destruct (decide (VarIndex schema varName = idx)) as [<-|Hne].
           ++ rewrite lookup_insert_eq in Hl'. inversion Hl'; subst.
              right. exists varName, exprStr. split; [left|auto].
           ++ rewrite lookup_insert_ne in Hl' by exact Hne. auto.
        -- right. exists name, src. split; [right; exact Hin|auto].
      * intros name src Hin. apply elem_of_cons in Hin as [Heq|Hin].
        -- inversion Heq; subst. apply H4. rewrite lookup_insert_eq. eauto.
        -- eapply H3; eauto.
      * intros idx Hs. apply H4.
        destruct (decide (VarIndex schema varName = idx)) as [<-|Hne].
        -- rewrite lookup_insert_eq. eauto.
        -- rewrite lookup_insert_ne by exact Hne. exact Hs.
    + intros idx nd Hl.
      destruct (decide (VarIndex schema varName = idx)) as [<-|Hne].
      * rewrite lookup_insert_eq in Hl. inversion Hl; subst. split.
        -- destruct (VarIndex_range schema varName); lia.
        -- destruct (Parse_shape exprStr) as [_ Hw]. apply Hw. exact Ep.
      * rewrite lookup_insert_ne in Hl by exact Hne. apply Hm. exact Hl.
Qed.

Lemma assignments_ok_empty vars : assignments_ok vars ∅.
Proof. intros idx node H. rewrite lookup_empty in H. discriminate. Qed.

Lemma Compile_compiled_ok reg cr : Compile reg = Ok cr -> compiled_ok cr.
Proof.
  intros H. apply Compile_Ok in H
    as (Hreg & Hs & _ & _ & Hinv & Hrep & (evts & Hevt & Hg & He) & _).
  unfold compiled_ok. rewrite Hreg.
  apply mapM_Ok in Hinv as [Hli Hinv]. apply mapM_Ok in Hrep as [Hlr Hrep].
  apply mapM_Ok in Hevt as [Hle Hevt].
  rewrite Hg, He, !length_fmap.
  split; [exact Hli|]. split; [exact Hlr|]. split; [exact Hle|]. split; [exact Hle|].
  split; [|split; [|split]].
  - apply Forall_lookup. intros i e Hi.
    destruct (lookup_lt_is_Some_2 (reg_Invariants reg) i) as [inv Hinv'].
    { rewrite <- Hli. eapply lookup_lt_Some; eauto. }
    destruct (Hinv i inv Hinv') as (y & Hy & Hy'). rewrite Hi in Hy'. inversion Hy'; subst y.
    unfold Compile_invariant in Hy. apply wrap_err_Ok in Hy.
    destruct (Parse_shape (inv_Expr inv)) as [_ Hw]. apply Hw. exact Hy.
  - apply Forall_lookup. intros i m Hi.
    destruct (lookup_lt_is_Some_2 (reg_Compensation reg) i) as [rep Hrep'].
    { rewrite <- Hlr. eapply lookup_lt_Some; eauto. }
    destruct (Hrep i rep Hrep') as (y & Hy & Hy'). rewrite Hi in Hy'. inversion Hy'; subst y.
    unfold Compile_repair in Hy.
    apply Compile_assignments_ok in Hy as [Hy _]; [exact Hy|apply assignments_ok_empty].
  - apply Forall_lookup. intros i g Hi.
    apply list_lookup_fmap_Some in Hi as ([g' m] & Hgm & Hi). simpl in Hgm. subst g'.
    destruct (lookup_lt_is_Some_2 (reg_Events reg) i) as [evt Hevt'].
    { rewrite <- Hle. eapply lookup_lt_Some; eauto. }
    destruct (Hevt i evt Hevt') as (y & Hy & Hy'). rewrite Hi in Hy'. inversion Hy'; subst y.
    unfold Compile_event in Hy.
    destruct (String.eqb (evt_Guard evt) ""); simpl in Hy.
    + destruct (Compile_assignments _ _ _ _ _); simpl in Hy; [|discriminate].
      inversion Hy; subst. exact I.
    + destruct (Parse (evt_Guard evt)) as [node|e] eqn:Ep; simpl in Hy;
        [|destruct e; discriminate].
      destruct (Compile_assignments _ _ _ _ _); simpl in Hy; [|discriminate].
      inversion Hy; subst.
      destruct (Parse_shape (evt_Guard evt)) as [_ Hw]. apply Hw. exact Ep.
  - apply Forall_lookup. intros i m Hi.
    apply list_lookup_fmap_Some in Hi as ([g m'] & Hgm & Hi). simpl in Hgm. subst m'.
    destruct (lookup_lt_is_Some_2 (reg_Events reg) i) as [evt Hevt'].
    { rewrite <- Hle. eapply lookup_lt_Some; eauto. }
    destruct (Hevt i evt Hevt') as (y & Hy & Hy'). rewrite Hi in Hy'. inversion Hy'; subst y.
    unfold Compile_event in Hy.
    destruct (if String.eqb (evt_Guard evt) "" then _ else _) as [g0|]; simpl in Hy;
      [|discriminate].
    destruct (Compile_assignments (cr_Schema cr) _ _ _ _) as [m0|] eqn:Ea; simpl in Hy;
      [|discriminate].
    inversion Hy; subst.
    apply Compile_assignments_ok in Ea as [Ha _]; [exact Ha|apply assignments_ok_empty].
Qed.

Lemma Compile_assignments_exact schema unknown bad (a : gmap string string) m :
  Compile_assignments schema unknown bad (map_to_list a) ∅ = Ok m ->
  forall idx node,
    m !! idx = Some node <->
    exists name src, a !! name = Some src /\ VarIndex schema name = idx /\
                     Parse src = Ok node.
Proof.
  intros H idx node.
  apply Compile_assignments_ok in H as (Hok & H2 & H3 & _);
    [|apply assignments_ok_empty].
  split.
  - intros Hl. destruct (H2 idx node Hl) as [He|(name & src & Hin & Hv & Hp)].
    + rewrite lookup_empty in He. discriminate.
    + exists name, src. apply elem_of_map_to_list in Hin. auto.
  - intros (name & src & Ha & Hv & Hp).
    destruct (H3 name src) as [node' Hn']; [apply elem_of_map_to_list; exact Ha|].
    rewrite Hv in Hn'.
    destruct (H2 idx node' Hn') as [He|(name' & src' & Hin & Hv' & Hp')].
    { rewrite lookup_empty in He. discriminate. }
    apply elem_of_map_to_list in Hin.
    destruct (Hok idx node' Hn') as [Hr _].
    destruct (VarIndex_found schema name) as (v & Hv1 & Hv2); [lia|].
    destruct (VarIndex_found schema name') as (v' & Hv1' & Hv2'); [lia|].
    rewrite Hv in Hv1. rewrite Hv' in Hv1'.
    assert (name' = name) by congruence. subst name'.
    assert (src' = src) by congruence. subst src'.
    congruence.
Qed.

(** X24. What [Compile] returns.  The compiled expressions are aligned
    with the lists of the registry; each invariant and each non-empty
    guard is the parse of its source text, and an empty guard is compiled
    to no guard; each block of assignments maps the position of a target
    variable to the parse of its right-hand side, and holds nothing else.
    Every target position lies in the variable list and every compiled
    expression has the shape the evaluator relies on. *)
Theorem Compile_shape (reg : Registry) (cr : CompiledRegistry) :
  Compile reg = Ok cr ->
  compiled_ok cr /\
  (forall i inv, reg_Invariants reg !! i = Some inv ->
     exists node, InvExprs cr !! i = Some node /\ Parse (inv_Expr inv) = Ok node) /\
  (forall i rep, reg_Compensation reg !! i = Some rep ->
     exists m, RepExprs cr !! i = Some m /\
       forall idx node,
         m !! idx = Some node <->
         exists name src, rep_Assignments rep !! name = Some src /\
                          VarIndex (cr_Schema cr) name = idx /\ Parse src = Ok node) /\
  (forall i evt, reg_Events reg !! i = Some evt ->
     exists g m, EvtGuards cr !! i = Some g /\ EvtExprs cr !! i = Some m /\
       (if String.eqb (evt_Guard evt) "" then g = None
        else exists node, g = Some node /\ Parse (evt_Guard evt) = Ok node) /\
       forall idx node,
         m !! idx = Some node <->
         exists name src, evt_Assignments evt !! name = Some src /\
                          VarIndex (cr_Schema cr) name = idx /\ Parse src = Ok node).
Proof.
  intros H. split; [exact (Compile_compiled_ok reg cr H)|].
  apply Compile_Ok in H
    as (Hreg & Hs & _ & _ & Hinv & Hrep & (evts & Hevt & Hg & He) & _).
  apply mapM_Ok in Hinv as [Hli Hinv]. apply mapM_Ok in Hrep as [Hlr Hrep].
  apply mapM_Ok in Hevt as [Hle Hevt].
  split; [|split].
  - intros i inv Hi. destruct (Hinv i inv Hi) as (node & Hy & Hy').
    exists node. split; [exact Hy'|].
    unfold Compile_invariant in Hy. apply wrap_err_Ok in Hy. exact Hy.
  - intros i rep Hi. destruct (Hrep i rep Hi) as (m & Hy & Hy').
    exists m. split; [exact Hy'|].
    unfold Compile_repair in Hy. eapply Compile_assignments_exact; eauto.
  - intros i evt Hi. destruct (Hevt i evt Hi) as ([g m] & Hy & Hy').
    exists g, m. rewrite Hg, He, !list_lookup_fmap, Hy'. simpl.
    split; [reflexivity|]. split; [reflexivity|].
    unfold Compile_event in Hy.
    destruct (String.eqb (evt_Guard evt) ""); simpl in Hy.
    + destruct (Compile_assignments (cr_Schema cr) _ _ _ _) as [m0|] eqn:Ea;
        simpl in Hy; [|discriminate].
      inversion Hy; subst. split; [reflexivity|].
      eapply Compile_assignments_exact; eauto.
    + destruct (Parse (evt_Guard evt)) as [node|e] eqn:Ep; simpl in Hy;
        [|destruct e; discriminate].
      destruct (Compile_assignments (cr_Schema cr) _ _ _ _) as [m0|] eqn:Ea;
        simpl in Hy; [|discriminate].
      inversion Hy; subst. split; [eauto|].
      eapply Compile_assignments_exact; eauto.
Qed.

(** The statement at the counter registry. *)
Lemma Compile_shape_witness :
  compiled_ok (compiled counter) /\
  (forall i inv, reg_Invariants counter !! i = Some inv ->
     exists node, InvExprs (compiled counter) !! i = Some node /\
                  Parse (inv_Expr inv) = Ok node) /\
  (forall i rep, reg_Compensation counter !! i = Some rep ->
     exists m, RepExprs (compiled counter) !! i = Some m /\
       forall idx node,
         m !! idx = Some node <->
         exists name src, rep_Assignments rep !! name = Some src /\
                          VarIndex (cr_Schema (compiled counter)) name = idx /\
                          Parse src = Ok node) /\
  (forall i evt, reg_Events counter !! i = Some evt ->
     exists g m, EvtGuards (compiled counter) !! i = Some g /\
       EvtExprs (compiled counter) !! i = Some m /\
       (if String.eqb (evt_Guard evt) "" then g = None
        else exists node, g = Some node /\ Parse (evt_Guard evt) = Ok node) /\
       forall idx node,
         m !! idx = Some node <->
         exists name src, evt_Assignments evt !! name = Some src /\
                          VarIndex (cr_Schema (compiled counter)) name = idx /\
                          Parse src = Ok node).
Proof.
  apply (Compile_shape counter (compiled counter)). vm_compute. reflexivity.
Defined.

(** ** The engine does not panic *)

Lemma codec_ok (vars : list VarDef) :
  Forall VarDef_ok vars ->
  state_count vars <= MaxInt ->
  sch_TotalLen (NewSchema vars) = state_count vars /\
  (forall id, 0 <= id < sch_TotalLen (NewSchema vars) ->
     exists st, Decode (NewSchema vars) id = Ok st /\ valid_vector vars st) /\
  (forall v, valid_vector vars v ->
     exists id, Encode (NewSchema vars) v = Ok id /\
                0 <= id < sch_TotalLen (NewSchema vars)).
Proof.
  intros Hok Hmax.
  destruct (NewSchema_fields vars) as (Hv & Hs & Ht).
  pose proof (NewSchema_loop_exact vars Hok Hmax) as Hex.
  rewrite Hex in Hs, Ht. simpl in Hs, Ht.
  split; [exact Ht|]. split.
  - intros id Hid.
    destruct (Encode_Decode vars id Hid) as (st & Hd & _ & He).
    exists st. split; [exact Hd|].
    unfold Decode in Hd. rewrite Hv in Hd.
    eapply (Decode_loop_valid (NewSchema vars) vars Hok 0 id); eauto.
    rewrite <- Ht. exact Hid.
  - intros v Hvec.
    destruct (Decode_Encode_loop (NewSchema vars) vars v Hvec Hok 0 0)
      as (r & Hr & He & Hd); auto; try lia.
    exists r. rewrite Z.add_0_l in He. unfold Encode. rewrite Ht. auto.
Qed.

Lemma assigned_value_ok st v val :
  VarDef_ok v ->
  no_panic (assigned_value st v val) /\
  (forall x, assigned_value st v val = Ok x -> in_domain v x).
Proof.
  intros [Hpos Hty]. unfold assigned_value, in_domain.
  destruct (vd_Type v).
  - destruct (negb (IsBool val)); [split; [exact I|discriminate]|].
    destruct (Bool val); (split; [exact I|]); intros x H; inversion H; auto.
  - destruct (negb (IsInt val)); [split; [exact I|discriminate]|].
    destruct ((Int val <? 0) || (Int val >=? vd_Size v)) eqn:E;
      [split; [exact I|discriminate]|].
    split; [exact I|]. intros x H; inversion H; subst.
    apply orb_false_iff in E as [E1 E2]. apply Z.ltb_ge in E1.
    rewrite Z.geb_leb in E2. apply Z.leb_gt in E2. lia.
  - destruct (negb (IsInt val)); [split; [exact I|discriminate]|].
    destruct ((Int val <? vd_Min v) || (Int val >? vd_Max v)) eqn:E;
      [split; [exact I|discriminate]|].
    split; [exact I|]. intros x H; inversion H; subst.
    apply orb_false_iff in E as [E1 E2]. apply Z.ltb_ge in E1.
    rewrite Z.gtb_ltb in E2. apply Z.ltb_ge in E2. lia.
Qed.

Lemma EvalBool_no_panic node env :
  env_ok env -> well_formed node = true -> no_panic (EvalBool node env).
Proof.
  intros He Hw. unfold EvalBool.
  apply no_panic_bind; [apply Eval_no_panic_all; assumption|].
  intros v _. destruct (negb (IsBool v)); exact I.
Qed.

Lemma tabulate_from_no_panic {A} (f : Z -> res A) :
  forall count i,
    (forall j, i <= j < i + Z.of_nat count -> no_panic (f j)) ->
    no_panic (tabulate_from f i count).
Proof.
  induction count as [|count IH]; intros i H; simpl; [exact I|].
  apply no_panic_bind; [apply H; lia|]. intros x _.
  apply no_panic_bind; [apply IH; intros j Hj; apply H; lia|]. intros; exact I.
Qed.

Lemma tabulate_no_panic {A} (f : Z -> res A) n :
  0 <= n -> (forall j, 0 <= j < n -> no_panic (f j)) -> no_panic (tabulate n f).
Proof.
  intros Hn H. unfold tabulate.
  destruct (n <? 0) eqn:E; [apply Z.ltb_lt in E; lia|].
  apply tabulate_from_no_panic. intros j Hj. apply H. lia.
Qed.

Lemma mapM_from_no_panic {A B} (f : nat -> A -> res B) :
  forall l i,
    (forall k x, l !! k = Some x -> no_panic (f (i + k)%nat x)) ->
    no_panic (mapM_from f i l).
Proof.
  induction l as [|x l IH]; intros i H; simpl; [exact I|].
  apply no_panic_bind.
  { specialize (H O x eq_refl). rewrite Nat.add_0_r in H. exact H. }
  intros y _. apply no_panic_bind; [|intros; exact I].
  apply IH. intros k z Hk. replace (S i + k)%nat with (i + S k)%nat by lia.
  apply H. exact Hk.
Qed.

Section Safe.
Variable cr : CompiledRegistry.
Variable vars : list VarDef.
Hypothesis Hschema : cr_Schema cr = NewSchema vars.
Hypothesis Hvars : Forall VarDef_ok vars.
Hypothesis Hmax : state_count vars <= MaxInt.
Hypothesis Hcr : compiled_ok cr.

Lemma Safe_vars : sch_Vars (cr_Schema cr) = vars.
  Proof. rewrite Hschema. apply NewSchema_fields. Qed.

Lemma Safe_env st : valid_vector vars st -> env_ok (makeEnv cr st).
  Proof.
    intros Hv. unfold env_ok, makeEnv. simpl. rewrite Safe_vars.
    apply Forall2_length in Hv. lia.
  Qed.

Lemma applyAssignments_loop_ok st :
    valid_vector vars st ->
    forall l post,
      (forall idx node, (idx, node) ∈ l ->
         0 <= idx < Z.of_nat (length vars) /\ well_formed node = true) ->
      valid_vector vars post ->
      no_panic (applyAssignments_loop cr (makeEnv cr st) st l post) /\
      (forall post', applyAssignments_loop cr (makeEnv cr st) st l post = Ok post' ->
         valid_vector vars post').
  Proof.
    intros Hst. induction l as [|[idx node] l IH]; intros post Hl Hpost; simpl.
    - split; [exact I|]. intros post' H; inversion H; subst; exact Hpost.
    - destruct (Hl idx node ltac:(left)) as [Hidx Hw].
      pose proof (Eval_no_panic_all (makeEnv cr st) (Safe_env st Hst) node Hw) as He.
      destruct (Eval (makeEnv cr st) node) as [val|e]; simpl;
        [|split; [exact He|discriminate]].
      rewrite Safe_vars.
      destruct (elemZ_in_range vars idx Hidx) as [v Hv]. rewrite Hv. simpl.
      apply elemZ_Ok in Hv as [_ Hv].
      assert (Hvok : VarDef_ok v).
      { rewrite Forall_forall in Hvars. apply Hvars. eapply list_elem_of_lookup_2; eauto. }
      destruct (assigned_value_ok st v val Hvok) as [Hn Hd].
      destruct (assigned_value st v val) as [x|e]; simpl; [|split; [exact Hn|discriminate]].
      pose proof (Forall2_length _ _ _ Hpost) as Hlen.
      unfold storeZ.
      destruct ((idx <? 0) || (Z.of_nat (length post) <=? idx)) eqn:Eb.
      { apply orb_true_iff in Eb as [Eb|Eb]; [apply Z.ltb_lt in Eb|apply Z.leb_le in Eb]; lia. }
      simpl. apply IH.
      + intros idx' node' Hin. apply Hl. right. exact Hin.
      + unfold valid_vector. rewrite <- (list_insert_id vars (Z.to_nat idx) v Hv).
        apply Forall2_insert; [exact Hpost|]. apply Hd. reflexivity.
  Qed.

Lemma applyAssignments_ok m st :
    assignments_ok vars m -> valid_vector vars st ->
    no_panic (applyAssignments cr m st) /\
    (forall post, applyAssignments cr m st = Ok post -> valid_vector vars post).
  Proof.
    intros Hm Hst. unfold applyAssignments. apply applyAssignments_loop_ok; auto.
    intros idx node Hin. apply elem_of_map_to_list in Hin. apply Hm. exact Hin.
  Qed.

Lemma Safe_total : sch_TotalLen (cr_Schema cr) = state_count vars.
  Proof. rewrite Hschema. apply codec_ok; assumption. Qed.

Lemma Safe_Decode sid :
    0 <= sid < sch_TotalLen (cr_Schema cr) ->
    exists st, Decode (cr_Schema cr) sid = Ok st /\ valid_vector vars st.
  Proof. rewrite Hschema. apply codec_ok; assumption. Qed.

Lemma Safe_Encode st :
    valid_vector vars st ->
    exists id, Encode (cr_Schema cr) st = Ok id /\ 0 <= id < sch_TotalLen (cr_Schema cr).
  Proof. rewrite Hschema. apply codec_ok; assumption. Qed.

Lemma evalValid_no_panic st : valid_vector vars st -> no_panic (evalValid cr st).
  Proof.
    intros Hst. unfold evalValid.
    destruct Hcr as (_ & _ & _ & _ & Hinv & _).
    induction Hinv as [|e invs He Hinvs IH]; simpl; [exact I|].
    apply no_panic_bind; [apply EvalBool_no_panic; [apply Safe_env; exact Hst|exact He]|].
    intros v _. destruct (negb v); [exact I|exact IH].
  Qed.

Lemma applyRepair_ok ri st :
    (ri < length (RepExprs cr))%nat -> valid_vector vars st ->
    no_panic (applyRepair cr ri st) /\
    (forall post, applyRepair cr ri st = Ok post -> valid_vector vars post).
  Proof.
    intros Hri Hst. unfold applyRepair, elem.
    destruct (lookup_lt_is_Some_2 _ _ Hri) as [m Hm]. rewrite Hm. simpl.
    apply applyAssignments_ok; [|exact Hst].
    destruct Hcr as (_ & _ & _ & _ & _ & Hrep & _).
    rewrite Forall_lookup in Hrep. rewrite <- Safe_vars. eapply Hrep; eauto.
  Qed.

Lemma applyEvent_ok ei st :
    (ei < length (EvtExprs cr))%nat -> valid_vector vars st ->
    no_panic (applyEvent cr ei st) /\
    (forall post, applyEvent cr ei st = Ok post -> valid_vector vars post).
  Proof.
    intros Hei Hst. unfold applyEvent, elem.
    destruct (lookup_lt_is_Some_2 _ _ Hei) as [m Hm]. rewrite Hm. simpl.
    apply applyAssignments_ok; [|exact Hst].
    destruct Hcr as (_ & _ & _ & _ & _ & _ & _ & Hevt).
    rewrite Forall_lookup in Hevt. rewrite <- Safe_vars. eapply Hevt; eauto.
  Qed.

Lemma evalGuard_no_panic ei st :
    (ei < length (EvtGuards cr))%nat -> valid_vector vars st ->
    no_panic (evalGuard cr ei st).
  Proof.
    intros Hei Hst. unfold evalGuard, elem.
    destruct (lookup_lt_is_Some_2 _ _ Hei) as [g Hg]. rewrite Hg. simpl.
    destruct g as [g|]; [|exact I].
    apply EvalBool_no_panic; [apply Safe_env; exact Hst|].
    destruct Hcr as (_ & _ & _ & _ & _ & _ & Hgs & _).
    rewrite Forall_lookup in Hgs. exact (Hgs ei (Some g) Hg).
  Qed.

Lemma computeNF_scan_ok st :
    valid_vector vars st ->
    forall invs ri,
      drop ri (InvExprs cr) = invs ->
      no_panic (computeNF_scan cr st (makeEnv cr st) ri invs) /\
      (forall next, computeNF_scan cr st (makeEnv cr st) ri invs = Ok (Some next) ->
         0 <= next < sch_TotalLen (cr_Schema cr)).
  Proof.
    intros Hst. induction invs as [|e invs IH]; intros ri Hd; simpl.
    - split; [exact I|discriminate].
    -      assert (Hri : InvExprs cr !! ri = Some e).
      { rewrite <- (Nat.add_0_r ri), <- lookup_drop, Hd. reflexivity. }
      assert (Hw : well_formed e = true).
      { destruct Hcr as (_ & _ & _ & _ & Hinv & _).
        rewrite Forall_lookup in Hinv. exact (Hinv ri e Hri). }
      pose proof (EvalBool_no_panic e (makeEnv cr st) (Safe_env st Hst) Hw) as Hn.
      destruct (EvalBool e (makeEnv cr st)) as [v|err]; simpl;
        [|split; [exact Hn|discriminate]].
      destruct v; simpl.
      + apply IH. replace (S ri) with (ri + 1)%nat by lia.
        rewrite <- drop_drop, Hd. reflexivity.
      + destruct (length (RepExprs cr) <=? ri)%nat eqn:El.
        * assert (Hlt : (ri < length (reg_Invariants (Reg cr)))%nat).
          { destruct Hcr as (Hli & _). rewrite <- Hli. eapply lookup_lt_Some; eauto. }
          unfold elem. destruct (lookup_lt_is_Some_2 _ _ Hlt) as [inv ->]. simpl.
          split; [exact I|discriminate].
        * apply Nat.leb_gt in El.
          destruct (applyRepair_ok ri st El Hst) as [Hn' Hv'].
          destruct (applyRepair cr ri st) as [newSt|err]; simpl;
            [|split; [exact Hn'|discriminate]].
          destruct (Safe_Encode newSt (Hv' newSt eq_refl)) as (id & -> & Hid). simpl.
          split; [exact I|]. intros next H; inversion H; subst. exact Hid.
  Qed.

Lemma computeNF_loop_no_panic :
    length (Valid cr) = Z.to_nat (sch_TotalLen (cr_Schema cr)) ->
    forall iters sid cur,
      0 <= sid < sch_TotalLen (cr_Schema cr) ->
      0 <= cur < sch_TotalLen (cr_Schema cr) ->
      no_panic (computeNF_loop cr sid iters cur).
  Proof.
    intros Hlv. induction iters as [|iters IH]; intros sid cur Hsid Hcur; simpl.
    - destruct (Safe_Decode sid Hsid) as (st & -> & _). exact I.
    - destruct (elemZ_in_range (Valid cr) cur ltac:(lia)) as [valid ->]. simpl.
      destruct valid; [exact I|].
      destruct (Safe_Decode cur Hcur) as (st & -> & Hst). simpl.
      destruct (computeNF_scan_ok st Hst (InvExprs cr) 0 (drop_0 _)) as [Hn Hr].
      destruct (computeNF_scan cr st (makeEnv cr st) 0 (InvExprs cr)) as [o|err]; simpl;
        [|exact Hn].
      destruct o as [next|]; [|exact I].
      apply IH; [exact Hsid|]. apply Hr. reflexivity.
  Qed.

Lemma Step_cell_no_panic ei evt sid :
    length (NF cr) = Z.to_nat (sch_TotalLen (cr_Schema cr)) ->
    reg_Events (Reg cr) !! ei = Some evt ->
    0 <= sid < sch_TotalLen (cr_Schema cr) ->
    no_panic (BuildTables_Step_cell cr ei evt sid).
  Proof.
    intros Hln He Hsid. unfold BuildTables_Step_cell.
    destruct (Safe_Decode sid Hsid) as (st & -> & Hst). simpl.
    pose proof (lookup_lt_Some _ _ _ He) as Hei.
    destruct Hcr as (_ & _ & Hlg & Hle & _).
    apply no_panic_bind.
    { apply wrap_err_no_panic; [discriminate|].
      apply evalGuard_no_panic; [lia|exact Hst]. }
    intros enabled _. destruct (negb enabled); [exact I|].
    destruct (applyEvent_ok ei st ltac:(lia) Hst) as [Hn Hv].
    apply no_panic_bind.
    { apply wrap_err_no_panic; [discriminate|exact Hn]. }
    intros post Hp. apply wrap_err_Ok in Hp.
    destruct (Safe_Encode post (Hv post Hp)) as (id & -> & Hid). simpl.
    destruct (elemZ_in_range (NF cr) id ltac:(lia)) as [x ->]. exact I.
  Qed.

End Safe.
(** X25. [applyAssignments] keeps states inside the domains.  For
    well-formed variables, a block whose targets are positions of the
    variable list and a pre-state whose components lie in their domains,
    it does not panic, and a post-state it returns again has every
    component in the domain of its variable: a value outside the range of
    an int or an enum is an error, never stored or clamped. *)
Theorem applyAssignments_keeps_domains
    (cr : CompiledRegistry) (vars : list VarDef) (m : gmap Z Node) (st : State) :
  cr_Schema cr = NewSchema vars ->
  Forall VarDef_ok vars ->
  assignments_ok vars m ->
  valid_vector vars st ->
  no_panic (applyAssignments cr m st) /\
  (forall post, applyAssignments cr m st = Ok post ->
     valid_vector vars post /\ length post = length st).
Proof.
  intros Hs Hv Hm Hst.
  destruct (applyAssignments_ok cr vars Hs Hv m st Hm Hst) as [Hn Hp].
  split; [exact Hn|]. intros post H. split; [exact (Hp post H)|].
  apply Forall2_length in Hst. pose proof (Forall2_length _ _ _ (Hp post H)). lia.
Qed.

(** The event [inc] of the counter registry at the state [n = 1]. *)
Lemma applyAssignments_keeps_domains_witness :
  no_panic (applyAssignments (compiled counter) {[ 0 := Op NodeAdd [Var "n"; LitInt 1] ]} [1]) /\
  (forall post,
     applyAssignments (compiled counter) {[ 0 := Op NodeAdd [Var "n"; LitInt 1] ]} [1]
       = Ok post ->
     valid_vector [intVar "n" 0 3] post /\ length post = length [1]).
Proof.
  apply (applyAssignments_keeps_domains (compiled counter) [intVar "n" 0 3]).
  - vm_compute. reflexivity.
  - repeat constructor; vm_compute; congruence.
  - intros idx node H. apply lookup_singleton_Some in H as [<- <-].
    split; [simpl; lia|reflexivity].
  - repeat constructor; vm_compute; congruence.
Defined.

Lemma BuildEnumLiterals_no_panic schema : no_panic (BuildEnumLiterals schema).
Proof.
  unfold BuildEnumLiterals. generalize (∅ : gmap string Z).
  generalize (list_to_set (vd_Name <$> sch_Vars schema) : gset string). intros names.
  induction (sch_Vars schema) as [|v vars IH]; intros lits; simpl; [exact I|].
  destruct (negb (VarType_eqb (vd_Type v) TypeEnum)); [apply IH|].
  apply no_panic_bind; [|intros; apply IH].
  generalize 0. revert lits.
  induction (vd_Values v) as [|x values IHv]; intros lits idx; simpl; [exact I|].
  destruct (bool_decide (x ∈ names)); [exact I|].
  destruct (lits !! x); [exact I|apply IHv].
Qed.

Lemma Compile_assignments_no_panic schema unknown bad :
  (forall name, unknown name <> Panic) -> (forall name e, bad name e <> Panic) ->
  forall l m, no_panic (Compile_assignments schema unknown bad l m).
Proof.
  intros Hu Hb. induction l as [|[varName exprStr] l IH]; intros m; simpl; [exact I|].
  destruct (VarIndex schema varName <? 0).
  { simpl. destruct (unknown varName) eqn:E; auto. exact (Hu _ E). }
  apply no_panic_bind; [|intros; apply IH].
  apply wrap_err_no_panic; [apply Hb|apply Parse_shape].
Qed.

Lemma Compile_no_panic reg : no_panic (Compile reg).
Proof.
  unfold Compile. destruct (_ >? MaxStates); [exact I|].
  apply no_panic_bind; [apply BuildEnumLiterals_no_panic|]. intros lits _.
  apply no_panic_bind.
  { apply mapM_from_no_panic. intros k inv _. unfold Compile_invariant.
    apply wrap_err_no_panic; [discriminate|apply Parse_shape]. }
  intros invs _. apply no_panic_bind.
  { apply mapM_from_no_panic. intros k rep _. unfold Compile_repair.
    apply Compile_assignments_no_panic; discriminate. }
  intros reps _. apply no_panic_bind; [|intros; exact I].
  apply mapM_from_no_panic. intros k evt _. unfold Compile_event.
  apply no_panic_bind.
  { destruct (String.eqb (evt_Guard evt) ""); [exact I|].
    apply no_panic_bind; [|intros; exact I].
    apply wrap_err_no_panic; [discriminate|apply Parse_shape]. }
  intros g _. apply no_panic_bind; [|intros; exact I].
  apply Compile_assignments_no_panic; discriminate.
Qed.

Lemma BuildTables_no_panic reg cr0 :
  Forall VarDef_ok (reg_Vars reg) ->
  state_count (reg_Vars reg) <= MaxInt ->
  Compile reg = Ok cr0 ->
  no_panic (BuildTables cr0).
Proof.
  intros Hvars Hmax Hc.
  pose proof (Compile_compiled_ok reg cr0 Hc) as Hok.
  apply Compile_Ok in Hc as (Hreg & Hs & _).
  pose proof (Safe_total cr0 (reg_Vars reg) Hs Hvars Hmax) as Htot.
  pose proof (state_count_pos _ Hvars) as Hpos.
  unfold BuildTables. apply no_panic_bind.
  { unfold BuildTables_Valid. apply tabulate_no_panic; [lia|]. intros sid Hsid.
    destruct (Safe_Decode cr0 (reg_Vars reg) Hs Hvars Hmax sid Hsid) as (st & -> & Hst).
    simpl. apply wrap_err_no_panic; [discriminate|].
    eapply evalValid_no_panic; eauto. }
  intros valid Hvalid. apply BuildTables_Valid_spec in Hvalid as (_ & Hlv & _).
  apply no_panic_bind.
  { unfold BuildTables_NF. apply tabulate_no_panic; [simpl; lia|]. intros sid Hsid.
    simpl in Hsid.
    pose proof (computeNF_loop_no_panic (set_Valid cr0 valid) (reg_Vars reg)
                  Hs Hvars Hmax Hok Hlv MaxRepairIter sid sid Hsid Hsid) as Hn.
    unfold computeNF.
    destruct (computeNF_loop (set_Valid cr0 valid) sid MaxRepairIter sid) as [nf|e];
      [exact I|].
    destruct e; try exact Hn;
      (simpl; destruct (Safe_Decode cr0 (reg_Vars reg) Hs Hvars Hmax sid Hsid)
         as (st0 & -> & _); exact I). }
  intros nf Hnf. apply BuildTables_NF_spec in Hnf as (_ & Hln & _).
  apply no_panic_bind; [|intros; exact I].
  unfold BuildTables_Step. apply mapM_from_no_panic. intros ei evt He.
  apply tabulate_no_panic; [simpl; lia|]. intros sid Hsid.
  eapply (Step_cell_no_panic (set_NF (set_Valid cr0 valid) nf) (reg_Vars reg));
    eauto.
Qed.

Lemma CheckCC_total reg cr0 cr :
  Compile reg = Ok cr0 -> BuildTables cr0 = Ok cr ->
  Forall (fun v => vd_Name v <> "") (reg_Vars reg) ->
  exists result, CheckCC cr = Ok result.
Proof.
  intros Hc Hbt Hnames.
  destruct (CheckCC_sets_total reg cr0 cr Hc Hbt Hnames) as (sets & Hm).
  apply BuildTables_built in Hbt as (Hb & _).
  pose proof (proj1 (mapM_from_Ok _ _ _ _) Hm) as [Hlen _].
  unfold CheckCC. rewrite Hm. simpl. rewrite <- Hlen.
  set (result0 := {| CCPass := false; CC1Pass := true; CC2Pass := false;
                     PairsChecked := 0; DependentSkipped := 0;
                     CC1Fail := None; CC2Fail := None |}).
  destruct (CC1_outer_spec cr sets Hb Hlen (length sets) 0 result0 0 0
              ltac:(lia) eq_refl eq_refl) as (r1 & Hr1 & _).
  rewrite Hr1. simpl.
  destruct (CC2_events_total cr Hb (length sets) 0 ltac:(lia)) as (o2 & Ho2).
  rewrite Ho2. simpl. eauto.
Qed.

(** X26. The engine does not panic on a well-formed registry.  When every
    variable has a name and a non-empty domain of the declared size, and
    the number of states fits a machine integer, neither [Compile] nor
    [BuildTables] nor the two checks panic: every slice index the engine
    computes is in range, and a run ends in one of the error messages or
    in the report. *)
Theorem engine_never_panics (reg : Registry) :
  Registry_ok reg ->
  no_panic (Compile reg) /\
  (forall cr0, Compile reg = Ok cr0 ->
     no_panic (BuildTables cr0) /\
     forall cr, BuildTables cr0 = Ok cr ->
       (exists r, CheckWFC cr = Ok r) /\ (exists r, CheckCC cr = Ok r) /\
       (exists r, Stats cr = Ok r)) /\
  main reg <> Crashed.
Proof.
  intros (Hvars & Hnames & Hmax).
  pose proof (Compile_no_panic reg) as Hcn.
  assert (Hall : forall cr0, Compile reg = Ok cr0 ->
            no_panic (BuildTables cr0) /\
            forall cr, BuildTables cr0 = Ok cr ->
              (exists r, CheckWFC cr = Ok r) /\ (exists r, CheckCC cr = Ok r) /\
              (exists r, Stats cr = Ok r)).
  { intros cr0 Hc. split; [eapply BuildTables_no_panic; eauto|].
    intros cr Hb. split; [|split].
    - destruct (CheckWFC_built cr) as (m & Hm & _);
        [apply (BuildTables_built cr0 cr Hb)|eauto].
    - eapply CheckCC_total; eauto.
    - pose proof Hb as Hb'. apply BuildTables_built in Hb' as (Hb' & _ & Hs & _).
      pose proof Hc as Hc'. apply Compile_Ok in Hc' as (_ & _ & Hlim & _).
      rewrite <- Hs in Hlim. pose proof Hb' as (H0 & Hlv & _). unfold Stats.
      destruct (Stats_loop_counts cr (Z.to_nat (sch_TotalLen (cr_Schema cr))) 0 0 0)
        as (v' & i' & Hr & _); try lia.
      { unfold MaxStates, MaxInt in *. lia. }
      eauto. }
  split; [exact Hcn|]. split; [exact Hall|].
  unfold main. destruct (Compile reg) as [cr0|e] eqn:Ec.
  2:{ destruct e; try discriminate. exfalso; exact Hcn. }
  destruct (Hall cr0 eq_refl) as [Hbn Hch].
  destruct (BuildTables cr0) as [cr|e] eqn:Eb.
  2:{ destruct e; try discriminate. exfalso; exact Hbn. }
  destruct (Hch cr eq_refl) as ([[[[pass d] bad] err] Hw] & [cc Hcc] & _).
  rewrite Hw, Hcc. destruct err; discriminate.
Qed.

(** The statement at the permissions registry. *)
Lemma engine_never_panics_witness :
  no_panic (Compile permissions) /\
  (forall cr0, Compile permissions = Ok cr0 ->
     no_panic (BuildTables cr0) /\
     forall cr, BuildTables cr0 = Ok cr ->
       (exists r, CheckWFC cr = Ok r) /\ (exists r, CheckCC cr = Ok r) /\
       (exists r, Stats cr = Ok r)) /\
  main permissions <> Crashed.
Proof.
  apply (engine_never_panics permissions).
  split; [|split].
  - repeat constructor; vm_compute; congruence.
  - repeat constructor; discriminate.
  - vm_compute. congruence.
Defined.

(** ** The read sets of CheckCC are sound *)

(** *** Bytes *)

Lemma IsSpace_not_ident c : IsSpace c = true -> isIdentChar c = false.
Proof. destruct c as [[] [] [] [] [] [] [] []]; vm_compute; congruence. Qed.

Lemma isIdentChar_word_char c : isIdentChar c = true -> word_char c = true.
Proof. destruct c as [[] [] [] [] [] [] [] []]; vm_compute; congruence. Qed.

Lemma single_char_token_symbol ch ty :
  single_char_token ch = Some ty ->
  is_symbol_token ty = true /\ isIdentChar ch = false.
Proof.
  destruct ch as [[] [] [] [] [] [] [] []]; vm_compute; intros H;
    try discriminate H; inversion H; subst; split; reflexivity.
Qed.

Lemma two_char_token_symbol two ty :
  two_char_token two = Some ty ->
  is_symbol_token ty = true /\
  exists c, list_ascii_of_string two = [c; "="%char].
Proof.
  unfold two_char_token.
  destruct (String.eqb two "==") eqn:E1.
  { apply String.eqb_eq in E1. subst. intros H; inversion H. split; [reflexivity|eauto]. }
  destruct (String.eqb two "!=") eqn:E2.
  { apply String.eqb_eq in E2. subst. intros H; inversion H. split; [reflexivity|eauto]. }
  destruct (String.eqb two "<=") eqn:E3.
  { apply String.eqb_eq in E3. subst. intros H; inversion H. split; [reflexivity|eauto]. }
  destruct (String.eqb two ">=") eqn:E4.
  { apply String.eqb_eq in E4. subst. intros H; inversion H. split; [reflexivity|eauto]. }
  discriminate.
Qed.

Lemma keywords_word word ty : keywords !! word = Some ty -> is_word_token ty = true.
Proof.
  unfold keywords. intros H. apply elem_of_list_to_map_2 in H.
  repeat (apply elem_of_cons in H as [H|H]; [inversion H; reflexivity|]).
  inversion H.
Qed.

Lemma scan_while_stop p :
  forall rest i c,
    rest !! (scan_while p rest i - i)%nat = Some c -> p c = false.
Proof.
  induction rest as [|x rest IH]; intros i c H; simpl in *.
  - rewrite lookup_nil in H. discriminate.
  - destruct (p x) eqn:E.
    + destruct (scan_while_bounds p rest (S i)) as [Hb _].
      replace (scan_while p rest (S i) - i)%nat
        with (S (scan_while p rest (S i) - S i)) in H by lia.
      simpl in H. eapply IH; eauto.
    + rewrite Nat.sub_diag in H. simpl in H. inversion H; subst. exact E.
Qed.

Lemma list_ascii_of_slice input a b :
  list_ascii_of_string (slice input a b) = take (b - a) (drop a input).
Proof. unfold slice. apply list_ascii_of_string_of_list_ascii. Qed.

(** *** The lexer *)

Lemma tokens_lexed_space input i ch ts :
  input !! i = Some ch -> IsSpace ch = true ->
  tokens_lexed input (S i) ts -> tokens_lexed input i ts.
Proof.
  intros Hi Hs. destruct ts as [|t ts]; simpl; [auto|].
  intros (pos & Hp & Hle & Hgap & Hrest). exists pos.
  split; [exact Hp|]. split; [lia|]. split; [|exact Hrest].
  intros j c Hj Hc. destruct (decide (j = i)) as [->|Hne].
  - congruence.
  - apply (Hgap j c); [lia|exact Hc].
Qed.

Lemma tokens_lexed_token input i stop ty ts :
  (i < stop <= length input)%nat ->
  token_class input (mkToken ty (slice input i stop) (Z.of_nat i)) i ->
  tokens_lexed input stop ts ->
  tokens_lexed input i (mkToken ty (slice input i stop) (Z.of_nat i) :: ts).
Proof.
  intros Hi Hcl Hts. simpl. exists i.
  rewrite length_slice by lia. replace (i + (stop - i))%nat with stop by lia.
  split; [reflexivity|]. split; [lia|]. split; [intros; lia|].
  split.
  - intros H. pose proof (length_slice input i stop ltac:(lia)) as Hl.
    rewrite H in Hl. simpl in Hl. lia.
  - split; [lia|]. split; [reflexivity|]. split; [exact Hcl|exact Hts].
Qed.

Lemma token_class_word input i stop ty ch :
  (i < stop <= length input)%nat ->
  is_word_token ty = true ->
  input !! i = Some ch -> word_char ch = true ->
  (forall c, input !! stop = Some c -> word_char c = false) ->
  token_class input (mkToken ty (slice input i stop) (Z.of_nat i)) i.
Proof.
  intros Hi Hw Hch Hwc Hstop. unfold token_class. simpl.
  rewrite length_slice by lia. replace (i + (stop - i))%nat with stop by lia.
  split.
  - intros _. split; [eauto|exact Hstop].
  - intros Hs. destruct ty; discriminate.
Qed.

Lemma token_class_symbol input i stop ty c :
  (i < stop <= length input)%nat ->
  is_symbol_token ty = true ->
  input !! (stop - 1)%nat = Some c -> isIdentChar c = false ->
  token_class input (mkToken ty (slice input i stop) (Z.of_nat i)) i.
Proof.
  intros Hi Hs Hc Hic. unfold token_class. simpl.
  rewrite length_slice by lia. replace (i + (stop - i))%nat with stop by lia.
  split.
  - intros Hw. destruct ty; discriminate.
  - intros _. eauto.
Qed.

Lemma token_class_int input i stop :
  token_class input (mkToken TokInt (slice input i stop) (Z.of_nat i)) i.
Proof. unfold token_class. simpl. split; discriminate. Qed.

Lemma Lex_loop_lexed :
  forall fuel input i acc r,
    Lex_loop fuel input i acc = Ok r ->
    exists body,
      r = acc ++ body ++ [mkToken TokEOF "" (Z.of_nat (length input))] /\
      tokens_lexed input i body.
Proof.
  induction fuel as [|fuel IH]; intros input i acc r H; [discriminate|].
  simpl in H. destruct (input !! i) as [ch|] eqn:Ech.
  2:{ inversion H; subst. exists []. split; [reflexivity|exact I]. }
  pose proof (lookup_lt_Some _ _ _ Ech) as Hlt.
  assert (Hdrop : drop i input = ch :: drop (S i) input) by (apply drop_S; exact Ech).
  assert (Hlen : length (drop i input) = (length input - i)%nat) by apply length_drop.
  assert (Hstep : forall t stop,
            Lex_loop fuel input stop (acc ++ [t]) = Ok r ->
            (forall ts, tokens_lexed input stop ts -> tokens_lexed input i (t :: ts)) ->
            exists body,
              r = acc ++ body ++ [mkToken TokEOF "" (Z.of_nat (length input))] /\
              tokens_lexed input i body).
  { intros t stop Hl Hc. apply IH in Hl as (body & -> & Hb).
    exists (t :: body). split; [|apply Hc; exact Hb].
    rewrite <- app_assoc. reflexivity. }
  destruct (IsSpace ch) eqn:Es.
  { apply IH in H as (body & -> & Hb). exists body. split; [reflexivity|].
    eapply tokens_lexed_space; eauto. }
  destruct (IsDigit ch) eqn:Ed.
  { destruct (scan_while_bounds IsDigit (drop i input) i) as [Hb Hs].
    specialize (Hs ch _ Hdrop Ed).
    eapply Hstep; [exact H|]. intros ts Hts.
    apply tokens_lexed_token; [lia|apply token_class_int|exact Hts]. }
  destruct (IsLetter ch || is_underscore ch) eqn:El.
  { set (p := fun c => IsLetter c || IsDigit c || is_underscore c) in *.
    destruct (scan_while_bounds p (drop i input) i) as [Hb Hs].
    assert (Hp : p ch = true).
    { unfold p. rewrite Ed. apply orb_true_iff in El as [->| ->]; simpl;
        [reflexivity|apply orb_true_r]. }
    specialize (Hs ch _ Hdrop Hp).
    assert (Hstop : forall c, input !! scan_while p (drop i input) i = Some c ->
                              word_char c = false).
    { intros c Hc. apply (scan_while_stop p (drop i input) i c).
      rewrite lookup_drop. replace (i + (scan_while p (drop i input) i - i))%nat
        with (scan_while p (drop i input) i) by lia. exact Hc. }
    destruct (keywords !! slice input i (scan_while p (drop i input) i)) as [ty|] eqn:Ek.
    - eapply Hstep; [exact H|]. intros ts Hts.
      apply tokens_lexed_token; [lia| |exact Hts].
      eapply token_class_word; eauto; [lia|eapply keywords_word; eauto].
    - eapply Hstep; [exact H|]. intros ts Hts.
      apply tokens_lexed_token; [lia| |exact Hts].
      eapply token_class_word; eauto; lia. }
  destruct (if (S i <? length input)%nat then two_char_token (slice input i (i + 2)) else None)
    as [ty|] eqn:E2.
  { destruct (S i <? length input)%nat eqn:E2'; [|discriminate].
    apply Nat.ltb_lt in E2'.
    apply two_char_token_symbol in E2 as (Hsym & c & Hc).
    eapply Hstep; [exact H|]. intros ts Hts.
    apply tokens_lexed_token; [lia| |exact Hts].
    eapply (token_class_symbol input i (i + 2) ty "="%char); [lia|exact Hsym| |reflexivity].
    rewrite list_ascii_of_slice in Hc. replace (i + 2 - i)%nat with 2%nat in Hc by lia.
    assert (Hl : take 2 (drop i input) !! 1%nat = Some "="%char) by (rewrite Hc; reflexivity).
    rewrite lookup_take_lt in Hl by lia. rewrite lookup_drop in Hl.
    replace (i + 2 - 1)%nat with (i + 1)%nat by lia. exact Hl. }
  destruct (single_char_token ch) as [ty|] eqn:E1; [|discriminate].
  apply single_char_token_symbol in E1 as [Hsym Hic].
  eapply Hstep; [exact H|]. intros ts Hts.
  rewrite <- (slice_one input i ch Ech).
  apply tokens_lexed_token; [lia| |exact Hts].
  eapply (token_class_symbol input i (S i) ty ch); [lia|exact Hsym| |exact Hic].
  replace (S i - 1)%nat with i by lia. exact Ech.
Qed.
(** *** The parser *)

Lemma peek_lookup p :
  tok_Type (peek p) <> TokEOF -> p_tokens p !! p_pos p = Some (peek p).
Proof.
  unfold peek. destruct (p_tokens p !! p_pos p); [reflexivity|]. simpl. congruence.
Qed.

Lemma operand_pos_advance p :
  starts_operand (tok_Type (peek p)) = true -> operand_pos (advance p).2.
Proof.
  intros H. right. simpl. rewrite Nat.sub_0_r. exists (peek p). split; [|exact H].
  apply peek_lookup. intros E. rewrite E in H. discriminate.
Qed.

Lemma infixInfo_starts t prec nt :
  infixInfo t = (prec, nt, true) -> starts_operand t = true /\ nt <> NodeVar.
Proof. destruct t; simpl; intros H; inversion H; split; (reflexivity || discriminate). Qed.

Lemma vars_from_node tokens ty iv bv name children :
  ty <> NodeVar -> Forall (vars_from tokens) children ->
  vars_from tokens (mkNode ty iv bv name children).
Proof.
  intros Hty Hch x Hx. simpl in Hx.
  assert (Hin : x ∈ flat_map node_vars children) by (destruct ty; auto; congruence).
  clear Hx. apply list_elem_of_In, in_flat_map in Hin as (c & Hc & Hx).
  rewrite Forall_forall in Hch. apply (Hch c); apply list_elem_of_In; assumption.
Qed.

Lemma parse_tokens_kept fuel :
  (forall minPrec p n p', parseExpr fuel minPrec p = Ok (n, p') ->
                          p_tokens p' = p_tokens p) /\
  (forall p n p', parseUnary fuel p = Ok (n, p') -> p_tokens p' = p_tokens p) /\
  (forall args p a p', parseCall_loop fuel args p = Ok (a, p') ->
                       p_tokens p' = p_tokens p).
Proof.
  destruct (parser_ok_all fuel) as (HE & _ & HU & _ & _ & HCL).
  split; [|split].
  - intros minPrec p n p' H. destruct (HE minPrec p) as [_ Ha]. apply (Ha n p' H).
  - intros p n p' H. destruct (HU p) as [_ Ha]. apply (Ha n p' H).
  - intros args p a p' H. destruct (HCL args p) as [_ Ha]. apply (Ha a p' H).
Qed.

Section ParserSrc.
Variable fuel : nat.
Hypothesis IH : parser_src fuel.

Lemma parseExpr_src minPrec p n p' :
  operand_pos p -> parseExpr (S fuel) minPrec p = Ok (n, p') ->
  vars_from (p_tokens p) n.
Proof.
  destruct IH as (_ & IHL & IHU & _).
  destruct (parse_tokens_kept fuel) as (_ & KU & _).
  intros Hp H. simpl in H.
  destruct (parseUnary fuel p) as [[lhs p1]|e] eqn:EU; simpl in H; [|discriminate].
  rewrite <- (KU p lhs p1 EU). eapply IHL; [|exact H].
  rewrite (KU p lhs p1 EU). eapply IHU; eauto.
Qed.

Lemma parseExpr_loop_src minPrec lhs p n p' :
  vars_from (p_tokens p) lhs ->
  parseExpr_loop (S fuel) minPrec lhs p = Ok (n, p') -> vars_from (p_tokens p) n.
Proof.
  destruct IH as (IHE & IHL & _).
  destruct (parse_tokens_kept fuel) as (KE & _).
  intros Hl H. simpl in H.
  destruct (infixInfo (tok_Type (peek p))) as [[prec nodeType] ok] eqn:Ei.
  destruct (negb ok || (prec <? minPrec)) eqn:Estop.
  { inversion H; subst. exact Hl. }
  destruct (TokenType_eqb (tok_Type (peek p)) TokIf).
  { inversion H; subst. exact Hl. }
  apply orb_false_iff in Estop as [Eok _]. apply negb_false_iff in Eok. subst ok.
  destruct (infixInfo_starts _ _ _ Ei) as [Hst Hnv].
  change {| p_tokens := p_tokens p; p_pos := S (p_pos p) |} with (advance p).2 in H.
  destruct (parseExpr fuel (prec + 1) (advance p).2) as [[rhs p2]|e] eqn:EE; simpl in H;
    [|discriminate].
  pose proof (KE _ _ _ _ EE) as K2. simpl in K2.
  pose proof (IHE _ _ _ _ (operand_pos_advance p Hst) EE) as Hr. simpl in Hr.
  rewrite <- K2. eapply IHL; [|exact H]. rewrite K2.
  apply vars_from_node; [exact Hnv|]. repeat constructor; assumption.
Qed.

Lemma parseUnary_src p n p' :
  operand_pos p -> parseUnary (S fuel) p = Ok (n, p') -> vars_from (p_tokens p) n.
Proof.
  destruct IH as (IHE & _ & IHU & IHA & _).
  destruct (parse_tokens_kept fuel) as (KE & KU & _).
  intros Hp H. simpl in H.
  change {| p_tokens := p_tokens p; p_pos := S (p_pos p) |} with (advance p).2 in H.
  destruct (TokenType_eqb (tok_Type (peek p)) TokNot) eqn:ENot.
  { apply TokenType_eqb_eq in ENot.
    destruct (parseUnary fuel (advance p).2) as [[operand p2]|e] eqn:EU; simpl in H;
      [|discriminate].
    inversion H; subst.
    apply vars_from_node; [discriminate|]. repeat constructor.
    apply (IHU _ _ _ (operand_pos_advance p ltac:(rewrite ENot; reflexivity)) EU). }
  destruct (TokenType_eqb (tok_Type (peek p)) TokIf) eqn:EIf.
  { apply TokenType_eqb_eq in EIf.
    destruct (parseExpr fuel 0 (advance p).2) as [[cond p2]|e] eqn:EE; simpl in H;
      [|discriminate].
    pose proof (KE _ _ _ _ EE) as K2. simpl in K2.
    pose proof (IHE _ _ _ _ (operand_pos_advance p ltac:(rewrite EIf; reflexivity)) EE)
      as Hc. simpl in Hc.
    destruct (expect TokThen p2) as [[t3 p3]|e] eqn:Ex1; [|discriminate].
    apply expect_Ok in Ex1 as [-> Ht3].
    destruct (parseExpr fuel 0 (advance p2).2) as [[thn p4]|e] eqn:EE3; simpl in H;
      [|discriminate].
    pose proof (KE _ _ _ _ EE3) as K4. simpl in K4.
    pose proof (IHE _ _ _ _ (operand_pos_advance p2 ltac:(rewrite Ht3; reflexivity)) EE3)
      as Ht. simpl in Ht. rewrite K2 in Ht.
    destruct (expect TokElse p4) as [[t5 p5]|e] eqn:Ex2; [|discriminate].
    apply expect_Ok in Ex2 as [-> Ht5].
    destruct (parseExpr fuel 0 (advance p4).2) as [[els p6]|e] eqn:EE5; simpl in H;
      [|discriminate].
    pose proof (IHE _ _ _ _ (operand_pos_advance p4 ltac:(rewrite Ht5; reflexivity)) EE5)
      as He. simpl in He. rewrite K4, K2 in He.
    inversion H; subst.
    apply vars_from_node; [discriminate|]. repeat constructor; assumption. }
  destruct (TokenType_eqb (tok_Type (peek p)) TokMinus) eqn:EMinus.
  { apply TokenType_eqb_eq in EMinus.
    destruct (parseUnary fuel (advance p).2) as [[operand p2]|e] eqn:EU; simpl in H;
      [|discriminate].
    inversion H; subst.
    apply vars_from_node; [discriminate|]. repeat constructor.
    - intros x Hx. simpl in Hx. inversion Hx.
    - apply (IHU _ _ _ (operand_pos_advance p ltac:(rewrite EMinus; reflexivity)) EU). }
  eapply IHA; eauto.
Qed.

Lemma parseAtom_src p n p' :
  operand_pos p -> parseAtom (S fuel) p = Ok (n, p') -> vars_from (p_tokens p) n.
Proof.
  destruct IH as (IHE & _ & _ & _ & IHC & _).
  intros Hp H. simpl in H.
  change {| p_tokens := p_tokens p; p_pos := S (p_pos p) |} with (advance p).2 in H.
  destruct (tok_Type (peek p)) eqn:Et; try discriminate.
  - destruct (Atoi (tok_Val (peek p))); [|discriminate].
    inversion H; subst. intros x Hx. simpl in Hx. inversion Hx.
  - destruct (TokenType_eqb (tok_Type (peek (advance p).2)) TokLParen
              && isBuiltin (tok_Val (peek p))) eqn:Ec.
    + apply andb_prop in Ec as [Hl _]. apply TokenType_eqb_eq in Hl.
      apply (IHC _ _ _ _ Hl H).
    + inversion H; subst. intros x Hx. simpl in Hx.
      apply list_elem_of_singleton in Hx. subst x.
      exists (p_pos p), (peek p). split.
      { apply peek_lookup. rewrite Et. discriminate. }
      split; [exact Et|]. split; [reflexivity|exact Hp].
  - inversion H; subst. intros x Hx. simpl in Hx. inversion Hx.
  - inversion H; subst. intros x Hx. simpl in Hx. inversion Hx.
  - destruct (parseExpr fuel 0 (advance p).2) as [[e p2]|e] eqn:EE; simpl in H;
      [|discriminate].
    destruct (expect TokRParen p2) as [[t3 p3]|e3]; [|discriminate].
    inversion H; subst.
    apply (IHE _ _ _ _ (operand_pos_advance p ltac:(rewrite Et; reflexivity)) EE).
Qed.

Lemma parseCall_loop_src args p a p' :
  operand_pos p -> Forall (vars_from (p_tokens p)) args ->
  parseCall_loop (S fuel) args p = Ok (a, p') -> Forall (vars_from (p_tokens p)) a.
Proof.
  destruct IH as (IHE & _ & _ & _ & _ & IHCL).
  destruct (parse_tokens_kept fuel) as (KE & _).
  intros Hp Ha H. simpl in H.
  destruct (parseExpr fuel 0 p) as [[arg p1]|e] eqn:EE; simpl in H; [|discriminate].
  pose proof (KE _ _ _ _ EE) as K1.
  assert (Ha' : Forall (vars_from (p_tokens p)) (args ++ [arg])).
  { apply Forall_app. split; [exact Ha|]. repeat constructor. eapply IHE; eauto. }
  destruct (TokenType_eqb (tok_Type (peek p1)) TokComma) eqn:EC.
  - apply TokenType_eqb_eq in EC.
    change {| p_tokens := p_tokens p1; p_pos := S (p_pos p1) |} with (advance p1).2 in H.
    pose proof (IHCL (args ++ [arg]) (advance p1).2 a p'
                  (operand_pos_advance p1 ltac:(rewrite EC; reflexivity))) as Hc.
    change (p_tokens (advance p1).2) with (p_tokens p1) in Hc.
    rewrite K1 in Hc. apply (Hc Ha' H).
  - inversion H; subst. exact Ha'.
Qed.

Lemma parseCall_src name p n p' :
  tok_Type (peek p) = TokLParen ->
  parseCall (S fuel) name p = Ok (n, p') -> vars_from (p_tokens p) n.
Proof.
  destruct IH as (_ & _ & _ & _ & _ & IHCL).
  intros Hl H. simpl in H.
  change {| p_tokens := p_tokens p; p_pos := S (p_pos p) |} with (advance p).2 in H.
  destruct (parseCall_loop fuel [] (advance p).2) as [[args p2]|e] eqn:EC; simpl in H;
    [|discriminate].
  pose proof (IHCL _ _ _ _ (operand_pos_advance p ltac:(rewrite Hl; reflexivity))
                (List.Forall_nil _) EC) as Ha.
  change (p_tokens (advance p).2) with (p_tokens p) in Ha.
  destruct (expect TokRParen p2) as [[t3 p3]|e]; [|discriminate].
  destruct ((String.eqb name "min" || String.eqb name "max")
            && negb (length args =? 2)%nat); [discriminate|].
  destruct (String.eqb name "clamp" && negb (length args =? 3)%nat); [discriminate|].
  inversion H; subst. apply vars_from_node; [discriminate|exact Ha].
Qed.

End ParserSrc.

Lemma parser_src_all : forall fuel, parser_src fuel.
Proof.
  induction fuel as [|fuel IH].
  - repeat split; intros; discriminate.
  - repeat apply conj; intros.
    + eapply parseExpr_src; eauto.
    + eapply parseExpr_loop_src; eauto.
    + eapply parseUnary_src; eauto.
    + eapply parseAtom_src; eauto.
    + eapply parseCall_src; eauto.
    + eapply parseCall_loop_src; eauto.
Qed.

Lemma Parse_tokens_src tokens node :
  Parse_tokens tokens = Ok node -> vars_from tokens node.
Proof.
  unfold Parse_tokens. intros H.
  destruct (parseExpr (parse_fuel tokens) 0 {| p_tokens := tokens; p_pos := 0 |})
    as [[n p']|e] eqn:E; simpl in H; [|discriminate].
  destruct (negb (TokenType_eqb (tok_Type (peek p')) TokEOF)); [discriminate|].
  inversion H; subst.
  destruct (parser_src_all (parse_fuel tokens)) as (HE & _).
  assert (Hp : operand_pos {| p_tokens := tokens; p_pos := 0 |}) by (left; reflexivity).
  exact (HE _ _ _ _ Hp E).
Qed.
(** *** Identifier tokens are whole words of the source *)

Lemma length_list_ascii_of_string s :
  length (list_ascii_of_string s) = String.length s.
Proof. induction s as [|c s IH]; simpl; [reflexivity|]. rewrite IH. reflexivity. Qed.

Lemma starts_operand_class ty :
  starts_operand ty = true -> is_word_token ty = true \/ is_symbol_token ty = true.
Proof. destruct ty; simpl; intros H; try discriminate; auto. Qed.

Lemma tokens_lexed_lookup input :
  forall ts i k t,
    tokens_lexed input i ts -> ts !! k = Some t ->
    exists pos start,
      (start <= pos)%nat /\
      (forall j ch, (start <= j < pos)%nat -> input !! j = Some ch -> IsSpace ch = true) /\
      (pos + String.length (tok_Val t) <= length input)%nat /\
      slice input pos (pos + String.length (tok_Val t)) = tok_Val t /\
      token_class input t pos /\
      (k = 0%nat -> start = i) /\
      (forall t', (0 < k)%nat -> ts !! (k - 1)%nat = Some t' ->
         exists pos', token_class input t' pos' /\
                      start = (pos' + String.length (tok_Val t'))%nat).
Proof.
  induction ts as [|t0 ts IH]; intros i k t Hl Hk; [inversion Hk|].
  simpl in Hl. destruct Hl as (pos0 & _ & Hle & Hgap & _ & Hb & Hs & Hc & Hrest).
  destruct k as [|k]; simpl in Hk.
  - inversion Hk; subst t0. exists pos0, i.
    split; [exact Hle|]. split; [exact Hgap|]. split; [exact Hb|].
    split; [exact Hs|]. split; [exact Hc|]. split; [reflexivity|].
    intros t' Hlt _. lia.
  - destruct (IH _ k t Hrest Hk) as (pos & start & H1 & H2 & H3 & H4 & H5 & H6 & H7).
    exists pos, start.
    split; [exact H1|]. split; [exact H2|]. split; [exact H3|].
    split; [exact H4|]. split; [exact H5|]. split; [intros; lia|].
    intros t' _ Ht'. destruct k as [|k]; simpl in Ht'.
    + inversion Ht'; subst t'. exists pos0. split; [exact Hc|]. apply H6. reflexivity.
    + apply H7; [lia|]. simpl. rewrite Nat.sub_0_r. exact Ht'.
Qed.

Lemma ident_token_whole_word input body k t :
  tokens_lexed input 0 body ->
  body !! k = Some t -> tok_Type t = TokIdent ->
  (k = 0%nat \/
   exists t', body !! (k - 1)%nat = Some t' /\ starts_operand (tok_Type t') = true) ->
  exists p, whole_word_at input (list_ascii_of_string (tok_Val t)) p.
Proof.
  intros Hl Hk Hty Hprev.
  destruct (tokens_lexed_lookup input body 0 k t Hl Hk)
    as (pos & start & Hle & Hgap & Hb & Hs & Hc & H0 & Hp).
  destruct Hc as [Hword _]. destruct Hword as [(c0 & Hc0 & Hw0) Hafter]; [rewrite Hty; reflexivity|].
  exists pos. unfold whole_word_at, occurs_at.
  rewrite length_list_ascii_of_string.
  split; [|split].
  - rewrite <- Hs at 2. rewrite list_ascii_of_slice. f_equal. lia.
  - destruct (decide (pos = 0%nat)) as [->|Hne]; [left; reflexivity|]. right.
    destruct (lookup_lt_is_Some_2 input (pos - 1)) as [b Hbl].
    { apply lookup_lt_Some in Hc0. lia. }
    exists b. split; [exact Hbl|].
    destruct (decide (start = pos)) as [Heq|Hlt].
    + destruct Hprev as [->|(t' & Ht' & Hst)]; [specialize (H0 eq_refl); lia|].
      assert (Hk0 : (0 < k)%nat).
      { destruct k; [|lia]. exfalso. specialize (H0 eq_refl). lia. }
      destruct (Hp t' Hk0 Ht') as (pos' & [Hw' Hs'] & Hstart).
      apply starts_operand_class in Hst as [Hst|Hst].
      * exfalso. destruct (Hw' Hst) as [_ Haft'].
        rewrite <- Hstart, Heq in Haft'. rewrite (Haft' c0 Hc0) in Hw0. discriminate.
      * destruct (Hs' Hst) as (c & Hc & Hic).
        rewrite <- Hstart, Heq in Hc. congruence.
    + apply IsSpace_not_ident. apply (Hgap (pos - 1)%nat); [lia|exact Hbl].
  - destruct (input !! (pos + String.length (tok_Val t))%nat) as [b|] eqn:E.
    + right. exists b. split; [reflexivity|].
      destruct (isIdentChar b) eqn:Ei; [|reflexivity].
      apply isIdentChar_word_char in Ei. rewrite (Hafter b eq_refl) in Ei. discriminate.
    + left. apply lookup_ge_None in E. exact E.
Qed.

Lemma Parse_vars_whole_words src node name :
  Parse src = Ok node -> name ∈ node_vars node ->
  exists p, whole_word_at (list_ascii_of_string src) (list_ascii_of_string name) p.
Proof.
  unfold Parse, Lex. intros H Hin.
  destruct (Lex_loop _ _ 0 []) as [tokens|e] eqn:El; simpl in H; [|discriminate].
  apply Lex_loop_lexed in El as (body & -> & Hb). simpl in H.
  destruct (Parse_tokens_src _ _ H name Hin) as (k & t & Hk & Hty & Hv & Hprev).
  assert (Hkb : body !! k = Some t).
  { destruct (decide (k < length body)%nat) as [Hlt|Hge].
    - rewrite lookup_app_l in Hk by exact Hlt. exact Hk.
    - rewrite lookup_app_r in Hk by lia.
      destruct (k - length body)%nat; simpl in Hk; [|inversion Hk].
      inversion Hk; subst t. discriminate. }
  subst name. eapply (ident_token_whole_word _ body k t); eauto.
  destruct Hprev as [?|(t' & Ht' & Hst)]; [auto|]. right. exists t'. split; [|exact Hst].
  rewrite lookup_app_l in Ht'; [exact Ht'|]. apply lookup_lt_Some in Hkb. lia.
Qed.

(** *** The value depends only on the variables of the tree *)

Lemma eval2_ext ev ev' children k :
  Forall (fun c => ev c = ev' c) children ->
  eval2 ev children k = eval2 ev' children k.
Proof.
  intros H. unfold eval2. destruct children as [|c0 rest]; [reflexivity|].
  apply Forall_cons in H as [H0 H]. rewrite H0.
  destruct (ev' c0); simpl; [|reflexivity].
  destruct rest as [|c1 rest]; [reflexivity|].
  apply Forall_cons in H as [H1 _]. rewrite H1. reflexivity.
Qed.

Lemma eval3_ext ev ev' children k :
  Forall (fun c => ev c = ev' c) children ->
  eval3 ev children k = eval3 ev' children k.
Proof.
  intros H. unfold eval3. destruct children as [|c0 rest]; [reflexivity|].
  apply Forall_cons in H as [H0 H]. rewrite H0.
  destruct (ev' c0); simpl; [|reflexivity].
  destruct rest as [|c1 rest]; [reflexivity|].
  apply Forall_cons in H as [H1 H]. rewrite H1.
  destruct (ev' c1); simpl; [|reflexivity].
  destruct rest as [|c2 rest]; [reflexivity|].
  apply Forall_cons in H as [H2 _]. rewrite H2. reflexivity.
Qed.

Lemma Eval_agree schema lits st st' :
  forall node,
    (forall nm, nm ∈ node_vars node -> 0 <= VarIndex schema nm ->
       elemZ st (VarIndex schema nm) = elemZ st' (VarIndex schema nm)) ->
    Eval (NewEnv schema st lits) node = Eval (NewEnv schema st' lits) node.
Proof.
  induction node as [ty iv bv nm children IH] using Node_children_ind.
  intros Hag.
  assert (Hch : Forall (fun c => Eval (NewEnv schema st lits) c =
                                 Eval (NewEnv schema st' lits) c) children).
  { apply Forall_forall. intros c Hc. rewrite Forall_forall in IH. apply IH; [exact Hc|].
    intros nm' Hin. apply Hag. simpl. apply elem_of_app. right.
    apply list_elem_of_In, in_flat_map. exists c.
    split; apply list_elem_of_In; assumption. }
  clear IH. simpl.
  destruct ty; try reflexivity;
    try (apply eval2_ext; exact Hch).
  - simpl in Hag.
    destruct (VarIndex schema nm >=? 0) eqn:Ei; [|reflexivity].
    rewrite Z.geb_leb in Ei. apply Z.leb_le in Ei.
    rewrite (Hag nm); [reflexivity|left|exact Ei].
  - destruct children as [|c0 rest]; [reflexivity|].
    apply Forall_cons in Hch as [H0 _]. rewrite H0. reflexivity.
  - destruct children as [|c0 rest]; [reflexivity|].
    apply Forall_cons in Hch as [H0 Hch]. rewrite H0.
    destruct (Eval (NewEnv schema st' lits) c0) as [c|]; simpl; [|reflexivity].
    destruct (negb (IsBool c)); [reflexivity|].
    destruct (Bool c).
    + destruct rest as [|c1 rest]; [reflexivity|].
      apply Forall_cons in Hch as [H1 _]. exact H1.
    + destruct rest as [|c1 [|c2 rest]]; try reflexivity.
      apply Forall_cons in Hch as [_ Hch]. apply Forall_cons in Hch as [H2 _]. exact H2.
  - destruct (String.eqb nm "min"); [apply eval2_ext; exact Hch|].
    destruct (String.eqb nm "max"); [apply eval2_ext; exact Hch|].
    destruct (String.eqb nm "clamp"); [apply eval3_ext; exact Hch|reflexivity].
Qed.

Lemma Eval_independent schema lits st st' name :
  (forall j, j <> VarIndex schema name -> elemZ st j = elemZ st' j) ->
  forall node, name ∉ node_vars node ->
    Eval (NewEnv schema st lits) node = Eval (NewEnv schema st' lits) node.
Proof.
  intros Hst node Hnot. apply Eval_agree. intros nm Hin Hi. apply Hst.
  intros Heq. apply Hnot.
  destruct (VarIndex_found schema nm Hi) as (v & Hv & Hn).
  destruct (VarIndex_found schema name ltac:(lia)) as (v' & Hv' & Hn').
  rewrite Heq in Hv. assert (name = nm) as -> by congruence. exact Hin.
Qed.

(** X27. The read sets of [CheckCC] are sound.  When [containsIdent] does
    not find a variable name in the source text of an expression, the tree
    [Parse] builds from that text has no node for that variable, and the
    value (or error) of the expression is the same in any two states that
    differ only in that variable. *)
Theorem read_set_sound (src name : string) (node : Node)
    (schema : Schema) (lits : gmap string Z) (st st' : State) :
  Parse src = Ok node ->
  name <> "" ->
  containsIdent src name = Ok false ->
  (name ∉ node_vars node) /\
  ((forall j, j <> VarIndex schema name -> elemZ st j = elemZ st' j) ->
   Eval (NewEnv schema st lits) node = Eval (NewEnv schema st' lits) node).
Proof.
  intros Hp Hne Hc.
  assert (Hnot : name ∉ node_vars node).
  { intros Hin. destruct (Parse_vars_whole_words src node name Hp Hin) as (p & Hw).
    unfold containsIdent in Hc.
    destruct (containsIdent_loop_spec (list_ascii_of_string src) (list_ascii_of_string name))
      with (iters := (length (list_ascii_of_string src) + 2)%nat) (idx := 0%nat)
      as (b & Hb & Hiff); [|lia|lia|].
    { intros H. apply Hne, list_ascii_of_string_nil. exact H. }
    rewrite Hb in Hc. inversion Hc; subst b.
    assert (false = true); [|discriminate].
    apply Hiff. exists p. split; [lia|exact Hw]. }
  split; [exact Hnot|]. intros Hst. apply (Eval_independent schema lits st st' name Hst node Hnot).
Qed.

(** The guard "n < 3" of the counter does not read a variable [m]. *)
Lemma read_set_sound_witness :
  ("m" ∉ node_vars (Op NodeLt [Var "n"; LitInt 3])) /\
  ((forall j, j <> VarIndex (NewSchema [intVar "n" 0 3; intVar "m" 0 3]) "m" ->
              elemZ [1; 0] j = elemZ [1; 2] j) ->
   Eval (NewEnv (NewSchema [intVar "n" 0 3; intVar "m" 0 3]) [1; 0] ∅)
        (Op NodeLt [Var "n"; LitInt 3]) =
   Eval (NewEnv (NewSchema [intVar "n" 0 3; intVar "m" 0 3]) [1; 2] ∅)
        (Op NodeLt [Var "n"; LitInt 3])).
Proof.
  apply (read_set_sound "n < 3" "m").
  - vm_compute. reflexivity.
  - discriminate.
  - vm_compute. reflexivity.
Defined.
(** *** The read set of an event *)

Lemma tokens_lexed_nonempty input :
  forall ts i k t,
    tokens_lexed input i ts -> ts !! k = Some t -> tok_Val t <> "".
Proof.
  induction ts as [|t0 ts IH]; intros i k t Hl Hk; [inversion Hk|].
  simpl in Hl. destruct Hl as (pos0 & _ & _ & _ & Hne & _ & _ & _ & Hrest).
  destruct k as [|k]; simpl in Hk.
  - inversion Hk; subst t0. exact Hne.
  - exact (IH _ k t Hrest Hk).
Qed.

Lemma Parse_vars_nonempty src node name :
  Parse src = Ok node -> name ∈ node_vars node -> name <> "".
Proof.
  unfold Parse, Lex. intros H Hin.
  destruct (Lex_loop _ _ 0 []) as [tokens|e] eqn:El; simpl in H; [|discriminate].
  apply Lex_loop_lexed in El as (body & -> & Hb). simpl in H.
  destruct (Parse_tokens_src _ _ H name Hin) as (k & t & Hk & Hty & Hv & _).
  subst name.
  destruct (decide (k < length body)%nat) as [Hlt|Hge].
  - rewrite lookup_app_l in Hk by exact Hlt. exact (tokens_lexed_nonempty _ _ _ _ _ Hb Hk).
  - rewrite lookup_app_r in Hk by lia.
    destruct (k - length body)%nat; simpl in Hk; [|inversion Hk].
    inversion Hk; subst t. discriminate.
Qed.

Lemma whole_word_containsIdent src name p :
  name <> "" ->
  whole_word_at (list_ascii_of_string src) (list_ascii_of_string name) p ->
  containsIdent src name = Ok true.
Proof.
  intros Hne Hw. unfold containsIdent.
  destruct (containsIdent_loop_spec (list_ascii_of_string src) (list_ascii_of_string name))
    with (iters := (length (list_ascii_of_string src) + 2)%nat) (idx := 0%nat)
    as (b & Hb & Hiff); [|lia|lia|].
  { intros H. apply Hne, list_ascii_of_string_nil. exact H. }
  rewrite Hb. f_equal. apply Hiff. exists p. split; [lia|exact Hw].
Qed.

Lemma CheckCC_reads_spec schema exprStr :
  forall vars rd rd',
    CheckCC_reads schema exprStr vars rd = Ok rd' ->
    rd ⊆ rd' /\
    forall v, v ∈ vars -> containsIdent exprStr (vd_Name v) = Ok true ->
      VarIndex schema (vd_Name v) ∈ rd'.
Proof.
  induction vars as [|v0 vars IHl]; intros rd rd' H; simpl in H.
  - inversion H; subst rd'. split; [reflexivity|]. intros v Hv. inversion Hv.
  - destruct (containsIdent exprStr (vd_Name v0)) as [c|] eqn:Ec; simpl in H; [|discriminate].
    apply IHl in H as [Hsub Hin]. split.
    + destruct c; [|exact Hsub]. etrans; [apply union_subseteq_r|exact Hsub].
    + intros v Hv Hc. apply elem_of_cons in Hv as [->|Hv]; [|exact (Hin v Hv Hc)].
      rewrite Hc in Ec. inversion Ec; subst c.
      apply Hsub, elem_of_union_l, elem_of_singleton. reflexivity.
Qed.

Lemma CheckCC_reads_all_spec schema :
  forall exprs rd rd',
    CheckCC_reads_all schema exprs rd = Ok rd' ->
    rd ⊆ rd' /\
    forall exprStr v, exprStr ∈ exprs -> v ∈ sch_Vars schema ->
      containsIdent exprStr (vd_Name v) = Ok true ->
      VarIndex schema (vd_Name v) ∈ rd'.
Proof.
  induction exprs as [|e0 exprs IHl]; intros rd rd' H; simpl in H.
  - inversion H; subst rd'. split; [reflexivity|]. intros e v He. inversion He.
  - destruct (CheckCC_reads schema e0 (sch_Vars schema) rd) as [rd1|] eqn:E1;
      simpl in H; [|discriminate].
    apply CheckCC_reads_spec in E1 as [Hs1 Hi1].
    apply IHl in H as [Hs2 Hi2]. split; [etrans; [exact Hs1|exact Hs2]|].
    intros e v He Hv Hc. apply elem_of_cons in He as [->|He].
    + apply Hs2. exact (Hi1 v Hv Hc).
    + exact (Hi2 e v He Hv Hc).
Qed.

(** A variable of the tree parsed from [src] that the schema knows is
    found by [containsIdent] under the name of its own position. *)
Lemma parsed_var_found schema src node nm :
  Parse src = Ok node -> nm ∈ node_vars node -> 0 <= VarIndex schema nm ->
  exists v, v ∈ sch_Vars schema /\ vd_Name v = nm /\
            containsIdent src (vd_Name v) = Ok true.
Proof.
  intros Hp Hin Hi.
  destruct (VarIndex_found schema nm Hi) as (v & Hv & Hn).
  exists v. split; [eapply list_elem_of_lookup_2; exact Hv|]. split; [exact Hn|].
  rewrite Hn.
  destruct (Parse_vars_whole_words src node nm Hp Hin) as (p & Hw).
  eapply whole_word_containsIdent; [|exact Hw].
  exact (Parse_vars_nonempty src node nm Hp Hin).
Qed.

Lemma Compile_event_sources reg cr i evt :
  Compile reg = Ok cr -> reg_Events reg !! i = Some evt ->
  exists g m, EvtGuards cr !! i = Some g /\ EvtExprs cr !! i = Some m /\
    (forall node, g = Some node ->
       evt_Guard evt <> "" /\ Parse (evt_Guard evt) = Ok node) /\
    (forall idx node, m !! idx = Some node ->
       exists name src, evt_Assignments evt !! name = Some src /\ Parse src = Ok node).
Proof.
  intros H Hi.
  apply Compile_Ok in H
    as (Hreg & Hs & _ & _ & _ & _ & (evts & Hevt & Hg & He) & _).
  apply mapM_Ok in Hevt as [Hle Hevt].
  destruct (Hevt i evt Hi) as ([g m] & Hy & Hy').
  exists g, m. rewrite Hg, He, !list_lookup_fmap, Hy'. simpl.
  split; [reflexivity|]. split; [reflexivity|].
  unfold Compile_event in Hy.
  destruct (String.eqb (evt_Guard evt) "") eqn:Eg; simpl in Hy.
  - destruct (Compile_assignments (cr_Schema cr) _ _ _ _) as [m0|] eqn:Ea;
      simpl in Hy; [|discriminate].
    inversion Hy; subst. split; [discriminate|].
    intros idx node Hl.
    apply (Compile_assignments_exact _ _ _ _ _ Ea) in Hl as (name & src & Ha & _ & Hp).
    eauto.
  - destruct (Parse (evt_Guard evt)) as [node|e] eqn:Ep; simpl in Hy;
      [|destruct e; discriminate].
    destruct (Compile_assignments (cr_Schema cr) _ _ _ _) as [m0|] eqn:Ea;
      simpl in Hy; [|discriminate].
    inversion Hy; subst. split.
    + intros node' Hn. inversion Hn; subst node'. split; [|reflexivity].
      intros Hemp. rewrite Hemp in Eg. discriminate.
    + intros idx node' Hl.
      apply (Compile_assignments_exact _ _ _ _ _ Ea) in Hl as (name & src & Ha & _ & Hp).
      eauto.
Qed.

Lemma event_reads_agree (reg : Registry) (cr0 cr : CompiledRegistry)
    (ei : nat) (evt : Event) (sets : evtSets) (st st' : State) :
  Compile reg = Ok cr0 -> BuildTables cr0 = Ok cr ->
  reg_Events reg !! ei = Some evt ->
  CheckCC_sets cr ei evt = Ok sets ->
  (forall j, j ∈ reads sets -> elemZ st j = elemZ st' j) ->
  evalGuard cr ei st = evalGuard cr ei st' /\
  (forall m idx node, EvtExprs cr !! ei = Some m -> m !! idx = Some node ->
     Eval (makeEnv cr st) node = Eval (makeEnv cr st') node).
Proof.
  intros Hc Hb Hevt Hsets Hag.
  apply BuildTables_built in Hb as (_ & _ & Hsch & Hlit & _ & _ & Hgs & Hes).
  destruct (Compile_event_sources reg cr0 ei evt Hc Hevt)
    as (g & m & Hg & Hm & Hgsrc & Hmsrc).
  rewrite <- Hgs in Hg. rewrite <- Hes in Hm.
  unfold CheckCC_sets in Hsets. unfold elem in Hsets. rewrite Hm in Hsets. simpl in Hsets.
  destruct (if negb (String.eqb (evt_Guard evt) "") then _ else _) as [rd|] eqn:Erd;
    simpl in Hsets; [|discriminate].
  destruct (CheckCC_reads_all _ _ rd) as [rd'|] eqn:Eall; simpl in Hsets; [|discriminate].
  inversion Hsets; subst sets; clear Hsets. simpl in Hag.
  apply CheckCC_reads_all_spec in Eall as [Hsub Hall].
  split.
  - unfold evalGuard, elem. rewrite Hg. simpl.
    destruct g as [node|]; [|reflexivity].
    destruct (Hgsrc node eq_refl) as [Hne Hp].
    unfold EvalBool, makeEnv. rewrite (Eval_agree _ _ st st' node); [reflexivity|].
    intros nm Hin Hi. apply Hag, Hsub.
    destruct (parsed_var_found (cr_Schema cr) _ _ nm Hp Hin Hi) as (v & Hv & Hn & Hci).
    destruct (String.eqb (evt_Guard evt) "") eqn:Eg.
    { apply String.eqb_eq in Eg. contradiction. }
    simpl in Erd. apply CheckCC_reads_spec in Erd as [_ Hrd].
    rewrite <- Hn. exact (Hrd v Hv Hci).
  - intros m' idx node Hm' Hl. rewrite Hm in Hm'. inversion Hm'; subst m'.
    destruct (Hmsrc idx node Hl) as (name & src & Ha & Hp).
    unfold makeEnv. apply Eval_agree.
    intros nm Hin Hi. apply Hag.
    destruct (parsed_var_found (cr_Schema cr) _ _ nm Hp Hin Hi) as (v & Hv & Hn & Hci).
    rewrite <- Hn. apply (Hall src v); [|exact Hv|exact Hci].
    apply list_elem_of_fmap. exists (name, src). split; [reflexivity|].
    apply elem_of_map_to_list. exact Ha.
Qed.

(** X28. The read set [CheckCC] computes for an event is sound.  For a
    compiled registry with its tables built, in two states that agree on
    every variable of the read set of an event, the guard of the event
    gives the same answer and every right-hand side of its assignments
    evaluates to the same value or error. *)
Theorem event_reads_sound (reg : Registry) (cr0 cr : CompiledRegistry)
    (ei : nat) (evt : Event) (sets : evtSets) (st st' : State) :
  Compile reg = Ok cr0 -> BuildTables cr0 = Ok cr ->
  reg_Events reg !! ei = Some evt ->
  CheckCC_sets cr ei evt = Ok sets ->
  (forall j, j ∈ reads sets -> elemZ st j = elemZ st' j) ->
  evalGuard cr ei st = evalGuard cr ei st' /\
  (forall m idx node, EvtExprs cr !! ei = Some m -> m !! idx = Some node ->
     Eval (makeEnv cr st) node = Eval (makeEnv cr st') node).
Proof. apply event_reads_agree. Qed.

(** The event [inc_n] of the two counters reads [n] only: its guard and
    its right-hand side do not see a change of [m]. *)
Lemma event_reads_sound_witness :
  evalGuard (built two_counters) 0 [1; 0] = evalGuard (built two_counters) 0 [1; 2] /\
  (forall m idx node,
     EvtExprs (built two_counters) !! 0%nat = Some m -> m !! idx = Some node ->
     Eval (makeEnv (built two_counters) [1; 0]) node =
     Eval (makeEnv (built two_counters) [1; 2]) node).
Proof.
  apply (event_reads_sound two_counters (compiled two_counters) (built two_counters) 0
           (mkEvent "inc_n" "n < 3" {[ "n" := "n + 1" ]})
           (event_sets (built two_counters) 0
              (mkEvent "inc_n" "n < 3" {[ "n" := "n + 1" ]}))).
  - vm_compute. reflexivity.
  - vm_compute. reflexivity.
  - reflexivity.
  - vm_compute. reflexivity.
  - intros j Hj.
    assert (Hr : reads (event_sets (built two_counters) 0
                          (mkEvent "inc_n" "n < 3" {[ "n" := "n + 1" ]})) = {[ 0 ]})
      by (vm_compute; reflexivity).
    rewrite Hr in Hj. apply elem_of_singleton in Hj. subst j. reflexivity.
Defined.
(** *** Independent events *)

Lemma assigned_value_state st st' vd val x :
  assigned_value st vd val = Ok x -> assigned_value st' vd val = Ok x.
Proof.
  unfold assigned_value. destruct (vd_Type vd).
  - auto.
  - auto.
  - destruct (negb (IsInt val)); [auto|].
    destruct ((Int val <? vd_Min vd) || (Int val >? vd_Max vd)); [discriminate|auto].
Qed.

Lemma applyAssignments_loop_transfer cr env env' st st' :
  forall l post0 post0' post,
    (forall i e, (i, e) ∈ l -> Eval env e = Eval env' e) ->
    length post0 = length post0' ->
    applyAssignments_loop cr env st l post0 = Ok post ->
    exists post', applyAssignments_loop cr env' st' l post0' = Ok post'.
Proof.
  induction l as [|[i e] l IH]; intros post0 post0' post Hev Hlen H; simpl in *.
  - eauto.
  - rewrite <- (Hev i e) by left.
    destruct (Eval env e) as [val|]; simpl in *; [|discriminate].
    destruct (elemZ (sch_Vars (cr_Schema cr)) i) as [vd|]; simpl in *; [|discriminate].
    destruct (assigned_value st vd val) as [x|] eqn:Ex; simpl in H; [|discriminate].
    rewrite (assigned_value_state st st' vd val x Ex). simpl.
    destruct (storeZ post0 i x) as [post1|] eqn:Est; simpl in H; [|discriminate].
    apply storeZ_Ok in Est as [Hr ->].
    assert (Est' : storeZ post0' i x = Ok (<[Z.to_nat i := x]> post0')).
    { apply storeZ_Ok. split; [lia|reflexivity]. }
    rewrite Est'. simpl. eapply IH; [| |exact H].
    + intros j e' Hj. apply (Hev j). right. exact Hj.
    + rewrite !length_insert. exact Hlen.
Qed.

Lemma applyAssignments_char cr (assignments : gmap Z Node) st post :
  applyAssignments cr assignments st = Ok post ->
  length post = length st /\
  (forall i e, assignments !! i = Some e ->
     exists x, assigns cr st i e x /\ elemZ post i = Ok x) /\
  (forall i, assignments !! i = None -> elemZ post i = elemZ st i).
Proof.
  unfold applyAssignments. intros H.
  apply (applyAssignments_loop_spec cr st (map_to_list assignments)
           (NoDup_fst_map_to_list assignments) st post eq_refl) in H
    as (Hl & Hin & Hout).
  split; [exact Hl|]. split.
  - intros i e Hi. apply Hin. apply elem_of_map_to_list. exact Hi.
  - intros i Hi. apply Hout. intros Hmem.
    apply list_elem_of_fmap in Hmem as ([j e] & -> & Hje).
    apply elem_of_map_to_list in Hje. simpl in Hi. congruence.
Qed.

Lemma assigns_agree cr st st' i e x x' :
  Eval (makeEnv cr st) e = Eval (makeEnv cr st') e ->
  assigns cr st i e x -> assigns cr st' i e x' -> x = x'.
Proof.
  intros He (val & vd & Hv & Hvd & _ & ->) (val' & vd' & Hv' & Hvd' & _ & ->).
  congruence.
Qed.

Lemma CheckCC_sets_writes cr ei evt sets m :
  CheckCC_sets cr ei evt = Ok sets -> EvtExprs cr !! ei = Some m ->
  writes sets = dom m.
Proof.
  unfold CheckCC_sets, elem. intros H Hm. rewrite Hm in H. simpl in H.
  destruct (if negb (String.eqb (evt_Guard evt) "") then _ else _) as [rd|];
    simpl in H; [|discriminate].
  destruct (CheckCC_reads_all _ _ rd) as [rd'|]; simpl in H; [|discriminate].
  inversion H. reflexivity.
Qed.

(** One half of the diamond: after an event [e1] that writes nothing [e2]
    reads, [e2] sees the same guard and computes the same values. *)
Lemma independent_half reg cr0 cr e1 e2 evt2 (s1 s2 : evtSets) m1 m2 st st1 st2 :
  Compile reg = Ok cr0 -> BuildTables cr0 = Ok cr ->
  reg_Events reg !! e2 = Some evt2 ->
  CheckCC_sets cr e2 evt2 = Ok s2 ->
  EvtExprs cr !! e1 = Some m1 -> EvtExprs cr !! e2 = Some m2 ->
  writes s1 = dom m1 ->
  (forall w, w ∈ writes s1 -> w ∉ reads s2) ->
  applyAssignments cr m1 st = Ok st1 ->
  applyAssignments cr m2 st = Ok st2 ->
  evalGuard cr e2 st1 = evalGuard cr e2 st /\
  exists st12,
    applyAssignments cr m2 st1 = Ok st12 /\
    forall i e, m2 !! i = Some e -> elemZ st12 i = elemZ st2 i.
Proof.
  intros Hc Hb Hevt Hs2 Hm1 Hm2 Hw Hind H1 H2.
  pose proof (applyAssignments_char _ _ _ _ H1) as (Hl1 & Hin1 & Hout1).
  pose proof (applyAssignments_char _ _ _ _ H2) as (Hl2 & Hin2 & Hout2).
  assert (Hag : forall j, j ∈ reads s2 -> elemZ st1 j = elemZ st j).
  { intros j Hj. apply Hout1. apply not_elem_of_dom. rewrite <- Hw.
    intros Hjw. exact (Hind j Hjw Hj). }
  destruct (event_reads_agree reg cr0 cr e2 evt2 s2 st1 st Hc Hb Hevt Hs2 Hag)
    as [Hg Hrhs].
  split; [exact Hg|].
  unfold applyAssignments in H2.
  destruct (applyAssignments_loop_transfer cr (makeEnv cr st) (makeEnv cr st1) st st1
              (map_to_list m2) st st1 st2) as (st12 & H12); [|lia|exact H2|].
  { intros i e Hie. apply elem_of_map_to_list in Hie. symmetry.
    exact (Hrhs m2 i e Hm2 Hie). }
  exists st12. split; [exact H12|].
  intros i e Hie.
  pose proof (applyAssignments_char _ _ _ _ H12) as (_ & Hin12 & _).
  destruct (Hin12 i e Hie) as (x & Hx & Hex).
  destruct (Hin2 i e Hie) as (x' & Hx' & Hex').
  rewrite Hex, Hex'. f_equal.
  exact (assigns_agree cr st1 st i e x x' (Hrhs m2 i e Hm2 Hie) Hx Hx').
Qed.

Lemma independent_commute reg cr0 cr sets e1 e2 st st1 st2 :
  Compile reg = Ok cr0 -> BuildTables cr0 = Ok cr ->
  mapM_from (CheckCC_sets cr) 0 (reg_Events (Reg cr)) = Ok sets ->
  isIndependent sets e1 e2 = Ok true ->
  applyEvent cr e1 st = Ok st1 -> applyEvent cr e2 st = Ok st2 ->
  evalGuard cr e2 st1 = evalGuard cr e2 st /\
  evalGuard cr e1 st2 = evalGuard cr e1 st /\
  exists st12, applyEvent cr e2 st1 = Ok st12 /\ applyEvent cr e1 st2 = Ok st12.
Proof.
  intros Hc Hb Hsets Hind H1 H2.
  pose proof (BuildTables_built _ _ Hb) as (_ & Hreg & _).
  pose proof (Compile_Ok _ _ Hc) as (Hreg0 & _).
  rewrite Hreg, Hreg0 in Hsets.
  apply mapM_from_Ok in Hsets as [Hlen Hsets].
  unfold isIndependent, elem in Hind.
  destruct (sets !! e1) as [a|] eqn:Ea; simpl in Hind; [|discriminate].
  destruct (sets !! e2) as [b|] eqn:Eb; simpl in Hind; [|discriminate].
  destruct (isIndependent_spec sets e1 e2 a b Ea Eb) as (r & Hr & Hiff).
  unfold isIndependent, elem in Hr. rewrite Ea, Eb in Hr. simpl in Hr.
  rewrite Hind in Hr. inversion Hr; subst r. clear Hr.
  destruct (proj1 Hiff eq_refl) as [Hab Hba].
  destruct (lookup_lt_is_Some_2 (reg_Events reg) e1) as [evt1 Hevt1].
  { rewrite <- Hlen. eapply lookup_lt_Some; eauto. }
  destruct (lookup_lt_is_Some_2 (reg_Events reg) e2) as [evt2 Hevt2].
  { rewrite <- Hlen. eapply lookup_lt_Some; eauto. }
  destruct (Hsets e1 evt1 Hevt1) as (a' & Hsa & Ha'). simpl in Hsa.
  destruct (Hsets e2 evt2 Hevt2) as (b' & Hsb & Hb'). simpl in Hsb.
  assert (a' = a) by congruence. subst a'.
  assert (b' = b) by congruence. subst b'.
  unfold applyEvent, elem in *.
  destruct (EvtExprs cr !! e1) as [m1|] eqn:Em1; simpl in *; [|discriminate].
  destruct (EvtExprs cr !! e2) as [m2|] eqn:Em2; simpl in *; [|discriminate].
  pose proof (CheckCC_sets_writes cr e1 evt1 a m1 Hsa Em1) as Hwa.
  pose proof (CheckCC_sets_writes cr e2 evt2 b m2 Hsb Em2) as Hwb.
  destruct (independent_half reg cr0 cr e1 e2 evt2 a b m1 m2 st st1 st2)
    as (Hg2 & st12 & H12 & Hv12); auto.
  { intros w Hw. exact (proj2 (Hab w Hw)). }
  destruct (independent_half reg cr0 cr e2 e1 evt1 b a m2 m1 st st2 st1)
    as (Hg1 & st21 & H21 & Hv21); auto.
  { intros w Hw. exact (proj2 (Hba w Hw)). }
  split; [exact Hg2|]. split; [exact Hg1|].
  exists st12. split; [exact H12|]. rewrite H21. f_equal.
  pose proof (applyAssignments_char _ _ _ _ H1) as (Hl1 & _ & Hout1).
  pose proof (applyAssignments_char _ _ _ _ H2) as (Hl2 & _ & Hout2).
  pose proof (applyAssignments_char _ _ _ _ H12) as (Hl12 & _ & Hout12).
  pose proof (applyAssignments_char _ _ _ _ H21) as (Hl21 & _ & Hout21).
  apply elemZ_ext; [lia|]. intros i.
  destruct (m1 !! i) as [e|] eqn:E1, (m2 !! i) as [e'|] eqn:E2.
  - exfalso. apply (proj1 (Hab i ltac:(rewrite Hwa; apply elem_of_dom; eauto))).
    rewrite Hwb. apply elem_of_dom. eauto.
  - rewrite (Hv21 i e E1), (Hout12 i E2). reflexivity.
  - rewrite (Hv12 i e' E2), (Hout21 i E1). reflexivity.
  - rewrite (Hout21 i E1), (Hout2 i E2), (Hout12 i E2), (Hout1 i E1). reflexivity.
Qed.

(** X29. Events that [CheckCC] takes for independent commute.  On a
    compiled registry with its tables built, when the independence test
    accepts the pair (e1, e2) and both events apply to a state, each event
    applies to the result of the other, the two orders end in the same
    state, and firing one event does not change what the guard of the
    other answers. *)
Theorem independent_events_commute (reg : Registry) (cr0 cr : CompiledRegistry)
    (sets : list evtSets) (e1 e2 : nat) (st st1 st2 : State) :
  Compile reg = Ok cr0 -> BuildTables cr0 = Ok cr ->
  mapM_from (CheckCC_sets cr) 0 (reg_Events (Reg cr)) = Ok sets ->
  isIndependent sets e1 e2 = Ok true ->
  applyEvent cr e1 st = Ok st1 -> applyEvent cr e2 st = Ok st2 ->
  evalGuard cr e2 st1 = evalGuard cr e2 st /\
  evalGuard cr e1 st2 = evalGuard cr e1 st /\
  exists st12, applyEvent cr e2 st1 = Ok st12 /\ applyEvent cr e1 st2 = Ok st12.
Proof. apply independent_commute. Qed.

(** The two counters: from (1, 2), [inc_n] then [inc_m] and [inc_m] then
    [inc_n] both end in (2, 3). *)
Lemma independent_events_commute_witness :
  evalGuard (built two_counters) 1 [2; 2] = evalGuard (built two_counters) 1 [1; 2] /\
  evalGuard (built two_counters) 0 [1; 3] = evalGuard (built two_counters) 0 [1; 2] /\
  exists st12,
    applyEvent (built two_counters) 1 [2; 2] = Ok st12 /\
    applyEvent (built two_counters) 0 [1; 3] = Ok st12.
Proof.
  apply (independent_events_commute two_counters (compiled two_counters)
           (built two_counters)
           [event_sets (built two_counters) 0 (mkEvent "inc_n" "n < 3" {[ "n" := "n + 1" ]});
            event_sets (built two_counters) 1 (mkEvent "inc_m" "m < 3" {[ "m" := "m + 1" ]})]
           0 1 [1; 2]).
  - vm_compute. reflexivity.
  - vm_compute. reflexivity.
  - vm_compute. reflexivity.
  - vm_compute. reflexivity.
  - vm_compute. reflexivity.
  - vm_compute. reflexivity.
Defined.
(** *** Registries whose states are all valid *)

Lemma compiled_ok_built cr0 cr :
  BuildTables cr0 = Ok cr -> compiled_ok cr0 -> compiled_ok cr.
Proof.
  intros Hb H. apply BuildTables_built in Hb as (_ & Hr & Hs & _ & Hi & Hrp & Hg & He).
  unfold compiled_ok. rewrite Hr, Hs, Hi, Hrp, Hg, He. exact H.
Qed.

Lemma codec_round_trip vars v :
  Forall VarDef_ok vars -> state_count vars <= MaxInt -> valid_vector vars v ->
  exists id, Encode (NewSchema vars) v = Ok id /\ Decode (NewSchema vars) id = Ok v.
Proof.
  intros Hok Hmax Hvec.
  destruct (NewSchema_fields vars) as (Hv & Hs & Ht).
  pose proof (NewSchema_loop_exact vars Hok Hmax) as Hex.
  rewrite Hex in Hs, Ht. simpl in Hs, Ht.
  destruct (Decode_Encode_loop (NewSchema vars) vars v Hvec Hok 0 0)
    as (r & Hr & He & Hd); auto; try lia.
  exists r. rewrite Z.add_0_l in He. unfold Encode, Decode. rewrite Hv. auto.
Qed.

Section AllValid.
Variable reg : Registry.
Variable cr0 cr : CompiledRegistry.
Hypothesis Hok : Registry_ok reg.
Hypothesis Hc : Compile reg = Ok cr0.
Hypothesis Hbt : BuildTables cr0 = Ok cr.
Hypothesis Hvalid : Forall (fun b => b = true) (Valid cr).

Lemma AllValid_built : tables_built cr.
  Proof. apply (BuildTables_built cr0 cr Hbt). Qed.

Lemma AllValid_schema : cr_Schema cr = NewSchema (reg_Vars reg).
  Proof.
    pose proof (BuildTables_built _ _ Hbt) as (_ & _ & Hs & _).
    pose proof (Compile_Ok _ _ Hc) as (_ & Hs0 & _). congruence.
  Qed.

Lemma AllValid_compiled : compiled_ok cr.
  Proof. exact (compiled_ok_built cr0 cr Hbt (Compile_compiled_ok reg cr0 Hc)). Qed.

Lemma AllValid_NF s :
    0 <= s < sch_TotalLen (cr_Schema cr) -> elemZ (NF cr) s = Ok s.
  Proof.
    intros Hs. pose proof AllValid_built as (_ & _ & _ & _ & Hv & Hn & _).
    destruct (Hv s Hs) as (st & b & _ & _ & Hb).
    assert (b = true) as ->.
    { apply elemZ_Ok in Hb as [_ Hb]. rewrite Forall_forall in Hvalid.
      apply Hvalid. eapply list_elem_of_lookup_2; eauto. }
    destruct (Hn s Hs) as (nf & Hnf & Hnf').
    rewrite (computeNF_valid_fixed cr s Hb) in Hnf. congruence.
  Qed.

  (** An entry of the step table other than -1 is the encoding of the
      state the event produces: no repair fires. *)
Lemma AllValid_step e evt row s x :
    reg_Events (Reg cr) !! e = Some evt -> Step cr !! e = Some row ->
    0 <= s < sch_TotalLen (cr_Schema cr) ->
    elemZ row s = Ok x -> x <> -1 ->
    exists st post,
      Decode (cr_Schema cr) s = Ok st /\ applyEvent cr e st = Ok post /\
      Encode (cr_Schema cr) post = Ok x /\ Decode (cr_Schema cr) x = Ok post.
  Proof.
    intros He Hrow Hs Hx Hne.
    destruct Hok as (Hvars & _ & Hmax).
    pose proof AllValid_built as Hb.
    pose proof Hb as (_ & _ & _ & _ & _ & _ & Hst).
    destruct (Hst e evt He) as (row' & Hrow' & _ & Hcells).
    assert (row' = row) by congruence. subst row'.
    destruct (Hcells s Hs) as (x' & Hcell & Hx').
    assert (x' = x) by congruence. subst x'.
    apply Step_cell_Ok in Hcell as (st & enabled & Hd & Hg & Hen).
    destruct enabled; [|contradiction].
    destruct Hen as (post & postID & Ha & Henc & Hnf).
    destruct (NF_entry cr postID x Hb Hnf) as (Hr & _).
    rewrite (AllValid_NF postID Hr) in Hnf. inversion Hnf; subst postID.
    exists st, post. split; [exact Hd|]. split; [exact Ha|]. split; [exact Henc|].
    destruct (Safe_Decode cr (reg_Vars reg) AllValid_schema Hvars Hmax s Hs)
      as (st' & Hd' & Hvst).
    assert (st' = st) by congruence. subst st'.
    assert (Hvpost : valid_vector (reg_Vars reg) post).
    { eapply (applyEvent_ok cr (reg_Vars reg) AllValid_schema Hvars
                AllValid_compiled e st); [|exact Hvst|exact Ha].
      destruct AllValid_compiled as (_ & _ & _ & Hl & _). rewrite Hl.
      eapply lookup_lt_Some; eauto. }
    destruct (codec_round_trip (reg_Vars reg) post Hvars Hmax Hvpost)
      as (id & Hid & Hdec).
    rewrite AllValid_schema in *. congruence.
  Qed.

Lemma AllValid_cc1 sets e1 e2 :
    mapM_from (CheckCC_sets cr) 0 (reg_Events (Reg cr)) = Ok sets ->
    isIndependent sets e1 e2 = Ok true ->
    forall s, 0 <= s < sch_TotalLen (cr_Schema cr) -> cc1_at cr e1 e2 s.
  Proof.
    intros Hsets Hind s Hs.
    pose proof AllValid_built as Hb.
    pose proof (proj1 (mapM_from_Ok _ _ _ _) Hsets) as [Hlen _].
    assert (H12 : (e1 < length sets)%nat /\ (e2 < length sets)%nat).
    { unfold isIndependent, elem in Hind.
      destruct (sets !! e1) eqn:E1; simpl in Hind; [|discriminate].
      destruct (sets !! e2) eqn:E2; simpl in Hind; [|discriminate].
      split; eapply lookup_lt_Some; eauto. }
    destruct H12 as [Hl1 Hl2].
    destruct (lookup_lt_is_Some_2 (reg_Events (Reg cr)) e1 ltac:(lia)) as [evt1 Hevt1].
    destruct (lookup_lt_is_Some_2 (reg_Events (Reg cr)) e2 ltac:(lia)) as [evt2 Hevt2].
    destruct (Step_cell_range cr e1 evt1 Hb Hevt1) as (row1 & Hrow1 & Hc1).
    destruct (Step_cell_range cr e2 evt2 Hb Hevt2) as (row2 & Hrow2 & Hc2).
    destruct (Hc1 s Hs) as (s1 & Hs1 & Hr1).
    destruct (Hc2 s Hs) as (s2 & Hs2 & Hr2).
    exists row1, row2, s1, s2.
    split; [exact Hrow1|]. split; [exact Hrow2|]. split; [exact Hs1|]. split; [exact Hs2|].
    destruct (decide (s1 = -1)) as [?|Hn1]; [auto|].
    destruct (decide (s2 = -1)) as [?|Hn2]; [auto|].
    right. right.
    destruct (Hc2 s1 ltac:(lia)) as (r12 & Hr12 & Hx12).
    destruct (Hc1 s2 ltac:(lia)) as (r21 & Hr21 & Hx21).
    exists r12, r21. split; [exact Hr12|]. split; [exact Hr21|].
    destruct (decide (r12 = -1)) as [?|Hn12]; [auto|].
    destruct (decide (r21 = -1)) as [?|Hn21]; [auto|].
    right. right.
    destruct (AllValid_step e1 evt1 row1 s s1 Hevt1 Hrow1 Hs Hs1 Hn1)
      as (st & post1 & Hd & Ha1 & _ & Hd1).
    destruct (AllValid_step e2 evt2 row2 s s2 Hevt2 Hrow2 Hs Hs2 Hn2)
      as (st' & post2 & Hd' & Ha2 & _ & Hd2).
    assert (st' = st) by congruence. subst st'.
    destruct (AllValid_step e2 evt2 row2 s1 r12 Hevt2 Hrow2 ltac:(lia) Hr12 Hn12)
      as (q1 & p12 & Hq1 & Ha12 & He12 & _).
    destruct (AllValid_step e1 evt1 row1 s2 r21 Hevt1 Hrow1 ltac:(lia) Hr21 Hn21)
      as (q2 & p21 & Hq2 & Ha21 & He21 & _).
    assert (q1 = post1) by congruence. subst q1.
    assert (q2 = post2) by congruence. subst q2.
    destruct (independent_commute reg cr0 cr sets e1 e2 st post1 post2
                Hc Hbt Hsets Hind Ha1 Ha2) as (_ & _ & st12 & H1 & H2).
    congruence.
  Qed.

Lemma AllValid_cc2 e s :
    (e < length (reg_Events (Reg cr)))%nat ->
    0 <= s < sch_TotalLen (cr_Schema cr) -> cc2_at cr e s.
  Proof.
    intros He Hs.
    destruct (lookup_lt_is_Some_2 (reg_Events (Reg cr)) e He) as [evt Hevt].
    destruct (Step_cell_range cr e evt AllValid_built Hevt) as (row & Hrow & Hcells).
    destruct (Hcells s Hs) as (x & Hx & _).
    exists row, x. split; [exact Hrow|]. split; [exact Hx|]. right.
    exists s, x. split; [exact (AllValid_NF s Hs)|]. split; [exact Hx|]. right. reflexivity.
  Qed.

Lemma AllValid_CheckCC :
    exists result,
      CheckCC cr = Ok result /\
      CC1Pass result = true /\ CC2Pass result = true /\ CCPass result = true.
  Proof.
    pose proof AllValid_built as Hb.
    destruct Hok as (_ & Hnames & _).
    destruct (CheckCC_sets_total reg cr0 cr Hc Hbt Hnames) as (sets & Hm).
    pose proof (proj1 (mapM_from_Ok _ _ _ _) Hm) as [Hlen _].
    unfold CheckCC. rewrite Hm. simpl. rewrite <- Hlen.
    set (result0 := {| CCPass := false; CC1Pass := true; CC2Pass := false;
                       PairsChecked := 0; DependentSkipped := 0;
                       CC1Fail := None; CC2Fail := None |}).
    destruct (CC1_outer_spec cr sets Hb Hlen (length sets) 0 result0 0 0
                ltac:(lia) eq_refl eq_refl) as (r1 & Hr1 & Hiff & _).
    rewrite Hr1. simpl.
    destruct (CC2_events_None cr Hb (length sets) 0 ltac:(lia)) as (o & Ho & Hoiff).
    rewrite Ho. simpl.
    assert (H1 : CC1Pass r1 = true).
    { apply Hiff. split; [reflexivity|]. intros a b Hab Hlt Hi s Hs.
      apply (AllValid_cc1 sets a b Hm); [|exact Hs].
      unfold independentb in Hi. simpl in Hi.
      destruct (isIndependent sets a b) as [r|]; [congruence|discriminate]. }
    assert (H2 : o = None).
    { apply Hoiff. intros j s Hj Hs. apply AllValid_cc2; [lia|exact Hs]. }
    subst o. eexists. split; [reflexivity|]. simpl. rewrite H1.
    repeat split; reflexivity.
  Qed.
End AllValid.

(** X30. Consistency can fail only where a repair fires.  For a
    well-formed registry in which every state of the space is valid (it
    has no invariants, or its invariants hold everywhere), [CheckCC]
    passes: every pair of events it takes for independent commutes on the
    step table, so CC1 holds, and CC2 holds because every state is its own
    normal form. *)
Theorem all_valid_CC_pass (reg : Registry) (cr0 cr : CompiledRegistry) :
  Registry_ok reg ->
  Compile reg = Ok cr0 -> BuildTables cr0 = Ok cr ->
  Forall (fun b => b = true) (Valid cr) ->
  exists result,
    CheckCC cr = Ok result /\
    CC1Pass result = true /\ CC2Pass result = true /\ CCPass result = true.
Proof. apply AllValid_CheckCC. Qed.

(** The two counters have no invariants: all 16 states are valid. *)
Lemma all_valid_CC_pass_witness :
  exists result,
    CheckCC (built two_counters) = Ok result /\
    CC1Pass result = true /\ CC2Pass result = true /\ CCPass result = true.
Proof.
  apply (all_valid_CC_pass two_counters (compiled two_counters) (built two_counters)).
  - split; [|split].
    + repeat constructor; vm_compute; congruence.
    + repeat constructor; discriminate.
    + vm_compute. congruence.
  - vm_compute. reflexivity.
  - vm_compute. reflexivity.
  - vm_compute. repeat constructor.
Defined.
